(* ===== verification/_CoqProject ===== *)
-Q . S2P
Prelude.v
BinarySearch.v
Store.v
Format.v
Addr.v
Transport.v
Typing.v
Scroll.v
Gui.v
Registry.v
Pending.v
App.v
Timeline.v
Threads.v
Window.v
