(* ===== verification/Prelude.v ===== *)
(** * Verification of the Synac GTK+ client

    The program is a chat client.  Its sources are three files:

    - [src/messages.rs]: the message store [Messages] (one vector of
      messages per channel, ordered by timestamp) and the free functions
      [format_timestamp] and [markdown];
    - [src/connections.rs]: the session handle [Synac], the dial of one
      server [Connection] (pending on a thread, or resolved), the registry
      [Connections] with its operations, and [parse_addr];
    - [src/main.rs]: [main], which opens the database, builds the window
      and connects closures to the signals of its widgets and to the idle
      source of the toolkit.

    The closures of [main] act on the registry; the registry dials
    servers with [parse_addr] and sessions of the [synac] crate, reads
    packets into the message store and the typing tracker of each
    session, and hands the closures what it read.  The [synac] and
    [failure] crates, [typing.rs] and [functions.rs] are not among the
    sources: the first three are modelled at their boundary, the last is
    represented by the calls the closures make into it.

    ** The files

    - [Prelude] (this file): [Result] with [let?] for the [?] operator;
      [Run], how a call ends (it returns, blocks for ever, or panics),
      with its monad; [Vec::insert], [Vec::remove] and
      [Iterator::position]; vectors sorted by a key; [HashOrder], the
      iteration order of a [HashMap] as an interface; the lemmas and
      hints the components share.
    - [BinarySearch]: [SliceSearch], the documented contract of
      [slice::binary_search_by_key], and [std_search], the loop of the
      standard library as an instance of it.
    - [Store] (messages.rs, [impl Messages]): [Messages.add] with its
      backward loop [scan_back] and forward loop [scan_forward],
      [Messages.remove], [get], [has]; Module [Message] for the message of
      the protocol.
    - [Format] (messages.rs, [format_timestamp]): [day_text], [hour12],
      [pad2] on the fields of a local time; [format_timestamp_at] on the
      seconds of the message, with [naive] and [civil_from_days] for the
      conversion of [chrono] and the interface [Chrono] for the dates it
      can hold and the time zone of the machine.
    - [Addr] (connections.rs, [parse_addr]): [rsplitn2], [u16_from_str]
      with the checked digit loop, [to_string]; the interfaces [StdNet]
      (name resolution) and [Common] (the constants of [synac::common]).
    - [Transport]: packets and errors; [Session], a script of what the
      peer delivers; [Listener.try_read]; [State.update]; the interface
      [Network] for [Session::new].
    - [Typing]: the typing tracker, from its description.
    - [Scroll] (main.rs, the closure on the adjustment of the scrolled
      window): [messages_scroll_changed] on an [Adjustment] of binary64
      numbers.
    - [Gui]: the toolkit as far as [main] builds the window with it: a
      store of widgets with their properties, children and connected
      closures, the state monad [Build] of the calls, [add] with the
      checks of the toolkit, and the walk of [show_all].
    - [Registry] (connections.rs): Module [Db] for the statements the
      client issues on its two tables; [Synac]; [Connection.join];
      [Connections.connect] with [token_login] and [password_login];
      [new], [insert], [remove], [set_current], [execute], [foreach],
      [try_read] with its body [poll] and [dispatch].
    - [Pending] (connections.rs, [Connection::join]): the equivalence
      of registries that differ only in the dials that have been joined
      already, [run_rel] for outcomes up to a relation, and [join_all],
      the registry with every dial joined.
    - [App] (main.rs): [main_start] and [start]; one definition per
      closure ([user_stack_edit_activate], [input_activate],
      [input_text_notify], [messages_scroll_edge_reached],
      [message_edit_input_activate], [edit_server_ok_clicked],
      [edit_channel_ok_clicked], the buttons of the forms);
      [input_set_text], the change of the message entry by a closure with
      the signal it sets off; [idle], the
      closure of [gtk::idle_add]; [load_css], the choice of the style;
      [Event], [handle] and [run] for the closures the loop runs,
      [gtk_main] for the loop up to the delete event of the window, and
      [main], which puts the start, the style and the loop together;
      [moves], what a closure does to the registry, and [acts], the
      same with the callbacks main.rs passes ([writes_only], the poll
      with [note]).
    - [Timeline] (messages.rs, connections.rs, main.rs): the
      specification of the store as a map from message ids ([Index],
      [represents]), what a packet does to it ([apply]), what a stream
      does to it in [n] looks ([heard]), and the polls of a session with
      the operations between them ([looked], [quiet], [polls]).
    - [Threads] (connections.rs, the locks of [Connections] and the
      threads of [new]): Module [Pool] for the registry called from
      several threads, with [Request] for a call, [thread_step] and the
      rules [steps_to] for the step of a thread that takes the mutex,
      leaves it, gives way or panics, and [run_schedule] for an
      interleaving; [reads_agree] for the dial threads and the nickname.
    - [Window] (main.rs): [build], the calls of [main] on the toolkit
      from the window to the idle source, one definition for each part
      of the window; [Closure.t] and [run_closure] for the closures it
      connects, [closures_of] for the closures an event runs, [loop]
      for the main loop over the store, and [program] for [main] with
      the window it builds.

    ** How state and effects are modelled

    A struct is a record and an operation a function from the old state
    to the new.  Code that can fail returns [Result]; code that can panic
    on an index returns [option]; an operation that can wait or panic
    returns [Run].  The mutex of the map of the registry is the flag
    [Connections.held]: an operation that locks while the flag is set is
    [Blocks], [try_read], which uses [try_lock], gives way.  That is the
    view of one thread, the one on which every closure runs.  In
    [Threads] the methods run on several threads: a call on the map is
    the step that sets the flag and the step that runs the method of
    [Registry] and clears it, a schedule says which thread steps next,
    and a panic between the two steps poisons the mutex.  The thread
    of a dial is its outcome, fixed when it is spawned
    ([JoinHandle]): a result, [Blocks] for a dial that never ends,
    [Panics].  The thread reads the nickname of the registry while it
    dials and the model when it spawns the thread; the two agree, since
    the one write of the nickname comes after every dial was joined
    ([dials_read_nick]).  A session is a script
    ([Incoming]): packets, moments of
    silence, and a failure that stays; a read that waits on an exhausted
    script is [Blocks].  A callback is a function from the session handle
    and what the closure captured to the new handle and the new captured
    value.  The clock is explicit, in nanoseconds.  The widgets are the
    texts and pages the closures read back, the sensitivity of the two
    entries that send, and the entry that was last handed the focus; a
    call into functions.rs is an entry of [App.calls].  A signal the
    toolkit emits while a closure runs is part of that closure: the one
    case is [set_text] on the message entry at the end of
    [input_activate], which runs [input_text_notify] before it returns.

    ** What is proved

    - Store: [Messages.add] refines the specification [add_spec] on every
      sorted timeline and for every search that honours [SliceSearch];
      it never panics and its loops end; [add] and [remove] keep every
      timeline sorted and every message under its channel, so every store
      reached from [new] is well formed; idempotent upsert; the order of
      arrival among equal timestamps; what [remove] deletes and reports.
    - Timeline: the store implements a map from the id of a message to
      the message: [add] is the insert of the map, for a message that
      keeps the channel and the timestamp of the one it replaces
      ([represents_add]), [remove] its delete ([represents_remove]), and
      [get] lists the messages of a channel once each and sorted
      ([represents_get]); the refinement goes through [dispatch], a look
      at a stream and any number of polls, failed ones included
      ([polls_reconcile]), and through every sequence of events the
      closures handle: only a poll changes a store, and it changes it as
      the packets it read say ([run_reconciles]).
    - Addr: the three cases of [parse_addr] (default port, explicit
      port, refused port), the bound of the port, the round trip of
      [to_string] for version 4 addresses and what becomes of version 6
      ones; [u16_from_str] against unbounded reading.
    - Registry: every outcome of [connect] (token, fallback to the
      password with the token written once, no credential, refused
      password), when it returns and when it waits for ever; what a poll
      does to every connection, where it stops on an error and that it
      waits for pending dials; [dispatch] and [poll] by cases, and what a
      typing notification does to the tracker, expiry included
      ([dispatch_typing]); [new]; that
      the registry implements a map from address to handle, with
      [insert], [remove], [execute], [foreach] and a poll as the
      operations of the map ([registry_refines]); the invariant
      [registry_ok] of every registry reached from [new]; that no
      operation leaves a dial behind that hangs ([settled]).
    - Pending: a pending dial and its outcome are the same connection
      to every operation of the registry: each operation is [Proper] for
      the equivalence, [step] is a bisimulation ([step_equiv]), and the
      handles, the invariant and [settled] do not depend on which dials
      have been joined.  For [foreach] and [try_read] this needs an
      order of the HashMap that is a function of the keys ([KeyOrder]),
      as the two orders of the examples are.
    - Threads: for every interleaving of threads that call the
      registry, at most one thread is inside the map and the registry
      ends as if the calls had run one after the other in the order in
      which they left the map ([pool_serial]); no interleaving
      deadlocks, a poll never waits for the mutex, and some schedule
      runs every program to its end, unless a dial hangs
      ([pool_completes]); after a panic inside the map no call reaches
      the map again ([poisoned_for_good]); every pending dial of every
      state the window reaches is the dial made with the nickname of
      that moment ([dials_read_nick]).
    - App: the invariant [app_ok] of every window reached from [start],
      whatever functions.rs does through the operations of the registry;
      that no closure waits for ever when the closures run one at a time
      ([run_never_blocks]); that texts typed and sent one after the other
      reach the selected server in their order, with nothing but typing
      notifications in between ([typed_messages_sent]); that a message
      sent while the throttle is open is followed by a typing
      notification ([input_activate_typing]); when [input_activate] asks
      for a reconnect and when the text is lost; that the closures leave
      the entries sensitive ([run_sensitive]); the throttle of the typing
      notification; the
      broadcast of a new nickname; what one round of [idle] draws, that
      it never empties the label of the typists, when it returns and when
      it waits for ever; the round trip of a server through the form, the
      database and the next start, and the panic on a second entry; that
      the loop returns exactly when the window is closed
      ([gtk_main_quit]) and what a program that ends has done
      ([main_Returns]); the cases of [load_css]; that the registry after
      a closure is reached from the registry before it by operations of
      the registry with callbacks that write at most, by polls and by
      the write of the nickname when no dial is pending ([handle_acts],
      [handle_moves]), from which what the operations keep is kept by
      the closures.
    - Format: the text of a timestamp by cases, from the seconds of the
      message and of the moment: on which timestamps [format_timestamp]
      panics, and else the day by the age of the message and the shape of
      the whole text ([format_timestamp_at_cases]); that every day has a
      date of the Gregorian calendar and no two days the same
      ([civil_from_days_valid], [days_from_civil_from_days]).
    - Scroll: the closure is idempotent, moves the view to the end of
      the messages or leaves it, and leaves a position that is not a
      number alone.
    - Gui and Window: the calls of the toolkit keep every store a forest
      ([build_keeps_forest]); the window [main] builds is one tree in
      which every widget is shown and no [add] is refused
      ([build_tree]); the pages the closures show are the children of
      the stacks, the first of them the page of [start]; the closures
      connected to the signal of an event, run in the order of their
      connection, do what [handle] does ([closures_handle]); and [main]
      with the window, the closures and the loop over the store is
      [main] over the handlers ([program_main]).

    Each file ends with a concrete instance on which its definitions run
    ([vm_compute]) and its theorems are applied.

    ** Bounds and fuel

    [scan_forward] takes fuel; [Messages.add_to] gives it one round more
    than the vector is long, and [add_total] shows that this is always
    enough.  [search_loop] takes fuel; [std_binary_search_by_key] gives
    it the length of the slice, which halves in each round.  All other
    recursion is structural on a list: the rows of a table, the keys of a
    map, the script of a session, the characters of a string.  Integers
    are unbounded: [usize] ids, [i64] timestamps and the clock are never
    computed with in a way that could overflow; the one width that matters,
    [u16] for the port, is kept by the checked digit loop
    ([checked_digits], [parse_addr_port_bounds]).  The one sum on a
    timestamp, with the offset of the time zone, is checked by [chrono]
    against the dates it can hold, and so it is in [naive].  The positions of the
    scroll bar are binary64 numbers ([PrimFloat]), as in the code.  The
    walk of [show_all] takes fuel: one round more than the store has
    widgets, which is enough for every store without a cycle, and
    [build_tree] shows that the walk of the window ends.  A pool of
    threads needs no fuel: a thread has two steps for each call before
    it, so no schedule is longer than twice the number of calls
    ([run_schedule_length]).

    ** Not modelled

    The toolkit beyond the store of widgets (drawing, layout, where the
    user and the toolkit move the keyboard focus, the viewport of
    the scrolled window, the contents of the style sheets, and a loop run
    again inside a dialog), the widgets functions.rs creates when it
    renders, SQLite beyond the five
    statements, the XDG directories beyond what [main_start] asks of
    them, the codec and the encryption of the [synac] crate, the time
    zone database and the leap seconds of [chrono], [markdown]
    ([pulldown_cmark]), and the bodies of the functions of functions.rs.
    The mutex of [current_server] and the lock of [nick] are not
    modelled: [set_current], a read and a write of the nickname are one
    step each.  The callbacks of the threads of [Pool] are functions on
    the handle; a callback that calls the registry again is modelled on
    one thread only ([idle_blocks]).  [run_reconciles] follows a session
    through the closures of main.rs; a step of functions.rs, which may
    put a new session in its place, is outside it.  A closure holds the mutex of [current_server] from the
    [if let] that reads it to the end of that block, [execute] and its
    callback included; nothing in the three files locks it again in
    between, and what [connect] of functions.rs does when it is called
    there is not among the sources. *)

From Stdlib Require Import ssreflect.
From stdpp Require Import gmap list sorting.

Open Scope general_if_scope.

Declare Scope rs_scope.
Delimit Scope rs_scope with rs.
Open Scope rs_scope.

(** ** Result: the value of fallible code *)

Inductive Result (T E : Type) : Type :=
| Ok (t : T)
| Err (e : E).
Arguments Ok {T E} t.
Arguments Err {T E} e.

Definition result_bind {T U E} (r : Result T E) (k : T → Result U E) : Result U E :=
  match r with
  | Ok t => k t
  | Err e => Err e
  end.

(** [let? x := e in k] is Rust's [let x = e?; k]. *)
Notation "'let?' x := e 'in' k" := (result_bind e (λ x, k))
  (at level 10, x name, e at level 100, k at level 200) : rs_scope.

Definition is_ok {T E} (r : Result T E) : bool :=
  match r with Ok _ => true | Err _ => false end.

(** [Result::ok]: the success value, the error dropped. *)
Definition result_ok {T E} (r : Result T E) : option T :=
  match r with Ok t => Some t | Err _ => None end.

Definition result_map_err {T E F} (f : E → F) (r : Result T E) : Result T F :=
  match r with Ok t => Ok t | Err e => Err (f e) end.

#[export] Instance Result_eq_dec {T E} `{EqDecision T, EqDecision E} : EqDecision (Result T E).
Proof. solve_decision. Defined.

(** ** Run: how a call ends

    A call returns, or it blocks for ever (a read on a silent peer, a
    mutex its own thread holds), or it panics.  [x ← m; k] runs [k] when
    [m] returns. *)

Inductive Run (A : Type) : Type :=
| Returns (a : A)
| Blocks
| Panics.
Arguments Returns {A} a.
Arguments Blocks {A}.
Arguments Panics {A}.

#[export] Instance run_ret : MRet Run := λ A a, Returns a.
#[export] Instance run_bind : MBind Run := λ A B k m,
  match m with
  | Returns a => k a
  | Blocks => Blocks
  | Panics => Panics
  end.
#[export] Instance run_fmap : FMap Run := λ A B f m,
  match m with
  | Returns a => Returns (f a)
  | Blocks => Blocks
  | Panics => Panics
  end.

Definition returns {A} (m : Run A) : Prop :=
  match m with Returns _ => True | _ => False end.

#[export] Instance returns_dec {A} (m : Run A) : Decision (returns m).
Proof. destruct m; apply _. Defined.

(** A panic of code modelled with [option]. *)
Definition or_panic {A} (o : option A) : Run A :=
  match o with Some a => Returns a | None => Panics end.

(** A wait modelled with [option]. *)
Definition or_block {A} (o : option A) : Run A :=
  match o with Some a => Returns a | None => Blocks end.

(** ** Vec: a growable array as a list, panics as [None] *)

(** [Vec::insert(i, x)]: shifts the elements from [i] on to the right;
    panics when [i > len]. *)
Definition vec_insert {A} (i : nat) (x : A) (v : list A) : option (list A) :=
  if decide (i ≤ length v) then Some (take i v ++ x :: drop i v) else None.

(** [Vec::remove(i)]: removes and returns the element at [i]; panics when
    [i >= len]. *)
Definition vec_remove {A} (i : nat) (v : list A) : option (A * list A) :=
  match v !! i with
  | Some x => Some (x, delete i v)
  | None => None
  end.

(** [iter().position(p)]: index of the first element that satisfies [p]. *)
Definition position {A} (P : A → Prop) `{∀ x, Decision (P x)} (v : list A) : option nat :=
  fst <$> list_find P v.

(** ** A vector sorted by an integer key, non-decreasing *)

Definition sorted_by {A} (key : A → Z) : list A → Prop :=
  StronglySorted (λ a b, (key a ≤ key b)%Z).

#[export] Instance sorted_by_dec {A} (key : A → Z) (l : list A) : Decision (sorted_by key l).
Proof. unfold sorted_by. apply _. Defined.

(** ** The iteration order of a HashMap

    Rust leaves the order in which a [HashMap] yields its entries
    unspecified.  A [HashOrder] is any such order: a list of the keys of
    the map, each exactly once.  Code that iterates over a map is modelled
    against this interface, and its theorems hold for every order. *)

Class HashOrder := {
  iter_keys : ∀ {K} `{Countable K} {V}, gmap K V → list K;
  iter_keys_perm : ∀ {K} `{Countable K} {V} (m : gmap K V),
    iter_keys m ≡ₚ (map_to_list m).*1;
}.

(** The order of the underlying trie: one admissible order, used to run
    the model on concrete inputs. *)
#[export] Program Instance trie_order : HashOrder :=
  {| iter_keys K _ _ V m := (map_to_list m).*1 |}.
Next Obligation. reflexivity. Qed.

(** The same keys the other way round: a second admissible order, to
    run code that must not depend on the order under both. *)
Program Definition reverse_order : HashOrder :=
  {| iter_keys K _ _ V m := reverse (map_to_list m).*1 |}.
Next Obligation. intros. apply reverse_Permutation. Qed.

(** ** Tactics *)

(** Case analysis on the [decide] and [match] of a goal produced by
    unfolding a model definition. *)
Ltac case_model :=
  repeat first
    [ progress simplify_eq/=
    | case_decide
    | case_match ].

Create HintDb rs discriminated.

(** ** Lemmas on [Run] *)

Lemma run_bind_ret_l {A B} (a : A) (k : A → Run B) : mret a ≫= k = k a.
Proof. done. Qed.

Lemma run_bind_ret_r {A} (m : Run A) : m ≫= mret = m.
Proof. by destruct m. Qed.

Lemma run_bind_assoc {A B C} (m : Run A) (k : A → Run B) (h : B → Run C) :
  (m ≫= k) ≫= h = m ≫= (λ a, k a ≫= h).
Proof. by destruct m. Qed.

Lemma run_fmap_bind {A B} (f : A → B) (m : Run A) : f <$> m = m ≫= (λ a, mret (f a)).
Proof. by destruct m. Qed.

Lemma run_bind_Returns {A B} (m : Run A) (k : A → Run B) b :
  m ≫= k = Returns b ↔ ∃ a, m = Returns a ∧ k a = Returns b.
Proof. destruct m; naive_solver. Qed.

Lemma run_bind_Blocks {A B} (m : Run A) (k : A → Run B) :
  m ≫= k = Blocks ↔ m = Blocks ∨ ∃ a, m = Returns a ∧ k a = Blocks.
Proof. destruct m; naive_solver. Qed.

Lemma run_bind_Panics {A B} (m : Run A) (k : A → Run B) :
  m ≫= k = Panics ↔ m = Panics ∨ ∃ a, m = Returns a ∧ k a = Panics.
Proof. destruct m; naive_solver. Qed.

Lemma returns_Returns {A} (m : Run A) : returns m ↔ ∃ a, m = Returns a.
Proof. destruct m; naive_solver. Qed.

Lemma returns_bind {A B} (m : Run A) (k : A → Run B) :
  returns (m ≫= k) ↔ ∃ a, m = Returns a ∧ returns (k a).
Proof. destruct m; naive_solver. Qed.

(** What returns does not wait, whatever runs after it. *)
Lemma run_bind_not_Blocks {A B} (m : Run A) (k : A → Run B) :
  returns m → (∀ a, k a ≠ Blocks) → m ≫= k ≠ Blocks.
Proof. destruct m; naive_solver. Qed.

Lemma or_panic_Returns {A} (o : option A) a : or_panic o = Returns a ↔ o = Some a.
Proof. destruct o; naive_solver. Qed.

Lemma or_block_Returns {A} (o : option A) a : or_block o = Returns a ↔ o = Some a.
Proof. destruct o; naive_solver. Qed.

(** A decidable property of the numbers below a bound is checked by
    running through them. *)
Lemma N_below (P : N → Prop) `{!∀ x, Decision (P x)} (n : nat) :
  Forall P (N.of_nat <$> seq 0 n) → ∀ x, (x < N.of_nat n)%N → P x.
Proof.
  intros Hall x Hx. eapply Forall_forall; [done|].
  apply list_elem_of_fmap. exists (N.to_nat x). split; [lia|]. apply elem_of_seq. lia.
Qed.

(** ** Lemmas on [Result] *)

Lemma result_bind_ok {T U E} (r : Result T E) (k : T → Result U E) u :
  result_bind r k = Ok u ↔ ∃ t, r = Ok t ∧ k t = Ok u.
Proof. destruct r; naive_solver. Qed.

Lemma result_bind_err {T U E} (r : Result T E) (k : T → Result U E) e :
  result_bind r k = Err e ↔ r = Err e ∨ ∃ t, r = Ok t ∧ k t = Err e.
Proof. destruct r; naive_solver. Qed.

Lemma result_ok_Some {T E} (r : Result T E) t : result_ok r = Some t ↔ r = Ok t.
Proof. destruct r; naive_solver. Qed.

Lemma is_ok_true {T E} (r : Result T E) : is_ok r = true ↔ ∃ t, r = Ok t.
Proof. destruct r; naive_solver. Qed.

(** ** Lemmas on the Vec model *)

Section vec.
Context {A : Type}.
Implicit Types (v l : list A) (x y : A) (i j : nat).

Lemma vec_insert_Some i x v w :
  vec_insert i x v = Some w ↔ i ≤ length v ∧ w = take i v ++ x :: drop i v.
Proof. unfold vec_insert. case_decide; naive_solver. Qed.

Lemma vec_insert_is_Some i x v : is_Some (vec_insert i x v) ↔ i ≤ length v.
Proof.
  unfold vec_insert. case_decide; split; done.
Qed.

Lemma vec_insert_length i x v w : vec_insert i x v = Some w → length w = S (length v).
Proof.
  intros [Hi ->]%vec_insert_Some.
  rewrite length_app /= length_take length_drop. lia.
Qed.

Lemma vec_insert_elem_of i x v w y :
  vec_insert i x v = Some w → y ∈ w ↔ y = x ∨ y ∈ v.
Proof.
  intros [Hi ->]%vec_insert_Some.
  assert (y ∈ v ↔ y ∈ take i v ∨ y ∈ drop i v) as ->
    by (by rewrite -elem_of_app take_drop).
  rewrite elem_of_app elem_of_cons. tauto.
Qed.

Lemma vec_insert_lookup i x v w : vec_insert i x v = Some w → w !! i = Some x.
Proof.
  intros [Hi ->]%vec_insert_Some.
  apply list_lookup_middle. rewrite length_take. lia.
Qed.

Lemma vec_insert_app v w x : vec_insert (length v) x (v ++ w) = Some (v ++ x :: w).
Proof.
  rewrite /vec_insert decide_True; [rewrite length_app; lia|].
  by rewrite take_app_length drop_app_length.
Qed.

Lemma insert_middle v w x y : <[length v := x]> (v ++ y :: w) = v ++ x :: w.
Proof. by rewrite -{1}(Nat.add_0_r (length v)) insert_app_r. Qed.

Lemma vec_remove_Some i v x w :
  vec_remove i v = Some (x, w) ↔ v !! i = Some x ∧ w = delete i v.
Proof. unfold vec_remove. destruct (v !! i); naive_solver. Qed.

Lemma position_Some (P : A → Prop) `{∀ x, Decision (P x)} v i :
  position P v = Some i ↔
  ∃ x, v !! i = Some x ∧ P x ∧ ∀ j y, v !! j = Some y → j < i → ¬ P y.
Proof.
  unfold position. rewrite fmap_Some. split.
  - intros [[j x] [?%list_find_Some ->]]. naive_solver.
  - intros (x & ? & ? & ?). exists (i, x). by rewrite list_find_Some.
Qed.

Lemma position_None (P : A → Prop) `{∀ x, Decision (P x)} v :
  position P v = None ↔ Forall (λ x, ¬ P x) v.
Proof. unfold position. by rewrite fmap_None list_find_None. Qed.

Lemma position_cons (P : A → Prop) `{∀ x, Decision (P x)} x v :
  position P (x :: v) = if decide (P x) then Some 0 else S <$> position P v.
Proof.
  unfold position. simpl. case_decide; [done|].
  destruct (list_find P v) as [[??]|]; done.
Qed.

Lemma position_app (P : A → Prop) `{∀ x, Decision (P x)} v w :
  position P (v ++ w) =
  match position P v with
  | Some i => Some i
  | None => (λ i, length v + i) <$> position P w
  end.
Proof.
  induction v as [|x v IH]; simpl.
  - rewrite /position /=. by destruct (list_find P w) as [[??]|].
  - rewrite !position_cons. case_decide; [done|]. rewrite IH.
    destruct (position P v); [done|]. by destruct (position P w).
Qed.

(** Overwriting the first hit by another hit leaves it the first. *)
Lemma position_insert_hit (P : A → Prop) `{∀ x, Decision (P x)} v i x :
  position P v = Some i → P x → position P (<[i:=x]> v) = Some i.
Proof.
  intros (y & Hy & _ & Hlt)%position_Some Hx. apply position_Some. exists x.
  apply lookup_lt_Some in Hy as Hi.
  split_and!; [by rewrite list_lookup_insert_eq|done|].
  intros j z Hz Hj. rewrite list_lookup_insert_ne in Hz; [lia|]. eauto.
Qed.

(** The first hit behind a stretch without hits. *)
Lemma position_skip (P : A → Prop) `{∀ x, Decision (P x)} v x w :
  Forall (λ y, ¬ P y) v → P x → position P (v ++ x :: w) = Some (length v).
Proof.
  intros Hv Hx. apply (position_None P) in Hv.
  by rewrite position_app Hv position_cons decide_True //= Nat.add_0_r.
Qed.

Lemma position_lt (P : A → Prop) `{∀ x, Decision (P x)} v i :
  position P v = Some i → i < length v.
Proof. intros (x & ?%lookup_lt_Some & _)%position_Some. done. Qed.

Lemma Forall_filter_self (P : A → Prop) `{∀ x, Decision (P x)} l :
  Forall P (filter P l).
Proof. apply Forall_forall. by intros x [? _]%list_elem_of_filter. Qed.

Lemma Forall_of_sublist (P : A → Prop) l k : k `sublist_of` l → Forall P l → Forall P k.
Proof. rewrite !Forall_forall. intros Hkl Hl x Hx. by eapply Hl, elem_of_sublist. Qed.

Lemma filter_none (P : A → Prop) `{∀ x, Decision (P x)} l :
  Forall (λ x, ¬ P x) l → filter P l = [].
Proof.
  induction 1 as [|x l Hx _ IH]; [done|]. by rewrite filter_cons_False.
Qed.

Lemma filter_all (P : A → Prop) `{∀ x, Decision (P x)} l :
  Forall P l → filter P l = l.
Proof.
  induction 1 as [|x l Hx _ IH]; [done|]. by rewrite filter_cons_True // IH.
Qed.

End vec.

(** ** Lemmas on sortedness by a key *)

Section sorted_by.
Context {A : Type} (key : A → Z).
Implicit Types (l k : list A) (x y : A) (i j : nat) (t : Z).

Lemma sorted_by_nil : sorted_by key [].
Proof. constructor. Qed.

Lemma sorted_by_cons x l :
  sorted_by key (x :: l) ↔ Forall (λ y, (key x ≤ key y)%Z) l ∧ sorted_by key l.
Proof. apply StronglySorted_cons. Qed.

Lemma sorted_by_app l k :
  sorted_by key (l ++ k) ↔
  (∀ x y, x ∈ l → y ∈ k → (key x ≤ key y)%Z) ∧ sorted_by key l ∧ sorted_by key k.
Proof. apply StronglySorted_app. Qed.

Lemma sorted_by_singleton x : sorted_by key [x].
Proof. apply sorted_by_cons. split; constructor. Qed.

(** Inserting between two halves of a sorted list. *)
Lemma sorted_by_middle l k x :
  sorted_by key (l ++ k) →
  Forall (λ y, (key y ≤ key x)%Z) l →
  Forall (λ y, (key x ≤ key y)%Z) k →
  sorted_by key (l ++ x :: k).
Proof.
  rewrite !sorted_by_app sorted_by_cons !Forall_forall.
  intros (Hlk & Hl & Hk) Hlx Hxk. split_and!; try done.
  intros a b Ha [->|Hb]%elem_of_cons; auto.
Qed.

(** Sortedness passes to every sublist: prefixes, suffixes, and the list
    with one element removed. *)
Lemma sorted_by_sublist l k : k `sublist_of` l → sorted_by key l → sorted_by key k.
Proof.
  induction 1 as [|x k l Hkl IH|x k l Hkl IH]; [done|..].
  - rewrite !sorted_by_cons !Forall_forall.
    intros [Hx Hl]. split; [|by auto]. intros y Hy. apply Hx. by eapply elem_of_sublist.
  - rewrite sorted_by_cons. intros [_ Hl]. auto.
Qed.

Lemma sorted_by_take i l : sorted_by key l → sorted_by key (take i l).
Proof. apply sorted_by_sublist, sublist_take. Qed.

Lemma sorted_by_drop i l : sorted_by key l → sorted_by key (drop i l).
Proof. apply sorted_by_sublist, sublist_drop. Qed.

Lemma sorted_by_delete i l : sorted_by key l → sorted_by key (delete i l).
Proof. apply sorted_by_sublist, sublist_delete. Qed.

(** The keys grow with the index. *)
Lemma sorted_by_lookup l i j x y :
  sorted_by key l → l !! i = Some x → l !! j = Some y → i ≤ j → (key x ≤ key y)%Z.
Proof.
  intros Hs Hi Hj Hij. destruct (decide (i = j)) as [->|Hne]; [by simplify_eq|].
  rewrite -(take_drop (S i) l) in Hs. apply sorted_by_app in Hs as (Hs & _ & _).
  apply Hs; apply list_elem_of_lookup.
  - exists i. rewrite lookup_take_lt; done || lia.
  - exists (j - S i). rewrite lookup_drop -Hj. f_equal. lia.
Qed.

(** Overwriting an element by one of the same key. *)
Lemma sorted_by_insert_same i x y l :
  sorted_by key l → l !! i = Some y → key x = key y → sorted_by key (<[i:=x]> l).
Proof.
  intros Hs Hi Hk. pose proof (lookup_lt_Some _ _ _ Hi) as Hlt.
  rewrite insert_take_drop //.
  rewrite -(take_drop_middle l i y) // in Hs.
  apply sorted_by_app in Hs as (Hlk & Hl & [Hy Hk']%sorted_by_cons).
  apply sorted_by_app. split_and!; [|done|].
  - intros a b Ha [->|Hb]%elem_of_cons.
    + rewrite Hk. apply Hlk; [done|left].
    + apply Hlk; [done|by right].
  - apply sorted_by_cons. by rewrite Hk.
Qed.

(** A sorted list is its elements below a key, then those at the key,
    then those above it. *)
Lemma sorted_by_partition t l :
  sorted_by key l →
  l = filter (λ x, (key x < t)%Z) l ++ filter (λ x, key x = t) l
        ++ filter (λ x, (t < key x)%Z) l.
Proof.
  induction l as [|x l IH]; [done|].
  intros [Hx Hl]%sorted_by_cons. specialize (IH Hl).
  rewrite !filter_cons.
  destruct (decide (key x < t)%Z), (decide (key x = t)), (decide (t < key x)%Z);
    try lia; simpl; [by f_equal|..].
  - rewrite (filter_none (λ y, (key y < t)%Z)) /=.
    { eapply Forall_impl; [exact Hx|]. simpl. lia. }
    rewrite (filter_none (λ y, (key y < t)%Z)) /= in IH; [|by f_equal].
    eapply Forall_impl; [exact Hx|]. simpl. lia.
  - rewrite (filter_none (λ y, (key y < t)%Z)) /=.
    { eapply Forall_impl; [exact Hx|]. simpl. lia. }
    rewrite (filter_none (λ y, key y = t)) /=.
    { eapply Forall_impl; [exact Hx|]. simpl. lia. }
    rewrite filter_all //. eapply Forall_impl; [exact Hx|]. simpl. lia.
Qed.

End sorted_by.

(** ** Lemmas on the iteration order *)

Section hash_order.
Context `{HashOrder} `{Countable K} {V : Type}.
Implicit Types (m : gmap K V) (k : K).

Lemma iter_keys_elem_of m k : k ∈ iter_keys m ↔ is_Some (m !! k).
Proof.
  rewrite iter_keys_perm list_elem_of_fmap. split.
  - intros [[k' v] [-> ?%elem_of_map_to_list]]. by eexists.
  - intros [v ?]. exists (k, v). by rewrite elem_of_map_to_list.
Qed.

Lemma iter_keys_NoDup m : NoDup (iter_keys m).
Proof. rewrite iter_keys_perm. apply NoDup_fst_map_to_list. Qed.

Lemma iter_keys_empty : iter_keys (∅ : gmap K V) = [].
Proof.
  apply Permutation_nil_r. by rewrite iter_keys_perm map_to_list_empty.
Qed.

End hash_order.

#[export] Hint Resolve sorted_by_nil sorted_by_singleton sorted_by_take
  sorted_by_drop sorted_by_delete : rs.
