(* ===== verification/BinarySearch.v ===== *)
(** * Binary search on a slice

    [Messages::add] finds its insertion point with
    [slice::binary_search_by_key].  The standard library only promises a
    contract: on a sorted slice, [Ok i] is the index of some element with
    the key and [Err i] is the index where the key could be inserted.
    Which of several equal elements is found is left open.

    [SliceSearch] states that contract as an interface.  The message store
    is verified against the interface, so its theorems hold for every
    search that honours the contract.  [std_binary_search_by_key] is the
    loop of the standard library the client was built with (a window given
    by [base] and [size], halved each round), and [std_search] shows that
    it implements the interface. *)

From Stdlib Require Import ssreflect.
From stdpp Require Import gmap list sorting.
From S2P Require Import Prelude.

Open Scope general_if_scope.

(** ** The contract *)

Class SliceSearch := {
  binary_search_by_key : ∀ {A}, Z → (A → Z) → list A → Result nat nat;
  (** The index is usable whatever the slice holds: [Ok] indexes an
      element, [Err] an insertion point. *)
  search_in_bounds : ∀ {A} b (key : A → Z) (s : list A),
    match binary_search_by_key b key s with
    | Ok i => i < length s
    | Err i => i ≤ length s
    end;
  search_found : ∀ {A} b (key : A → Z) (s : list A) i,
    sorted_by key s →
    binary_search_by_key b key s = Ok i →
    key <$> s !! i = Some b;
  search_missing : ∀ {A} b (key : A → Z) (s : list A) i,
    sorted_by key s →
    binary_search_by_key b key s = Err i →
    Forall (λ x, (key x < b)%Z) (take i s) ∧ Forall (λ x, (b < key x)%Z) (drop i s);
}.

(** ** The loop of the standard library *)

Section std.
Context {A : Type} (key : A → Z) (b : Z).
Implicit Types (s : list A) (base size fuel i j : nat).

(** [while size > 1 { half = size / 2; mid = base + half;
      base = if cmp(s[mid]) == Greater { base } else { mid }; size -= half }].
    The element at [mid] is read unchecked in Rust; the window invariant
    [base + size <= len] keeps the read in bounds, and the model leaves
    [base] alone in the unreachable case.  [fuel] bounds the number of
    rounds; [search_loop_exit] shows that [size] rounds are enough. *)
Fixpoint search_loop s fuel base size : nat * nat :=
  match fuel with
  | 0 => (base, size)
  | S fuel =>
    if decide (1 < size) then
      let half := size `div` 2 in
      let mid := base + half in
      let base' :=
        match s !! mid with
        | Some x => if decide (b < key x)%Z then base else mid
        | None => base
        end in
      search_loop s fuel base' (size - half)
    else (base, size)
  end.

Definition std_binary_search_by_key s : Result nat nat :=
  let size := length s in
  if decide (size = 0) then Err 0
  else
    let base := (search_loop s size 0 size).1 in
    match s !! base with
    | Some x =>
      match (key x ?= b)%Z with
      | Eq => Ok base
      | Lt => Err (base + 1)
      | Gt => Err base
      end
    | None => Err base
    end.

(** The window [base, base + size) of the loop: inside the slice, never
    empty. *)
Definition window s base size : Prop := 1 ≤ size ∧ base + size ≤ length s.

(** What the loop knows of a sorted slice: the element at [base] is at
    most [b] unless [base] never moved, and everything from the end of the
    window on is above [b]. *)
Definition window_ordered s base size : Prop :=
  (base = 0 ∨ ∃ x, s !! base = Some x ∧ (key x ≤ b)%Z) ∧
  (∀ j y, base + size ≤ j → s !! j = Some y → (b < key y)%Z).

Lemma search_loop_S s fuel base size :
  search_loop s (S fuel) base size =
  if decide (1 < size) then
    search_loop s fuel
      match s !! (base + size `div` 2) with
      | Some x => if decide (b < key x)%Z then base else base + size `div` 2
      | None => base
      end (size - size `div` 2)
  else (base, size).
Proof. done. Qed.

Lemma search_loop_window s fuel base size :
  window s base size →
  window s (search_loop s fuel base size).1 (search_loop s fuel base size).2.
Proof.
  revert base size. induction fuel as [|fuel IH]; intros base size [H1 H2]; [done|].
  rewrite search_loop_S. case_decide; [|done]. apply IH.
  pose proof (Nat.div_lt size 2). pose proof (Nat.div_mod_eq size 2).
  split; [lia|]. destruct (s !! _); [case_decide|]; lia.
Qed.

(** Termination: given as many rounds as the window is wide, the loop
    leaves with a window of one element. *)
Lemma search_loop_exit s fuel base size :
  1 ≤ size → size ≤ S fuel → (search_loop s fuel base size).2 = 1.
Proof.
  revert base size. induction fuel as [|fuel IH]; intros base size H1 H2; [simpl; lia|].
  rewrite search_loop_S. case_decide; [|simpl; lia]. apply IH.
  all: pose proof (Nat.div_mod_eq size 2); pose proof (Nat.mod_upper_bound size 2); lia.
Qed.

Lemma search_loop_ordered s fuel base size :
  sorted_by key s → window s base size → window_ordered s base size →
  window_ordered s (search_loop s fuel base size).1 (search_loop s fuel base size).2.
Proof.
  intros Hs. revert base size.
  induction fuel as [|fuel IH]; intros base size [H1 H2] [Hlo Hhi]; [done|].
  rewrite search_loop_S. case_decide; [|done].
  pose proof (Nat.div_mod_eq size 2). pose proof (Nat.mod_upper_bound size 2).
  destruct (lookup_lt_is_Some_2 s (base + size `div` 2)) as [x Hx]; [lia|].
  rewrite Hx. apply IH.
  { split; [lia|]. case_decide; lia. }
  case_decide; (split; [|intros j y Hj Hy]).
  - done.
  - pose proof (sorted_by_lookup key s _ j x y Hs Hx Hy). lia.
  - right. exists x. split; [done|lia].
  - apply (Hhi j y); [lia|done].
Qed.

Lemma std_search_in_bounds s :
  match std_binary_search_by_key s with
  | Ok i => i < length s
  | Err i => i ≤ length s
  end.
Proof.
  unfold std_binary_search_by_key. case_decide; [lia|].
  destruct (search_loop_window s (length s) 0 (length s)) as [? ?]; [split; lia|].
  destruct (s !! _) as [x|] eqn:Hx; [|lia].
  apply lookup_lt_Some in Hx. destruct (_ ?= _)%Z; lia.
Qed.

(** The state in which the loop of a sorted, non-empty slice ends. *)
Lemma std_search_final s :
  sorted_by key s → length s ≠ 0 →
  let base := (search_loop s (length s) 0 (length s)).1 in
  base < length s ∧ window_ordered s base 1.
Proof.
  intros Hs Hne base.
  assert (window s 0 (length s)) as Hw by (split; lia).
  pose proof (search_loop_window s (length s) 0 (length s) Hw) as [? ?].
  pose proof (search_loop_exit s (length s) 0 (length s)) as Hexit.
  pose proof (search_loop_ordered s (length s) 0 (length s) Hs Hw) as Hord.
  rewrite Hexit in Hord; [lia..|]. rewrite Hexit in H0; [lia..|].
  split; [subst base; lia|]. apply Hord. split; [by left|].
  intros j y Hj Hy%lookup_lt_Some. lia.
Qed.

Lemma std_search_found s i :
  sorted_by key s → std_binary_search_by_key s = Ok i → key <$> s !! i = Some b.
Proof.
  unfold std_binary_search_by_key. intros Hs. case_decide; [done|].
  destruct (s !! _) as [x|] eqn:Hx; [|done].
  destruct (Z.compare_spec (key x) b) as [Hb| |]; intros [= <-]. by rewrite Hx /= Hb.
Qed.

Lemma std_search_missing s i :
  sorted_by key s → std_binary_search_by_key s = Err i →
  Forall (λ x, (key x < b)%Z) (take i s) ∧ Forall (λ x, (b < key x)%Z) (drop i s).
Proof.
  unfold std_binary_search_by_key. intros Hs. case_decide as Hlen.
  { intros [= <-]. apply length_zero_iff_nil in Hlen as ->. by split. }
  destruct (std_search_final s Hs Hlen) as [Hlt [Hlo Hhi]].
  destruct (lookup_lt_is_Some_2 s _ Hlt) as [x Hx]. rewrite Hx.
  rewrite !Forall_lookup.
  destruct (Z.compare_spec (key x) b) as [|Hc|Hc]; intros [= <-]; split; intros j y.
  - rewrite lookup_take_Some. intros [Hy Hj].
    pose proof (sorted_by_lookup key s j _ y x Hs Hy Hx). lia.
  - rewrite lookup_drop. apply Hhi. lia.
  - rewrite lookup_take_Some. intros [Hy Hj].
    destruct Hlo as [Hz|(x' & ? & ?)]; [lia|]. simplify_eq. lia.
  - rewrite lookup_drop. intros Hy.
    pose proof (sorted_by_lookup key s _ _ x y Hs Hx Hy). lia.
Qed.

End std.

#[export] Instance std_search : SliceSearch := {|
  binary_search_by_key A b key s := std_binary_search_by_key key b s;
  search_in_bounds A b key s := std_search_in_bounds key b s;
  search_found A b key s i := std_search_found key b s i;
  search_missing A b key s i := std_search_missing key b s i;
|}.

(** ** Consequences of the contract *)

Section contract.
Context `{SliceSearch} {A : Type} (key : A → Z).
Implicit Types (s : list A) (b : Z) (i : nat).

(** A key that occurs in a sorted slice is found. *)
Lemma search_complete b s x :
  sorted_by key s → x ∈ s → key x = b → ∃ i, binary_search_by_key b key s = Ok i.
Proof.
  intros Hs Hx Hk. destruct (binary_search_by_key b key s) as [i|i] eqn:Hr; [by eexists|].
  destruct (search_missing b key s i Hs Hr) as [Hlo Hhi].
  rewrite -(take_drop i s) elem_of_app in Hx.
  rewrite !Forall_forall in Hlo Hhi.
  destruct Hx as [?%Hlo|?%Hhi]; lia.
Qed.

(** The insertion point of a missing key is the number of smaller keys. *)
Lemma search_missing_index b s i :
  sorted_by key s → binary_search_by_key b key s = Err i →
  i = length (filter (λ x, (key x < b)%Z) s) ∧ filter (λ x, key x = b) s = [].
Proof.
  intros Hs Hr. destruct (search_missing b key s i Hs Hr) as [Hlo Hhi].
  pose proof (search_in_bounds b key s) as Hb. rewrite Hr in Hb.
  rewrite -(take_drop i s) !filter_app.
  rewrite (filter_all _ (take i s)) // (filter_none _ (drop i s)).
  { eapply Forall_impl; [exact Hhi|]. simpl. lia. }
  rewrite (filter_none _ (take i s)).
  { eapply Forall_impl; [exact Hlo|]. simpl. lia. }
  rewrite (filter_none _ (drop i s)).
  { eapply Forall_impl; [exact Hhi|]. simpl. lia. }
  rewrite app_nil_r length_take. split; [lia|done].
Qed.

End contract.
