(* ===== verification/Store.v ===== *)
(** * The message store ([src/messages.rs])

    [Messages] keeps, per channel, the vector of messages received so far,
    ordered by timestamp.  [Messages.add] inserts a message or overwrites
    the entry with the same id, [Messages.remove] deletes by id,
    [Messages.get] and [Messages.has] read.

    The operations are modelled as the code has them: the binary search
    through the [SliceSearch] interface, the backward loop on the index,
    the forward loop with fuel, [Vec::insert] and indexing with their
    panics as [None].  [Messages.place] is the specification of one
    insertion on a timeline: it only speaks of the messages before, at and
    after the new timestamp.  [add_to_place] shows that the code
    implements it on every sorted timeline, whichever equal element the
    search returns. *)

From Stdlib Require Import ssreflect.
From stdpp Require Import gmap list sorting strings.
From S2P Require Import Prelude BinarySearch.

Open Scope general_if_scope.

(** ** Messages of the protocol

    [synac::common::Message], the fields the client reads. *)
Module Message.

Record t := {
  author : N;
  channel : N;
  id : N;
  text : string;
  timestamp : Z;
}.

#[global] Instance eq_dec : EqDecision t.
Proof. solve_decision. Defined.

End Message.

Abbreviation Message := Message.t.

Module Messages.

(** [struct Messages { messages: HashMap<usize, Vec<Message>> }] *)
Record t := { messages : gmap N (list Message) }.

Definition new : t := {| messages := ∅ |}.

(** The outcome of the forward loop of [add]: overwrite the entry at an
    index, or leave the loop and insert there. *)
Inductive Scan :=
| Replace (i : nat)
| InsertAt (i : nat).

(** [while i > 0 && messages.get(i-1).map(|msg| msg.timestamp)
      == original_timestamp { i -= 1; }] *)
Fixpoint scan_back (v : list Message) (original_timestamp : option Z) (i : nat) : nat :=
  match i with
  | 0 => 0
  | S j =>
    if decide (Message.timestamp <$> v !! j = original_timestamp)
    then scan_back v original_timestamp j
    else i
  end.

(** [loop { let message = messages.get_mut(i);
           if message.map(id) == Some(msg.id) { *message = msg; return; }
           if message.map(timestamp) != original_timestamp { break; }
           i += 1 }].
    [None] when the fuel runs out; [scan_forward_fuel] shows that it never
    does with [S (length v)] rounds. *)
Fixpoint scan_forward (v : list Message) (original_timestamp : option Z) (mid : N)
    (fuel i : nat) : option Scan :=
  match fuel with
  | 0 => None
  | S fuel =>
    let message := v !! i in
    if decide (Message.id <$> message = Some mid) then Some (Replace i)
    else if decide (Message.timestamp <$> message ≠ original_timestamp) then Some (InsertAt i)
    else scan_forward v original_timestamp mid fuel (S i)
  end.

Section add.
Context `{!SliceSearch}.

(** The body of [add] on the channel's vector.  [None] is a panic:
    [messages[i]] out of bounds or [Vec::insert] past the end. *)
Definition add_to (msg : Message) (v : list Message) : option (list Message) :=
  match binary_search_by_key (Message.timestamp msg) Message.timestamp v with
  | Err i => vec_insert i msg v
  | Ok i =>
    m ← v !! i;
    let original_timestamp := Some (Message.timestamp m) in
    let i := scan_back v original_timestamp i in
    match scan_forward v original_timestamp (Message.id msg) (S (length v)) i with
    | Some (Replace j) => Some (<[j := msg]> v)
    | Some (InsertAt j) => vec_insert j msg v
    | None => None
    end
  end.

(** [pub fn add(&mut self, msg: Message)]: the vector of the channel is
    created when the channel is new, also when the message then overwrites
    nothing. *)
Definition add (msg : Message) (self : t) : option t :=
  let v := default [] (messages self !! Message.channel msg) in
  v' ← add_to msg v;
  Some {| messages := <[Message.channel msg := v']> (messages self) |}.

End add.

(** The loop of [remove] over the channels in the order the map yields
    them: the first vector that holds the id loses its first message with
    that id. *)
Fixpoint remove_from (mid : N) (m : gmap N (list Message)) (order : list N)
    : gmap N (list Message) * option N :=
  match order with
  | [] => (m, None)
  | channel :: order =>
    match m !! channel with
    | Some v =>
      match position (λ msg, Message.id msg = mid) v with
      | Some i => (<[channel := delete i v]> m, Some channel)
      | None => remove_from mid m order
      end
    | None => remove_from mid m order
    end
  end.

(** [pub fn remove(&mut self, id: usize) -> Option<usize>] *)
Definition remove {order : HashOrder} (mid : N) (self : t) : t * option N :=
  let '(m, r) := remove_from mid (messages self) (iter_keys (messages self)) in
  ({| messages := m |}, r).

(** [pub fn get(&self, channel: usize) -> &[Message]] *)
Definition get (self : t) (channel : N) : list Message :=
  default [] (messages self !! channel).

(** [pub fn has(&self, channel: usize) -> bool] *)
Definition has (self : t) (channel : N) : bool :=
  bool_decide (is_Some (messages self !! channel)).

(** ** Specification of an insertion

    [before], [run] and [after] are the messages of a timeline with a
    timestamp below, at and above the one of [msg]. *)
Definition place (msg : Message) (before run after : list Message) : list Message :=
  match run with
  | [] => before ++ msg :: after
  | _ =>
    match position (λ m, Message.id m = Message.id msg) (run ++ take 1 after) with
    | Some k => before ++ <[k := msg]> (run ++ after)
    | None => before ++ run ++ msg :: after
    end
  end.

Definition below (ts : Z) (v : list Message) : list Message :=
  filter (λ m, (Message.timestamp m < ts)%Z) v.
Definition at_ts (ts : Z) (v : list Message) : list Message :=
  filter (λ m, Message.timestamp m = ts) v.
Definition above (ts : Z) (v : list Message) : list Message :=
  filter (λ m, (ts < Message.timestamp m)%Z) v.

Definition add_spec (msg : Message) (v : list Message) : list Message :=
  let ts := Message.timestamp msg in
  place msg (below ts v) (at_ts ts v) (above ts v).

(** ** The invariant of the store

    Every timeline is sorted by timestamp and holds messages of its own
    channel only. *)
Definition timeline_ok (channel : N) (v : list Message) : Prop :=
  sorted_by Message.timestamp v ∧ Forall (λ m, Message.channel m = channel) v.

Definition wf (self : t) : Prop :=
  map_Forall timeline_ok (messages self).

(** The id [mid] occurs in the timeline of at most one channel. *)
Definition one_channel (mid : N) (self : t) : Prop :=
  map_Forall (λ c1 v1, map_Forall (λ c2 v2,
    Exists (λ m, Message.id m = mid) v1 → Exists (λ m, Message.id m = mid) v2 → c1 = c2)
    (messages self)) (messages self).

#[export] Instance one_channel_dec mid self : Decision (one_channel mid self).
Proof. unfold one_channel. apply _. Defined.

#[export] Instance timeline_ok_dec channel v : Decision (timeline_ok channel v).
Proof. unfold timeline_ok. apply _. Defined.

#[export] Instance wf_dec self : Decision (wf self).
Proof. unfold wf. apply _. Defined.

(** ** The two loops of [add] *)

Section scans.
Implicit Types (v before run after : list Message) (ts : Z) (mid : N) (i j fuel : nat).

Lemma scan_back_le v ots i : scan_back v ots i ≤ i.
Proof. induction i as [|j IH]; simpl; [done|]. case_decide; lia. Qed.

(** From anywhere in the run of a timestamp the backward loop stops at
    the first message of the run. *)
Lemma scan_back_run before run after ts i :
  Forall (λ m, Message.timestamp m ≠ ts) before →
  Forall (λ m, Message.timestamp m = ts) run →
  length before ≤ i ≤ length before + length run →
  scan_back (before ++ run ++ after) (Some ts) i = length before.
Proof.
  intros Hb Hr. induction i as [|j IH]; intros Hi; simpl; [lia|].
  case_decide as Hj.
  - apply IH. split; [|lia]. destruct (decide (length before ≤ j)); [done|].
    destruct (lookup_lt_is_Some_2 before j) as [m Hm]; [lia|].
    rewrite lookup_app_l in Hj; [lia|]. rewrite Hm in Hj.
    rewrite Forall_lookup in Hb. by destruct (Hb j m Hm); simplify_eq/=.
  - destruct (decide (S j = length before)) as [|Hne]; [done|]. exfalso. apply Hj.
    destruct (lookup_lt_is_Some_2 run (j - length before)) as [m Hm]; [lia|].
    rewrite lookup_app_r; [lia|]. rewrite lookup_app_l; [lia|]. rewrite Hm /=.
    rewrite Forall_lookup in Hr. by rewrite (Hr _ m Hm).
Qed.

(** Termination of the forward loop, for any vector: started inside the
    vector it answers within [S (length v - i)] rounds, with an index the
    vector has (for an overwrite) or can be extended at (for an insert). *)
Lemma scan_forward_fuel v ts mid fuel i :
  i ≤ length v → length v < fuel + i →
  ∃ r, scan_forward v (Some ts) mid fuel i = Some r ∧
    match r with Replace j => j < length v | InsertAt j => j ≤ length v end.
Proof.
  revert i. induction fuel as [|fuel IH]; intros i Hi Hf; [lia|]. simpl.
  destruct (v !! i) as [m|] eqn:Hm; simpl; [apply lookup_lt_Some in Hm|].
  all: repeat case_decide; try done; eauto with lia.
Qed.

(** On a run of [ts] followed by a message of another timestamp, the
    forward loop finds the first message with the id in the run and the
    one message behind it, and otherwise leaves behind the run. *)
Lemma scan_forward_run before run after ts mid fuel :
  Forall (λ m, Message.timestamp m = ts) run →
  Forall (λ m, Message.timestamp m ≠ ts) after →
  length run < fuel →
  scan_forward (before ++ run ++ after) (Some ts) mid fuel (length before) =
  Some match position (λ m, Message.id m = mid) (run ++ take 1 after) with
       | Some k => Replace (length before + k)
       | None => InsertAt (length before + length run)
       end.
Proof.
  intros Hr Ha. revert before fuel.
  induction Hr as [|m run Hm Hr IH]; intros before [|fuel] Hf; simpl in *; try lia.
  - destruct Ha as [|a after Hts _]; simpl.
    + rewrite lookup_ge_None_2 /=; [by rewrite app_nil_r|].
      rewrite !Nat.add_0_r. by repeat case_decide.
    + rewrite list_lookup_middle //= position_cons !Nat.add_0_r.
      repeat case_decide; simplify_eq/=; by rewrite ?Nat.add_0_r.
  - rewrite list_lookup_middle //= position_cons.
    case_decide; simplify_eq/=; [by rewrite decide_True // Nat.add_0_r|].
    case_decide; [done|]. rewrite decide_False; [congruence|].
    specialize (IH (before ++ [m]) fuel). rewrite -!assoc length_app /= in IH.
    rewrite Nat.add_1_r in IH. rewrite IH; [lia|].
    destruct (position _ _); simpl; do 2 f_equal; lia.
Qed.

End scans.

(** ** The timeline as the three parts around a timestamp *)

Section parts.
Implicit Types (v before run after : list Message) (ts : Z).

Lemma parts_below before run after ts :
  Forall (λ m, (Message.timestamp m < ts)%Z) before →
  Forall (λ m, Message.timestamp m = ts) run →
  Forall (λ m, (ts < Message.timestamp m)%Z) after →
  below ts (before ++ run ++ after) = before.
Proof.
  intros Hb Hr Ha. rewrite /below !filter_app filter_all //.
  rewrite !filter_none ?app_nil_r //; (eapply Forall_impl; [eassumption|simpl; lia]).
Qed.

Lemma parts_at_ts before run after ts :
  Forall (λ m, (Message.timestamp m < ts)%Z) before →
  Forall (λ m, Message.timestamp m = ts) run →
  Forall (λ m, (ts < Message.timestamp m)%Z) after →
  at_ts ts (before ++ run ++ after) = run.
Proof.
  intros Hb Hr Ha. rewrite /at_ts !filter_app (filter_all _ run) //.
  rewrite !filter_none ?app_nil_r //; (eapply Forall_impl; [eassumption|simpl; lia]).
Qed.

Lemma parts_above before run after ts :
  Forall (λ m, (Message.timestamp m < ts)%Z) before →
  Forall (λ m, Message.timestamp m = ts) run →
  Forall (λ m, (ts < Message.timestamp m)%Z) after →
  above ts (before ++ run ++ after) = after.
Proof.
  intros Hb Hr Ha. rewrite /above !filter_app (filter_all _ after) //.
  rewrite !filter_none //; (eapply Forall_impl; [eassumption|simpl; lia]).
Qed.

Lemma sorted_parts ts v :
  sorted_by Message.timestamp v → v = below ts v ++ at_ts ts v ++ above ts v.
Proof. apply sorted_by_partition. Qed.

End parts.

(** ** [add] on one timeline *)

Arguments scan_forward : simpl never.
Arguments scan_back : simpl never.

Section add_to.
Context `{!SliceSearch}.
Implicit Types (msg m : Message) (v before run after : list Message).

(** The body of [add] never panics and its loops end: on any vector,
    sorted or not, indexing [messages[i]] is in bounds, the forward loop
    answers within its fuel, and [Vec::insert] gets an index the vector
    has. *)
Lemma add_to_total msg v : is_Some (add_to msg v).
Proof.
  unfold add_to.
  pose proof (search_in_bounds (Message.timestamp msg) Message.timestamp v) as Hb.
  destruct (binary_search_by_key _ _ _) as [i|i]; [|by apply vec_insert_is_Some].
  destruct (lookup_lt_is_Some_2 v i Hb) as [m ->]. simpl.
  pose proof (scan_back_le v (Some (Message.timestamp m)) i).
  destruct (scan_forward_fuel v (Message.timestamp m) (Message.id msg) (S (length v))
    (scan_back v (Some (Message.timestamp m)) i)) as (r & -> & Hr); [lia..|].
  destruct r; [done|]. by apply vec_insert_is_Some.
Qed.

Lemma add_to_length msg v v' :
  add_to msg v = Some v' → length v ≤ length v' ≤ S (length v).
Proof.
  unfold add_to. destruct (binary_search_by_key _ _ _) as [i|i].
  - destruct (v !! i) as [m|]; [simpl|done].
    destruct (scan_forward _ _ _ _ _) as [[j|j]|]; [| |done].
    + intros [= <-]. rewrite length_insert. lia.
    + intros ->%vec_insert_length. lia.
  - intros ->%vec_insert_length. lia.
Qed.

(** The index the search finds lies in the run of the timestamp. *)
Lemma found_in_run msg before run after i :
  Forall (λ m, (Message.timestamp m < Message.timestamp msg)%Z) before →
  Forall (λ m, (Message.timestamp msg < Message.timestamp m)%Z) after →
  Message.timestamp <$> (before ++ run ++ after) !! i = Some (Message.timestamp msg) →
  length before ≤ i < length before + length run.
Proof.
  rewrite !Forall_lookup. intros Hb Ha [m [Hm Hts]]%fmap_Some.
  destruct (decide (i < length before)).
  { rewrite lookup_app_l // in Hm. apply Hb in Hm. lia. }
  rewrite lookup_app_r in Hm; [lia|].
  destruct (decide (i - length before < length run)); [lia|].
  rewrite lookup_app_r in Hm; [lia|]. apply Ha in Hm. lia.
Qed.

(** The code on a timeline given by its three parts. *)
Lemma add_to_parts msg before run after :
  sorted_by Message.timestamp (before ++ run ++ after) →
  Forall (λ m, (Message.timestamp m < Message.timestamp msg)%Z) before →
  Forall (λ m, Message.timestamp m = Message.timestamp msg) run →
  Forall (λ m, (Message.timestamp msg < Message.timestamp m)%Z) after →
  add_to msg (before ++ run ++ after) = Some (place msg before run after).
Proof.
  intros Hs Hb Hr Ha. unfold add_to.
  destruct (binary_search_by_key _ _ _) as [i|i] eqn:Hi.
  - apply search_found in Hi as Hts; [|done].
    pose proof (found_in_run _ _ _ _ _ Hb Ha Hts) as Hrun.
    apply fmap_Some in Hts as (m & -> & Hm). rewrite /= -Hm.
    assert (Forall (λ m', Message.timestamp m' ≠ Message.timestamp msg) before)
      by (eapply Forall_impl; [exact Hb|simpl; lia]).
    assert (Forall (λ m', Message.timestamp m' ≠ Message.timestamp msg) after)
      by (eapply Forall_impl; [exact Ha|simpl; lia]).
    rewrite scan_back_run //; try lia.
    rewrite scan_forward_run //; try (rewrite !length_app; lia).
    unfold place. destruct run as [|r run]; [simpl in *; lia|].
    destruct (position _ _) as [k|]; [by rewrite insert_app_r|].
    by rewrite (assoc _ before) -length_app vec_insert_app -assoc.
  - apply (search_missing_index Message.timestamp) in Hi as [-> Hnil]; [|done].
    fold (below (Message.timestamp msg) (before ++ run ++ after)).
    fold (at_ts (Message.timestamp msg) (before ++ run ++ after)) in Hnil.
    rewrite parts_below // parts_at_ts // in Hnil |- *. subst run.
    by rewrite vec_insert_app.
Qed.

(** A sorted timeline is its three parts, so the code computes
    [add_spec] on it. *)
Lemma add_to_spec msg v :
  sorted_by Message.timestamp v → add_to msg v = Some (add_spec msg v).
Proof.
  intros Hs. rewrite {1}(sorted_parts (Message.timestamp msg) v Hs).
  apply add_to_parts; [by rewrite -sorted_parts|apply Forall_filter_self..].
Qed.

End add_to.

(** C2: on a sorted timeline the code implements the specification
    [add_spec], and the result is the same for every search that honours
    the contract of [binary_search_by_key]: it does not matter which of
    several messages with the timestamp the search returns. *)
Theorem add_to_place (S1 S2 : SliceSearch) msg v :
  sorted_by Message.timestamp v →
  @add_to S1 msg v = Some (add_spec msg v) ∧ @add_to S2 msg v = @add_to S1 msg v.
Proof. intros Hs. by rewrite !add_to_spec. Qed.

(** ** Properties of the specification *)

Section place.
Implicit Types (msg m old : Message) (v before run after : list Message).

(** A message in the run or right behind it is a message of the
    timeline, at the same index. *)
Lemma candidate_lookup run after k m :
  (run ++ take 1 after) !! k = Some m →
  (run ++ after) !! k = Some m ∧ k ≤ length run.
Proof.
  intros Hk. destruct (decide (k < length run)).
  { rewrite lookup_app_l // in Hk. rewrite lookup_app_l //. split; [done|lia]. }
  rewrite lookup_app_r in Hk; [lia|]. apply lookup_take_Some in Hk as [Hk ?].
  rewrite lookup_app_r; [lia|]. split; [done|lia].
Qed.

(** The shape of every result: the new message between a prefix [l1] and
    a suffix [l2] of the old timeline, which is either all of it (an
    insertion, and then no message of the run has the id) or all of it
    but one message with the same id (an overwrite). *)
Lemma place_shape msg before run after :
  ∃ l1 l2,
    place msg before run after = l1 ++ msg :: l2 ∧
    l1 `prefix_of` before ++ run ∧ l2 `suffix_of` run ++ after ∧
    ((before ++ run ++ after = l1 ++ l2 ∧
      Forall (λ m, Message.id m ≠ Message.id msg) run) ∨
     (∃ old, Message.id old = Message.id msg ∧
       before ++ run ++ after = l1 ++ old :: l2)).
Proof.
  unfold place. destruct run as [|r run].
  { exists before, after. rewrite app_nil_r. split_and!; [done..|by left]. }
  destruct (position _ _) as [k|] eqn:Hk.
  - apply position_Some in Hk as (old & [Hold Hle]%candidate_lookup & Hid & _).
    exists (before ++ take k ((r :: run) ++ after)), (drop (S k) ((r :: run) ++ after)).
    pose proof (lookup_lt_Some _ _ _ Hold).
    rewrite insert_take_drop // -assoc. split_and!; [done| |apply suffix_drop|].
    + apply prefix_app. rewrite take_app_le //. apply prefix_take.
    + right. exists old. by rewrite -assoc take_drop_middle.
  - apply position_None, Forall_app in Hk as [Hk _].
    exists (before ++ r :: run), after. rewrite -assoc.
    split_and!; [done|done|by apply suffix_app_r|].
    left. split; [by rewrite -assoc|done].
Qed.

(** The result is sorted when the parts are in order. *)
Lemma place_sorted msg before run after :
  sorted_by Message.timestamp (before ++ run ++ after) →
  Forall (λ m, (Message.timestamp m < Message.timestamp msg)%Z) before →
  Forall (λ m, Message.timestamp m = Message.timestamp msg) run →
  Forall (λ m, (Message.timestamp msg < Message.timestamp m)%Z) after →
  sorted_by Message.timestamp (place msg before run after).
Proof.
  intros Hs Hb Hr Ha.
  destruct (place_shape msg before run after) as (l1 & l2 & -> & Hl1 & Hl2 & Hv).
  apply sorted_by_middle.
  - destruct Hv as [[<- _]|(old & _ & Hv)]; [done|]. rewrite Hv in Hs.
    revert Hs. apply sorted_by_sublist, sublist_app; [done|by apply sublist_cons].
  - apply Forall_forall. intros m Hm%(elem_of_prefix _ _ _)%elem_of_app; [|done].
    rewrite !Forall_forall in Hb Hr. destruct Hm as [?%Hb|?%Hr]; lia.
  - apply Forall_forall. intros m Hm%(elem_of_suffix _ _ _)%elem_of_app; [|done].
    rewrite !Forall_forall in Ha Hr. destruct Hm as [?%Hr|?%Ha]; lia.
Qed.

End place.

(** ** Delivering a message again *)

Section again.
Implicit Types (msg m old : Message) (v before run after : list Message).

(** The three parts of a timeline are in order around [ts]. *)
Definition parts_ok (ts : Z) before run after : Prop :=
  Forall (λ m, (Message.timestamp m < ts)%Z) before ∧
  Forall (λ m, Message.timestamp m = ts) run ∧
  Forall (λ m, (ts < Message.timestamp m)%Z) after.

Lemma parts_ok_filter ts v : parts_ok ts (below ts v) (at_ts ts v) (above ts v).
Proof. split_and!; apply Forall_filter_self. Qed.

Lemma add_spec_parts msg before run after :
  parts_ok (Message.timestamp msg) before run after →
  add_spec msg (before ++ run ++ after) = place msg before run after.
Proof.
  intros (Hb & Hr & Ha). by rewrite /add_spec parts_below // parts_at_ts // parts_above.
Qed.

Lemma place_hit msg before run after k :
  run ≠ [] →
  position (λ m, Message.id m = Message.id msg) (run ++ take 1 after) = Some k →
  place msg before run after = before ++ <[k := msg]> (run ++ after).
Proof. unfold place. destruct run; [done|]. by intros _ ->. Qed.

Lemma place_miss msg before run after :
  position (λ m, Message.id m = Message.id msg) (run ++ take 1 after) = None →
  place msg before run after = before ++ run ++ msg :: after.
Proof. unfold place. destruct run; [done|]. by intros ->. Qed.

(** A message behind a run without its id is overwritten by the next
    message with the id and the timestamp. *)
Lemma add_spec_snoc msg msg' before run after :
  Message.id msg' = Message.id msg →
  Message.timestamp msg' = Message.timestamp msg →
  parts_ok (Message.timestamp msg) before run after →
  Forall (λ m, Message.id m ≠ Message.id msg) run →
  add_spec msg' (before ++ run ++ msg :: after) = before ++ run ++ msg' :: after.
Proof.
  intros Hid Hts (Hb & Hr & Ha) Hfresh.
  rewrite (assoc _ run [msg] after : run ++ msg :: after = (run ++ [msg]) ++ after).
  rewrite add_spec_parts.
  { rewrite Hts. split_and!; [done| |done]. apply Forall_app. by split; [|constructor]. }
  rewrite (place_hit _ _ _ _ (length run)); [by destruct run| |].
  - by rewrite -assoc Hid position_skip.
  - by rewrite -assoc insert_middle.
Qed.

(** A message inside the run is overwritten where it is. *)
Lemma add_spec_inplace msg msg' before run after k :
  Message.id msg' = Message.id msg →
  Message.timestamp msg' = Message.timestamp msg →
  parts_ok (Message.timestamp msg) before run after →
  position (λ m, Message.id m = Message.id msg) (run ++ take 1 after) = Some k →
  k < length run →
  add_spec msg' (before ++ <[k := msg]> (run ++ after)) = before ++ <[k := msg']> (run ++ after).
Proof.
  intros Hid Hts (Hb & Hr & Ha) Hk Hlt. rewrite insert_app_l // add_spec_parts.
  { rewrite Hts. split_and!; [done| |done]. by apply Forall_insert. }
  rewrite (place_hit _ _ _ _ k); [destruct run; [simpl in *; lia|by destruct k]| |].
  - rewrite -insert_app_l // Hid. by apply position_insert_hit.
  - by rewrite -insert_app_l // list_insert_insert_eq.
Qed.

(** Delivering [msg] and then [msg'] with the same id and timestamp is
    delivering [msg'] alone. *)
Lemma place_twice msg msg' before run after :
  Message.id msg' = Message.id msg →
  Message.timestamp msg' = Message.timestamp msg →
  parts_ok (Message.timestamp msg) before run after →
  add_spec msg' (place msg before run after) = place msg' before run after.
Proof.
  intros Hid Hts Hok.
  destruct (position (λ m, Message.id m = Message.id msg) (run ++ take 1 after))
    as [k|] eqn:Hk; last first.
  { rewrite !place_miss // ?Hid //. apply add_spec_snoc; try done.
    by apply position_None, Forall_app in Hk as [? _]. }
  destruct run as [|r run].
  { by apply (add_spec_snoc msg msg' before []); [..|apply Forall_nil]. }
  rewrite !(place_hit _ _ _ _ k) // ?Hid //.
  destruct (decide (k < length (r :: run))); [by apply add_spec_inplace|].
  pose proof Hk as (old & [Hold Hle]%candidate_lookup & _ & Hfirst)%position_Some.
  assert (k = length (r :: run)) as -> by lia. clear Hle.
  rewrite lookup_app_r // Nat.sub_diag in Hold.
  destruct after as [|a after]; simplify_eq/=.
  destruct Hok as (Hb & Hr & [_ Ha]%Forall_cons).
  rewrite !insert_middle.
  apply (add_spec_snoc msg msg' before (r :: run) after); try done.
  apply Forall_lookup. intros j y Hy. apply (Hfirst j y).
  - by rewrite (lookup_app_l (r :: run)); [eapply lookup_lt_Some|].
  - apply lookup_lt_Some in Hy. simpl in *. lia.
Qed.

End again.

(** ** What an insertion does to a sorted timeline *)

Section add_spec.
Implicit Types (msg m old : Message) (v : list Message).

Lemma add_spec_sorted msg v :
  sorted_by Message.timestamp v → sorted_by Message.timestamp (add_spec msg v).
Proof.
  intros Hs. destruct (parts_ok_filter (Message.timestamp msg) v) as (? & ? & ?).
  apply place_sorted; [by rewrite -sorted_parts|done..].
Qed.

(** Insert or overwrite: the new timeline is the old one with [msg] put
    in, or with one message of the same id exchanged for [msg]. *)
Lemma add_spec_shape msg v :
  sorted_by Message.timestamp v →
  ∃ l1 l2, add_spec msg v = l1 ++ msg :: l2 ∧
    ((v = l1 ++ l2 ∧
      Forall (λ m, Message.id m ≠ Message.id msg) (at_ts (Message.timestamp msg) v)) ∨
     (∃ old, Message.id old = Message.id msg ∧ v = l1 ++ old :: l2)).
Proof.
  intros Hs. unfold add_spec.
  destruct (place_shape msg (below (Message.timestamp msg) v)
    (at_ts (Message.timestamp msg) v) (above (Message.timestamp msg) v))
    as (l1 & l2 & -> & _ & _ & Hv).
  rewrite -sorted_parts // in Hv. eauto.
Qed.

Lemma add_spec_elem_of msg v m :
  sorted_by Message.timestamp v → m ∈ add_spec msg v → m = msg ∨ m ∈ v.
Proof.
  intros Hs. destruct (add_spec_shape msg v Hs) as (l1 & l2 & -> & [[-> _]|(old & _ & ->)]).
  all: rewrite !elem_of_app !elem_of_cons; naive_solver.
Qed.

Lemma add_spec_elem_of_new msg v :
  sorted_by Message.timestamp v → msg ∈ add_spec msg v.
Proof.
  intros Hs. destruct (add_spec_shape msg v Hs) as (l1 & l2 & -> & _). set_solver.
Qed.

(** Messages with another id stay. *)
Lemma add_spec_elem_of_old msg v m :
  sorted_by Message.timestamp v →
  m ∈ v → Message.id m ≠ Message.id msg → m ∈ add_spec msg v.
Proof.
  intros Hs. destruct (add_spec_shape msg v Hs) as (l1 & l2 & -> & [[-> _]|(old & ? & ->)]).
  all: rewrite !elem_of_app !elem_of_cons; naive_solver.
Qed.

Lemma add_spec_twice msg msg' v :
  sorted_by Message.timestamp v →
  Message.id msg' = Message.id msg →
  Message.timestamp msg' = Message.timestamp msg →
  add_spec msg' (add_spec msg v) = add_spec msg' v.
Proof.
  intros Hs Hid Hts. transitivity (place msg' (below (Message.timestamp msg) v)
    (at_ts (Message.timestamp msg) v) (above (Message.timestamp msg) v));
    [|by rewrite /add_spec Hts].
  apply place_twice; [done..|apply parts_ok_filter].
Qed.

(** A message with a new id goes behind every message that is not
    younger: messages of one timestamp stay in the order of arrival. *)
Lemma add_spec_fresh msg v :
  Forall (λ m, Message.id m ≠ Message.id msg) v →
  add_spec msg v =
  below (Message.timestamp msg) v ++ at_ts (Message.timestamp msg) v
    ++ msg :: above (Message.timestamp msg) v.
Proof.
  intros Hv. apply place_miss, position_None, Forall_forall.
  rewrite Forall_forall in Hv. intros m Hm. apply Hv.
  apply elem_of_app in Hm as [Hm|Hm]; [|eapply elem_of_prefix in Hm; [|apply prefix_take]].
  all: by apply list_elem_of_filter in Hm as [_ ?].
Qed.

(** Ids stay unique, provided a message that is already there under the
    id carries the timestamp of the new one. *)
Lemma add_spec_unique_ids msg v :
  sorted_by Message.timestamp v →
  NoDup (Message.id <$> v) →
  (∀ m, m ∈ v → Message.id m = Message.id msg →
        Message.timestamp m = Message.timestamp msg) →
  NoDup (Message.id <$> add_spec msg v).
Proof.
  intros Hs Hnd Hts.
  destruct (add_spec_shape msg v Hs) as (l1 & l2 & -> & [[-> Hrun]|(old & Hold & ->)]).
  - rewrite fmap_app fmap_cons -Permutation_middle. rewrite fmap_app in Hnd.
    apply NoDup_cons. split; [|done]. rewrite -fmap_app.
    intros (m & Hid & Hm)%list_elem_of_fmap. rewrite Forall_forall in Hrun.
    apply (Hrun m); [|done]. apply list_elem_of_filter. split; [|done]. by apply Hts.
  - by rewrite fmap_app fmap_cons -Hold -fmap_cons -fmap_app.
Qed.

End add_spec.

(** ** [add] on the store *)

Section store_add.
Context `{!SliceSearch}.
Implicit Types (msg m : Message) (self s : t) (c : N).

Lemma wf_get s c : wf s → timeline_ok c (get s c).
Proof.
  intros Hwf. unfold get. destruct (messages s !! c) as [v|] eqn:Hv; simpl.
  - by apply (Hwf c).
  - split; constructor.
Qed.

Lemma add_is_Some msg s : is_Some (add msg s).
Proof.
  unfold add. by destruct (add_to_total msg (default [] (messages s !! Message.channel msg)))
    as [v' ->].
Qed.

(** C38: [add] never panics and its loops end, on any store, sorted or
    not: indexing [messages[i]] is in bounds, the forward loop answers
    within its fuel, and [Vec::insert] gets an index the vector has.  The
    timeline of the channel keeps its length or grows by one message. *)
Theorem add_total msg s :
  ∃ s', add msg s = Some s' ∧
    length (get s (Message.channel msg)) ≤ length (get s' (Message.channel msg))
      ≤ S (length (get s (Message.channel msg))).
Proof.
  unfold add. fold (get s (Message.channel msg)).
  destruct (add_to_total msg (get s (Message.channel msg))) as [v' Hv'].
  rewrite Hv' /=. eexists. split; [done|]. rewrite /get /= lookup_insert_eq /=.
  by apply (add_to_length msg).
Qed.

(** On a well-formed store [add] is the specification on the channel of
    the message. *)
Lemma add_wf_Some msg s :
  wf s →
  add msg s = Some {| messages :=
    <[Message.channel msg := add_spec msg (get s (Message.channel msg))]> (messages s) |}.
Proof.
  intros Hwf. unfold add. fold (get s (Message.channel msg)).
  by rewrite add_to_spec; [apply wf_get|].
Qed.

Lemma add_inv msg s s' :
  wf s → add msg s = Some s' →
  s' = {| messages :=
    <[Message.channel msg := add_spec msg (get s (Message.channel msg))]> (messages s) |}.
Proof. intros Hwf. rewrite add_wf_Some //. by intros [= <-]. Qed.

Lemma get_insert s c v c' :
  get {| messages := <[c := v]> (messages s) |} c' = if decide (c' = c) then v else get s c'.
Proof.
  unfold get. simpl.
  case_decide as Hc; [by rewrite Hc lookup_insert_eq|by rewrite lookup_insert_ne].
Qed.

Lemma wf_insert s c v :
  wf s → timeline_ok c v → wf {| messages := <[c := v]> (messages s) |}.
Proof. intros Hwf Hv. by apply map_Forall_insert_2. Qed.

Lemma timeline_ok_add_spec msg v :
  timeline_ok (Message.channel msg) v →
  timeline_ok (Message.channel msg) (add_spec msg v).
Proof.
  intros [Hs Hc]. split; [by apply add_spec_sorted|]. apply Forall_forall.
  intros m [->|Hm]%add_spec_elem_of; [done| |done].
  rewrite Forall_forall in Hc. by apply Hc.
Qed.

(** The channel of a delivered message is known to the store from then
    on. *)
Lemma add_has msg s s' : add msg s = Some s' → has s' (Message.channel msg) = true.
Proof.
  unfold add. destruct (add_to _ _) as [v'|]; [|done]. intros [= <-].
  apply bool_decide_eq_true. by rewrite /= lookup_insert_eq.
Qed.

Lemma wf_add msg s s' : wf s → add msg s = Some s' → wf s'.
Proof.
  intros Hwf ->%add_inv; [|done]. by apply wf_insert, timeline_ok_add_spec, wf_get.
Qed.

(** [add] changes the timeline of the message's channel as [add_spec]
    says and leaves every other channel alone. *)
Lemma add_get msg s s' c :
  wf s → add msg s = Some s' →
  get s' c = if decide (c = Message.channel msg) then add_spec msg (get s c) else get s c.
Proof.
  intros Hwf ->%add_inv; [|done]. rewrite get_insert. by case_decide; subst.
Qed.

(** C25: [add] keeps the store well formed: every timeline sorted by
    timestamp, every message under its own channel; and the channel of the
    message is known to the store from then on. *)
Theorem add_wf msg s s' :
  wf s → add msg s = Some s' → wf s' ∧ has s' (Message.channel msg) = true.
Proof.
  intros Hwf Hadd. split; [by eapply wf_add|by eapply add_has]. Qed.

(** C26: idempotent upsert.  Delivering a message and then a message with
    the same id, timestamp and channel leaves the store as if only the
    second had been delivered: one entry, and the second content wins. *)
Theorem add_twice msg msg' s s1 :
  wf s →
  Message.id msg' = Message.id msg →
  Message.timestamp msg' = Message.timestamp msg →
  Message.channel msg' = Message.channel msg →
  add msg s = Some s1 →
  add msg' s1 = add msg' s.
Proof.
  intros Hwf Hid Hts Hc Hadd. pose proof (wf_add _ _ _ Hwf Hadd) as Hwf1.
  apply add_inv in Hadd as ->; [|done].
  rewrite !add_wf_Some // Hc get_insert decide_True //.
  destruct (wf_get s (Message.channel msg) Hwf) as [Hs _].
  by rewrite add_spec_twice // /= insert_insert_eq.
Qed.

(** C39: order of arrival among equal timestamps.  A message whose id is
    new to its channel is put behind every message that is not younger,
    so messages of one timestamp keep the order in which they came. *)
Theorem add_fresh_order msg s s' :
  wf s →
  Forall (λ m, Message.id m ≠ Message.id msg) (get s (Message.channel msg)) →
  add msg s = Some s' →
  get s' (Message.channel msg) =
    below (Message.timestamp msg) (get s (Message.channel msg))
    ++ at_ts (Message.timestamp msg) (get s (Message.channel msg))
    ++ msg :: above (Message.timestamp msg) (get s (Message.channel msg)).
Proof.
  intros Hwf Hfresh ->%add_inv; [|done]. rewrite get_insert decide_True //.
  by apply add_spec_fresh.
Qed.

(** Ids stay unique in a timeline, provided a message that is already
    there under the id carries the new timestamp. *)
Lemma add_unique_ids msg s s' :
  wf s →
  NoDup (Message.id <$> get s (Message.channel msg)) →
  (∀ m, m ∈ get s (Message.channel msg) → Message.id m = Message.id msg →
        Message.timestamp m = Message.timestamp msg) →
  add msg s = Some s' →
  NoDup (Message.id <$> get s' (Message.channel msg)).
Proof.
  intros Hwf Hnd Hts ->%add_inv; [|done]. rewrite get_insert decide_True //.
  destruct (wf_get s (Message.channel msg) Hwf) as [Hs _]. by apply add_spec_unique_ids.
Qed.

End store_add.

(** ** [remove] *)

Section store_remove.
Implicit Types (msg m : Message) (self s : t) (c channel : N) (mid : N).

(** What the loop over the channels returns, for any order of visit. *)
Lemma remove_from_spec mid (m : gmap N (list Message)) order :
  match remove_from mid m order with
  | (m', Some c) =>
    c ∈ order ∧ ∃ v i, m !! c = Some v ∧
      position (λ msg, Message.id msg = mid) v = Some i ∧ m' = <[c := delete i v]> m
  | (m', None) =>
    m' = m ∧ ∀ c v, c ∈ order → m !! c = Some v →
      Forall (λ msg, Message.id msg ≠ mid) v
  end.
Proof.
  induction order as [|c order IH]; simpl; [split; [done|by intros ?? ?%elem_of_nil]|].
  destruct (m !! c) as [v|] eqn:Hv;
    [destruct (position (λ msg, Message.id msg = mid) v) as [i|] eqn:Hi|].
  - split; [left|]. by exists v, i.
  - destruct (remove_from mid m order) as [m' [c'|]].
    + destruct IH as [? ?]. split; [by right|done].
    + destruct IH as [-> IH]. split; [done|]. intros c' v' [->|?]%elem_of_cons ?; [|eauto].
      simplify_eq. by apply (position_None (λ msg, Message.id msg = mid)).
  - destruct (remove_from mid m order) as [m' [c'|]].
    + destruct IH as [? ?]. split; [by right|done].
    + destruct IH as [-> IH]. split; [done|]. intros c' v' [->|?]%elem_of_cons ?; [|eauto].
      simplify_eq.
Qed.

Context {order : HashOrder}.

(** A successful [remove] names a channel that held the id, deletes
    from its timeline the first message with the id and nothing else, and
    leaves all other channels as they were. *)
Lemma remove_found mid s s' c :
  remove mid s = (s', Some c) →
  ∃ i msg, get s c !! i = Some msg ∧ Message.id msg = mid ∧
    (∀ j m, get s c !! j = Some m → j < i → Message.id m ≠ mid) ∧
    get s' c = delete i (get s c) ∧
    ∀ c', c' ≠ c → get s' c' = get s c'.
Proof.
  unfold remove. pose proof (remove_from_spec mid (messages s) (iter_keys (messages s))) as Hspec.
  destruct (remove_from _ _ _) as [m' r]. intros [= <- ->].
  destruct Hspec as (_ & v & i & Hv & (msg & ? & ? & ?)%position_Some & ->).
  exists i, msg. rewrite /get /= Hv lookup_insert_eq /=. split_and!; try done.
  intros c' ?. by rewrite lookup_insert_ne.
Qed.

Lemma remove_None mid s :
  (remove mid s).2 = None → ∀ c, Forall (λ msg, Message.id msg ≠ mid) (get s c).
Proof.
  unfold remove. pose proof (remove_from_spec mid (messages s) (iter_keys (messages s))) as Hspec.
  destruct (remove_from _ _ _) as [m' [c'|]]; simpl; [done|].
  destruct Hspec as [_ Hno]. intros _ c. unfold get.
  destruct (messages s !! c) as [v|] eqn:Hv; simpl; [|constructor].
  apply (Hno c v); [|done]. apply iter_keys_elem_of. by eexists.
Qed.

Lemma remove_Some mid s c :
  (remove mid s).2 = Some c → Exists (λ msg, Message.id msg = mid) (get s c).
Proof.
  unfold remove. pose proof (remove_from_spec mid (messages s) (iter_keys (messages s))) as Hspec.
  destruct (remove_from _ _ _) as [m' [c'|]]; simpl; intros [= ->].
  destruct Hspec as (_ & v & i & Hv & (msg & Hm%list_elem_of_lookup_2 & ? & _)%position_Some & _).
  rewrite /get Hv /=. apply Exists_exists. eauto.
Qed.

Lemma remove_absent_same mid s : (remove mid s).2 = None → (remove mid s).1 = s.
Proof.
  unfold remove. pose proof (remove_from_spec mid (messages s) (iter_keys (messages s))) as Hspec.
  destruct (remove_from _ _ _) as [m' [c|]]; simpl; [done|].
  destruct Hspec as [-> _]. by destruct s.
Qed.

(** [remove] answers "not found" exactly when no timeline holds the
    id, and then the store is unchanged. *)
Lemma remove_absent mid s :
  ((remove mid s).2 = None ↔ ∀ c, Forall (λ msg, Message.id msg ≠ mid) (get s c)) ∧
  ((remove mid s).2 = None → (remove mid s).1 = s).
Proof.
  split; [split; [apply remove_None|]|apply remove_absent_same].
  intros Hall. destruct (remove mid s).2 as [c|] eqn:Hr; [|done].
  apply remove_Some, Exists_exists in Hr as (msg & Hin & Hid).
  specialize (Hall c). rewrite Forall_forall in Hall. by destruct (Hall msg Hin).
Qed.

(** C27: [remove], by what it returns.  With a channel, that channel
    held the id: the first message with the id is deleted from its
    timeline, nothing else is, and all other channels are as they were.
    With [None], no timeline holds the id and the store is as it was. *)
Theorem remove_cases mid s :
  match (remove mid s).2 with
  | Some c =>
    ∃ i msg, get s c !! i = Some msg ∧ Message.id msg = mid ∧
      (∀ j m, get s c !! j = Some m → j < i → Message.id m ≠ mid) ∧
      get (remove mid s).1 c = delete i (get s c) ∧
      ∀ c', c' ≠ c → get (remove mid s).1 c' = get s c'
  | None =>
    (∀ c, Forall (λ msg, Message.id msg ≠ mid) (get s c)) ∧ (remove mid s).1 = s
  end.
Proof.
  destruct (remove mid s) as [s' [c|]] eqn:Hr; simpl.
  - by apply remove_found.
  - destruct (remove_absent mid s) as [Hnone Hsame]. rewrite Hr in Hnone, Hsame.
    split; [by apply Hnone|by apply Hsame].
Qed.

Lemma wf_remove mid s : wf s → wf (remove mid s).1.
Proof.
  intros Hwf. unfold remove.
  pose proof (remove_from_spec mid (messages s) (iter_keys (messages s))) as Hspec.
  destruct (remove_from _ _ _) as [m' [c|]]; simpl.
  - destruct Hspec as (_ & v & i & Hv & _ & ->). apply map_Forall_insert_2; [|done].
    destruct (Hwf c v Hv) as [Hs Hc]. split; [by apply sorted_by_delete|].
    revert Hc. apply Forall_of_sublist, sublist_delete.
  - by destruct Hspec as [-> _].
Qed.

(** A channel stays known when its last message is removed: [has] tells
    a channel that was loaded and is empty from one never loaded. *)
Lemma remove_has mid s c : has (remove mid s).1 c = has s c.
Proof.
  unfold remove, has.
  pose proof (remove_from_spec mid (messages s) (iter_keys (messages s))) as Hspec.
  destruct (remove_from _ _ _) as [m' [c'|]]; simpl; [|by destruct Hspec as [-> _]].
  destruct Hspec as (_ & v & i & Hv & _ & ->). apply bool_decide_ext.
  destruct (decide (c = c')) as [->|]; [|by rewrite lookup_insert_ne].
  rewrite lookup_insert_eq Hv. by split; eexists.
Qed.

(** [remove] keeps the store well formed, and no channel is
    forgotten: a timeline emptied by the removal is still there. *)
Lemma remove_wf mid s :
  wf s → wf (remove mid s).1 ∧ ∀ c, has (remove mid s).1 c = has s c.
Proof. intros Hwf. split; [by apply wf_remove|apply remove_has]. Qed.

End store_remove.

Lemma get_lookup_Some s c i (m : Message) :
  get s c !! i = Some m → ∃ v, messages s !! c = Some v ∧ v !! i = Some m.
Proof. unfold get. destruct (messages s !! c) as [v|]; [by exists v|done]. Qed.

(** When the id lives in one channel only, as server-assigned ids
    do, the result of [remove] does not depend on the order in which the
    HashMap yields the channels. *)
Lemma remove_order_irrelevant (O1 O2 : HashOrder) mid s :
  one_channel mid s → @remove O1 mid s = @remove O2 mid s.
Proof.
  intros Hone.
  pose proof (remove_None (order:=O1) mid s) as A1.
  pose proof (remove_None (order:=O2) mid s) as A2.
  pose proof (remove_absent_same (order:=O1) mid s) as E1.
  pose proof (remove_absent_same (order:=O2) mid s) as E2.
  pose proof (remove_from_spec mid (messages s) (@iter_keys O1 _ _ _ _ (messages s))) as R1.
  pose proof (remove_from_spec mid (messages s) (@iter_keys O2 _ _ _ _ (messages s))) as R2.
  unfold remove in *.
  destruct (remove_from _ _ (@iter_keys O1 _ _ _ _ _)) as [m1 [c1|]],
    (remove_from _ _ (@iter_keys O2 _ _ _ _ _)) as [m2 [c2|]]; simpl in *.
  - destruct R1 as (_ & v1 & j1 & Hv1 & Hj1 & ->), R2 as (_ & v2 & j2 & Hv2 & Hj2 & ->).
    assert (c1 = c2) as <-; [|by simplify_eq].
    pose proof Hj1 as (x1 & ?%list_elem_of_lookup_2 & ? & _)%position_Some.
    pose proof Hj2 as (x2 & ?%list_elem_of_lookup_2 & ? & _)%position_Some.
    apply (Hone c1 v1 Hv1 c2 v2 Hv2); apply Exists_exists; eauto.
  - destruct R1 as (_ & v1 & j1 & Hv1 & (x & Hx & ? & _)%position_Some & _).
    specialize (A2 eq_refl c1). rewrite /get Hv1 /= Forall_lookup in A2.
    by destruct (A2 j1 x).
  - destruct R2 as (_ & v2 & j2 & Hv2 & (x & Hx & ? & _)%position_Some & _).
    specialize (A1 eq_refl c2). rewrite /get Hv2 /= Forall_lookup in A1.
    by destruct (A1 j2 x).
  - by rewrite E1 // E2.
Qed.

(** ** The stores the client can reach *)

Section reachable.
Context {search : SliceSearch} {order : HashOrder}.

(** One mutation of the store: a message delivered or a message deleted. *)
Inductive step : t → t → Prop :=
| step_add msg s s' : add msg s = Some s' → step s s'
| step_remove mid s : step s (remove mid s).1.

Lemma step_wf s s' : step s s' → wf s → wf s'.
Proof.
  intros [msg s1 s2 Hadd|mid s1] Hwf; [by apply (wf_add msg s1)|by apply wf_remove].
Qed.

(** C6: every store reached from the empty one by deliveries and
    deletions, in any order, is well formed; in particular every timeline
    [get] hands out is sorted by timestamp. *)
Theorem reachable_wf s : rtc step new s → wf s.
Proof.
  intros Hr. apply rtc_nsteps in Hr as [n Hr].
  revert s Hr. induction n as [|n IH]; intros s Hr.
  - inversion Hr; subst. apply map_Forall_empty.
  - apply nsteps_inv_r in Hr as (s0 & Hr & Hstep). specialize (IH _ Hr).
    by eapply step_wf.
Qed.

End reachable.

(** ** Concrete stores, to run the model on *)

Section examples.

Definition ex_msg (c mid : N) (ts : Z) (body : string) : Message :=
  {| Message.author := 7; Message.channel := c; Message.id := mid;
     Message.text := body; Message.timestamp := ts |}.

(** Three messages of channel 1 share the timestamp 20. *)
Definition ex_timeline : list Message :=
  [ex_msg 1 1 10 "a"; ex_msg 1 2 20 "b"; ex_msg 1 3 20 "c"; ex_msg 1 4 20 "d";
   ex_msg 1 5 30 "e"].

Definition ex_store : t :=
  {| messages := {[ 1%N := ex_timeline; 2%N := [ex_msg 2 8 5 "z"] ]} |}.

(** An edit of message 3, and a second edit of it. *)
Definition ex_edit : Message := ex_msg 1 3 20 "edited".
Definition ex_edit2 : Message := ex_msg 1 3 20 "edited again".
Definition ex_store_edit : t :=
  {| messages := {[ 1%N := <[2 := ex_edit]> ex_timeline; 2%N := [ex_msg 2 8 5 "z"] ]} |}.

(** A new message with the contested timestamp. *)
Definition ex_fresh : Message := ex_msg 1 9 20 "new".

Lemma ex_timeline_sorted : sorted_by Message.timestamp ex_timeline.
Proof. by apply (bool_decide_unpack _). Qed.

Lemma ex_store_wf : wf ex_store.
Proof. by apply (bool_decide_unpack _). Qed.

Lemma ex_add_edit : add ex_edit ex_store = Some ex_store_edit.
Proof. by vm_compute. Qed.

Lemma add_to_place_witness :
  add_to ex_edit ex_timeline = Some (add_spec ex_edit ex_timeline) ∧
  add_to ex_edit ex_timeline = add_to ex_edit ex_timeline.
Proof. apply (add_to_place std_search std_search), ex_timeline_sorted. Defined.

Lemma add_get_witness :
  get ex_store_edit 2 =
  if decide (2%N = Message.channel ex_edit) then add_spec ex_edit (get ex_store 2)
  else get ex_store 2.
Proof. apply (add_get ex_edit ex_store), ex_add_edit. apply ex_store_wf. Defined.

Lemma add_wf_witness : wf ex_store_edit ∧ has ex_store_edit 1 = true.
Proof. apply (add_wf ex_edit ex_store), ex_add_edit. apply ex_store_wf. Defined.

Lemma add_twice_witness : add ex_edit2 ex_store_edit = add ex_edit2 ex_store.
Proof. apply (add_twice ex_edit); [apply ex_store_wf|done..|apply ex_add_edit]. Defined.

Definition ex_store_fresh : t := default ex_store (add ex_fresh ex_store).

Lemma ex_add_fresh : add ex_fresh ex_store = Some ex_store_fresh.
Proof. by vm_compute. Qed.

Lemma add_fresh_order_witness :
  Message.id <$> get ex_store_fresh 1 = [1; 2; 3; 4; 9; 5]%N.
Proof.
  rewrite (add_fresh_order ex_fresh ex_store ex_store_fresh ex_store_wf);
    [by apply (bool_decide_unpack _)|apply ex_add_fresh|done].
Defined.

Lemma ex_add_unique_ids : NoDup (Message.id <$> get ex_store_edit 1).
Proof.
  apply (add_unique_ids ex_edit ex_store ex_store_edit ex_store_wf); [..|apply ex_add_edit].
  - by apply (bool_decide_unpack _).
  - apply (Forall_forall (λ m, Message.id m = Message.id ex_edit →
      Message.timestamp m = Message.timestamp ex_edit)).
    by apply (bool_decide_unpack _).
Qed.

(** Message 3 is deleted. *)
Definition ex_store_removed : t :=
  {| messages := {[ 1%N := delete 2 ex_timeline; 2%N := [ex_msg 2 8 5 "z"] ]} |}.

Lemma ex_remove : remove 3 ex_store = (ex_store_removed, Some 1%N).
Proof. by vm_compute. Qed.

Lemma ex_remove_found :
  ∃ i msg, get ex_store 1 !! i = Some msg ∧ Message.id msg = 3%N ∧
    (∀ j m, get ex_store 1 !! j = Some m → j < i → Message.id m ≠ 3%N) ∧
    get ex_store_removed 1 = delete i (get ex_store 1) ∧
    ∀ c', c' ≠ 1%N → get ex_store_removed c' = get ex_store c'.
Proof. apply (remove_found 3 ex_store ex_store_removed 1), ex_remove. Qed.

Lemma remove_wf_witness :
  wf (remove 3 ex_store).1 ∧ ∀ c, has (remove 3 ex_store).1 c = has ex_store c.
Proof. apply remove_wf, ex_store_wf. Defined.

(** The two orders visit the channels of [ex_store] in opposite order
    and still agree on the removal. *)
Lemma ex_remove_order_irrelevant :
  @remove trie_order 3 ex_store = @remove reverse_order 3 ex_store.
Proof. apply remove_order_irrelevant. by apply (bool_decide_unpack _). Qed.

(** Two deliveries out of order and a deletion, from the empty store. *)
Definition ex_s1 : t := default new (add (ex_msg 1 2 20 "b") new).
Definition ex_s2 : t := default ex_s1 (add (ex_msg 1 1 10 "a") ex_s1).
Definition ex_s3 : t := (remove 2 ex_s2).1.

Lemma ex_reachable : rtc step new ex_s3.
Proof.
  eapply rtc_l; [apply (step_add (ex_msg 1 2 20 "b") new ex_s1); by vm_compute|].
  eapply rtc_l; [apply (step_add (ex_msg 1 1 10 "a") ex_s1 ex_s2); by vm_compute|].
  apply rtc_once, step_remove.
Qed.

Lemma reachable_wf_witness : wf ex_s3.
Proof. apply reachable_wf, ex_reachable. Defined.

(** A message that comes again under its id with another timestamp is
    not found by the scan, which only looks at the run of its new
    timestamp: the timeline then holds the id twice. *)
Lemma ex_add_moved :
  (λ s, Message.id <$> get s 1) <$> add (ex_msg 1 3 25 "moved") ex_store =
  Some [1; 2; 3; 4; 3; 5]%N.
Proof. by vm_compute. Qed.

(** With the id 8 in both channels, the channel [remove] takes it from,
    and the channel it reports, depend on the order of the map. *)
Lemma ex_remove_two_channels :
  let s := default ex_store (add (ex_msg 1 8 40 "f") ex_store) in
  (@remove trie_order 8 s).2 ≠ (@remove reverse_order 8 s).2.
Proof. by vm_compute. Qed.

End examples.

End Messages.
