(* ===== verification/Format.v ===== *)
(** * The text of a timestamp (messages.rs, [format_timestamp])

    [format_timestamp] turns the time of a message into the text the
    window shows: the day, relative to today for the last week and as a
    date before, and the time on a twelve hour clock.

    The function reads two moments broken down by [chrono]: the time of
    the message in the time zone of the machine, and now.
    [format_timestamp] takes them as records of the fields the function
    reads.  [format_timestamp_at] is the function on the seconds the
    message carries: [chrono] breaks them down ([naive], with the days
    turned into a date of the Gregorian calendar by [civil_from_days])
    and panics on a moment outside the dates it can hold.  The dates
    [chrono] can hold and the offset of the time zone of the machine are
    the interface [Chrono].  [markdown], the other free function of
    messages.rs, hands its argument to the [pulldown_cmark] crate and is
    not modelled. *)

From Stdlib Require Import ssreflect.
From stdpp Require Import list strings pretty.
From S2P Require Import Prelude.

Open Scope general_if_scope.

(** ** The calendar of [chrono] *)

(** What [chrono] is asked for: the first and the last day a
    [NaiveDate] can hold, in days since 1970-01-01, and the offset of the
    time zone of the machine from UTC, in seconds, at a moment given in
    seconds since 1970-01-01 00:00:00 UTC. *)
Class Chrono := {
  MIN_DAY : Z;
  MAX_DAY : Z;
  local_offset : Z → Z;
}.

(** The date of a day of the proleptic Gregorian calendar, from the
    number of days since 1970-01-01: year, month and day of the month.
    The era has 400 years and starts on the first of March; the day of
    the era gives the year of the era, the day of that year the month. *)
Definition civil_from_days (z : Z) : Z * Z * Z :=
  let z := (z + 719468)%Z in
  let era := (z `div` 146097)%Z in
  let doe := (z `mod` 146097)%Z in
  let yoe := ((doe - doe `div` 1460 + doe `div` 36524 - doe `div` 146096) `div` 365)%Z in
  let doy := (doe - (365 * yoe + yoe `div` 4 - yoe `div` 100))%Z in
  let mp := ((5 * doy + 2) `div` 153)%Z in
  let d := (doy - (153 * mp + 2) `div` 5 + 1)%Z in
  let m := (if decide (mp < 10) then mp + 3 else mp - 9)%Z in
  ((yoe + era * 400 + if decide (m ≤ 2) then 1 else 0)%Z, m, d).

(** The years with a 29th of February, and the days of a month. *)
Definition is_leap (y : Z) : Prop :=
  (y `mod` 4 = 0 ∧ (y `mod` 100 ≠ 0 ∨ y `mod` 400 = 0))%Z.

#[export] Instance is_leap_dec y : Decision (is_leap y).
Proof. unfold is_leap. apply _. Defined.

Definition days_in_month (y m : Z) : Z :=
  if decide (m = 2)%Z then (if decide (is_leap y) then 29 else 28)%Z
  else if decide (m = 4 ∨ m = 6 ∨ m = 9 ∨ m = 11)%Z then 30%Z else 31%Z.

(** A date of the calendar. *)
Definition valid_date (y m d : Z) : Prop := (1 ≤ m ≤ 12 ∧ 1 ≤ d ≤ days_in_month y m)%Z.

(** The way back: the number of days since 1970-01-01 of a date. *)
Definition days_from_civil (y m d : Z) : Z :=
  let y := (if decide (m ≤ 2) then y - 1 else y)%Z in
  let era := (y `div` 400)%Z in
  let yoe := (y `mod` 400)%Z in
  let doy := ((153 * (if decide (2 < m) then m - 3 else m + 9) + 2) `div` 5 + d - 1)%Z in
  let doe := (yoe * 365 + yoe `div` 4 - yoe `div` 100 + doy)%Z in
  (era * 146097 + doe - 719468)%Z.

(** What [format_timestamp] reads of a [DateTime<Local>]. *)
Record DateTime := {
  num_days_from_ce : Z;
  year : Z;
  month : N;
  day : N;
  hour : N;
  minute : N;
}.

(** [Timelike::hour12]: whether it is afternoon, and the hour from 1 to
    12. *)
Definition hour12 (local : DateTime) : bool * N :=
  let hour12 := (hour local `mod` 12)%N in
  (bool_decide (12 ≤ hour local)%N, if decide (hour12 = 0%N) then 12%N else hour12).

(** [{:02}]: at least two digits, filled with zeros. *)
Definition pad2 (x : N) : string :=
  if decide (x < 10)%N then "0" +:+ pretty x else pretty x.

(** The [match] on the days between the message and now. *)
Definition day_text (now local : DateTime) : string :=
  let x := (num_days_from_ce now - num_days_from_ce local)%Z in
  if decide (x = 0)%Z then "Today"
  else if decide (x = 1)%Z then "Yesterday"
  else if decide (x = 2)%Z then "Two days ago"
  else if decide (x = 3)%Z then "Three days ago"
  else if decide (x < 7)%Z then "A few days ago"
  else if decide (x = 7)%Z then "A week ago"
  else pretty (year local) +:+ "-" +:+ pretty (month local) +:+ "-" +:+ pretty (day local).

(** [format_timestamp], as what it appends to [output]. *)
Definition format_timestamp (now local : DateTime) : string :=
  let '(is_pm, hour) := hour12 local in
  day_text now local +:+ " at " +:+ pretty hour +:+ ":" +:+ pad2 (minute local) +:+ " "
    +:+ (if is_pm : bool then "PM" else "AM").

Section chrono.
Context {chrono : Chrono}.

(** [NaiveDateTime::from_timestamp_opt]: the moment [secs] seconds
    after 1970-01-01 00:00:00, broken down; nothing when its day is not
    one [chrono] can hold.  1970-01-01 is day 719163 of the common era. *)
Definition naive (secs : Z) : option DateTime :=
  let days := (secs `div` 86400)%Z in
  let rest := (secs `mod` 86400)%Z in
  if decide (MIN_DAY ≤ days ≤ MAX_DAY)%Z then
    let '(y, m, d) := civil_from_days days in
    Some {| num_days_from_ce := days + 719163; year := y; month := Z.to_N m;
            day := Z.to_N d; hour := Z.to_N (rest `div` 3600);
            minute := Z.to_N (rest `mod` 3600 `div` 60) |}
  else None.

(** A moment in the time zone of the machine, as its fields are read. *)
Definition local (secs : Z) : option DateTime := naive (secs + local_offset secs).

(** [format_timestamp] on the seconds of the message, at the moment
    [now]: [Utc.timestamp] panics on seconds [chrono] cannot hold, and so
    does the first look at a field of a local time it cannot hold. *)
Definition format_timestamp_at (now timestamp : Z) : option string :=
  _ ← naive timestamp;
  message ← local timestamp;
  now ← local now;
  Some (format_timestamp now message).

End chrono.

(** ** Facts *)

Section facts.
Implicit Types (now local : DateTime) (x : N).

(** The twelve hour clock shows an hour from 1 to 12 and loses nothing:
    the hour of the day is read back from it. *)
Lemma hour12_spec local :
  (hour local < 24)%N →
  (1 ≤ (hour12 local).2 ≤ 12)%N ∧
  hour local = ((if (hour12 local).1 then 12 else 0) + (hour12 local).2 `mod` 12)%N.
Proof.
  unfold hour12. generalize (hour local). apply (N_below _ 24). compute_done.
Qed.

(** The minute takes two characters. *)
Lemma pad2_length x : (x < 60)%N → String.length (pad2 x) = 2.
Proof. revert x. apply (N_below _ 60). compute_done. Qed.

(** The day of a timestamp, by the number of days [x] the message
    lies back: the four nearest days and the seventh have a name, the
    fourth to the sixth are "a few days ago", and what is older shows its
    date.  A message of a day that has not come yet, as a clock that runs
    ahead makes it, is "a few days ago" as well: the guard [x < 7] takes
    every negative number. *)
Lemma day_text_cases now local :
  let x := (num_days_from_ce now - num_days_from_ce local)%Z in
  day_text now local =
  if decide (x < 0 ∨ 4 ≤ x ≤ 6)%Z then "A few days ago"
  else if decide (x = 0)%Z then "Today"
  else if decide (x = 1)%Z then "Yesterday"
  else if decide (x = 2)%Z then "Two days ago"
  else if decide (x = 3)%Z then "Three days ago"
  else if decide (x = 7)%Z then "A week ago"
  else pretty (year local) +:+ "-" +:+ pretty (month local) +:+ "-" +:+ pretty (day local).
Proof. intros x. unfold day_text. fold x. repeat case_decide; try lia; done. Qed.

(** The text has the shape [day at h:mm AM] or [day at h:mm PM], with an
    hour from 1 to 12 and a minute of two digits. *)
Lemma format_timestamp_shape now local :
  (hour local < 24)%N → (minute local < 60)%N →
  ∃ h mm half, format_timestamp now local =
      day_text now local +:+ " at " +:+ pretty h +:+ ":" +:+ mm +:+ " " +:+ half ∧
    (1 ≤ h ≤ 12)%N ∧ String.length mm = 2 ∧ (half = "AM" ∨ half = "PM")%string.
Proof.
  intros [Hh _]%hour12_spec Hm%pad2_length. unfold format_timestamp.
  destruct (hour12 local) as [[|] h]; eexists h, _, _; (split; [done|]); auto.
Qed.

End facts.

(** *** The calendar *)

(** Every day has a date of the calendar: a month from 1 to 12 and a day
    the month has in that year. *)
Lemma civil_from_days_valid z : let '(y, m, d) := civil_from_days z in valid_date y m d.
Proof.
  unfold civil_from_days, valid_date, days_in_month, is_leap.
  repeat case_decide; Z.div_mod_to_equations; lia.
Qed.

(** The date of a day leads back to the day: no two days have the same
    date. *)
Lemma days_from_civil_from_days z :
  let '(y, m, d) := civil_from_days z in days_from_civil y m d = z.
Proof.
  unfold civil_from_days, days_from_civil. repeat case_decide; Z.div_mod_to_equations; lia.
Qed.

Section chrono_facts.
Context {chrono : Chrono}.
Implicit Types (secs now timestamp : Z) (dt : DateTime).

(** The moments [chrono] can break down. *)
Lemma naive_is_Some secs : is_Some (naive secs) ↔ (MIN_DAY ≤ secs `div` 86400 ≤ MAX_DAY)%Z.
Proof.
  unfold naive. case_decide; [|by split; [intros []|]].
  destruct (civil_from_days _) as [[y m] d]. by split.
Qed.

(** The hour and the minute of a moment are those of a clock, and its
    day counts from the first day of the common era. *)
Lemma naive_bounds secs dt :
  naive secs = Some dt →
  (hour dt < 24)%N ∧ (minute dt < 60)%N ∧
  num_days_from_ce dt = (secs `div` 86400 + 719163)%Z.
Proof.
  unfold naive. case_decide; [|done]. destruct (civil_from_days _) as [[y m] d].
  intros [= <-]. simpl.
  pose proof (Z.mod_pos_bound secs 86400 ltac:(done)).
  pose proof (Z.mod_pos_bound (secs `mod` 86400) 3600 ltac:(done)).
  split_and!; [| |done].
  - apply N2Z.inj_lt. rewrite Z2N.id; [apply Z.div_pos; lia|].
    apply Z.div_lt_upper_bound; lia.
  - apply N2Z.inj_lt. rewrite Z2N.id; [apply Z.div_pos; lia|].
    apply Z.div_lt_upper_bound; lia.
Qed.

(** The date of a moment is a date of the calendar, and the date of its
    day. *)
Lemma naive_date secs dt :
  naive secs = Some dt →
  valid_date (year dt) (Z.of_N (month dt)) (Z.of_N (day dt)) ∧
  days_from_civil (year dt) (Z.of_N (month dt)) (Z.of_N (day dt)) = (secs `div` 86400)%Z.
Proof.
  unfold naive. case_decide; [|done].
  pose proof (civil_from_days_valid (secs `div` 86400)) as Hvalid.
  pose proof (days_from_civil_from_days (secs `div` 86400)) as Hback.
  destruct (civil_from_days _) as [[y m] d]. intros [= <-]. simpl.
  destruct Hvalid as [Hm Hd]. by rewrite !Z2N.id; [lia..|].
Qed.

(** The text of a timestamp is drawn exactly when the day of the
    message, in UTC and in the time zone of the machine, and the day of
    the moment it is drawn are days [chrono] can hold: on any other
    timestamp [format_timestamp] panics. *)
Lemma format_timestamp_at_is_Some now timestamp :
  is_Some (format_timestamp_at now timestamp) ↔
  (MIN_DAY ≤ timestamp `div` 86400 ≤ MAX_DAY)%Z ∧
  (MIN_DAY ≤ (timestamp + local_offset timestamp) `div` 86400 ≤ MAX_DAY)%Z ∧
  (MIN_DAY ≤ (now + local_offset now) `div` 86400 ≤ MAX_DAY)%Z.
Proof.
  rewrite -!naive_is_Some /format_timestamp_at /local.
  destruct (naive timestamp), (naive (timestamp + _)), (naive (now + _)); simpl;
    split; try (intros (? & ? & ?)); try done; by inversion 1.
Qed.

(** Whatever the seconds, a text that is drawn has the shape
    [day at h:mm AM] or [day at h:mm PM]. *)
Lemma format_timestamp_at_shape now timestamp text :
  format_timestamp_at now timestamp = Some text →
  ∃ day h mm half, text = day +:+ " at " +:+ pretty h +:+ ":" +:+ mm +:+ " " +:+ half ∧
    (1 ≤ h ≤ 12)%N ∧ String.length mm = 2 ∧ (half = "AM" ∨ half = "PM")%string.
Proof.
  unfold format_timestamp_at, local.
  destruct (naive timestamp); [|done].
  destruct (naive (timestamp + _)) as [message|] eqn:Hm; [|done].
  destruct (naive (now + _)) as [now'|]; [|done]. intros [= <-].
  apply naive_bounds in Hm as (Hh & Hmin & _).
  destruct (format_timestamp_shape now' message Hh Hmin) as (h & mm & half & -> & ?).
  by exists (day_text now' message), h, mm, half.
Qed.

(** The date of a moment is the date of its day. *)
Lemma naive_fields secs dt :
  naive secs = Some dt →
  (year dt, Z.of_N (month dt), Z.of_N (day dt)) = civil_from_days (secs `div` 86400).
Proof.
  unfold naive. case_decide; [|done].
  pose proof (civil_from_days_valid (secs `div` 86400)) as Hvalid.
  destruct (civil_from_days _) as [[y m] d]. intros [= <-]. simpl.
  destruct Hvalid as [Hm Hd]. by rewrite !Z2N.id; [lia..|].
Qed.

(** C40: the text of a timestamp, from the seconds of the message and of
    the moment it is drawn.  [format_timestamp] panics exactly when the
    day of the message, in UTC or in the time zone of the machine, or the
    day of that moment is not a day [chrono] can hold.  Otherwise the text
    is a day, an hour from 1 to 12, a minute of two digits and the half of
    the day; the day goes by the number of local days [x] the message
    lies back: the four nearest days and the seventh have a name, the
    fourth to the sixth are "a few days ago", as is every day that has not
    come yet, since the guard [x < 7] takes every negative number, and
    what is older shows the date of its local day. *)
Theorem format_timestamp_at_cases now timestamp :
  let day_of secs := ((secs + local_offset secs) `div` 86400)%Z in
  let held z := (MIN_DAY ≤ z ≤ MAX_DAY)%Z in
  let x := (day_of now - day_of timestamp)%Z in
  match format_timestamp_at now timestamp with
  | None => ¬ (held (timestamp `div` 86400)%Z ∧ held (day_of timestamp) ∧ held (day_of now))
  | Some text =>
    held (timestamp `div` 86400)%Z ∧ held (day_of timestamp) ∧ held (day_of now) ∧
    ∃ y m d h mm half,
      civil_from_days (day_of timestamp) = (y, Z.of_N m, Z.of_N d) ∧
      (1 ≤ h ≤ 12)%N ∧ String.length mm = 2 ∧ (half = "AM" ∨ half = "PM")%string ∧
      text =
        (if decide (x < 0 ∨ 4 ≤ x ≤ 6)%Z then "A few days ago"
         else if decide (x = 0)%Z then "Today"
         else if decide (x = 1)%Z then "Yesterday"
         else if decide (x = 2)%Z then "Two days ago"
         else if decide (x = 3)%Z then "Three days ago"
         else if decide (x = 7)%Z then "A week ago"
         else pretty y +:+ "-" +:+ pretty m +:+ "-" +:+ pretty d)
        +:+ " at " +:+ pretty h +:+ ":" +:+ mm +:+ " " +:+ half
  end.
Proof.
  intros day_of held x. pose proof (format_timestamp_at_is_Some now timestamp) as Hsome.
  destruct (format_timestamp_at now timestamp) as [text|] eqn:Hf;
    [|intros Hr%Hsome; by destruct Hr].
  destruct (proj1 Hsome ltac:(by eexists)) as (H1 & H2 & H3). split_and!; [done..|].
  revert Hf. unfold format_timestamp_at, local. destruct (naive timestamp); [|done].
  destruct (naive (timestamp + _)) as [message|] eqn:Hm; [|done].
  destruct (naive (now + _)) as [now'|] eqn:Hn; [|done]. intros [= <-].
  pose proof (naive_bounds _ _ Hm) as (Hh & Hmin & Hdm).
  pose proof (naive_bounds _ _ Hn) as (_ & _ & Hdn).
  destruct (format_timestamp_shape now' message Hh Hmin) as (h & mm & half & -> & ? & ? & ?).
  exists (year message), (month message), (day message), h, mm, half.
  split; [symmetry; apply (naive_fields _ _ Hm)|]. do 3 (split; [done|]).
  rewrite day_text_cases Hdm Hdn.
  by replace (_ + 719163 - _)%Z with x by (unfold x, day_of; lia).
Qed.

End chrono_facts.

(** ** Examples *)

(** The dates [chrono] holds, from the first day of the year -262144 to
    the last of the year 262143, on a machine one hour east of UTC. *)
#[local] Instance ex_chrono : Chrono :=
  {| MIN_DAY := days_from_civil (-262144) 1 1; MAX_DAY := days_from_civil 262143 12 31;
     local_offset := λ _, 3600%Z |}.

(** Days of the calendar: the first of the era of Unix and the day
    before, a day of February in a leap year and the days around the end
    of a February that has none, and the way back. *)
Lemma ex_civil :
  civil_from_days <$> [0; -1; 11016; 10956; 10957; 17838; -719468; -719469]%Z =
  [(1970, 1, 1); (1969, 12, 31); (2000, 2, 29); (1999, 12, 31); (2000, 1, 1);
   (2018, 11, 3); (0, 3, 1); (0, 2, 29)]%Z.
Proof. by vm_compute. Qed.

(** The third of November 2018, five past ten in the morning in UTC. *)
Definition ex_now : DateTime :=
  {| num_days_from_ce := 737001; year := 2018; month := 11; day := 3; hour := 11; minute := 5 |}.

Lemma ex_naive : local 1541239505 = Some ex_now.
Proof. by vm_compute. Qed.

(** A message of the afternoon before, and one of the morning after. *)
Definition ex_yesterday : DateTime :=
  {| num_days_from_ce := 737000; year := 2018; month := 11; day := 2; hour := 15; minute := 7 |}.

Definition ex_tomorrow : DateTime :=
  {| num_days_from_ce := 737002; year := 2018; month := 11; day := 4; hour := 0; minute := 30 |}.

Lemma ex_format_yesterday : format_timestamp ex_now ex_yesterday = "Yesterday at 3:07 PM"%string.
Proof. by vm_compute. Qed.

Lemma ex_format_tomorrow :
  format_timestamp ex_now ex_tomorrow = "A few days ago at 12:30 AM"%string.
Proof. by vm_compute. Qed.

(** The same from the seconds of the messages; a message of the first
    hour of 1970 in UTC and one of nine days before now show their
    date. *)
Lemma ex_format_at :
  format_timestamp_at 1541239505 <$> [1541167620; 1541287800; 0; 1540461905]%Z =
  Some <$> ["Yesterday at 3:07 PM"; "A few days ago at 12:30 AM"; "1970-1-1 at 1:00 AM";
            "2018-10-25 at 11:05 AM"]%string.
Proof. by vm_compute. Qed.

(** A message whose timestamp is the largest the protocol can carry is
    not drawn: [format_timestamp] panics. *)
Lemma ex_format_panics : format_timestamp_at 1541239505 (2 ^ 63 - 1) = None.
Proof. by vm_compute. Qed.
