(* ===== verification/Addr.v ===== *)
(** * Server addresses and [parse_addr]

    [parse_addr] (connections.rs) turns the text of a server address into a
    resolved [SocketAddr].  It splits the text at its last colon with
    [rsplitn(2, ':')], parses what follows the colon as a [u16], falls back
    to the port of the protocol when there is no colon, and hands host and
    port to [ToSocketAddrs], of which it keeps the first answer.

    The string routines of the standard library are modelled by their
    algorithms: [rsplitn2] is the reverse split limited to two parts,
    [u16_from_str] the digit loop of [from_str_radix] with its checked
    multiplication and addition.  Name resolution is the interface [StdNet]:
    it promises that answers carry the port that was asked for and that a
    dotted-quad literal is its own answer.  [hosts_net] implements the
    interface from a table of host names. *)

From Stdlib Require Import ssreflect Ascii.
From stdpp Require Import gmap list strings pretty.
From S2P Require Import Prelude.

Open Scope general_if_scope.

(** ** Addresses *)

(** [std::net::IpAddr].  A version 6 address is identified by the text
    [Display] prints for it. *)
Inductive IpAddr :=
  | V4 (a b c d : N)
  | V6 (text : string).

Record SocketAddr := { ip : IpAddr; port : N }.

#[export] Instance IpAddr_eq_dec : EqDecision IpAddr.
Proof. solve_decision. Defined.
#[export] Instance SocketAddr_eq_dec : EqDecision SocketAddr.
Proof. solve_decision. Defined.

#[export] Instance IpAddr_countable : Countable IpAddr.
Proof.
  refine (inj_countable'
    (λ i, match i with V4 a b c d => inl (a, b, c, d) | V6 t => inr t end)
    (λ x, match x with inl (a, b, c, d) => V4 a b c d | inr t => V6 t end) _).
  by intros [].
Defined.
#[export] Instance SocketAddr_countable : Countable SocketAddr.
Proof.
  refine (inj_countable' (λ a, (ip a, port a)) (λ x, {| ip := x.1; port := x.2 |}) _).
  by intros [].
Defined.

(** The octets of a version 4 address and the port are bytes and a [u16]. *)
Definition addr_ok (a : SocketAddr) : Prop :=
  (port a < 65536)%N ∧
  match ip a with
  | V4 a b c d => (a < 256 ∧ b < 256 ∧ c < 256 ∧ d < 256)%N
  | V6 _ => True
  end.

#[export] Instance addr_ok_dec a : Decision (addr_ok a).
Proof. unfold addr_ok. destruct (ip a); apply _. Defined.

(** [Display for Ipv4Addr] and [Display for SocketAddr]: [a.b.c.d:port]
    and [[text]:port]. *)
Definition v4_to_string (a b c d : N) : string :=
  pretty a +:+ "." +:+ pretty b +:+ "." +:+ pretty c +:+ "." +:+ pretty d.

Definition ip_to_string (i : IpAddr) : string :=
  match i with
  | V4 a b c d => v4_to_string a b c d
  | V6 text => "[" +:+ text +:+ "]"
  end.

Definition to_string (a : SocketAddr) : string :=
  ip_to_string (ip a) +:+ ":" +:+ pretty (port a).

(** ** String routines of the standard library *)

(** [char::to_digit(10)]. *)
Definition to_digit (c : ascii) : option N :=
  let n := N_of_ascii c in
  if decide (48 ≤ n ∧ n ≤ 57)%N then Some (n - 48)%N else None.

(** The loop of [from_str_radix] for an unsigned type with the largest
    value [max]: [result = result.checked_mul(10)?.checked_add(x)?]. *)
Fixpoint checked_digits (max result : N) (digits : string) : option N :=
  match digits with
  | EmptyString => Some result
  | String c digits =>
    x ← to_digit c;
    let result := (result * 10)%N in
    if decide (max < result)%N then None else
    let result := (result + x)%N in
    if decide (max < result)%N then None else
    checked_digits max result digits
  end.

(** [from_str_radix]: the empty string is refused, one leading [+] is
    skipped, and what follows must be at least one digit. *)
Definition from_str (max : N) (src : string) : option N :=
  match src with
  | EmptyString => None
  | String c rest =>
    let digits := if decide (c = "+"%char) then rest else src in
    if decide (digits = EmptyString) then None else checked_digits max 0 digits
  end.

Definition u16_from_str : string → option N := from_str 65535.

(** The reference for the loop: read the digits without a bound. *)
Fixpoint dec_digits (result : N) (digits : string) : option N :=
  match digits with
  | EmptyString => Some result
  | String c digits => x ← to_digit c; dec_digits (result * 10 + x)%N digits
  end.

Fixpoint contains (c : ascii) (s : string) : bool :=
  match s with
  | EmptyString => false
  | String c' s => bool_decide (c' = c) || contains c s
  end.

(** [s.rsplitn(2, sep)] as the pair of its first item and its optional
    second item: the part behind the last separator, and the part before
    it when there is a separator.  The first item always exists. *)
Fixpoint rsplitn2 (sep : ascii) (s : string) : string * option string :=
  match s with
  | EmptyString => (EmptyString, None)
  | String c s =>
    match rsplitn2 sep s with
    | (last, Some front) => (last, Some (String c front))
    | (last, None) =>
      if decide (c = sep) then (last, Some EmptyString) else (String c last, None)
    end
  end.

(** [s.split(sep)] collected into a vector. *)
Fixpoint split (sep : ascii) (s : string) : list string :=
  match s with
  | EmptyString => [EmptyString]
  | String c s =>
    if decide (c = sep) then EmptyString :: split sep s
    else match split sep s with
         | part :: parts => String c part :: parts
         | [] => [String c EmptyString]
         end
  end.

(** ** Name resolution *)

(** [(host, port).to_socket_addrs().ok()]. *)
Class StdNet := {
  to_socket_addrs : string → N → option (list SocketAddr);
  to_socket_addrs_port : ∀ host p l,
    to_socket_addrs host p = Some l → Forall (λ a, port a = p) l;
  to_socket_addrs_v4 : ∀ a b c d p,
    (a < 256 ∧ b < 256 ∧ c < 256 ∧ d < 256)%N →
    to_socket_addrs (v4_to_string a b c d) p = Some [{| ip := V4 a b c d; port := p |}];
}.

(** The constants of [synac::common] the client reads. *)
Class Common := {
  DEFAULT_PORT : N;
  DEFAULT_PORT_u16 : (DEFAULT_PORT < 65536)%N;
  ERR_LOGIN_INVALID : N;
  ERR_UNKNOWN_USER : N;
  LIMIT_BULK : N;
  PERM_READ : N;
  PERM_WRITE : N;
  TYPING_TIMEOUT : N;
}.

Section parse_addr.
Context {net : StdNet} {common : Common}.

Definition parse_addr (input : string) : option SocketAddr :=
  let parts := rsplitn2 ":" input in
  addr ← match parts with
         | (port, Some addr) => port ← u16_from_str port; Some (addr, port)
         | (addr, None) => Some (addr, DEFAULT_PORT)
         end;
  to_socket_addrs addr.1 addr.2 ≫= head.

End parse_addr.

(** ** A resolver with a table of hosts *)

(** [Ipv4Addr::from_str]: four decimal bytes separated by dots. *)
Definition u8_from_digits (s : string) : option N :=
  if decide (s = EmptyString) then None else checked_digits 255 0 s.

Definition v4_from_str (s : string) : option IpAddr :=
  match split "." s with
  | [a; b; c; d] =>
    a ← u8_from_digits a; b ← u8_from_digits b;
    c ← u8_from_digits c; d ← u8_from_digits d;
    Some (V4 a b c d)
  | _ => None
  end.

Definition lookup_host (hosts : list (string * list IpAddr)) (host : string) (p : N)
    : option (list SocketAddr) :=
  match v4_from_str host with
  | Some i => Some [{| ip := i; port := p |}]
  | None =>
    match list_find (λ e : string * list IpAddr, e.1 = host) hosts with
    | Some (_, (_, ips)) => Some ((λ i, {| ip := i; port := p |}) <$> ips)
    | None => None
    end
  end.

(** ** Digits *)

Section digits.
Implicit Types (s digits : string) (c : ascii) (x n max result : N).

Lemma to_digit_lt c x : to_digit c = Some x → (x < 10)%N.
Proof. unfold to_digit. case_decide; [|done]. intros [= <-]. lia. Qed.

Lemma to_digit_pretty x : (x < 10)%N → to_digit (pretty_N_char x) = Some x.
Proof.
  intros Hx.
  assert (x ∈ [0; 1; 2; 3; 4; 5; 6; 7; 8; 9]%N) as Hin.
  { rewrite !elem_of_cons. lia. }
  rewrite !elem_of_cons elem_of_nil in Hin.
  by destruct Hin as [->|[->|[->|[->|[->|[->|[->|[->|[->|[->|[]]]]]]]]]]].
Qed.

Lemma dec_digits_le result digits n :
  dec_digits result digits = Some n → (result ≤ n)%N.
Proof.
  revert result. induction digits as [|c digits IH]; intros result; simpl.
  { intros [= <-]. lia. }
  destruct (to_digit c); simpl; [|done]. intros ?%IH. lia.
Qed.

Lemma dec_digits_above max result digits :
  (max < result)%N →
  dec_digits result digits ≫= (λ n, if decide (n ≤ max)%N then Some n else None) = None.
Proof.
  intros Hlt. destruct (dec_digits result digits) as [n|] eqn:Hn; [simpl|done].
  apply dec_digits_le in Hn. case_decide; [lia|done].
Qed.

(** The checked loop is the unbounded loop followed by a range check. *)
Lemma checked_digits_dec max result digits :
  (result ≤ max)%N →
  checked_digits max result digits =
  dec_digits result digits ≫= (λ n, if decide (n ≤ max)%N then Some n else None).
Proof.
  revert result. induction digits as [|c digits IH]; intros result Hle; simpl.
  { by rewrite decide_True. }
  destruct (to_digit c) as [x|]; simpl; [|done].
  case_decide; [by rewrite dec_digits_above; try lia|].
  case_decide; [by rewrite dec_digits_above; try lia|]. apply IH. lia.
Qed.

Lemma checked_digits_bound max result digits n :
  (result ≤ max)%N → checked_digits max result digits = Some n → (n ≤ max)%N.
Proof.
  intros Hle. rewrite checked_digits_dec //.
  destruct (dec_digits _ _); simpl; [|done]. by case_decide; intros [= <-].
Qed.

(** Digits hold none of the separators of an address. *)
Lemma dec_digits_contains result digits n c :
  dec_digits result digits = Some n → to_digit c = None → contains c digits = false.
Proof.
  revert result. induction digits as [|c' digits IH]; intros result; simpl; [done|].
  destruct (to_digit c') as [x|] eqn:Hc'; simpl; [|done]. intros Hd Hc.
  rewrite (IH _ Hd Hc) orb_false_r. apply bool_decide_eq_false. by intros ->; simplify_eq.
Qed.

(** [Display] of a number is read back by the digit loop. *)
Lemma dec_digits_pretty_go x s : dec_digits 0 (pretty_N_go x s) = dec_digits x s.
Proof.
  revert s. induction (N.lt_wf_0 x) as [x _ IH]; intros s.
  destruct (decide (x = 0)%N) as [->|Hx]; [done|].
  rewrite pretty_N_go_step; [lia|]. rewrite IH; [apply N.div_lt; lia|]. simpl.
  rewrite to_digit_pretty; [apply N.mod_lt; lia|]. simpl. f_equal.
  pose proof (N.div_mod x 10). lia.
Qed.

Lemma pretty_N_go_nonempty x s : s ≠ EmptyString → pretty_N_go x s ≠ EmptyString.
Proof.
  revert s. induction (N.lt_wf_0 x) as [x _ IH]; intros s Hs.
  destruct (decide (x = 0)%N) as [->|Hx]; [done|].
  rewrite pretty_N_go_step; [lia|]. apply IH; [apply N.div_lt; lia|done].
Qed.

Lemma pretty_nonempty x : pretty x ≠ EmptyString.
Proof.
  unfold pretty, pretty_N. case_decide; [done|].
  rewrite pretty_N_go_step; [lia|]. by apply pretty_N_go_nonempty.
Qed.

Lemma dec_digits_pretty x : dec_digits 0 (pretty x) = Some x.
Proof.
  unfold pretty, pretty_N. case_decide as Hx; [by rewrite Hx|].
  by rewrite dec_digits_pretty_go.
Qed.

Lemma checked_digits_pretty max x :
  (x ≤ max)%N → checked_digits max 0 (pretty x) = Some x.
Proof.
  intros Hx. rewrite checked_digits_dec; [lia|].
  by rewrite dec_digits_pretty /= decide_True.
Qed.

Lemma pretty_contains x c : to_digit c = None → contains c (pretty x) = false.
Proof. apply dec_digits_contains with 0%N x, dec_digits_pretty. Qed.

(** A string of digits is not changed by the sign rule of [from_str]. *)
Lemma from_str_digits max s n :
  s ≠ EmptyString → checked_digits max 0 s = Some n → from_str max s = Some n.
Proof.
  destruct s as [|c s]; [done|]. intros _ Hn. unfold from_str.
  destruct (decide (c = "+"%char)) as [->|Hc]; [done|]. by case_decide.
Qed.

Lemma from_str_pretty max x : (x ≤ max)%N → from_str max (pretty x) = Some x.
Proof.
  intros Hx. apply from_str_digits; [apply pretty_nonempty|by apply checked_digits_pretty].
Qed.

Lemma from_str_bound max s n : from_str max s = Some n → (n ≤ max)%N.
Proof.
  destruct s as [|c s]; [done|]. unfold from_str.
  destruct (decide (c = "+"%char)); (case_decide; [done|]); apply checked_digits_bound; lia.
Qed.

(** A number above the bound is refused: it is not reduced to the width. *)
Lemma from_str_pretty_above max x : (max < x)%N → from_str max (pretty x) = None.
Proof.
  intros Hx. pose proof (pretty_contains x "+" eq_refl) as Hplus.
  destruct (from_str max (pretty x)) as [n|] eqn:Hn; [|done].
  pose proof (from_str_bound _ _ _ Hn) as Hle. revert Hn. unfold from_str.
  destruct (pretty x) as [|c rest] eqn:Hp; [done|]. simpl in Hplus.
  apply orb_false_iff in Hplus as [Hc%bool_decide_eq_false _].
  rewrite decide_False // decide_False // -Hp checked_digits_dec; [lia|].
  rewrite dec_digits_pretty /=. case_decide; [lia|done].
Qed.

Lemma checked_digits_Some max digits n :
  checked_digits max 0 digits = Some n ↔ dec_digits 0 digits = Some n ∧ (n ≤ max)%N.
Proof.
  rewrite checked_digits_dec; [lia|].
  destruct (dec_digits 0 digits) as [n'|]; simpl; [|naive_solver].
  case_decide; naive_solver.
Qed.

End digits.

(** ** Splitting *)

Lemma app_cons c (s t : string) : String c s +:+ t = String c (s +:+ t).
Proof. done. Qed.

Lemma app_nil (t : string) : EmptyString +:+ t = t.
Proof. done. Qed.

Lemma app_assoc_string (s1 s2 s3 : string) : (s1 +:+ s2) +:+ s3 = s1 +:+ (s2 +:+ s3).
Proof. induction s1 as [|c s1 IH]; [done|by rewrite !app_cons IH]. Qed.

Section splitting.
Context (sep : ascii).
Implicit Types (s front last : string).

Lemma rsplitn2_None s : contains sep s = false → rsplitn2 sep s = (s, None).
Proof.
  induction s as [|c s IH]; simpl; [done|].
  intros [Hc%bool_decide_eq_false Hs]%orb_false_elim.
  by rewrite IH // decide_False.
Qed.

Lemma rsplitn2_app front last :
  contains sep last = false →
  rsplitn2 sep (front +:+ String sep last) = (last, Some front).
Proof.
  intros Hlast. induction front as [|c front IH]; rewrite ?app_cons ?app_nil /=.
  - by rewrite rsplitn2_None // decide_True.
  - by rewrite IH.
Qed.

(** What the two shapes of the answer say of the input. *)
Lemma rsplitn2_spec s :
  match rsplitn2 sep s with
  | (last, Some front) => s = front +:+ String sep last ∧ contains sep last = false
  | (last, None) => s = last ∧ contains sep s = false
  end.
Proof.
  induction s as [|c s IH]; simpl; [done|].
  destruct (rsplitn2 sep s) as [last [front|]].
  - destruct IH as [-> ?]. done.
  - destruct IH as [-> Hs]. case_decide as Hc; simpl.
    + by rewrite Hc.
    + by rewrite Hs bool_decide_eq_false_2.
Qed.

Lemma split_None s : contains sep s = false → split sep s = [s].
Proof.
  induction s as [|c s IH]; simpl; [done|].
  intros [Hc%bool_decide_eq_false Hs]%orb_false_elim.
  by rewrite decide_False // IH.
Qed.

Lemma split_app front s :
  contains sep front = false →
  split sep (front +:+ String sep s) = front :: split sep s.
Proof.
  induction front as [|c front IH]; rewrite ?app_cons ?app_nil /=.
  - intros _. by rewrite decide_True.
  - intros [Hc%bool_decide_eq_false Hs]%orb_false_elim.
    by rewrite decide_False // IH.
Qed.

End splitting.

(** ** Literal addresses *)

Lemma u8_from_digits_pretty x : (x < 256)%N → u8_from_digits (pretty x) = Some x.
Proof.
  intros Hx. unfold u8_from_digits. rewrite decide_False; [apply pretty_nonempty|].
  apply checked_digits_pretty. lia.
Qed.

(** [Ipv4Addr::from_str] reads back what [Display] prints. *)
Lemma v4_from_to_string a b c d :
  (a < 256 ∧ b < 256 ∧ c < 256 ∧ d < 256)%N →
  v4_from_str (v4_to_string a b c d) = Some (V4 a b c d).
Proof.
  intros (Ha & Hb & Hc & Hd). unfold v4_from_str, v4_to_string.
  rewrite !app_cons !app_nil.
  rewrite !split_app ?split_None; try by apply pretty_contains.
  by rewrite !u8_from_digits_pretty.
Qed.

Lemma lookup_host_port hosts host p l :
  lookup_host hosts host p = Some l → Forall (λ a, port a = p) l.
Proof.
  unfold lookup_host. destruct (v4_from_str host).
  { intros [= <-]. by repeat constructor. }
  destruct (list_find _ _) as [[? [? ips]]|]; intros [= <-].
  by apply Forall_fmap, Forall_true.
Qed.

Lemma lookup_host_v4 hosts a b c d p :
  (a < 256 ∧ b < 256 ∧ c < 256 ∧ d < 256)%N →
  lookup_host hosts (v4_to_string a b c d) p = Some [{| ip := V4 a b c d; port := p |}].
Proof. intros H. unfold lookup_host. by rewrite v4_from_to_string. Qed.

Definition hosts_net (hosts : list (string * list IpAddr)) : StdNet := {|
  to_socket_addrs := lookup_host hosts;
  to_socket_addrs_port := lookup_host_port hosts;
  to_socket_addrs_v4 := lookup_host_v4 hosts;
|}.

(** ** [parse_addr] *)

Section parse_addr_facts.
Context {net : StdNet} {common : Common}.
Implicit Types (input host last front : string) (a : SocketAddr) (p : N).

Lemma parse_addr_split front last :
  contains ":" last = false →
  parse_addr (front +:+ ":" +:+ last) =
  p ← u16_from_str last; to_socket_addrs front p ≫= head.
Proof.
  intros Hlast. unfold parse_addr. rewrite app_cons app_nil rsplitn2_app //.
  by destruct (u16_from_str last).
Qed.

(** Every answer of [parse_addr] comes from one of its two branches. *)
Lemma parse_addr_inv input a :
  parse_addr input = Some a →
  ∃ host p, to_socket_addrs host p ≫= head = Some a ∧
    ((input = host ∧ contains ":" input = false ∧ p = DEFAULT_PORT) ∨
     (∃ last, input = host +:+ ":" +:+ last ∧ contains ":" last = false ∧
              u16_from_str last = Some p)).
Proof.
  unfold parse_addr. pose proof (rsplitn2_spec ":" input) as Hs.
  destruct (rsplitn2 ":" input) as [last [front|]].
  - destruct Hs as [-> Hlast]. destruct (u16_from_str last) as [p|] eqn:Hp; [|done].
    intros Ha. exists front, p. split; [done|]. right. by exists last.
  - destruct Hs as [<- Hs]. intros Ha. exists input, DEFAULT_PORT. split; [done|]. by left.
Qed.

Lemma head_resolved host p a :
  to_socket_addrs host p ≫= head = Some a → port a = p.
Proof.
  destruct (to_socket_addrs host p) as [l|] eqn:Hl; [simpl|done].
  apply to_socket_addrs_port in Hl. destruct l as [|a' l]; [done|].
  intros [= <-]. by apply Forall_cons in Hl as [? _].
Qed.

End parse_addr_facts.

Section parse_addr_theorems.
Context {net : StdNet} {common : Common}.
Implicit Types (input host last front : string) (a : SocketAddr) (p : N).

(** A text without a colon is resolved as a host name with the
    default port of the protocol, and the first answer of the resolver is
    the result. *)
Lemma parse_addr_default_port host :
  contains ":" host = false →
  parse_addr host = to_socket_addrs host DEFAULT_PORT ≫= head.
Proof. intros Hhost. unfold parse_addr. by rewrite rsplitn2_None. Qed.

(** A text [host:port] whose port is a [u16] in decimal is resolved
    as that host with that port, also when the host itself holds colons. *)
Lemma parse_addr_explicit_port host p :
  (p < 65536)%N →
  parse_addr (host +:+ ":" +:+ pretty p) = to_socket_addrs host p ≫= head.
Proof.
  intros Hp. rewrite parse_addr_split; [by apply pretty_contains|].
  unfold u16_from_str. rewrite from_str_pretty //. lia.
Qed.

(** When what follows the last colon is not a [u16], the result is
    [None] whatever the resolver would answer: the resolver is not asked. *)
Lemma parse_addr_bad_port front last :
  contains ":" last = false →
  u16_from_str last = None →
  parse_addr (front +:+ ":" +:+ last) = None.
Proof. intros Hlast Hp. by rewrite parse_addr_split // Hp. Qed.

(** C11: [parse_addr], by the shape of the text.  A text without a colon
    is resolved as a host name with the default port of the protocol; a
    text [host:port] whose port is a [u16] in decimal as that host with
    that port, also when the host itself holds colons; in both cases the
    first answer of the resolver is the result.  When what follows the
    last colon is not a [u16], the result is [None] and the resolver is
    not asked. *)
Theorem parse_addr_cases :
  (∀ host, contains ":" host = false →
     parse_addr host = to_socket_addrs host DEFAULT_PORT ≫= head) ∧
  (∀ host p, (p < 65536)%N →
     parse_addr (host +:+ ":" +:+ pretty p) = to_socket_addrs host p ≫= head) ∧
  (∀ front last, contains ":" last = false → u16_from_str last = None →
     parse_addr (front +:+ ":" +:+ last) = None).
Proof.
  split_and!; [apply parse_addr_default_port|apply parse_addr_explicit_port
              |apply parse_addr_bad_port].
Qed.

(** The port of every address [parse_addr] returns is a [u16]: the
    default port or the number read behind the last colon. *)
Lemma parse_addr_port input a :
  parse_addr input = Some a →
  (port a < 65536)%N ∧
  (port a = DEFAULT_PORT ∨ ∃ front last,
     input = front +:+ ":" +:+ last ∧ u16_from_str last = Some (port a)).
Proof.
  intros (host & p & <-%head_resolved & [(_ & _ & Hp)|(last & -> & _ & Hp)])%parse_addr_inv.
  - rewrite Hp. split; [apply DEFAULT_PORT_u16|by left].
  - split; [apply from_str_bound in Hp; lia|]. right. by exists host, last.
Qed.

(** C23: bounds of the port.  The number behind the last colon is read
    at the width of [u16]: every number up to 65535, printed in decimal,
    is read back; a greater one is refused by the checked multiplication
    or addition of the digit loop, never reduced modulo 2^16, and the
    address it ends is refused without a question to the resolver; so the
    port of every address [parse_addr] returns is below 2^16. *)
Theorem parse_addr_port_bounds :
  (∀ n, (n ≤ 65535)%N → u16_from_str (pretty n) = Some n) ∧
  (∀ n host, (65535 < n)%N →
     u16_from_str (pretty n) = None ∧ parse_addr (host +:+ ":" +:+ pretty n) = None) ∧
  (∀ input a, parse_addr input = Some a → (port a < 2 ^ 16)%N).
Proof.
  split; [intros n Hn; by apply from_str_pretty|]. split.
  - intros n host Hn. pose proof (from_str_pretty_above 65535 n Hn) as Hp.
    split; [done|]. apply parse_addr_bad_port; [by apply pretty_contains|done].
  - intros input a Ha. by destruct (parse_addr_port input a Ha).
Qed.

(** Round trip of the address column: the text [Display] prints for
    a version 4 socket address, which is what the client stores, parses back
    to the same address. *)
Lemma parse_addr_to_string (o1 o2 o3 o4 : N) p :
  addr_ok {| ip := V4 o1 o2 o3 o4; port := p |} →
  parse_addr (to_string {| ip := V4 o1 o2 o3 o4; port := p |}) =
  Some {| ip := V4 o1 o2 o3 o4; port := p |}.
Proof.
  intros [Hp Hip]. simpl in *. unfold to_string. simpl.
  rewrite parse_addr_split; [by apply pretty_contains|].
  unfold u16_from_str. rewrite from_str_pretty /=; [lia|].
  by rewrite to_socket_addrs_v4.
Qed.

(** The text stored for a version 6 socket address is handed back to
    the resolver as a host name that keeps its square brackets. *)
Lemma parse_addr_to_string_v6 text p :
  (p < 65536)%N →
  parse_addr (to_string {| ip := V6 text; port := p |}) =
  to_socket_addrs ("[" +:+ text +:+ "]") p ≫= head.
Proof.
  intros Hp. unfold to_string. simpl.
  rewrite parse_addr_split; [by apply pretty_contains|].
  unfold u16_from_str. rewrite from_str_pretty //. lia.
Qed.

(** A bracketed version 6 literal without a port is refused, whatever
    the resolver: the text behind its last colon is not a number. *)
Lemma parse_addr_bracketed_literal :
  parse_addr "[::1]" = None ∧ parse_addr "::1" = to_socket_addrs ":" 1 ≫= head.
Proof. done. Qed.

End parse_addr_theorems.

(** The checked digit loop of [u16::from_str] agrees with reading the
    digits as an unbounded number and comparing with the largest [u16]. *)
Lemma u16_from_str_reference s n :
  u16_from_str s = Some n ↔
  (n < 65536)%N ∧ ∃ digits, digits ≠ EmptyString ∧
    (s = digits ∨ s = String "+" digits) ∧ dec_digits 0 digits = Some n.
Proof.
  unfold u16_from_str. split.
  - destruct s as [|c rest]; [done|]. unfold from_str.
    destruct (decide (c = "+"%char)) as [->|Hc]; (case_decide; [done|]);
      intros [Hn Hle]%checked_digits_Some; (split; [lia|]); eauto 6.
  - intros (Hle & digits & Hne & [->| ->] & Hn).
    + apply from_str_digits, checked_digits_Some; [done|]. split; [done|lia].
    + unfold from_str. simpl. rewrite decide_False //.
      apply checked_digits_Some. split; [done|lia].
Qed.

(** ** Concrete addresses, to run the model on *)

Section examples.

(** The port is the one the protocol library documents; the other
    constants are not read by [parse_addr]. *)
#[local] Instance ex_common : Common := {|
  DEFAULT_PORT := 8439;
  DEFAULT_PORT_u16 := eq_refl;
  ERR_LOGIN_INVALID := 6;
  ERR_UNKNOWN_USER := 15;
  LIMIT_BULK := 64;
  PERM_READ := 1;
  PERM_WRITE := 2;
  TYPING_TIMEOUT := 10;
|}.

#[local] Instance ex_net : StdNet :=
  hosts_net [("example.com"%string, [V4 93 184 216 34; V6 "2606:2800:220:1::"]);
             ("localhost"%string, [V4 127 0 0 1])].

Definition ex_addr (p : N) : SocketAddr := {| ip := V4 93 184 216 34; port := p |}.

Lemma ex_default_port : parse_addr "example.com" = Some (ex_addr 8439).
Proof. by rewrite (parse_addr_default_port "example.com"). Qed.

Lemma ex_explicit_port : parse_addr "example.com:9000" = Some (ex_addr 9000).
Proof. by rewrite (parse_addr_explicit_port "example.com" 9000). Qed.

Lemma ex_bad_port :
  parse_addr "example.com:70000" = None ∧ parse_addr "example.com:http" = None.
Proof. split; by apply (parse_addr_bad_port "example.com"). Defined.

Lemma parse_addr_port_bounds_witness :
  u16_from_str "65535" = Some 65535%N ∧ u16_from_str "65536" = None ∧
  parse_addr "example.com:65536" = None.
Proof.
  destruct parse_addr_port_bounds as (Hin & Hout & _).
  split; [apply (Hin 65535%N); lia|]. by destruct (Hout 65536%N "example.com"%string).
Defined.

Lemma parse_addr_port_witness :
  (9000 < 65536)%N ∧
  (9000%N = DEFAULT_PORT ∨ ∃ front last,
     "example.com:9000"%string = front +:+ ":" +:+ last ∧ u16_from_str last = Some 9000%N).
Proof. by apply (parse_addr_port "example.com:9000" (ex_addr 9000)). Defined.

Lemma parse_addr_to_string_witness :
  parse_addr "127.0.0.1:8439" = Some {| ip := V4 127 0 0 1; port := 8439 |}.
Proof. apply (parse_addr_to_string 127 0 0 1 8439). by apply (bool_decide_unpack _). Defined.

(** The table knows no host with brackets, as no resolver does: the
    stored text of a version 6 address does not parse back. *)
Lemma parse_addr_to_string_v6_witness :
  to_string {| ip := V6 "::1"; port := 8439 |} = "[::1]:8439"%string ∧
  parse_addr "[::1]:8439" = None.
Proof. split; [done|]. by rewrite (parse_addr_to_string_v6 "::1" 8439). Defined.

(** [u16::from_str] at its edges. *)
Lemma ex_u16_from_str :
  u16_from_str "65535" = Some 65535%N ∧ u16_from_str "65536" = None ∧
  u16_from_str "+80" = Some 80%N ∧ u16_from_str "-80" = None ∧
  u16_from_str "" = None ∧ u16_from_str "+" = None ∧ u16_from_str "0080" = Some 80%N.
Proof. done. Qed.

End examples.
