(* ===== verification/Transport.v ===== *)
(** * The boundary with the protocol library

    The client talks to a server through the [synac] crate: typed
    [Packet]s, a [Session] that writes and reads them over an encrypted
    stream, a [Listener] that reads without blocking, and a [State] that
    mirrors what the server announced.  None of that code is part of the
    client; this file fixes what the client relies on.

    A session is a script.  [incoming] lists what the peer will deliver,
    in order: a packet, a moment of silence ([NotYet]), or a failure of the
    stream, which is permanent.  An exhausted script is a peer that stays
    silent for ever: a blocking [read] then never returns ([Blocks]), and
    a non-blocking [try_read] finds nothing.  Writes
    are appended to [sent] unless the stream is broken ([write_error]).

    [ConnectionError] is the client's own error type (connections.rs); it
    lives here because [Error], the dynamic error of the [failure] crate,
    has to carry it. *)

From Stdlib Require Import ssreflect.
From stdpp Require Import gmap list strings.
From S2P Require Import Prelude Store Addr.

Open Scope general_if_scope.

(** ** Packets *)

Record Channel := { channel_id : N; channel_name : string }.
Record User := { user_id : N; user_name : string }.

(** The variants of [synac::common::Packet] the client names, with the
    fields it reads or writes; [Other] stands for all the rest. *)
Module Packet.

Inductive t :=
  | Err (code : N)
  | LoginSuccess (created : bool) (id : N) (token : string)
  | MessageReceive (inner : Message) (new : bool)
  | MessageDeleteReceive (id : N)
  | TypingReceive (author channel : N)
  | ChannelReceive (inner : Channel)
  | ChannelDeleteReceive (inner : Channel)
  | UserReceive (inner : User)
  | Login (bot : bool) (name : string) (password token : option string)
  | LoginUpdate (name password_current password_new : option string) (reset_token : bool)
  | MessageCreate (channel : N) (text : string)
  | MessageUpdate (id : N) (text : string)
  | MessageList (after before : option N) (channel limit : N)
  | ChannelCreate (default_mode_bot default_mode_user : N) (name : string)
  | Typing (channel : N)
  | Other (tag : N).

End Packet.

Abbreviation Packet := Packet.t.

#[export] Instance Channel_eq_dec : EqDecision Channel.
Proof. solve_decision. Defined.
#[export] Instance User_eq_dec : EqDecision User.
Proof. solve_decision. Defined.
#[export] Instance Packet_eq_dec : EqDecision Packet.
Proof. solve_decision. Defined.

(** ** Errors *)

Inductive IoErrorKind := BrokenPipe | ConnectionRefused | UnexpectedEof | WouldBlock | TimedOut.

(** [enum ConnectionError] of connections.rs. *)
Inductive ConnectionError :=
  | InvalidPacket (packet : Packet)
  | InvalidToken
  | InvalidPassword.

(** [failure::Error]: an error of the stream, an error of the client, or
    an error of the codec. *)
Inductive Error :=
  | Io (kind : IoErrorKind)
  | Conn (e : ConnectionError)
  | Codec (what : string).

#[export] Instance IoErrorKind_eq_dec : EqDecision IoErrorKind.
Proof. solve_decision. Defined.
#[export] Instance ConnectionError_eq_dec : EqDecision ConnectionError.
Proof. solve_decision. Defined.
#[export] Instance Error_eq_dec : EqDecision Error.
Proof. solve_decision. Defined.

(** [err.downcast::<io::Error>()]. *)
Definition downcast_io (err : Error) : Result IoErrorKind Error :=
  match err with
  | Io kind => Ok kind
  | _ => Err err
  end.

(** ** Sessions *)

Inductive Incoming :=
  | Arrived (packet : Packet)
  | NotYet
  | Failed (err : Error).

Module Session.

Record t := {
  addr : SocketAddr;
  hash : string;
  incoming : list Incoming;
  sent : list Packet;
  write_error : option Error;
  nonblocking : bool;
}.

Definition with_incoming (l : list Incoming) (s : t) : t :=
  {| addr := addr s; hash := hash s; incoming := l; sent := sent s;
     write_error := write_error s; nonblocking := nonblocking s |}.

(** [Session::send]: the session is left as it was when the write fails. *)
Definition send (packet : Packet) (s : t) : Result t Error :=
  match write_error s with
  | Some err => Err err
  | None =>
    Ok {| addr := addr s; hash := hash s; incoming := incoming s;
          sent := sent s ++ [packet];
          write_error := None; nonblocking := nonblocking s |}
  end.

Definition login_with_token (bot : bool) (name token : string) (s : t) : Result t Error :=
  send (Packet.Login bot name None (Some token)) s.

Definition login_with_password (bot : bool) (name password : string) (s : t)
    : Result t Error :=
  send (Packet.Login bot name (Some password) None) s.

(** [Session::set_nonblocking]: a flag of the socket, set without a word
    to the peer. *)
Definition set_nonblocking (value : bool) (s : t) : Result t Error :=
  Ok {| addr := addr s; hash := hash s; incoming := incoming s; sent := sent s;
        write_error := write_error s; nonblocking := value |}.

(** What a read that waits makes of the script: the first packet or
    failure, or [None] when the peer stays silent for ever. *)
Fixpoint await (l : list Incoming) : option (Result (Packet * list Incoming) Error) :=
  match l with
  | [] => None
  | Arrived packet :: l => Some (Ok (packet, l))
  | NotYet :: l => await l
  | Failed err :: _ => Some (Err err)
  end.

(** [Session::read].  On a blocking session it waits; on a non-blocking
    one silence is the error [WouldBlock]. *)
Definition read (s : t) : Run (Result (Packet * t) Error) :=
  if nonblocking s then
    match incoming s with
    | Arrived packet :: l => Returns (Ok (packet, with_incoming l s))
    | Failed err :: _ => Returns (Err err)
    | _ => Returns (Err (Io WouldBlock))
    end
  else
    r ← or_block (await (incoming s));
    Returns match r with
            | Ok (packet, l) => Ok (packet, with_incoming l s)
            | Err err => Err err
            end.

End Session.

Abbreviation Session := Session.t.

(** ** The listener *)

Module Listener.

(** The buffer of a partly read frame; the script delivers whole packets,
    so the buffer stays empty. *)
Record t := mk { }.

Definition new : t := mk.

(** [Listener::try_read(stream)]: one look at the stream.  A packet or a
    moment of silence is consumed; a failure stays. *)
Definition try_read (s : Session) : Result (option Packet * Session) Error :=
  match Session.incoming s with
  | [] => Ok (None, s)
  | Arrived packet :: l => Ok (Some packet, Session.with_incoming l s)
  | NotYet :: l => Ok (None, Session.with_incoming l s)
  | Failed err :: _ => Err err
  end.

End Listener.

Abbreviation Listener := Listener.t.

(** ** The mirrored state *)

Module State.

Record t := { channels : gmap N Channel; users : gmap N User }.

Definition new : t := {| channels := ∅; users := ∅ |}.

(** [State::update]: channels and users announced by the server are
    kept, deleted channels forgotten; other packets leave the mirror
    alone. *)
Definition update (packet : Packet) (s : t) : t :=
  match packet with
  | Packet.ChannelReceive c =>
    {| channels := <[channel_id c := c]> (channels s); users := users s |}
  | Packet.ChannelDeleteReceive c =>
    {| channels := delete (channel_id c) (channels s); users := users s |}
  | Packet.UserReceive u =>
    {| channels := channels s; users := <[user_id u := u]> (users s) |}
  | _ => s
  end.

End State.

Abbreviation State := State.t.

(** ** The network *)

(** [Session::new(addr, hash)]: the handshake with the server at [addr],
    whose certificate must have the pinned [hash]. *)
Class Network := {
  session_new : SocketAddr → string → Result Session Error;
  session_new_fresh : ∀ addr hash s,
    session_new addr hash = Ok s →
    Session.addr s = addr ∧ Session.sent s = [] ∧ Session.nonblocking s = false;
}.

(** A network of scripted servers: the server at an address delivers its
    script, an address without a script refuses the connection. *)
Definition script_session (scripts : SocketAddr → option (list Incoming))
    (addr : SocketAddr) (hash : string) : Result Session Error :=
  match scripts addr with
  | Some l =>
    Ok {| Session.addr := addr; Session.hash := hash; Session.incoming := l;
          Session.sent := []; Session.write_error := None; Session.nonblocking := false |}
  | None => Err (Io ConnectionRefused)
  end.

Lemma script_session_fresh scripts addr hash s :
  script_session scripts addr hash = Ok s →
  Session.addr s = addr ∧ Session.sent s = [] ∧ Session.nonblocking s = false.
Proof. unfold script_session. destruct (scripts addr); by intros [= <-]. Qed.

Definition script_network (scripts : SocketAddr → option (list Incoming)) : Network := {|
  session_new := script_session scripts;
  session_new_fresh := script_session_fresh scripts;
|}.

(** ** Facts *)

Section session.
Implicit Types (s : Session) (l : list Incoming) (p packet : Packet).

Lemma send_Ok packet s s' :
  Session.send packet s = Ok s' →
  Session.write_error s = None ∧ Session.sent s' = Session.sent s ++ [packet] ∧
  Session.incoming s' = Session.incoming s ∧ Session.addr s' = Session.addr s ∧
  Session.nonblocking s' = Session.nonblocking s ∧ Session.write_error s' = None.
Proof. unfold Session.send. destruct (Session.write_error s); [done|]. by intros [= <-]. Qed.

Lemma send_Err packet s err :
  Session.send packet s = Err err ↔ Session.write_error s = Some err.
Proof. unfold Session.send. destruct (Session.write_error s); naive_solver. Qed.

(** Waiting ends exactly when the script still holds a packet or a
    failure. *)
Lemma await_is_Some l : is_Some (Session.await l) ↔ Exists (λ i, i ≠ NotYet) l.
Proof.
  induction l as [|[p| |e] l IH]; simpl.
  - split; [by intros [? ?]|by intros ?%Exists_nil].
  - split; [by left|by eexists].
  - rewrite IH Exists_cons. naive_solver.
  - split; [by left|by eexists].
Qed.

(** A packet that is there is read by both kinds of read alike. *)
Lemma try_read_arrived packet l s :
  Session.incoming s = Arrived packet :: l →
  Listener.try_read s = Ok (Some packet, Session.with_incoming l s).
Proof. unfold Listener.try_read. by intros ->. Qed.

Lemma try_read_sent s r s' :
  Listener.try_read s = Ok (r, s') →
  Session.sent s' = Session.sent s ∧ Session.addr s' = Session.addr s ∧
  Session.write_error s' = Session.write_error s.
Proof.
  unfold Listener.try_read. destruct (Session.incoming s) as [|[p| |e] l]; by intros [= <- <-].
Qed.

End session.
