(* ===== verification/Typing.v ===== *)
(** * The typing tracker

    [typing.rs] is not part of the sources at hand; the tracker is
    modelled from its description: one entry per user, holding the channel
    and the time of the last notification; an entry older than
    [TYPING_TIMEOUT] is no longer reported, and nothing is removed eagerly.

    The clock is explicit: [insert] and [check] take the time at which
    they run, in nanoseconds as an [Instant] has it; [TYPING_TIMEOUT] is
    in seconds. *)

From Stdlib Require Import ssreflect.
From stdpp Require Import gmap list strings.
From S2P Require Import Prelude Store Addr Transport.

Open Scope general_if_scope.

(** One second of the clock. *)
Definition SECOND : N := 1000000000.

Module Typing.

Record t := { entries : gmap N (N * N) }.

Definition new : t := {| entries := ∅ |}.

(** [insert(user, channel)] at time [now]: the entry of the user is
    replaced. *)
Definition insert (now : N) (author channel : N) (self : t) : t :=
  {| entries := <[author := (channel, now)]> (entries self) |}.

Section check.
Context {common : Common} {order : HashOrder}.

(** An entry made at [time] is reported at [now] while it is not older
    than the timeout. *)
Definition live (now time : N) : Prop := (now - time ≤ TYPING_TIMEOUT * SECOND)%N.

Definition reported (now channel : N) (self : t) (u : N) : Prop :=
  match entries self !! u with
  | Some (c, time) => c = channel ∧ live now time
  | None => False
  end.

#[export] Instance reported_dec now channel self u : Decision (reported now channel self u).
Proof. unfold reported, live. destruct (entries self !! u) as [[c time]|]; apply _. Defined.

(** The users reported for a channel, in the order of the map. *)
Definition typing_in (now channel : N) (self : t) : list N :=
  filter (reported now channel self) (iter_keys (entries self)).

(** "a is typing...", "a and b are typing...", "a, b and c are typing...". *)
Fixpoint enumerate (names : list string) : string :=
  match names with
  | [] => EmptyString
  | [a] => a
  | [a; b] => a +:+ " and " +:+ b
  | a :: names => a +:+ ", " +:+ enumerate names
  end.

Definition summary (names : list string) : option string :=
  match names with
  | [] => None
  | [a] => Some (a +:+ " is typing...")
  | _ => Some (enumerate names +:+ " are typing...")
  end.

(** [check(current_channel, state)] at time [now]: users the mirror does
    not know are left out. *)
Definition check (now : N) (current_channel : option N) (state : State) (self : t)
    : option string :=
  channel ← current_channel;
  summary (omap (λ u, user_name <$> State.users state !! u) (typing_in now channel self)).

End check.

(** ** Facts *)

Section facts.
Context {common : Common} {order : HashOrder}.
Implicit Types (self : t) (u author channel c now time : N).

Lemma elem_of_typing_in now c self u :
  u ∈ typing_in now c self ↔ ∃ time, entries self !! u = Some (c, time) ∧ live now time.
Proof.
  unfold typing_in, reported. rewrite list_elem_of_filter iter_keys_elem_of.
  destruct (entries self !! u) as [[c' time]|]; [|naive_solver].
  split; [intros [[-> ?] _]; by exists time|]. intros (? & [= -> <-] & ?). by split; [|eexists].
Qed.

Lemma typing_in_NoDup now c self : NoDup (typing_in now c self).
Proof. apply NoDup_filter, iter_keys_NoDup. Qed.

(** A user is reported for the channel of the last notification, from
    the notification until the timeout has passed. *)
Lemma typing_in_insert now time author channel c u self :
  u ∈ typing_in now c (insert time author channel self) ↔
  if decide (u = author) then c = channel ∧ live now time
  else u ∈ typing_in now c self.
Proof.
  rewrite !elem_of_typing_in /=. case_decide as Hu.
  - subst u. rewrite lookup_insert_eq. naive_solver.
  - by rewrite lookup_insert_ne // elem_of_typing_in.
Qed.

(** One entry per user: a user is reported for one channel at most. *)
Lemma typing_in_one_channel now c c' self u :
  u ∈ typing_in now c self → u ∈ typing_in now c' self → c = c'.
Proof. rewrite !elem_of_typing_in. naive_solver. Qed.

(** Expiry needs no removal: once the timeout has passed the user is
    gone from every channel. *)
Lemma typing_in_expired now time author channel c self :
  (time + TYPING_TIMEOUT * SECOND < now)%N →
  author ∉ typing_in now c (insert time author channel self).
Proof. rewrite typing_in_insert decide_True //. unfold live. lia. Qed.

Lemma summary_is_Some names : is_Some (summary names) ↔ names ≠ [].
Proof. destruct names as [|? [|? ?]]; simpl; split; (done || by eexists). Qed.

Lemma app_nonempty (s t : string) : t ≠ EmptyString → s +:+ t ≠ EmptyString.
Proof. intros Ht. destruct s; [by rewrite app_nil|by rewrite app_cons]. Qed.

(** A summary is never the empty text. *)
Lemma summary_nonempty names text : summary names = Some text → text ≠ EmptyString.
Proof. destruct names as [|? [|? ?]]; [done|..]; intros [= <-]; by apply app_nonempty. Qed.

Lemma check_nonempty now current state self text :
  check now current state self = Some text → text ≠ EmptyString.
Proof. destruct current; [apply summary_nonempty|done]. Qed.

Lemma check_None_no_channel now state self : check now None state self = None.
Proof. done. Qed.

Lemma check_is_Some now c state self :
  is_Some (check now (Some c) state self) ↔
  ∃ u, u ∈ typing_in now c self ∧ is_Some (State.users state !! u).
Proof.
  unfold check. simpl. rewrite summary_is_Some. split.
  - intros Hne. destruct (omap _ _) as [|name names] eqn:Hnames; [done|].
    assert (name ∈ name :: names) as Hin by left. rewrite -Hnames list_elem_of_omap in Hin.
    destruct Hin as (u & Hu & Hname). exists u. split; [done|].
    by destruct (State.users state !! u); [eexists|].
  - intros (u & Hu & [usr Husr]) Hnil.
    assert (user_name usr ∈ omap (λ u, user_name <$> State.users state !! u)
                                (typing_in now c self)) as Hin.
    { apply list_elem_of_omap. exists u. by rewrite Husr. }
    rewrite Hnil in Hin. by apply elem_of_nil in Hin.
Qed.

End facts.

End Typing.

Abbreviation Typing := Typing.t.
