(* ===== verification/Scroll.v ===== *)
(** * The scroll bar of the messages (main.rs, the closure on the adjustment)

    [main] connects a closure to the [changed] signal of the vertical
    adjustment of the scrolled window that holds the messages: when the
    view is within a hundred pixels of its lower end, the closure moves it
    to the end, so that the window follows the messages that arrive.

    The adjustment holds doubles and the closure computes with them; the
    model uses the binary64 numbers of the kernel ([PrimFloat]), so sums,
    differences and comparisons round and treat NaN as the code does.
    [Adjustment.set_value] is the toolkit's and is modelled from its
    documentation: the value is kept between [lower] and
    [upper - page_size]. *)

From Stdlib Require Import ssreflect Floats.
From stdpp Require Import base tactics.
From S2P Require Import Prelude.

Open Scope general_if_scope.

Module Adjustment.

(** What the closure reads of a [gtk::Adjustment]. *)
Record t := { value : float; lower : float; upper : float; page_size : float }.

(** The adjustment of [ScrolledWindow::new(None, None)]. *)
Definition new : t := {| value := 0; lower := 0; upper := 0; page_size := 0 |}.

(** [set_value]: the smaller of the value and [upper - page_size], and
    then the greater of that and [lower]. *)
Definition set_value (x : float) (a : t) : t :=
  let high := (upper a - page_size a)%float in
  let x := if (x <? high)%float then x else high in
  let x := if (lower a <? x)%float then x else lower a in
  {| value := x; lower := lower a; upper := upper a; page_size := page_size a |}.

End Adjustment.

Abbreviation Adjustment := Adjustment.t.

(** [messages_scroll.get_vadjustment().connect_changed]: the comparison
    [value + 100.0 >= upper] is [upper <= value + 100.0]. *)
Definition messages_scroll_changed (vadjustment : Adjustment) : Adjustment :=
  let upper := (Adjustment.upper vadjustment - Adjustment.page_size vadjustment)%float in
  if (upper <=? Adjustment.value vadjustment + 100)%float
  then Adjustment.set_value upper vadjustment
  else vadjustment.

(** ** Facts *)

Section facts.
Implicit Types (a : Adjustment) (x : float).

(** Only the value moves. *)
Lemma set_value_frame x a :
  Adjustment.lower (Adjustment.set_value x a) = Adjustment.lower a ∧
  Adjustment.upper (Adjustment.set_value x a) = Adjustment.upper a ∧
  Adjustment.page_size (Adjustment.set_value x a) = Adjustment.page_size a.
Proof. done. Qed.

Lemma messages_scroll_changed_frame a :
  Adjustment.lower (messages_scroll_changed a) = Adjustment.lower a ∧
  Adjustment.upper (messages_scroll_changed a) = Adjustment.upper a ∧
  Adjustment.page_size (messages_scroll_changed a) = Adjustment.page_size a.
Proof. unfold messages_scroll_changed. by case_match. Qed.

(** The closure moves the view to one place only: the end of the
    messages, or the start when the messages do not fill the page. *)
Lemma messages_scroll_changed_value a :
  let high := (Adjustment.upper a - Adjustment.page_size a)%float in
  Adjustment.value (messages_scroll_changed a) = Adjustment.value a ∨
  Adjustment.value (messages_scroll_changed a) = high ∨
  Adjustment.value (messages_scroll_changed a) = Adjustment.lower a.
Proof.
  unfold messages_scroll_changed, Adjustment.set_value. simpl.
  repeat case_match; auto.
Qed.

(** Running the closure again changes nothing: a view it has moved is
    where the closure would move it, whatever rounding does to the
    numbers. *)
Lemma messages_scroll_changed_idempotent a :
  messages_scroll_changed (messages_scroll_changed a) = messages_scroll_changed a.
Proof.
  unfold messages_scroll_changed.
  destruct (Adjustment.upper a - Adjustment.page_size a <=? Adjustment.value a + 100)%float
    eqn:H; simpl; [|by rewrite H].
  by case_match.
Qed.

(** No number is below or equal to NaN. *)
Lemma leb_nan_r x : (x <=? nan)%float = false.
Proof. rewrite leb_spec. unfold SFleb, SFcompare. simpl. by destruct (Prim2SF x). Qed.

(** A view whose position is not a number is left alone. *)
Lemma messages_scroll_changed_nan a :
  Adjustment.value a = nan → messages_scroll_changed a = a.
Proof. intros Hv. by rewrite /messages_scroll_changed Hv leb_nan_r. Qed.

End facts.

(** ** Examples *)

(** Six hundred pixels of page over a thousand of messages, the view
    eighty pixels above the end: the closure moves it to the end. *)
Lemma ex_follows :
  messages_scroll_changed
    {| Adjustment.value := 320; Adjustment.lower := 0; Adjustment.upper := 1000;
       Adjustment.page_size := 600 |} =
  {| Adjustment.value := 400; Adjustment.lower := 0; Adjustment.upper := 1000;
     Adjustment.page_size := 600 |}.
Proof. by vm_compute. Qed.

(** A view that the user has moved up by more than a hundred pixels
    stays where it is. *)
Lemma ex_stays :
  messages_scroll_changed
    {| Adjustment.value := 120.5; Adjustment.lower := 0; Adjustment.upper := 1000;
       Adjustment.page_size := 600 |} =
  {| Adjustment.value := 120.5; Adjustment.lower := 0; Adjustment.upper := 1000;
     Adjustment.page_size := 600 |}.
Proof. by vm_compute. Qed.

(** Messages that do not fill the page: the view goes to the start, not
    above it. *)
Lemma ex_short :
  messages_scroll_changed
    {| Adjustment.value := 0; Adjustment.lower := 0; Adjustment.upper := 200;
       Adjustment.page_size := 600 |} =
  {| Adjustment.value := 0; Adjustment.lower := 0; Adjustment.upper := 200;
     Adjustment.page_size := 600 |}.
Proof. by vm_compute. Qed.
