(* ===== verification/Gui.v ===== *)
(** * The toolkit, as far as [main] builds the window with it

    [main] creates widgets, sets properties on them, puts them into one
    another with [add], and connects closures to their signals.  This
    file models what those calls leave behind: a store of widgets,
    numbered in the order in which they are created, each with its kind,
    the properties set on it, its children in the order in which they were
    added, and the closures connected to it in the order in which they
    were connected.

    The toolkit is not among the sources; its calls are modelled from its
    documentation.  A widget has one parent at most: [add] refuses a child
    that is in a container already, a container that takes one child only
    (a window, an event box, a revealer, a scrolled window) refuses a
    second one, and what is no container refuses every child.  A refused
    [add] is a warning of the toolkit and leaves the store as it is; the
    model notes it in [refused].  The viewport that a scrolled window puts
    around a child that cannot scroll is not modelled.

    [Build] is the state monad over the store; [descendants] is the walk
    of [show_all]. *)

From Stdlib Require Import ssreflect Floats.
From stdpp Require Import list strings relations.
From S2P Require Import Prelude.

Open Scope general_if_scope.

Module Gui.

Inductive Orientation := Horizontal | Vertical.

(** [gtk::Align], [gtk::PolicyType], and the transitions [main] uses. *)
Inductive Align := AlignFill | AlignStart | AlignEnd | AlignCenter | AlignBaseline.
Inductive PolicyType := PolicyAlways | PolicyAutomatic | PolicyNever | PolicyExternal.
Inductive StackTransitionType := SlideLeftRight | Crossfade.
Inductive RevealerTransitionType := SlideUp.

(** The constructors of widgets [main] calls, with their arguments. *)
Inductive Kind :=
  | Window
  | Label (text : string)
  | Box (orientation : Orientation) (spacing : Z)
  | Revealer
  | Entry
  | ScrolledWindow
  | Stack
  | EventBox
  | Button (label : string)
  | Separator (orientation : Orientation).

(** The setters [main] calls; [Class] is [add_class] of functions.rs. *)
Inductive Setting :=
  | Title (title : string)
  | DefaultSize (width height : Z)
  | StackTransition (transition : StackTransitionType)
  | RevealerTransition (transition : RevealerTransitionType)
  | Alignment (xalign : float)
  | Xalign (xalign : float)
  | Class (name : string)
  | Margin (margin : Z)
  | Valign (align : Align)
  | Vexpand (expand : bool)
  | Hexpand (expand : bool)
  | Policy (hscrollbar vscrollbar : PolicyType)
  | PlaceholderText (text : string).

(** The signals [main] connects closures to.  [VadjustmentChanged] is
    [changed] of the vertical adjustment of a scrolled window. *)
Inductive Signal :=
  | Activate
  | FocusOutEvent
  | ButtonPressEvent
  | Clicked
  | VadjustmentChanged
  | EdgeReached
  | TextNotify
  | DeleteEvent.

#[export] Instance Signal_eq_dec : EqDecision Signal.
Proof. solve_decision. Defined.

Section store.
Context {C : Type}.

Record Widget := {
  kind : Kind;
  settings : list Setting;
  children : list nat;
  closures : list (Signal * C);
}.

(** The store: the widgets, the closures of the idle source, and the
    calls of [add] the toolkit refused, as parent and child. *)
Record t := {
  widgets : list Widget;
  idle : list C;
  refused : list (nat * nat);
}.

Definition empty : t := {| widgets := []; idle := []; refused := [] |}.

Definition with_widgets (x : list Widget) (g : t) : t :=
  {| widgets := x; idle := idle g; refused := refused g |}.

(** The state monad of the calls. *)
Definition Build (A : Type) : Type := t → A * t.

Definition build_ret {A} (a : A) : Build A := λ g, (a, g).

Definition build_bind {A B} (k : A → Build B) (m : Build A) : Build B :=
  λ g, let '(a, g) := m g in k a g.

(** A constructor: the new widget is the last of the store. *)
Definition new (k : Kind) : Build nat := λ g,
  (length (widgets g),
   with_widgets (widgets g ++ [{| kind := k; settings := []; children := []; closures := [] |}]) g).

Definition children_of (g : t) (w : nat) : list nat :=
  match widgets g !! w with Some x => children x | None => [] end.

(** The container a widget is in. *)
Definition parent (g : t) (child : nat) : option nat :=
  fst <$> list_find (λ x, child ∈ children x) (widgets g).

(** Whether a widget takes one more child. *)
Definition accepts (x : Widget) : bool :=
  match kind x with
  | Box _ _ | Stack => true
  | Window | Revealer | ScrolledWindow | EventBox => bool_decide (children x = [])
  | Label _ | Entry | Button _ | Separator _ => false
  end.

(** [Container::add]. *)
Definition add (container child : nat) : Build () := λ g,
  match widgets g !! container with
  | Some x =>
    if accepts x && bool_decide (parent g child = None ∧ child < length (widgets g)) then
      ((), with_widgets
             (<[container := {| kind := kind x; settings := settings x;
                                children := children x ++ [child];
                                closures := closures x |}]> (widgets g)) g)
    else ((), {| widgets := widgets g; idle := idle g;
                 refused := refused g ++ [(container, child)] |})
  | None => ((), {| widgets := widgets g; idle := idle g;
                    refused := refused g ++ [(container, child)] |})
  end.

(** A setter. *)
Definition set (s : Setting) (w : nat) : Build () := λ g,
  ((), with_widgets
         (alter (λ x, {| kind := kind x; settings := settings x ++ [s];
                         children := children x; closures := closures x |}) w (widgets g)) g).

(** [connect_...]: the closure runs after the closures connected
    before. *)
Definition connect (w : nat) (signal : Signal) (c : C) : Build () := λ g,
  ((), with_widgets
         (alter (λ x, {| kind := kind x; settings := settings x; children := children x;
                         closures := closures x ++ [(signal, c)] |}) w (widgets g)) g).

(** [gtk::idle_add]. *)
Definition idle_add (c : C) : Build () := λ g,
  ((), {| widgets := widgets g; idle := idle g ++ [c]; refused := refused g |}).

(** The closures a signal of a widget runs, in their order. *)
Definition handlers (g : t) (w : nat) (signal : Signal) : list C :=
  match widgets g !! w with
  | Some x => (filter (λ sc, sc.1 = signal) (closures x)).*2
  | None => []
  end.

(** The walk of [show_all]: the widget, and after it what the walk
    finds from each of its children.  The walk of a store in which a
    widget is inside itself does not end; [None] is a walk that has used
    its fuel. *)
Fixpoint descendants (fuel : nat) (g : t) (w : nat) : option (list nat) :=
  match fuel with
  | O => None
  | S fuel => l ← mapM (descendants fuel g) (children_of g w); Some (w :: mjoin l)
  end.

(** No path in a store is longer than the store has widgets. *)
Definition show_all (g : t) (w : nat) : option (list nat) :=
  descendants (S (length (widgets g))) g w.

(** [c] is a child of [p]. *)
Definition child (g : t) (p c : nat) : Prop := c ∈ children_of g p.

End store.

Arguments Widget : clear implicits.
Arguments t : clear implicits.
Arguments Build : clear implicits.

End Gui.

#[export] Instance gui_ret {C} : MRet (Gui.Build C) := @Gui.build_ret C.
#[export] Instance gui_bind {C} : MBind (Gui.Build C) := @Gui.build_bind C.

(** ** Facts *)

Section facts.
Context {C : Type}.
Implicit Types (g : Gui.t C) (w v p c : nat) (l : list nat).

(** The walk finds what can be reached through children, and nothing
    else. *)
Lemma descendants_sound fuel g w l v :
  Gui.descendants fuel g w = Some l → v ∈ l → rtc (Gui.child g) w v.
Proof.
  revert w l. induction fuel as [|fuel IH]; intros w l; [done|]. simpl.
  destruct (mapM _ _) as [ls|] eqn:Hm; [|done]. intros [= <-].
  intros [->|Hv]%elem_of_cons; [done|].
  apply list_elem_of_join in Hv as (lc & Hv & Hlc).
  apply mapM_Some in Hm. apply list_elem_of_lookup in Hlc as [i Hi].
  destruct (Forall2_lookup_r _ _ _ _ _ Hm Hi) as (c & Hc & Hd).
  eapply rtc_l; [by eapply list_elem_of_lookup_2|by eapply IH].
Qed.

Lemma descendants_complete fuel g w l v :
  Gui.descendants fuel g w = Some l → rtc (Gui.child g) w v → v ∈ l.
Proof.
  intros Hd Hr. revert fuel l Hd. induction Hr as [w|w c v Hc Hr IH]; intros fuel l.
  { destruct fuel; [done|]. simpl. destruct (mapM _ _); [|done]. intros [= <-]. set_solver. }
  destruct fuel as [|fuel]; [done|]. simpl.
  destruct (mapM _ _) as [ls|] eqn:Hm; [|done]. intros [= <-].
  apply mapM_Some in Hm. apply list_elem_of_lookup in Hc as [i Hi].
  destruct (Forall2_lookup_l _ _ _ _ _ Hm Hi) as (lc & Hlc & Hd).
  apply elem_of_cons. right. apply list_elem_of_join. exists lc.
  split; [by eapply IH|by eapply list_elem_of_lookup_2].
Qed.

Lemma show_all_reachable g w l v :
  Gui.show_all g w = Some l → v ∈ l ↔ rtc (Gui.child g) w v.
Proof. intros Hs. split; [by eapply descendants_sound|by eapply descendants_complete]. Qed.

(** More fuel does not change a walk that has ended. *)
Lemma descendants_mono fuel fuel' g w l :
  fuel ≤ fuel' → Gui.descendants fuel g w = Some l → Gui.descendants fuel' g w = Some l.
Proof.
  revert fuel' w l. induction fuel as [|fuel IH]; intros fuel' w l Hle; [done|].
  destruct fuel' as [|fuel']; [lia|]. simpl.
  destruct (mapM (Gui.descendants fuel g) _) as [ls|] eqn:Hm; [|done]. intros [= <-].
  apply mapM_Some in Hm.
  assert (mapM (Gui.descendants fuel' g) (Gui.children_of g w) = Some ls) as ->; [|done].
  apply mapM_Some. eapply Forall2_impl; [done|]. intros c lc. apply IH. lia.
Qed.

(** A container holds a child once, and a child is in one container:
    [add] refuses it otherwise. *)
Lemma parent_Some g c p :
  Gui.parent g c = Some p → Gui.child g p c.
Proof.
  unfold Gui.parent, Gui.child, Gui.children_of.
  destruct (list_find _ _) as [[i x]|] eqn:Hf; [|done].
  apply list_find_Some in Hf as (Hx & Hc & _). intros [= <-]. by rewrite Hx.
Qed.

Lemma parent_None g c p : Gui.parent g c = None → ¬ Gui.child g p c.
Proof.
  unfold Gui.parent, Gui.child, Gui.children_of.
  destruct (list_find _ _) as [[i x]|] eqn:Hf; [done|]. intros _.
  destruct (Gui.widgets g !! p) as [x|] eqn:Hp; [|set_solver].
  apply list_find_None in Hf. rewrite Forall_lookup in Hf. by apply (Hf p).
Qed.

(** What [add] does when it is not refused. *)
Lemma add_accepted g p c x :
  Gui.widgets g !! p = Some x → Gui.accepts x = true →
  Gui.parent g c = None → c < length (Gui.widgets g) →
  Gui.children_of (Gui.add p c g).2 p = Gui.children x ++ [c] ∧
  Gui.refused (Gui.add p c g).2 = Gui.refused g.
Proof.
  intros Hp Ha Hc Hlt. rewrite /Gui.add Hp Ha bool_decide_true //=.
  rewrite /Gui.children_of /= list_lookup_insert_eq //. by eapply lookup_lt_Some.
Qed.

(** A child that is in a container already is refused, and the store
    stays as it is. *)
Lemma add_refused g p c p' :
  Gui.parent g c = Some p' →
  Gui.widgets (Gui.add p c g).2 = Gui.widgets g ∧
  Gui.refused (Gui.add p c g).2 = Gui.refused g ++ [(p, c)].
Proof.
  intros Hc. unfold Gui.add. destruct (Gui.widgets g !! p) as [x|]; [|done].
  rewrite bool_decide_false; [by rewrite Hc; intros [? _]|]. by rewrite andb_false_r.
Qed.

End facts.

(** ** Every widget in one container *)

Section placed.
Context {C : Type}.
Implicit Types (g : Gui.t C) (w p c : nat).

(** The children of all containers, one after the other. *)
Definition placed g : list nat := mjoin (Gui.children <$> Gui.widgets g).

Lemma join_unique {A} (ls : list (list A)) i j l l' x :
  NoDup (mjoin ls) → ls !! i = Some l → ls !! j = Some l' → x ∈ l → x ∈ l' → i = j.
Proof.
  revert i j. induction ls as [|l0 ls IH]; intros i j; [done|]. simpl.
  intros (_ & Hout & Hls)%NoDup_app Hi Hj Hx Hx'.
  destruct i as [|i], j as [|j]; simplify_eq/=; [done|..].
  - destruct (Hout x Hx). apply list_elem_of_join. exists l'.
    split; [done|by eapply list_elem_of_lookup_2].
  - destruct (Hout x Hx'). apply list_elem_of_join. exists l.
    split; [done|by eapply list_elem_of_lookup_2].
  - f_equal. by eapply IH.
Qed.

(** When no widget is placed twice, a widget has one parent at most. *)
Lemma child_unique g w p p' :
  NoDup (placed g) → Gui.child g p w → Gui.child g p' w → p = p'.
Proof.
  unfold Gui.child, Gui.children_of, placed. intros Hn Hp Hp'.
  destruct (Gui.widgets g !! p) as [x|] eqn:Hx; [|set_solver].
  destruct (Gui.widgets g !! p') as [x'|] eqn:Hx'; [|set_solver].
  apply (join_unique _ p p' (Gui.children x) (Gui.children x') w Hn);
    rewrite ?list_lookup_fmap ?Hx ?Hx' //.
Qed.

(** A widget that is placed is the child of a container. *)
Lemma placed_child g c : c ∈ placed g ↔ ∃ p, Gui.child g p c.
Proof.
  unfold placed, Gui.child, Gui.children_of. rewrite list_elem_of_join. split.
  - intros (l & Hc & (x & -> & [p Hp]%list_elem_of_lookup)%list_elem_of_fmap).
    exists p. by rewrite Hp.
  - intros [p Hp]. destruct (Gui.widgets g !! p) as [x|] eqn:Hx; [|set_solver].
    exists (Gui.children x). split; [done|].
    apply list_elem_of_fmap. exists x. split; [done|by eapply list_elem_of_lookup_2].
Qed.

End placed.

(** ** The store is a forest *)

Section forest.
Context {C : Type}.
Implicit Types (g : Gui.t C) (w p c : nat).

(** No widget is placed twice, and what is placed has been created. *)
Definition forest g : Prop :=
  NoDup (placed g) ∧ Forall (λ c, c < length (Gui.widgets g)) (placed g).

#[export] Instance forest_dec g : Decision (forest g).
Proof. unfold forest. apply _. Defined.

(** A call that keeps the store a forest. *)
Definition keeps_forest {A} (m : Gui.Build C A) : Prop := ∀ g, forest g → forest (m g).2.

Lemma empty_forest : forest (@Gui.empty C).
Proof. split; [apply NoDup_nil_2|apply Forall_nil_2]. Qed.

Lemma ret_forest {A} (a : A) : keeps_forest (mret a : Gui.Build C A).
Proof. by intros g. Qed.

Lemma bind_forest {A B} (m : Gui.Build C A) (k : A → Gui.Build C B) :
  keeps_forest m → (∀ a, keeps_forest (k a)) → keeps_forest (m ≫= k).
Proof.
  intros Hm Hk g Hg. specialize (Hm g Hg). unfold mbind, gui_bind, Gui.build_bind.
  destruct (m g) as [a g1]. by apply Hk.
Qed.

(** One more child in one list of a list of lists. *)
Lemma join_insert_snoc {A} (ls : list (list A)) i l x :
  ls !! i = Some l → mjoin (<[i := l ++ [x]]> ls) ≡ₚ x :: mjoin ls.
Proof.
  revert i. induction ls as [|l0 ls IH]; intros i; [done|].
  destruct i as [|i]; simpl.
  - intros [= ->]. by rewrite -assoc /= -Permutation_middle.
  - intros Hi. by rewrite (IH i Hi) -Permutation_middle.
Qed.

(** A call that leaves the children of every widget alone. *)
Lemma alter_placed g (f : Gui.Widget C → Gui.Widget C) w :
  (∀ x, Gui.children (f x) = Gui.children x) →
  placed (Gui.with_widgets (alter f w (Gui.widgets g)) g) = placed g.
Proof.
  intros Hf. unfold placed. simpl. f_equal. apply list_eq. intros i.
  rewrite !list_lookup_fmap. destruct (decide (i = w)) as [->|Hi].
  - rewrite list_lookup_alter_eq. destruct (Gui.widgets g !! w); by rewrite /= ?Hf.
  - by rewrite list_lookup_alter_ne.
Qed.

Lemma new_forest k : keeps_forest (@Gui.new C k).
Proof.
  intros g [Hn Hlt]. unfold forest, placed. simpl.
  rewrite fmap_app join_app /= !app_nil_r length_app. split; [done|].
  eapply Forall_impl; [done|]. simpl. lia.
Qed.

Lemma set_forest s w : keeps_forest (@Gui.set C s w).
Proof.
  intros g [Hn Hlt]. unfold forest, Gui.set. simpl.
  rewrite alter_placed // length_alter //.
Qed.

Lemma connect_forest w signal (c : C) : keeps_forest (Gui.connect w signal c).
Proof.
  intros g [Hn Hlt]. unfold forest, Gui.connect. simpl.
  rewrite alter_placed // length_alter //.
Qed.

Lemma idle_add_forest (c : C) : keeps_forest (Gui.idle_add c).
Proof. by intros g. Qed.

(** [add] keeps the forest: it refuses a child that is placed. *)
Lemma add_forest p c : keeps_forest (@Gui.add C p c).
Proof.
  intros g [Hn Hlt]. unfold Gui.add. destruct (Gui.widgets g !! p) as [x|] eqn:Hx; [|done].
  destruct (Gui.accepts x); [|done]. simpl. case_bool_decide as Hc; [|done].
  destruct Hc as [Hc Hlen]. simpl.
  assert (placed (Gui.with_widgets (<[p:={| Gui.kind := Gui.kind x;
      Gui.settings := Gui.settings x; Gui.children := Gui.children x ++ [c];
      Gui.closures := Gui.closures x |}]> (Gui.widgets g)) g) ≡ₚ c :: placed g) as Hp.
  { unfold placed. simpl. rewrite list_fmap_insert /=.
    apply join_insert_snoc. by rewrite list_lookup_fmap Hx. }
  unfold forest. rewrite Hp /= length_insert. split.
  - apply NoDup_cons. split; [|done].
    intros [p' Hp']%placed_child. by eapply parent_None.
  - by apply Forall_cons.
Qed.

End forest.

Create HintDb forest discriminated.
#[export] Hint Resolve ret_forest new_forest set_forest connect_forest idle_add_forest
  add_forest : forest.

(** A sequence of calls keeps the forest when each call does. *)
Ltac keeps_forest :=
  repeat first
    [ apply bind_forest
    | progress auto with forest
    | intros [[? ?] ?] | intros [? ?] | intro ].
