(* ===== verification/Registry.v ===== *)
(** * The connection registry (connections.rs)

    [Synac] is the handle of one authenticated session, [Connection] the
    dial of one server, pending or resolved, and [Connections] the
    registry: the selected server, the nickname and the map from address
    to connection behind its mutex.

    A dial runs on a thread of its own.  What the thread will return is
    fixed by the network when the thread is spawned, so a [JoinHandle]
    holds that outcome: a result, or nothing when the dial never ends.
    The mutex of the map is the flag [held].  An operation that locks
    while the flag is set does not return ([Blocks]); [try_read] uses
    [try_lock] and returns at once.  The callbacks the operations take are
    functions from the session handle (and what they captured, [acc]) to
    the new session handle (and the new [acc]).

    [Db] holds the two tables of the database and the statements the
    client issues on them, here and in main.rs.

    [foreach] and [try_read] are shown to be instances of one walk over
    the map, [visit_loop], and the facts about the walk are proved once.
    [handles] is what the registry stands for: the session handle under
    each address, whether its dial has been joined or not.  [registry_ok]
    is the invariant, [step] the operations the program reaches a
    registry by. *)

From Stdlib Require Import ssreflect.
From stdpp Require Import gmap list strings.
From S2P Require Import Prelude BinarySearch Store Addr Transport Typing.

Open Scope general_if_scope.

(** ** The database of servers *)

Module Db.

(** A row of the table [servers]: [ip] is its primary key. *)
Record Row := { ip : string; name : string; hash : string; token : option string }.

(** The tables [servers] and [data]. *)
Record t := { servers : list Row; data : list (string * string) }.

(** [UPDATE servers SET token = ? WHERE ip = ?]. *)
Definition update_token (token ip' : string) (db : t) : t :=
  {| servers :=
       (λ row, if decide (ip row = ip')
               then {| ip := ip row; name := name row; hash := hash row; token := Some token |}
               else row) <$> servers db;
     data := data db |}.

(** [SELECT hash, token FROM servers WHERE ip = ?], first row. *)
Definition select_server (ip' : string) (db : t) : option (string * option string) :=
  (λ r, (hash r.2, token r.2)) <$> list_find (λ row, ip row = ip') (servers db).

(** [INSERT INTO servers (name, ip, hash) VALUES (?, ?, ?)]: refused when
    the key is taken. *)
Definition insert_server (name' ip' hash' : string) (db : t) : option t :=
  if decide (ip' ∈ ip <$> servers db) then None
  else Some {| servers := servers db ++ [{| ip := ip'; name := name'; hash := hash'; token := None |}];
               data := data db |}.

(** [SELECT value FROM data WHERE key = 'nick'], first row. *)
Definition select_nick (db : t) : option string :=
  (λ r, r.2.2) <$> list_find (λ row : string * string, row.1 = "nick"%string) (data db).

End Db.

Abbreviation Db := Db.t.

Section db_facts.
Implicit Types (db : Db) (row : Db.Row).

(** What [insert_server] makes of the table when the key is free. *)
Lemma insert_server_Some name ip hash db db' :
  Db.insert_server name ip hash db = Some db' ↔
  ip ∉ Db.ip <$> Db.servers db ∧
  db' = {| Db.servers := Db.servers db ++
             [{| Db.ip := ip; Db.name := name; Db.hash := hash; Db.token := None |}];
           Db.data := Db.data db |}.
Proof. unfold Db.insert_server. case_decide; naive_solver. Qed.

Lemma insert_server_None name ip hash db :
  Db.insert_server name ip hash db = None ↔ ip ∈ Db.ip <$> Db.servers db.
Proof. unfold Db.insert_server. case_decide; naive_solver. Qed.

(** The row of a key that was free is found as it was stored. *)
Lemma select_server_app ip rows row data :
  ip ∉ Db.ip <$> rows → Db.ip row = ip →
  Db.select_server ip {| Db.servers := rows ++ [row]; Db.data := data |} =
  Some (Db.hash row, Db.token row).
Proof.
  intros Hfree Hrow. unfold Db.select_server. simpl.
  induction rows as [|r rows IH]; [by rewrite /= decide_True|].
  rewrite fmap_cons in Hfree. apply not_elem_of_cons in Hfree as [Hne Hfree].
  specialize (IH Hfree). simpl. rewrite decide_False; [congruence|].
  destruct (list_find _ (rows ++ [row])) as [[i r']|]; simpl in *; congruence.
Qed.

(** The update of the token changes nothing when no row has the key. *)
Lemma update_token_miss token ip db :
  ip ∉ Db.ip <$> Db.servers db → Db.update_token token ip db = db.
Proof.
  intros Hfree. destruct db as [rows data]. unfold Db.update_token. simpl in *. f_equal.
  induction rows as [|r rows IH]; [done|]. rewrite fmap_cons in Hfree.
  apply not_elem_of_cons in Hfree as [Hne Hfree]. rewrite fmap_cons IH // decide_False //.
Qed.

End db_facts.

(** ** The session handle *)

Module Synac.

Record t := {
  addr : SocketAddr;
  session : Session;
  listener : Listener;
  state : State;
  current_channel : option N;
  messages : Messages.t;
  typing : Typing;
  user : N;
}.

Definition new (addr : SocketAddr) (session : Session) (user : N) : t :=
  {| addr := addr; listener := Listener.new; session := session; state := State.new;
     current_channel := None; messages := Messages.new; typing := Typing.new;
     user := user |}.

Definition with_session (session' : Session) (s : t) : t :=
  {| addr := addr s; session := session'; listener := listener s; state := state s;
     current_channel := current_channel s; messages := messages s; typing := typing s;
     user := user s |}.

Definition with_state (state' : State) (s : t) : t :=
  {| addr := addr s; session := session s; listener := listener s; state := state';
     current_channel := current_channel s; messages := messages s; typing := typing s;
     user := user s |}.

Definition with_messages (messages' : Messages.t) (s : t) : t :=
  {| addr := addr s; session := session s; listener := listener s; state := state s;
     current_channel := current_channel s; messages := messages'; typing := typing s;
     user := user s |}.

Definition with_typing (typing' : Typing) (s : t) : t :=
  {| addr := addr s; session := session s; listener := listener s; state := state s;
     current_channel := current_channel s; messages := messages s; typing := typing';
     user := user s |}.

Definition with_current_channel (channel : option N) (s : t) : t :=
  {| addr := addr s; session := session s; listener := listener s; state := state s;
     current_channel := channel; messages := messages s; typing := typing s;
     user := user s |}.

End Synac.

Abbreviation Synac := Synac.t.

(** ** A dial, pending or resolved *)

(** [JoinHandle<Result<Synac, Error>>]: what the thread returns, if it
    ever does. *)
Record JoinHandle := spawn { thread_result : Run (Result Synac Error) }.

Module Connection.

Inductive t :=
  | Connecting (handle : JoinHandle)
  | Connected (inner : Result Synac Error).

(** [join]: waits for the thread of a pending dial and keeps its result;
    [handle.join().unwrap()] panics when the thread panicked.  The pair is
    the new [self] and what the returned reference points to. *)
Definition join (self : t) : Run (t * Result Synac Error) :=
  new ← match self with
        | Connecting handle => inner ← thread_result handle; Returns (Connected inner)
        | Connected _ => Returns self
        end;
  match new with
  | Connecting _ => Panics
  | Connected inner => Returns (new, inner)
  end.

End Connection.

Abbreviation Connection := Connection.t.
Abbreviation Connecting := Connection.Connecting.
Abbreviation Connected := Connection.Connected.

(** ** The registry *)

Module Connections.

Record t := {
  current_server : option SocketAddr;
  nick : string;
  servers : gmap SocketAddr Connection;
  held : bool;
}.

Definition with_servers (servers' : gmap SocketAddr Connection) (self : t) : t :=
  {| current_server := current_server self; nick := nick self; servers := servers';
     held := held self |}.

(** *** [connect]: the dial *)

(** What a dial leaves behind: its result, whether the password closure
    was called, and the database. *)
Record Dialed := { outcome : Result Synac Error; asked : bool; db : Db }.

Section connect.
Context {common : Common} {network : Network}.

(** The block [if let Some(token) = token]: the handle when the token is
    accepted, the session to go on with when the server answers that the
    token or the user is not known. *)
Definition token_login (nick : string) (addr : SocketAddr) (token : string)
    (session : Session) : Run (Result (Synac + Session) Error) :=
  match Session.login_with_token false nick token session with
  | Err err => Returns (Err err)
  | Ok session =>
    r ← Session.read session;
    Returns match r with
    | Err err => Err err
    | Ok (Packet.LoginSuccess _ id _, session) =>
      let? session := Session.set_nonblocking true session in
      Ok (inl (Synac.new addr session id))
    | Ok (Packet.Err code, session) =>
      if decide (code = ERR_UNKNOWN_USER ∨ code = ERR_LOGIN_INVALID) then Ok (inr session)
      else Err (Conn (InvalidPacket (Packet.Err code)))
    | Ok (packet, _) => Err (Conn (InvalidPacket packet))
    end
  end.

(** The block [if let Some((password, db)) = password()]: the token the
    server issues is stored before the session is made non-blocking. *)
Definition password_login (nick : string) (addr : SocketAddr) (password : string)
    (db : Db) (session : Session) : Run (Result Synac Error * Db) :=
  match Session.login_with_password false nick password session with
  | Err err => Returns (Err err, db)
  | Ok session =>
    r ← Session.read session;
    Returns match r with
    | Err err => (Err err, db)
    | Ok (Packet.LoginSuccess _ id token, session) =>
      let db := Db.update_token token (to_string addr) db in
      (let? session := Session.set_nonblocking true session in
       Ok (Synac.new addr session id), db)
    | Ok (Packet.Err code, session) =>
      if decide (code = ERR_LOGIN_INVALID) then (Err (Conn InvalidPassword), db)
      else (Err (Conn (InvalidPacket (Packet.Err code))), db)
    | Ok (packet, _) => (Err (Conn (InvalidPacket packet)), db)
    end
  end.

(** [connect(addr, hash, token, password)].  [password] is what the
    closure returns when it is called: the password the user typed, or
    [None]. *)
Definition connect (self : t) (addr : SocketAddr) (hash : string) (token : option string)
    (password : option string) (db : Db) : Run Dialed :=
  match session_new addr hash with
  | Err err => Returns {| outcome := Err err; asked := false; db := db |}
  | Ok session =>
    r ← match token with
        | Some token => token_login (nick self) addr token session
        | None => Returns (Ok (inr session))
        end;
    match r with
    | Err err => Returns {| outcome := Err err; asked := false; db := db |}
    | Ok (inl synac) => Returns {| outcome := Ok synac; asked := false; db := db |}
    | Ok (inr session) =>
      match password with
      | Some password =>
        '(outcome, db) ← password_login (nick self) addr password db session;
        Returns {| outcome := outcome; asked := true; db := db |}
      | None =>
        Returns {| outcome := Err (Conn InvalidToken); asked := true; db := db |}
      end
    end
  end.

End connect.

(** *** [new]: one dial per stored server *)

Section new.
Context {common : Common} {network : Network} {net : StdNet}.

(** One round of the loop over the rows: a row whose address does not
    parse is skipped; the thread of another row dials with the stored
    token and a password closure that returns [None]. *)
Definition new_row (me : t) (db : Db) (servers : gmap SocketAddr Connection) (row : Db.Row)
    : gmap SocketAddr Connection :=
  match parse_addr (Db.ip row) with
  | Some addr =>
    <[addr := Connecting (spawn (outcome <$> connect me addr (Db.hash row) (Db.token row) None db))]>
      servers
  | None => servers
  end.

Definition new (db : Db) (nick : string) : t :=
  let me := {| current_server := None; nick := nick; servers := ∅; held := false |} in
  with_servers (foldl (new_row me db) ∅ (Db.servers db)) me.

End new.

(** *** The operations on the map *)

Definition insert (addr : SocketAddr) (result : Synac) (self : t) : Run t :=
  if held self then Blocks
  else Returns (with_servers (<[addr := Connected (Ok result)]> (servers self)) self).

Definition remove (addr : SocketAddr) (self : t) : Run t :=
  if held self then Blocks
  else Returns (with_servers (delete addr (servers self)) self).

Definition set_current (addr : option SocketAddr) (self : t) : t :=
  {| current_server := addr; nick := nick self; servers := servers self; held := held self |}.

(** [execute(addr, callback)].  The callback gets [Ok] of the handle,
    which it may change, or [Err] of the error of the dial. *)
Definition execute {A} (addr : SocketAddr) (on_ok : Synac → A → Synac * A)
    (on_err : Error → A → A) (acc : A) (self : t) : Run (t * A) :=
  if held self then Blocks else
  match servers self !! addr with
  | Some inner =>
    '(server, result) ← Connection.join inner;
    match result with
    | Ok synac =>
      let '(synac, acc) := on_ok synac acc in
      Returns (with_servers (<[addr := Connected (Ok synac)]> (servers self)) self, acc)
    | Err err =>
      Returns (with_servers (<[addr := server]> (servers self)) self, on_err err acc)
    end
  | None => Returns (self, acc)
  end.

(** The loop of [foreach] over [servers.values_mut()], in the order
    [order] of the keys. *)
Fixpoint foreach_loop {A} (callback : Synac → A → Synac * A) (order : list SocketAddr)
    (servers : gmap SocketAddr Connection) (acc : A)
    : Run (gmap SocketAddr Connection * A) :=
  match order with
  | [] => Returns (servers, acc)
  | addr :: order =>
    match servers !! addr with
    | Some server =>
      '(server, result) ← Connection.join server;
      match result with
      | Ok synac =>
        let '(synac, acc) := callback synac acc in
        foreach_loop callback order (<[addr := Connected (Ok synac)]> servers) acc
      | Err _ => foreach_loop callback order (<[addr := server]> servers) acc
      end
    | None => foreach_loop callback order servers acc
    end
  end.

Definition foreach {order : HashOrder} {A} (callback : Synac → A → Synac * A) (acc : A)
    (self : t) : Run (t * A) :=
  if held self then Blocks else
  '(servers, acc) ← foreach_loop callback (iter_keys (servers self)) (servers self) acc;
  Returns (with_servers servers self, acc).

(** *** [try_read]: the poll *)

Section try_read.
Context {common : Common} {search : SliceSearch} {order : HashOrder}.

(** What [try_read] does with a packet it has read, at the time [now]:
    the mirror is updated, then the store or the tracker, and the channel
    that changed is named. *)
Definition dispatch (now : N) (packet : Packet) (synac : Synac) : Run (Synac * option N) :=
  let synac := Synac.with_state (State.update packet (Synac.state synac)) synac in
  match packet with
  | Packet.MessageReceive inner _ =>
    messages ← or_panic (Messages.add inner (Synac.messages synac));
    Returns (Synac.with_messages messages synac, Some (Message.channel inner))
  | Packet.MessageDeleteReceive id =>
    let '(messages, channel) := Messages.remove id (Synac.messages synac) in
    Returns (Synac.with_messages messages synac, channel)
  | Packet.TypingReceive author channel =>
    if decide (author ≠ Synac.user synac) then
      Returns (Synac.with_typing (Typing.insert now author channel (Synac.typing synac)) synac,
               Some channel)
    else Returns (synac, None)
  | _ => Returns (synac, None)
  end.

(** The body of the loop of [try_read] for a resolved session: one look
    at the stream; a packet is dispatched and handed to the callback. *)
Definition poll {A} (now : N) (callback : Synac → Packet → option N → A → Synac * A)
    (synac : Synac) (acc : A) : Run (Result (Synac * A) Error) :=
  match Listener.try_read (Synac.session synac) with
  | Err err => Returns (Err err)
  | Ok (read, session) =>
    let synac := Synac.with_session session synac in
    match read with
    | Some packet =>
      '(synac, channel) ← dispatch now packet synac;
      Returns (Ok (callback synac packet channel acc))
    | None => Returns (Ok (synac, acc))
    end
  end.

(** The loop of [try_read].  A failed read leaves the loop at once, with
    the error; what the loop did before stays done. *)
Fixpoint try_read_loop {A} (now : N) (callback : Synac → Packet → option N → A → Synac * A)
    (order : list SocketAddr) (servers : gmap SocketAddr Connection) (acc : A)
    : Run (gmap SocketAddr Connection * A * Result () Error) :=
  match order with
  | [] => Returns (servers, acc, Ok ())
  | addr :: order =>
    match servers !! addr with
    | Some server =>
      '(server, result) ← Connection.join server;
      match result with
      | Ok synac =>
        r ← poll now callback synac acc;
        match r with
        | Err err => Returns (<[addr := server]> servers, acc, Err err)
        | Ok (synac, acc) =>
          try_read_loop now callback order (<[addr := Connected (Ok synac)]> servers) acc
        end
      | Err _ => try_read_loop now callback order (<[addr := server]> servers) acc
      end
    | None => try_read_loop now callback order servers acc
    end
  end.

Definition try_read {A} (now : N) (callback : Synac → Packet → option N → A → Synac * A)
    (acc : A) (self : t) : Run (t * A * Result () Error) :=
  if held self then Returns (self, acc, Ok ()) else
  '(servers, acc, result) ← try_read_loop now callback (iter_keys (servers self))
                             (servers self) acc;
  Returns (with_servers servers self, acc, result).

End try_read.

End Connections.

Abbreviation Connections := Connections.t.

(** ** [join] *)

Section join.
Implicit Types (c server : Connection) (r inner : Result Synac Error).

Lemma join_Connected inner :
  Connection.join (Connected inner) = Returns (Connected inner, inner).
Proof. done. Qed.

Lemma join_Connecting handle :
  Connection.join (Connecting handle) =
  inner ← thread_result handle; Returns (Connected inner, inner).
Proof. unfold Connection.join. simpl. by destruct (thread_result handle). Qed.

Lemma join_Returns c c' r :
  Connection.join c = Returns (c', r) →
  c' = Connected r ∧
  (c = Connected r ∨ ∃ handle, c = Connecting handle ∧ thread_result handle = Returns r).
Proof.
  destruct c as [handle|inner].
  - rewrite join_Connecting. intros (inner & Hh & [= <- <-])%run_bind_Returns. eauto.
  - rewrite join_Connected. intros [= <- <-]. eauto.
Qed.

(** A pending dial that never ends makes [join] wait for ever; one whose
    thread panicked makes it panic; nothing else does. *)
Lemma join_Blocks c :
  Connection.join c = Blocks ↔ ∃ handle, c = Connecting handle ∧ thread_result handle = Blocks.
Proof.
  destruct c as [handle|inner].
  - rewrite join_Connecting. destruct (thread_result handle) eqn:Hh; simpl.
    all: split; [intros ?; simplify_eq; by exists handle|intros (? & [= <-] & ?); congruence].
  - rewrite join_Connected. split; [done|by intros (? & ? & ?)].
Qed.

Lemma join_Panics c :
  Connection.join c = Panics ↔ ∃ handle, c = Connecting handle ∧ thread_result handle = Panics.
Proof.
  destruct c as [handle|inner].
  - rewrite join_Connecting. destruct (thread_result handle) eqn:Hh; simpl.
    all: split; [intros ?; simplify_eq; by exists handle|intros (? & [= <-] & ?); congruence].
  - rewrite join_Connected. split; [done|by intros (? & ? & ?)].
Qed.

(** The dial has ended, or was never pending. *)
Definition resolved (c : Connection) : Prop :=
  match c with Connected _ => True | Connecting _ => False end.

#[export] Instance resolved_dec c : Decision (resolved c).
Proof. destruct c; apply _. Defined.

(** The dial will end: [join] returns. *)
Definition ends (c : Connection) : Prop :=
  match c with Connected _ => True | Connecting handle => returns (thread_result handle) end.

#[export] Instance ends_dec c : Decision (ends c).
Proof. destruct c; apply _. Defined.

(** Every dial of the registry has ended or will end: no [join] waits for
    ever. *)
Definition settled (self : Connections) : Prop :=
  map_Forall (λ _ c, ends c) (Connections.servers self).

#[export] Instance settled_dec self : Decision (settled self).
Proof. unfold settled. apply _. Defined.

Lemma join_returns c : returns (Connection.join c) ↔ ends c.
Proof.
  destruct c as [handle|inner]; [|done].
  rewrite join_Connecting. simpl. by destruct (thread_result handle).
Qed.

(** The session handle a connection holds, or will hold once joined. *)
Definition handle_of (c : Connection) : option Synac :=
  match Connection.join c with
  | Returns (_, Ok synac) => Some synac
  | _ => None
  end.

(** The handles of a registry, by address. *)
Definition handles (self : Connections) : gmap SocketAddr Synac :=
  omap handle_of (Connections.servers self).

Lemma handle_of_join c c' r :
  Connection.join c = Returns (c', r) →
  handle_of c' = handle_of c ∧ handle_of c = match r with Ok synac => Some synac | _ => None end.
Proof. intros Hj. destruct (join_Returns _ _ _ Hj) as [-> _]. by rewrite /handle_of Hj. Qed.

(** Storing a connection as [join] returned it changes no handle. *)
Lemma handles_join self addr c c' r :
  Connections.servers self !! addr = Some c → Connection.join c = Returns (c', r) →
  handles (Connections.with_servers (<[addr := c']> (Connections.servers self)) self) =
  handles self.
Proof.
  intros Hc [Hj _]%handle_of_join. apply map_eq. intros a. rewrite /handles /= !lookup_omap.
  destruct (decide (a = addr)) as [->|]; [|by rewrite lookup_insert_ne].
  by rewrite lookup_insert_eq Hc /= Hj.
Qed.

Lemma handles_lookup self addr c c' synac :
  Connections.servers self !! addr = Some c → Connection.join c = Returns (c', Ok synac) →
  handles self !! addr = Some synac.
Proof. intros Hc [_ Hj]%handle_of_join. by rewrite /handles lookup_omap Hc /= Hj. Qed.

End join.

(** The life of a connection.  [join] turns a pending dial into a
    resolved one and hands out its result; a resolved connection is left
    as it is, so joining again gives the same connection and the same
    result: once resolved, never pending again. *)
Lemma join_idempotent (c c' : Connection) (r : Result Synac Error) :
  Connection.join c = Returns (c', r) →
  c' = Connected r ∧ resolved c' ∧ Connection.join c' = Returns (c', r).
Proof. by intros [-> _]%join_Returns. Qed.

(** ** [connect] *)

Section connect_facts.
Context {common : Common} {network : Network}.
Implicit Types (self : Connections) (s session : Session) (db : Db) (l : list Incoming).

(** The session after the login packets [sent'] were written and the
    script was read up to [l]. *)
Definition logged_in (s : Session) (sent' : list Packet) (l : list Incoming) (nb : bool)
    : Session :=
  {| Session.addr := Session.addr s; Session.hash := Session.hash s;
     Session.incoming := l; Session.sent := Session.sent s ++ sent';
     Session.write_error := None; Session.nonblocking := nb |}.

Lemma send_logged_in s sent' l packet :
  Session.send packet (logged_in s sent' l false) = Ok (logged_in s (sent' ++ [packet]) l false).
Proof. by rewrite /Session.send /logged_in /= assoc. Qed.

Lemma send_fresh s packet :
  Session.write_error s = None → Session.nonblocking s = false →
  Session.send packet s = Ok (logged_in s [packet] (Session.incoming s) false).
Proof. intros Hw Hnb. by rewrite /Session.send /logged_in Hw Hnb. Qed.

Lemma read_logged_in s sent' l :
  Session.read (logged_in s sent' l false) =
  r ← or_block (Session.await l);
  Returns match r with
          | Ok (packet, l') => Ok (packet, logged_in s sent' l' false)
          | Err err => Err err
          end.
Proof. done. Qed.

Lemma set_nonblocking_logged_in s sent' l :
  Session.set_nonblocking true (logged_in s sent' l false) = Ok (logged_in s sent' l true).
Proof. done. Qed.

Lemma logged_in_nil s :
  Session.write_error s = None → Session.nonblocking s = false →
  logged_in s [] (Session.incoming s) false = s.
Proof. destruct s. simpl. intros -> ->. by rewrite /logged_in /= app_nil_r. Qed.

(** The reply to the token decides: the handle, the next attempt, or an
    error. *)
Lemma token_login_reply nick addr token s sent' l :
  Connections.token_login nick addr token (logged_in s sent' l false) =
  r ← or_block (Session.await l);
  Returns match r with
  | Err err => Err err
  | Ok (Packet.LoginSuccess _ id _, l') =>
    Ok (inl (Synac.new addr
      (logged_in s (sent' ++ [Packet.Login false nick None (Some token)]) l' true) id))
  | Ok (Packet.Err code, l') =>
    if decide (code = ERR_UNKNOWN_USER ∨ code = ERR_LOGIN_INVALID)
    then Ok (inr (logged_in s (sent' ++ [Packet.Login false nick None (Some token)]) l' false))
    else Err (Conn (InvalidPacket (Packet.Err code)))
  | Ok (packet, _) => Err (Conn (InvalidPacket packet))
  end.
Proof.
  rewrite /Connections.token_login /Session.login_with_token send_logged_in read_logged_in.
  destruct (Session.await l) as [[[[] l']|err]|]; done.
Qed.

Lemma password_login_reply nick addr password db s sent' l :
  Connections.password_login nick addr password db (logged_in s sent' l false) =
  r ← or_block (Session.await l);
  Returns match r with
  | Err err => (Err err, db)
  | Ok (Packet.LoginSuccess _ id token, l') =>
    (Ok (Synac.new addr
       (logged_in s (sent' ++ [Packet.Login false nick (Some password) None]) l' true) id),
     Db.update_token token (to_string addr) db)
  | Ok (Packet.Err code, l') =>
    if decide (code = ERR_LOGIN_INVALID) then (Err (Conn InvalidPassword), db)
    else (Err (Conn (InvalidPacket (Packet.Err code))), db)
  | Ok (packet, _) => (Err (Conn (InvalidPacket packet)), db)
  end.
Proof.
  rewrite /Connections.password_login /Session.login_with_password send_logged_in
    read_logged_in.
  destruct (Session.await l) as [[[[] l']|err]|]; done.
Qed.

(** A script that ends with a failure of the stream answers every read
    that waits, now and after any number of reads. *)
Definition closes (l : list Incoming) : Prop :=
  match last l with Some (Failed _) => True | _ => False end.

#[export] Instance closes_dec l : Decision (closes l).
Proof. unfold closes. destruct (last l) as [[]|]; apply _. Defined.

Lemma await_closes l :
  closes l →
  ∃ r, Session.await l = Some r ∧
    match r with Ok (_, l') => closes l' | Err _ => True end.
Proof.
  unfold closes. induction l as [|i l IH]; [done|].
  destruct l as [|i' l]; [by destruct i; eauto|].
  rewrite last_cons_cons. intros Hl.
  destruct i as [packet| |err]; simpl; [by exists (Ok (packet, i' :: l))|auto|by exists (Err err)].
Qed.

End connect_facts.

Section connect_theorems.
Context {common : Common} {network : Network}.
Implicit Types (self : Connections) (s : Session) (db : Db) (l : list Incoming).

(** The continuation of [connect] once the token block is through. *)
Definition after_token self (addr : SocketAddr) (password : option string) db
    (r : Result (Synac + Session) Error) : Run Connections.Dialed :=
  match r with
  | Err err =>
    Returns {| Connections.outcome := Err err; Connections.asked := false; Connections.db := db |}
  | Ok (inl synac) =>
    Returns {| Connections.outcome := Ok synac; Connections.asked := false; Connections.db := db |}
  | Ok (inr session) =>
    match password with
    | Some password =>
      '(outcome, db) ← Connections.password_login (Connections.nick self) addr password db session;
      Returns {| Connections.outcome := outcome; Connections.asked := true; Connections.db := db |}
    | None =>
      Returns {| Connections.outcome := Err (Conn InvalidToken); Connections.asked := true;
                 Connections.db := db |}
    end
  end.

Lemma connect_fresh self addr hash token password db s :
  session_new addr hash = Ok s →
  Session.write_error s = None →
  Connections.connect self addr hash token password db =
  match token with
  | Some token =>
    Connections.token_login (Connections.nick self) addr token
      (logged_in s [] (Session.incoming s) false)
  | None => Returns (Ok (inr (logged_in s [] (Session.incoming s) false)))
  end ≫= after_token self addr password db.
Proof.
  intros Hnew Hw. destruct (session_new_fresh _ _ _ Hnew) as (_ & _ & Hnb).
  by rewrite /Connections.connect Hnew logged_in_nil.
Qed.

(** C13: a dial with a token the server accepts returns the handle of
    the session, with the user id of the reply; one login packet was sent,
    the session is non-blocking, the password closure was not called and the
    database is as it was. *)
Theorem connect_token self addr hash token password db s created id issued l :
  session_new addr hash = Ok s →
  Session.write_error s = None →
  Session.await (Session.incoming s) = Some (Ok (Packet.LoginSuccess created id issued, l)) →
  Connections.connect self addr hash (Some token) password db =
  Returns {|
    Connections.outcome := Ok (Synac.new addr
      (logged_in s [Packet.Login false (Connections.nick self) None (Some token)] l true) id);
    Connections.asked := false;
    Connections.db := db |}.
Proof.
  intros Hnew Hw Hl. by rewrite (connect_fresh _ _ _ _ _ _ s) // token_login_reply Hl.
Qed.

(** C4: a dial whose token the server refuses as unknown or invalid
    falls through to the password; when the server accepts the password the
    dial returns the handle, the password closure was called, and the token
    the server issued is stored under the text of the address, once. *)
Theorem connect_password_fallback self addr hash token password db s code l1
    created id issued l2 :
  session_new addr hash = Ok s →
  Session.write_error s = None →
  Session.await (Session.incoming s) = Some (Ok (Packet.Err code, l1)) →
  code = ERR_UNKNOWN_USER ∨ code = ERR_LOGIN_INVALID →
  Session.await l1 = Some (Ok (Packet.LoginSuccess created id issued, l2)) →
  Connections.connect self addr hash (Some token) (Some password) db =
  Returns {|
    Connections.outcome := Ok (Synac.new addr
      (logged_in s [Packet.Login false (Connections.nick self) None (Some token);
                    Packet.Login false (Connections.nick self) (Some password) None] l2 true)
      id);
    Connections.asked := true;
    Connections.db := Db.update_token issued (to_string addr) db |}.
Proof.
  intros Hnew Hw Hl1 Hcode Hl2.
  rewrite (connect_fresh _ _ _ _ _ _ s) // token_login_reply Hl1 /= decide_True //=.
  by rewrite password_login_reply Hl2.
Qed.

(** Without a token and without a password the dial fails with
    [InvalidToken], and so does a dial whose token was refused when there
    is no password; nothing is stored. *)
Lemma connect_no_credential self addr hash db s :
  session_new addr hash = Ok s →
  Session.write_error s = None →
  let failed := Returns {| Connections.outcome := Err (Conn InvalidToken);
                           Connections.asked := true; Connections.db := db |} in
  Connections.connect self addr hash None None db = failed ∧
  ∀ token code l,
    Session.await (Session.incoming s) = Some (Ok (Packet.Err code, l)) →
    code = ERR_UNKNOWN_USER ∨ code = ERR_LOGIN_INVALID →
    Connections.connect self addr hash (Some token) None db = failed.
Proof.
  intros Hnew Hw. split; [by rewrite (connect_fresh _ _ _ _ _ _ s)|].
  intros token code l Hl Hcode.
  by rewrite (connect_fresh _ _ _ _ _ _ s) // token_login_reply Hl /= decide_True.
Qed.

(** A password the server answers with "invalid login" ends the dial
    with [InvalidPassword], and the database is as it was. *)
Lemma connect_invalid_password self addr hash password db s l :
  session_new addr hash = Ok s →
  Session.write_error s = None →
  Session.await (Session.incoming s) = Some (Ok (Packet.Err ERR_LOGIN_INVALID, l)) →
  Connections.connect self addr hash None (Some password) db =
  Returns {| Connections.outcome := Err (Conn InvalidPassword); Connections.asked := true;
             Connections.db := db |}.
Proof.
  intros Hnew Hw Hl.
  by rewrite (connect_fresh _ _ _ _ _ _ s) //= password_login_reply Hl /= decide_True.
Qed.

(** A handle made by a dial: for the address dialled, non-blocking, with
    an empty store and no channel selected. *)
Definition dialed_handle (addr : SocketAddr) (synac : Synac) : Prop :=
  Synac.addr synac = addr ∧ Session.nonblocking (Synac.session synac) = true ∧
  Synac.messages synac = Messages.new ∧ Synac.current_channel synac = None.

Lemma token_login_inv nick addr token session synac :
  Connections.token_login nick addr token session = Returns (Ok (inl synac)) →
  dialed_handle addr synac.
Proof.
  rewrite /Connections.token_login /Session.login_with_token.
  destruct (Session.send _ _) as [session'|]; [|done].
  intros (r & _ & Hr)%run_bind_Returns. by repeat (case_match || simplify_eq/=).
Qed.

Lemma password_login_inv nick addr password db session outcome db' :
  Connections.password_login nick addr password db session = Returns (outcome, db') →
  (db' = db ∨ ∃ issued, db' = Db.update_token issued (to_string addr) db ∧
                         is_ok outcome = true) ∧
  (∀ synac, outcome = Ok synac → dialed_handle addr synac).
Proof.
  rewrite /Connections.password_login /Session.login_with_password.
  destruct (Session.send _ _) as [session'|]; [|intros [= <- <-]; by split; [left|]].
  intros (r & _ & Hr)%run_bind_Returns.
  repeat (case_match || simplify_eq/=); try by (split; [left|]).
  split; [right; by eexists|]. by intros ? [= <-].
Qed.

(** What any dial that returns has done, whatever the server sent. *)
Lemma connect_inv self addr hash token password db d :
  Connections.connect self addr hash token password db = Returns d →
  (Connections.db d = db ∨
   ∃ issued, Connections.db d = Db.update_token issued (to_string addr) db ∧
     is_ok (Connections.outcome d) = true ∧ Connections.asked d = true ∧ is_Some password) ∧
  (∀ synac, Connections.outcome d = Ok synac → dialed_handle addr synac).
Proof.
  unfold Connections.connect. destruct (session_new addr hash) as [s|err].
  2: { intros [= <-]. by split; [left|]. }
  intros ([[synac|session]|err] & Htoken & Hd)%run_bind_Returns; simplify_eq/=.
  - split; [by left|]. intros ? [= <-]. destruct token; [|done].
    by eapply token_login_inv.
  - destruct password as [password|]; [|simplify_eq/=; by split; [left|]].
    apply run_bind_Returns in Hd as ([outcome db'] & Hp%password_login_inv & [= <-]).
    destruct Hp as [[->|(issued & -> & ?)] Hsynac]; (split; [|done]); [by left|].
    right. exists issued. by eauto.
  - by split; [left|].
Qed.

Lemma closes_tail i l : closes (i :: l) → l ≠ [] → closes l.
Proof. destruct l; [done|]. by rewrite /closes last_cons_cons. Qed.

Lemma read_closes session :
  closes (Session.incoming session) →
  ∃ r, Session.read session = Returns r ∧
    match r with Ok (_, session') => closes (Session.incoming session') | Err _ => True end.
Proof.
  unfold Session.read. destruct (Session.nonblocking session).
  - destruct (Session.incoming session) as [|[packet| |err] l]; intros Hc.
    + done.
    + exists (Ok (packet, Session.with_incoming l session)). split; [done|]. simpl.
      apply (closes_tail _ _ Hc). by intros ->.
    + by exists (Err (Io WouldBlock)).
    + by exists (Err err).
  - intros Hc. destruct (await_closes _ Hc) as ([[packet l]|err] & -> & Hl); by eexists.
Qed.

Lemma send_closes packet session session' :
  Session.send packet session = Ok session' →
  closes (Session.incoming session) → closes (Session.incoming session').
Proof. by intros (_ & _ & -> & _)%send_Ok. Qed.

Lemma token_login_closes nick addr token session :
  closes (Session.incoming session) →
  ∃ r, Connections.token_login nick addr token session = Returns r ∧
    match r with Ok (inr session') => closes (Session.incoming session') | _ => True end.
Proof.
  intros Hc. rewrite /Connections.token_login /Session.login_with_token.
  destruct (Session.send _ _) as [session'|err] eqn:Hsend; [|by eexists].
  destruct (read_closes session') as (r & -> & Hr); [by eapply send_closes|].
  eexists. split; [done|]. by repeat (case_match || simplify_eq/=).
Qed.

Lemma password_login_closes nick addr password db session :
  closes (Session.incoming session) →
  returns (Connections.password_login nick addr password db session).
Proof.
  intros Hc. rewrite /Connections.password_login /Session.login_with_password.
  destruct (Session.send _ _) as [session'|err] eqn:Hsend; [|done].
  by destruct (read_closes session') as (r & -> & Hr); [by eapply send_closes|].
Qed.

(** A dial ends.  When the server's stream ends with a failure (the
    peer answers or hangs up, it does not stay silent for ever), [connect]
    returns: it neither waits for ever nor panics. *)
Lemma connect_returns self addr hash token password db :
  (∀ s, session_new addr hash = Ok s → closes (Session.incoming s)) →
  returns (Connections.connect self addr hash token password db).
Proof.
  intros Hc. unfold Connections.connect.
  destruct (session_new addr hash) as [s|err]; [|done]. specialize (Hc s eq_refl).
  apply returns_bind. destruct token as [token|].
  - destruct (token_login_closes (Connections.nick self) addr token s Hc) as (r & -> & Hr).
    exists r. split; [done|]. destruct r as [[synac|session]|err]; try done.
    destruct password as [password|]; [|done]. apply returns_bind.
    pose proof (password_login_closes (Connections.nick self) addr password db session Hr) as Hp.
    apply returns_Returns in Hp as [[outcome db'] ->]. by eexists.
  - eexists. split; [done|]. destruct password as [password|]; [|done]. apply returns_bind.
    pose proof (password_login_closes (Connections.nick self) addr password db s Hc) as Hp.
    apply returns_Returns in Hp as [[outcome db'] ->]. by eexists.
Qed.

(** A dial waits for ever when the server accepts the connection
    and then stays silent: the thread of that dial never finishes. *)
Lemma connect_blocks self addr hash token password db s :
  session_new addr hash = Ok s →
  Session.write_error s = None →
  Session.await (Session.incoming s) = None →
  is_Some token ∨ is_Some password →
  Connections.connect self addr hash token password db = Blocks.
Proof.
  intros Hnew Hw Hl Hcred. rewrite (connect_fresh _ _ _ _ _ _ s) //.
  destruct token as [token|]; [by rewrite token_login_reply Hl|].
  destruct Hcred as [[? [=]]|[pw ->]]. by rewrite /= password_login_reply Hl.
Qed.

(** C31: when a dial ends.  [connect] returns, and neither waits for
    ever nor panics, when the stream of the server ends with a failure:
    the peer answers or hangs up.  It waits for ever when the server
    accepts the connection and a login and then stays silent: the thread
    of that dial never finishes. *)
Theorem connect_ends self addr hash token password db :
  ((∀ s, session_new addr hash = Ok s → closes (Session.incoming s)) →
   returns (Connections.connect self addr hash token password db)) ∧
  (∀ s, session_new addr hash = Ok s → Session.write_error s = None →
     Session.await (Session.incoming s) = None → is_Some token ∨ is_Some password →
     Connections.connect self addr hash token password db = Blocks).
Proof. split; [apply connect_returns|apply connect_blocks]. Qed.

End connect_theorems.

(** ** Loops over the connections

    [foreach] and [try_read] walk over the map in the same way: every
    connection is joined, and the handle of a dial that succeeded is
    visited.  [visit_loop] is that walk for any visit; the two loops of
    the code are shown to be instances of it, and what holds of the walk
    is proved once. *)

Section visit.
Context {A : Type} (visit : Synac → A → Run (Result (Synac * A) Error)).
Implicit Types (servers : gmap SocketAddr Connection) (order : list SocketAddr) (acc : A).
Implicit Types (c : Connection) (addr : SocketAddr) (r : Result () Error).

Fixpoint visit_loop order servers acc
    : Run (gmap SocketAddr Connection * A * Result () Error) :=
  match order with
  | [] => Returns (servers, acc, Ok ())
  | addr :: order =>
    match servers !! addr with
    | Some server =>
      '(server, result) ← Connection.join server;
      match result with
      | Ok synac =>
        r ← visit synac acc;
        match r with
        | Err err => Returns (<[addr := server]> servers, acc, Err err)
        | Ok (synac, acc) => visit_loop order (<[addr := Connected (Ok synac)]> servers) acc
        end
      | Err _ => visit_loop order (<[addr := server]> servers) acc
      end
    | None => visit_loop order servers acc
    end
  end.

(** One connection before and after its visit. *)
Inductive visited : Connection → Connection → Prop :=
| visited_failed c err :
    Connection.join c = Returns (Connected (Err err), Err err) →
    visited c (Connected (Err err))
| visited_ok c synac acc synac' acc' :
    Connection.join c = Returns (Connected (Ok synac), Ok synac) →
    visit synac acc = Returns (Ok (synac', acc')) →
    visited c (Connected (Ok synac')).

(** A connection whose visit failed with [err]: joined, and otherwise as
    it was. *)
Inductive stopped (err : Error) : Connection → Connection → Prop :=
| stopped_at c synac acc :
    Connection.join c = Returns (Connected (Ok synac), Ok synac) →
    visit synac acc = Returns (Err err) →
    stopped err c (Connected (Ok synac)).

(** What one round of the walk does, by cases. *)
Lemma visit_loop_cons addr order servers acc out :
  visit_loop (addr :: order) servers acc = Returns out →
  (servers !! addr = None ∧ visit_loop order servers acc = Returns out) ∨
  ∃ c c', servers !! addr = Some c ∧
    ((∃ acc', visited c c' ∧ visit_loop order (<[addr := c']> servers) acc' = Returns out) ∨
     (∃ err, stopped err c c' ∧ out = (<[addr := c']> servers, acc, Err err))).
Proof.
  simpl. intros Hout. destruct (servers !! addr) as [c|]; [|by left]. right.
  apply run_bind_Returns in Hout as ([c' inner] & Hjoin & Hout).
  pose proof (join_Returns _ _ _ Hjoin) as [-> _]. exists c.
  destruct inner as [synac|err].
  - apply run_bind_Returns in Hout as ([[synac' acc']|err] & Hvisit & Hout).
    + exists (Connected (Ok synac')). split; [done|]. left. exists acc'.
      split; [by eapply visited_ok|done].
    + exists (Connected (Ok synac)). split; [done|]. right. exists err. simplify_eq.
      split; [by eapply stopped_at|done].
  - exists (Connected (Err err)). split; [done|]. left. exists acc.
    split; [by apply visited_failed|done].
Qed.

(** Connections the walk does not come to are left alone. *)
Lemma visit_loop_other order servers acc servers' acc' r addr :
  visit_loop order servers acc = Returns (servers', acc', r) →
  addr ∉ order → servers' !! addr = servers !! addr.
Proof.
  revert servers acc. induction order as [|a order IH]; intros servers acc.
  { by intros [= <- _ _]. }
  intros Hloop [Ha Hin]%not_elem_of_cons.
  apply visit_loop_cons in Hloop as [[_ Hloop]|(c & c' & Hc & [(acc1 & _ & Hloop)|(err & _ & Hout)])].
  - by apply (IH _ _ Hloop).
  - by rewrite (IH _ _ Hloop) // lookup_insert_ne.
  - simplify_eq. by rewrite lookup_insert_ne.
Qed.

(** The walk neither adds nor removes a key. *)
Lemma visit_loop_dom order servers acc servers' acc' r :
  visit_loop order servers acc = Returns (servers', acc', r) → dom servers' = dom servers.
Proof.
  revert servers acc. induction order as [|a order IH]; intros servers acc.
  { by intros [= <- _ _]. }
  intros [[_ Hloop]|(c & c' & Hc & [(acc1 & _ & Hloop)|(err & _ & Hout)])]%visit_loop_cons.
  - by apply (IH _ _ Hloop).
  - rewrite (IH _ _ Hloop). by apply dom_insert_lookup_L.
  - simplify_eq. by apply dom_insert_lookup_L.
Qed.

(** A walk that comes to its end has visited every connection of the
    order, once. *)
Lemma visit_loop_Ok order servers acc servers' acc' addr c :
  NoDup order →
  visit_loop order servers acc = Returns (servers', acc', Ok ()) →
  addr ∈ order → servers !! addr = Some c →
  ∃ c', servers' !! addr = Some c' ∧ visited c c'.
Proof.
  revert servers acc. induction order as [|a order IH]; intros servers acc Hnd Hloop Hin Hc.
  { by apply elem_of_nil in Hin. }
  apply NoDup_cons in Hnd as [Ha Hnd].
  apply visit_loop_cons in Hloop
    as [[Hnone Hloop]|(c1 & c1' & Hc1 & [(acc1 & Hv & Hloop)|(err & _ & [=])])].
  - apply elem_of_cons in Hin as [->|Hin]; [congruence|]. by apply (IH _ _ Hnd Hloop).
  - apply elem_of_cons in Hin as [->|Hin].
    + simplify_eq. exists c1'. by rewrite (visit_loop_other _ _ _ _ _ _ _ Hloop) // lookup_insert_eq.
    + apply (IH _ _ Hnd Hloop Hin). rewrite lookup_insert_ne //. by intros ->.
Qed.

(** A walk that ends with an error stopped at one connection; the
    connections before it were visited, those behind it were not
    touched. *)
Lemma visit_loop_Err order servers acc servers' acc' err :
  NoDup order →
  visit_loop order servers acc = Returns (servers', acc', Err err) →
  ∃ before addr after c c',
    order = before ++ addr :: after ∧
    servers !! addr = Some c ∧ servers' !! addr = Some c' ∧ stopped err c c' ∧
    (∀ a, a ∈ after → servers' !! a = servers !! a) ∧
    (∀ a ca, a ∈ before → servers !! a = Some ca →
       ∃ ca', servers' !! a = Some ca' ∧ visited ca ca').
Proof.
  revert servers acc. induction order as [|a order IH]; intros servers acc Hnd Hloop; [done|].
  apply NoDup_cons in Hnd as [Ha Hnd].
  apply visit_loop_cons in Hloop
    as [[Hnone Hloop]|(c1 & c1' & Hc1 & [(acc1 & Hv & Hloop)|(err' & Hstop & [= -> -> ->])])].
  - destruct (IH _ _ Hnd Hloop) as (before & addr & after & c & c' & -> & ? & ? & ? & ? & Hb).
    exists (a :: before), addr, after, c, c'. split_and!; try done.
    intros a' ca [->|?]%elem_of_cons ?; [congruence|by apply Hb].
  - destruct (IH _ _ Hnd Hloop)
      as (before & addr & after & c & c' & -> & Hc & Hc' & Hstop & Hafter & Hb).
    assert (addr ≠ a) as Hne by (intros ->; set_solver).
    exists (a :: before), addr, after, c, c'. rewrite lookup_insert_ne // in Hc.
    split_and!; try done.
    + intros a' Ha'. rewrite Hafter // lookup_insert_ne //. intros <-. set_solver.
    + intros a' ca [->|Ha']%elem_of_cons Hca.
      * simplify_eq. exists c1'. split; [|done].
        rewrite (visit_loop_other _ _ _ _ _ _ _ Hloop) // lookup_insert_eq //.
      * apply Hb; [done|]. rewrite lookup_insert_ne //. intros <-. set_solver.
  - exists [], a, order, c1, c1'. rewrite lookup_insert_eq. split_and!; try done.
    + intros a' Ha'. rewrite lookup_insert_ne //. by intros <-.
    + by intros ? ? ?%elem_of_nil.
Qed.

(** Every handle under one of the keys [order] says that it belongs
    there. *)
Definition at_home order servers : Prop :=
  ∀ a c synac, a ∈ order → servers !! a = Some c → handle_of c = Some synac →
    Synac.addr synac = a.

Lemma at_home_tail a order servers c' :
  NoDup (a :: order) → at_home (a :: order) servers → at_home order (<[a := c']> servers).
Proof.
  intros [Ha _]%NoDup_cons Hhome a' c synac Ha' Hc. apply Hhome; [by right|].
  rewrite lookup_insert_ne // in Hc. by intros ->.
Qed.

Lemma at_home_cons a order servers : at_home (a :: order) servers → at_home order servers.
Proof. intros Hhome a' c synac Ha'. apply Hhome. by right. Qed.

(** A visit that gathers nothing from the sessions of other servers than
    [addr]. *)
Definition only_at addr : Prop :=
  ∀ synac acc synac' acc', Synac.addr synac ≠ addr →
    visit synac acc = Returns (Ok (synac', acc')) → acc' = acc.

(** A walk that does not pass [addr] gathers nothing. *)
Lemma visit_loop_skip addr order servers acc servers' acc' r :
  NoDup order → addr ∉ order → at_home order servers → only_at addr →
  visit_loop order servers acc = Returns (servers', acc', r) → acc' = acc.
Proof.
  intros Hnd Hnotin Hhome Honly. revert servers acc Hhome.
  induction order as [|a order IH]; intros servers acc Hhome; [by intros [= _ <- _]|].
  apply not_elem_of_cons in Hnotin as [Hne Hnotin]. pose proof Hnd as [_ Hnd']%NoDup_cons.
  simpl. destruct (servers !! a) as [c|] eqn:Hc; [|by apply IH, (at_home_cons a)].
  destruct (Connection.join c) as [[c' [synac|err]]| |] eqn:Hj; simpl; try done;
    [|by apply IH, at_home_tail].
  destruct (visit synac acc) as [[[synac' acc1]|err]| |] eqn:Hv; simpl; try done;
    [|by intros [= _ <- _]].
  assert (acc1 = acc) as ->; [|by apply IH, at_home_tail].
  eapply Honly; [|done]. rewrite (Hhome a c synac) //; [by left|by rewrite /handle_of Hj].
Qed.

(** A walk that passes the handle of [addr] and ends well has gathered
    what the visit of that handle gathers. *)
Lemma visit_loop_one addr order servers acc servers' acc' c synac :
  NoDup order → addr ∈ order → at_home order servers → only_at addr →
  servers !! addr = Some c → handle_of c = Some synac →
  visit_loop order servers acc = Returns (servers', acc', Ok ()) →
  ∃ synac', visit synac acc = Returns (Ok (synac', acc')).
Proof.
  intros Hnd Hin Hhome Honly. revert servers acc Hhome Hin.
  induction order as [|a order IH]; intros servers acc Hhome Hin Haddr Hsynac;
    [by apply elem_of_nil in Hin|].
  pose proof Hnd as [Ha Hnd']%NoDup_cons. simpl.
  destruct (decide (a = addr)) as [->|Hne].
  - rewrite Haddr. revert Hsynac. unfold handle_of.
    destruct (Connection.join c) as [[c' [synac0|err]]| |]; simpl; try done. intros [= ->].
    destruct (visit synac acc) as [[[synac' acc1]|err]| |] eqn:Hv; simpl; try done.
    intros Hloop. exists synac'.
    by rewrite (visit_loop_skip addr _ _ _ _ _ _ Hnd' Ha (at_home_tail _ _ _ _ Hnd Hhome)
      Honly Hloop).
  - apply elem_of_cons in Hin as [?|Hin]; [done|].
    destruct (servers !! a) as [c0|] eqn:Hc0; [|by apply IH; [|apply (at_home_cons a)|..]].
    destruct (Connection.join c0) as [[c' [synac0|err]]| |] eqn:Hj; simpl; try done.
    + destruct (visit synac0 acc) as [[[synac' acc1]|err]| |] eqn:Hv; simpl; try done.
      assert (acc1 = acc) as ->.
      { eapply Honly; [|done].
        rewrite (Hhome a c0 synac0) //; [by left|by rewrite /handle_of Hj]. }
      apply IH; [done|by apply at_home_tail|done|by rewrite lookup_insert_ne|done].
    + apply IH; [done|by apply at_home_tail|done|by rewrite lookup_insert_ne|done].
Qed.

(** The walk replaces connections by resolved ones and does nothing
    else to the map: what holds of every connection of the map, and of
    every resolved connection under any address, holds after the walk. *)
Lemma visit_loop_Forall (P : SocketAddr → Connection → Prop) order servers acc servers' acc' r :
  (∀ addr c, resolved c → P addr c) → map_Forall P servers →
  visit_loop order servers acc = Returns (servers', acc', r) → map_Forall P servers'.
Proof.
  intros HP. revert servers acc. induction order as [|a order IH]; intros servers acc Hall.
  { by intros [= <- _ _]. }
  intros [[_ Hloop]|(c & c' & Hc & [(acc1 & Hv & Hloop)|(err & Hstop & [= -> _ _])])]%visit_loop_cons.
  - by eapply IH.
  - eapply IH; [|done]. apply map_Forall_insert_2; [|done]. apply HP. by destruct Hv.
  - apply map_Forall_insert_2; [|done]. apply HP. by destruct Hstop.
Qed.

(** The dials a walk leaves behind have ended, or end, as before. *)
Lemma visit_loop_ends order servers acc servers' acc' r :
  (∀ addr c, servers !! addr = Some c → ends c) →
  visit_loop order servers acc = Returns (servers', acc', r) →
  ∀ addr c, servers' !! addr = Some c → ends c.
Proof. apply (visit_loop_Forall (λ _ c, ends c)). by intros _ []. Qed.

(** The walk comes back when every dial ends and every visit does. *)
Lemma visit_loop_returns order servers acc :
  (∀ synac acc, returns (visit synac acc)) →
  (∀ addr c, servers !! addr = Some c → ends c) →
  returns (visit_loop order servers acc).
Proof.
  intros Hvisit. revert servers acc. induction order as [|addr order IH]; intros servers acc Hends.
  { done. }
  simpl. destruct (servers !! addr) as [c|] eqn:Hc; [|by apply IH].
  pose proof (proj2 (join_returns c) (Hends _ _ Hc)) as [[c' result] Hj]%returns_Returns.
  rewrite Hj /=. apply join_Returns in Hj as [-> _].
  assert (∀ (res : Result Synac Error) a c0,
    <[addr := Connected res]> servers !! a = Some c0 → ends c0) as Hins.
  { intros res a c0 [[_ <-]|[_ ?]]%lookup_insert_Some; [done|by eapply Hends]. }
  destruct result as [synac|err]; [|by apply IH, Hins].
  destruct (proj1 (returns_Returns _) (Hvisit synac acc)) as [[[synac' acc']|err] ->]; [|done].
  by apply IH, Hins.
Qed.

End visit.

(** ** [dispatch] *)

Section dispatch.
Context {common : Common} {search : SliceSearch} {order : HashOrder}.
Implicit Types (synac : Synac) (packet : Packet) (now : N).

(** [dispatch] touches the mirror, the store and the tracker only. *)
Lemma dispatch_frame now packet synac synac' channel :
  Connections.dispatch now packet synac = Returns (synac', channel) →
  Synac.addr synac' = Synac.addr synac ∧ Synac.session synac' = Synac.session synac ∧
  Synac.user synac' = Synac.user synac ∧
  Synac.current_channel synac' = Synac.current_channel synac ∧
  Synac.state synac' = State.update packet (Synac.state synac).
Proof.
  unfold Connections.dispatch. destruct packet; simpl; try by intros [= <- <-].
  - intros (m & _ & [= <- <-])%run_bind_Returns. done.
  - destruct (Messages.remove _ _). by intros [= <- <-].
  - case_decide; by intros [= <- <-].
Qed.

Lemma dispatch_returns now packet synac : returns (Connections.dispatch now packet synac).
Proof.
  unfold Connections.dispatch. destruct packet; simpl; try done.
  - by destruct (Messages.add_is_Some inner (Synac.messages synac)) as [m ->].
  - by destruct (Messages.remove _ _).
  - by case_decide.
Qed.

Lemma dispatch_wf now packet synac synac' channel :
  Connections.dispatch now packet synac = Returns (synac', channel) →
  Messages.wf (Synac.messages synac) → Messages.wf (Synac.messages synac').
Proof.
  unfold Connections.dispatch. destruct packet; simpl; try by intros [= <- <-].
  - intros (m & Hm%or_panic_Returns & [= <- <-])%run_bind_Returns Hwf.
    by apply (Messages.wf_add inner (Synac.messages synac)).
  - destruct (Messages.remove _ _) as [m c] eqn:Hr. intros [= <- <-] Hwf. simpl.
    change m with (m, c).1. rewrite -Hr. by apply Messages.wf_remove.
  - case_decide; by intros [= <- <-].
Qed.

End dispatch.

(** ** The loops of the code are walks *)

Section loops.
Context {common : Common} {search : SliceSearch} {order : HashOrder} {A : Type}.
Implicit Types (servers : gmap SocketAddr Connection) (acc : A) (self : Connections).

(** The visit of [foreach]: the callback, which cannot fail. *)
Definition call (callback : Synac → A → Synac * A) (synac : Synac) (acc : A)
    : Run (Result (Synac * A) Error) :=
  Returns (Ok (callback synac acc)).

Lemma try_read_loop_visit now callback keys servers acc :
  Connections.try_read_loop now callback keys servers acc =
  visit_loop (Connections.poll now callback) keys servers acc.
Proof.
  revert servers acc. induction keys as [|addr keys IH]; intros servers acc; [done|]. simpl.
  destruct (servers !! addr) as [c|]; [|done].
  destruct (Connection.join c) as [[c' [synac|err]]| |]; simpl; try done.
  destruct (Connections.poll now callback synac acc) as [[[synac' acc']|err]| |]; simpl; done.
Qed.

Lemma foreach_loop_visit callback keys servers acc :
  Connections.foreach_loop callback keys servers acc =
  '(servers', acc', _) ← visit_loop (call callback) keys servers acc; Returns (servers', acc').
Proof.
  revert servers acc. induction keys as [|addr keys IH]; intros servers acc; [done|]. simpl.
  destruct (servers !! addr) as [c|]; [|done].
  destruct (Connection.join c) as [[c' [synac|err]]| |]; simpl; try done.
  by destruct (callback synac acc).
Qed.

(** The walk of [foreach] never stops early. *)
Lemma visit_loop_call callback keys servers acc servers' acc' r :
  visit_loop (call callback) keys servers acc = Returns (servers', acc', r) → r = Ok ().
Proof.
  revert servers acc. induction keys as [|addr keys IH]; intros servers acc.
  { by intros [= _ _ <-]. }
  intros [[_ Hloop]|(c & c' & Hc & [(acc1 & _ & Hloop)|(err & Hstop & _)])]%visit_loop_cons;
    [by eapply IH..|].
  by destruct Hstop.
Qed.

Lemma with_servers_id self : Connections.with_servers (Connections.servers self) self = self.
Proof. by destruct self. Qed.

Lemma try_read_unfold now callback acc self :
  Connections.held self = false →
  Connections.try_read now callback acc self =
  '(servers, acc, result) ← visit_loop (Connections.poll now callback)
     (iter_keys (Connections.servers self)) (Connections.servers self) acc;
  Returns (Connections.with_servers servers self, acc, result).
Proof. intros Hh. by rewrite /Connections.try_read Hh try_read_loop_visit. Qed.

Lemma foreach_unfold callback acc self :
  Connections.held self = false →
  Connections.foreach callback acc self =
  '(servers, acc, _) ← visit_loop (call callback)
     (iter_keys (Connections.servers self)) (Connections.servers self) acc;
  Returns (Connections.with_servers servers self, acc).
Proof.
  intros Hh. rewrite /Connections.foreach Hh foreach_loop_visit.
  by destruct (visit_loop _ _ _ _) as [[[? ?] ?]| |].
Qed.

End loops.

(** ** [try_read] *)

Section try_read_theorems.
Context {common : Common} {search : SliceSearch} {order : HashOrder} {A : Type}.
Implicit Types (acc : A) (self : Connections) (c : Connection) (addr : SocketAddr).
Implicit Types (callback : Synac → Packet → option N → A → Synac * A).

Lemma visited_ends {B} (visit : Synac → B → Run (Result (Synac * B) Error)) c c' :
  visited visit c c' → ends c ∧ resolved c'.
Proof. intros [? ? Hj|? ? ? ? ? Hj _]; (split; [|done]); apply join_returns; by rewrite Hj. Qed.

Lemma try_read_inv now callback acc self self' acc' r :
  Connections.held self = false →
  Connections.try_read now callback acc self = Returns (self', acc', r) →
  ∃ servers',
    visit_loop (Connections.poll now callback) (iter_keys (Connections.servers self))
      (Connections.servers self) acc = Returns (servers', acc', r) ∧
    self' = Connections.with_servers servers' self.
Proof.
  intros Hh. rewrite try_read_unfold //.
  intros ([[servers' ?] ?] & Hloop & [= <- <- <-])%run_bind_Returns. by exists servers'.
Qed.

(** A poll that finds the map locked, or empty, does nothing and
    reports success. *)
Lemma try_read_idle now callback acc self :
  Connections.held self = true ∨ Connections.servers self = ∅ →
  Connections.try_read now callback acc self = Returns (self, acc, Ok ()).
Proof.
  destruct (Connections.held self) eqn:Hh; [by rewrite /Connections.try_read Hh|].
  intros [?|Hempty]; [done|].
  by rewrite try_read_unfold // Hempty iter_keys_empty /= -Hempty with_servers_id.
Qed.

(** A poll neither adds nor removes a connection, whatever it reads: a
    dial that failed stays in the map, as a resolved connection that holds
    the error; the selected server, the nickname and the lock are left as
    they were. *)
Lemma try_read_keeps now callback acc self self' acc' r :
  Connections.try_read now callback acc self = Returns (self', acc', r) →
  dom (Connections.servers self') = dom (Connections.servers self) ∧
  Connections.current_server self' = Connections.current_server self ∧
  Connections.nick self' = Connections.nick self ∧
  Connections.held self' = Connections.held self.
Proof.
  destruct (Connections.held self) eqn:Hh.
  { rewrite /Connections.try_read Hh. by intros [= <- _ _]. }
  intros (servers' & Hloop%visit_loop_dom & ->)%try_read_inv; done.
Qed.

(** A dial that is pending after a poll was pending before, and is the
    same dial. *)
Lemma try_read_pending now callback acc self self' acc' r addr handle :
  Connections.try_read now callback acc self = Returns (self', acc', r) →
  Connections.servers self' !! addr = Some (Connecting handle) →
  Connections.servers self !! addr = Some (Connecting handle).
Proof.
  destruct (Connections.held self) eqn:Hh.
  { rewrite /Connections.try_read Hh. by intros [= <- _ _]. }
  intros (servers' & Hloop & ->)%try_read_inv Hc; [|done].
  eapply (visit_loop_Forall _ (λ a c, resolved c ∨ Connections.servers self !! a = Some c))
    in Hloop; [|by left|by right]. by destruct (Hloop _ _ Hc).
Qed.

(** C12: a poll that reports success has waited for every pending dial
    and has looked once at the stream of every session: each connection
    is resolved afterwards, and is what [poll] made of it. *)
Theorem try_read_visits now callback acc self self' acc' addr c :
  Connections.held self = false →
  Connections.try_read now callback acc self = Returns (self', acc', Ok ()) →
  Connections.servers self !! addr = Some c →
  ends c ∧ ∃ c', Connections.servers self' !! addr = Some c' ∧ resolved c' ∧
    visited (Connections.poll now callback) c c'.
Proof.
  intros Hh (servers' & Hloop & ->)%try_read_inv Hc; [|done].
  destruct (visit_loop_Ok _ _ _ _ _ _ addr c (iter_keys_NoDup _) Hloop) as (c' & Hc' & Hv);
    [apply iter_keys_elem_of; by eexists|done|].
  destruct (visited_ends _ _ _ Hv). split; [done|]. by exists c'.
Qed.

(** C7: a poll that reports an error stopped at the session whose read
    failed.  That connection stays in the map; the connections that come
    after it in the order of the map were not looked at, and are as they
    were: to them the poll did not happen. *)
Theorem try_read_stops now callback acc self self' acc' err :
  Connections.held self = false →
  Connections.try_read now callback acc self = Returns (self', acc', Err err) →
  ∃ before addr after c c',
    iter_keys (Connections.servers self) = before ++ addr :: after ∧
    Connections.servers self !! addr = Some c ∧
    Connections.servers self' !! addr = Some c' ∧
    stopped (Connections.poll now callback) err c c' ∧
    ∀ a, a ∈ after → Connections.servers self' !! a = Connections.servers self !! a.
Proof.
  intros Hh (servers' & Hloop & ->)%try_read_inv; [|done].
  destruct (visit_loop_Err _ _ _ _ _ _ _ (iter_keys_NoDup _) Hloop)
    as (before & addr & after & c & c' & ? & ? & ? & ? & ? & _).
  by exists before, addr, after, c, c'.
Qed.

Lemma poll_returns now callback synac acc : returns (Connections.poll now callback synac acc).
Proof.
  unfold Connections.poll. destruct (Listener.try_read _) as [[[packet|] session]|]; try done.
  destruct (proj1 (returns_Returns _) (dispatch_returns now packet
    (Synac.with_session session synac))) as [[synac' channel] ->]. done.
Qed.

(** A poll comes back when every dial in the map ends. *)
Lemma try_read_returns now callback acc self :
  (∀ addr c, Connections.servers self !! addr = Some c → ends c) →
  returns (Connections.try_read now callback acc self).
Proof.
  intros Hends. destruct (Connections.held self) eqn:Hh; [by rewrite /Connections.try_read Hh|].
  rewrite try_read_unfold //.
  destruct (proj1 (returns_Returns _) (visit_loop_returns (Connections.poll now callback)
    (iter_keys (Connections.servers self)) _ acc (poll_returns now callback) Hends))
    as [[[servers' acc'] r] ->]. done.
Qed.

(** C28: a poll waits for pending dials.  While a dial that never ends is
    in the map, no poll reports success: it waits for that dial for ever,
    unless a failed read makes it leave before. *)
Theorem try_read_waits now callback acc self addr handle :
  Connections.held self = false →
  Connections.servers self !! addr = Some (Connecting handle) →
  thread_result handle = Blocks →
  ∀ self' acc', Connections.try_read now callback acc self ≠ Returns (self', acc', Ok ()).
Proof.
  intros Hh Hc Hb self' acc' (servers' & Hloop & ->)%try_read_inv; [|done].
  destruct (visit_loop_Ok _ _ _ _ _ _ addr (Connecting handle) (iter_keys_NoDup _) Hloop)
    as (c' & _ & Hv); [apply iter_keys_elem_of; by eexists|done|].
  apply visited_ends in Hv as [He _]. simpl in He. by rewrite Hb in He.
Qed.

End try_read_theorems.

(** ** One look at one session *)

Section poll_theorems.
Context {common : Common} {search : SliceSearch} {order : HashOrder} {A : Type}.
Implicit Types (acc : A) (synac : Synac) (packet : Packet) (now : N).
Implicit Types (callback : Synac → Packet → option N → A → Synac * A).

(** What [try_read] does with a packet, by the kind of the packet.
    The mirror is updated for every packet.  A received message is added to
    the store and its channel is named; a deletion removes the message and
    names the channel the store found it in, if any; a typing notification
    of another user is entered in the tracker with the time of the poll and
    names its channel, the user's own is dropped; every other packet changes
    neither store nor tracker and names no channel.  [dispatch] always
    returns. *)
Lemma dispatch_spec now packet synac :
  ∃ synac' channel,
    Connections.dispatch now packet synac = Returns (synac', channel) ∧
    Synac.state synac' = State.update packet (Synac.state synac) ∧
    match packet with
    | Packet.MessageReceive inner _ =>
      channel = Some (Message.channel inner) ∧
      Messages.add inner (Synac.messages synac) = Some (Synac.messages synac') ∧
      Synac.typing synac' = Synac.typing synac
    | Packet.MessageDeleteReceive id =>
      Messages.remove id (Synac.messages synac) = (Synac.messages synac', channel) ∧
      Synac.typing synac' = Synac.typing synac
    | Packet.TypingReceive author c =>
      Synac.messages synac' = Synac.messages synac ∧
      if decide (author = Synac.user synac)
      then channel = None ∧ Synac.typing synac' = Synac.typing synac
      else channel = Some c ∧
           Synac.typing synac' = Typing.insert now author c (Synac.typing synac)
    | _ =>
      channel = None ∧ Synac.messages synac' = Synac.messages synac ∧
      Synac.typing synac' = Synac.typing synac
    end.
Proof.
  unfold Connections.dispatch. destruct packet; simpl; try by eexists _, _.
  - destruct (Messages.add_is_Some inner (Synac.messages synac)) as [m ->]. by eexists _, _.
  - destruct (Messages.remove _ _) as [m c]. by eexists _, _.
  - destruct (decide (author = Synac.user synac)) as [->|Hne].
    + rewrite decide_False; [by intros []|]. by eexists _, _.
    + rewrite decide_True //. by eexists _, _.
Qed.

(** C32: the typing notifications a poll reads.  A notification of
    another user, read at the time [now], makes that user one of the
    typists of its channel, and of no other channel, until
    [TYPING_TIMEOUT] has passed, and of none after that, without any
    removal; the other typists are who they were, and the channel is
    named to the callback.  A notification of the user of the session
    changes nothing and names no channel. *)
Theorem dispatch_typing now author channel synac :
  ∃ synac' changed,
    Connections.dispatch now (Packet.TypingReceive author channel) synac =
      Returns (synac', changed) ∧
    if decide (author = Synac.user synac)
    then changed = None ∧ Synac.typing synac' = Synac.typing synac
    else changed = Some channel ∧
      ∀ later c u, u ∈ Typing.typing_in later c (Synac.typing synac') ↔
        if decide (u = author)
        then c = channel ∧ (later - now ≤ TYPING_TIMEOUT * SECOND)%N
        else u ∈ Typing.typing_in later c (Synac.typing synac).
Proof.
  destruct (dispatch_spec now (Packet.TypingReceive author channel) synac)
    as (synac' & changed & Hd & _ & _ & Ht).
  exists synac', changed. split; [done|]. case_decide; [done|].
  destruct Ht as [-> ->]. split; [done|]. intros later c u. apply Typing.typing_in_insert.
Qed.

(** One look at the stream of a session.  A failure of the stream is
    the error of the poll; a packet is taken from the stream, dispatched
    and handed to the callback with the channel that changed; silence
    changes nothing but the stream.  The look never waits. *)
Lemma poll_spec now callback synac acc :
  let session := Synac.session synac in
  match Session.incoming session with
  | Failed err :: _ => Connections.poll now callback synac acc = Returns (Err err)
  | Arrived packet :: l =>
    ∃ synac' channel,
      Connections.dispatch now packet
        (Synac.with_session (Session.with_incoming l session) synac) =
        Returns (synac', channel) ∧
      Connections.poll now callback synac acc = Returns (Ok (callback synac' packet channel acc))
  | NotYet :: l =>
    Connections.poll now callback synac acc =
    Returns (Ok (Synac.with_session (Session.with_incoming l session) synac, acc))
  | [] => Connections.poll now callback synac acc = Returns (Ok (synac, acc))
  end.
Proof.
  rewrite /Connections.poll /Listener.try_read.
  destruct (Session.incoming (Synac.session synac)) as [|[packet| |err] l]; simpl; try done.
  - by destruct synac.
  - pose proof (dispatch_returns now packet
      (Synac.with_session (Session.with_incoming l (Synac.session synac)) synac)) as Hd.
    apply returns_Returns in Hd as [[synac' channel] ->]. by exists synac', channel.
Qed.

End poll_theorems.

(** ** [foreach], [execute], [insert] and [remove] *)

Section map_theorems.
Context {order : HashOrder} {A : Type}.
Implicit Types (acc : A) (self : Connections) (c : Connection) (addr : SocketAddr).
Implicit Types (synac : Synac).

Lemma foreach_inv (callback : Synac → A → Synac * A) acc self self' acc' :
  Connections.held self = false →
  Connections.foreach callback acc self = Returns (self', acc') →
  ∃ servers',
    visit_loop (call callback) (iter_keys (Connections.servers self))
      (Connections.servers self) acc = Returns (servers', acc', Ok ()) ∧
    self' = Connections.with_servers servers' self.
Proof.
  intros Hh. rewrite foreach_unfold //.
  intros ([[servers' ?] r] & Hloop & [= <- <-])%run_bind_Returns.
  pose proof (visit_loop_call _ _ _ _ _ _ _ Hloop) as ->. by exists servers'.
Qed.

(** [foreach] waits for every pending dial, calls the callback once
    on the handle of every dial that succeeded and keeps what the callback
    made of it; a dial that failed is resolved and otherwise skipped.  No
    connection is added or removed.  With the map locked by the caller
    itself, [foreach] never returns. *)
Lemma foreach_visits (callback : Synac → A → Synac * A) acc self :
  (Connections.held self = true → Connections.foreach callback acc self = Blocks) ∧
  ∀ self' acc',
    Connections.held self = false →
    Connections.foreach callback acc self = Returns (self', acc') →
    dom (Connections.servers self') = dom (Connections.servers self) ∧
    ∀ addr c, Connections.servers self !! addr = Some c →
      ends c ∧ ∃ c', Connections.servers self' !! addr = Some c' ∧ resolved c' ∧
        visited (call callback) c c'.
Proof.
  split; [intros Hh; by rewrite /Connections.foreach Hh|].
  intros self' acc' Hh (servers' & Hloop & ->)%foreach_inv; [|done].
  split; [by apply visit_loop_dom in Hloop|]. intros addr c Hc.
  destruct (visit_loop_Ok _ _ _ _ _ _ addr c (iter_keys_NoDup _) Hloop) as (c' & Hc' & Hv);
    [apply iter_keys_elem_of; by eexists|done|].
  destruct (visited_ends _ _ _ Hv). split; [done|]. by exists c'.
Qed.

(** What [execute] does, by cases. *)
Lemma execute_unfold addr (on_ok : Synac → A → Synac * A) (on_err : Error → A → A) acc self :
  Connections.held self = false →
  Connections.execute addr on_ok on_err acc self =
  match Connections.servers self !! addr with
  | None => Returns (self, acc)
  | Some c =>
    '(c', result) ← Connection.join c;
    Returns match result with
    | Ok synac =>
      (Connections.with_servers
         (<[addr := Connected (Ok (on_ok synac acc).1)]> (Connections.servers self)) self,
       (on_ok synac acc).2)
    | Err err =>
      (Connections.with_servers (<[addr := c']> (Connections.servers self)) self,
       on_err err acc)
    end
  end.
Proof.
  intros Hh. rewrite /Connections.execute Hh. destruct (_ !! addr) as [c|]; [|done].
  destruct (Connection.join c) as [[c' [synac|err]]| |]; simpl; try done.
  by destruct (on_ok synac acc).
Qed.

(** After a broadcast no dial is pending. *)
Lemma foreach_resolved (callback : Synac → A → Synac * A) acc self self' acc' :
  Connections.foreach callback acc self = Returns (self', acc') →
  map_Forall (λ _ c, resolved c) (Connections.servers self').
Proof.
  intros Hf addr c' Hc'. destruct (Connections.held self) eqn:Hh.
  { by rewrite /Connections.foreach Hh in Hf. }
  destruct (proj2 (foreach_visits _ _ _) _ _ Hh Hf) as [Hdom Hvis].
  assert (is_Some (Connections.servers self !! addr)) as [c Hc].
  { apply elem_of_dom. rewrite -Hdom. by apply elem_of_dom. }
  destruct (Hvis addr c Hc) as (_ & c'' & Hc'' & Hr & _). by simplify_eq.
Qed.

(** [execute] on a dial that succeeded, and on one that failed. *)
Lemma execute_joined addr (on_ok : Synac → A → Synac * A) on_err acc self c c' synac :
  Connections.held self = false → Connections.servers self !! addr = Some c →
  Connection.join c = Returns (c', Ok synac) →
  Connections.execute addr on_ok on_err acc self =
  Returns (Connections.with_servers
             (<[addr := Connected (Ok (on_ok synac acc).1)]> (Connections.servers self)) self,
           (on_ok synac acc).2).
Proof. intros Hh Hc Hj. by rewrite execute_unfold // Hc Hj. Qed.

Lemma execute_failed addr (on_ok : Synac → A → Synac * A) on_err acc self c c' err :
  Connections.held self = false → Connections.servers self !! addr = Some c →
  Connection.join c = Returns (c', Err err) →
  Connections.execute addr on_ok on_err acc self =
  Returns (Connections.with_servers (<[addr := c']> (Connections.servers self)) self,
           on_err err acc).
Proof. intros Hh Hc Hj. by rewrite execute_unfold // Hc Hj. Qed.

Lemma execute_absent addr (on_ok : Synac → A → Synac * A) on_err acc self :
  Connections.held self = false → Connections.servers self !! addr = None →
  Connections.execute addr on_ok on_err acc self = Returns (self, acc).
Proof. intros Hh Hc. by rewrite execute_unfold // Hc. Qed.

(** A session registered with [insert] is the one [execute] hands to
    the callback under that address, whatever was registered there before;
    and after [remove], [execute] under that address does nothing. *)
Lemma insert_execute addr synac (on_ok : Synac → A → Synac * A) on_err acc self :
  Connections.held self = false →
  (self1 ← Connections.insert addr synac self;
   Connections.execute addr on_ok on_err acc self1) =
    Returns (Connections.with_servers
      (<[addr := Connected (Ok (on_ok synac acc).1)]> (Connections.servers self)) self,
      (on_ok synac acc).2) ∧
  (self1 ← Connections.remove addr self;
   Connections.execute addr on_ok on_err acc self1) =
    Returns (Connections.with_servers (delete addr (Connections.servers self)) self, acc).
Proof.
  intros Hh. rewrite /Connections.insert /Connections.remove Hh /=. split.
  - rewrite execute_unfold //= lookup_insert_eq /= insert_insert_eq. by destruct self.
  - by rewrite execute_unfold //= lookup_delete_eq.
Qed.

(** [execute] comes back when the lock is free and the dial of the
    address ends; [foreach] when the lock is free and every dial ends. *)
Lemma execute_returns addr (on_ok : Synac → A → Synac * A) on_err acc self :
  Connections.held self = false →
  (∀ c, Connections.servers self !! addr = Some c → ends c) →
  returns (Connections.execute addr on_ok on_err acc self).
Proof.
  intros Hh Hends. rewrite execute_unfold //.
  destruct (Connections.servers self !! addr) as [c|]; [|done].
  by pose proof (proj2 (join_returns c) (Hends _ eq_refl)) as [[c' result] ->]%returns_Returns.
Qed.

Lemma foreach_returns (callback : Synac → A → Synac * A) acc self :
  Connections.held self = false →
  (∀ addr c, Connections.servers self !! addr = Some c → ends c) →
  returns (Connections.foreach callback acc self).
Proof.
  intros Hh Hends. rewrite foreach_unfold //.
  destruct (proj1 (returns_Returns _) (visit_loop_returns (call callback)
    (iter_keys (Connections.servers self)) _ acc (λ _ _, I) Hends))
    as [[[servers' acc'] r] ->]. done.
Qed.

(** [execute] and [foreach] leave the keys of the map, the selected
    server, the nickname and the lock as they were, and return only when
    the lock was free. *)
Definition same_frame (self self' : Connections) : Prop :=
  dom (Connections.servers self') = dom (Connections.servers self) ∧
  Connections.current_server self' = Connections.current_server self ∧
  Connections.nick self' = Connections.nick self ∧
  Connections.held self' = Connections.held self.

Lemma same_frame_refl self : same_frame self self.
Proof. done. Qed.

Lemma execute_frame addr (on_ok : Synac → A → Synac * A) on_err acc self self' acc' :
  Connections.execute addr on_ok on_err acc self = Returns (self', acc') →
  Connections.held self = false ∧ same_frame self self'.
Proof.
  destruct (Connections.held self) eqn:Hh; [by rewrite /Connections.execute Hh|].
  rewrite execute_unfold //. destruct (Connections.servers self !! addr) as [c|] eqn:Hc.
  - intros ([c' [synac|err]] & _ & [= <- _])%run_bind_Returns; (split; [done|]);
      by split; [apply dom_insert_lookup_L|].
  - by intros [= <- _].
Qed.

Lemma foreach_frame (callback : Synac → A → Synac * A) acc self self' acc' :
  Connections.foreach callback acc self = Returns (self', acc') →
  Connections.held self = false ∧ same_frame self self'.
Proof.
  destruct (Connections.held self) eqn:Hh; [by rewrite /Connections.foreach Hh|].
  intros (servers' & Hloop%visit_loop_dom & ->)%foreach_inv; done.
Qed.

(** What [foreach] makes of the handles, for a callback whose handle does
    not depend on what it has gathered. *)
Lemma foreach_handles (callback : Synac → A → Synac * A) (f : Synac → Synac) acc self self' acc' :
  (∀ synac acc, (callback synac acc).1 = f synac) →
  Connections.foreach callback acc self = Returns (self', acc') →
  handles self' = f <$> handles self.
Proof.
  intros Hf Hfe. destruct (foreach_frame _ _ _ _ _ Hfe) as [Hh (Hdom & _)].
  destruct (foreach_visits callback acc self) as [_ Hv].
  destruct (Hv _ _ Hh Hfe) as [_ Hvisit]. apply map_eq. intros addr.
  rewrite lookup_fmap /handles !lookup_omap.
  destruct (Connections.servers self !! addr) as [c|] eqn:Hc.
  - destruct (Hvisit _ _ Hc) as (_ & c' & -> & _ & Hvis). simpl.
    inversion Hvis as [c0 err Hj|c0 synac acc0 synac' acc0' Hj [= Hcall]]; subst.
    + by rewrite /handle_of Hj.
    + by rewrite /handle_of Hj /= -(Hf synac acc0) Hcall.
  - apply not_elem_of_dom in Hc. rewrite -Hdom in Hc. by apply not_elem_of_dom in Hc as ->.
Qed.

(** [execute] and [foreach] leave no dial behind that does not end. *)
Lemma execute_settled addr (on_ok : Synac → A → Synac * A) on_err acc self self' acc' :
  Connections.execute addr on_ok on_err acc self = Returns (self', acc') →
  settled self → settled self'.
Proof.
  intros He Hs. destruct (execute_frame _ _ _ _ _ _ _ He) as [Hh _]. revert He.
  rewrite execute_unfold //. destruct (Connections.servers self !! addr) as [c|]; [|by intros [= <- _]].
  intros ([c' result] & [-> _]%join_Returns & Hr)%run_bind_Returns.
  destruct result; injection Hr as [= <- _]; by apply map_Forall_insert_2.
Qed.

(** [execute] leaves no dial waiting that was not waiting before. *)
Lemma execute_ends addr (on_ok : Synac → A → Synac * A) on_err acc self self' acc' a c' :
  Connections.execute addr on_ok on_err acc self = Returns (self', acc') →
  (∀ c, Connections.servers self !! a = Some c → ends c) →
  Connections.servers self' !! a = Some c' → ends c'.
Proof.
  intros He Hends. destruct (execute_frame _ _ _ _ _ _ _ He) as [Hh _]. revert He.
  rewrite execute_unfold //.
  destruct (Connections.servers self !! addr) as [c|]; [|intros [= <- _]; apply Hends].
  intros ([c1 result] & [-> _]%join_Returns & Hr)%run_bind_Returns.
  destruct result; injection Hr as [= <- _]; simpl;
    (destruct (decide (a = addr)) as [->|];
       [rewrite lookup_insert_eq; by intros [= <-]|rewrite lookup_insert_ne //; apply Hends]).
Qed.

(** A dial that is pending after [execute] was pending before, and is
    the same dial. *)
Lemma execute_pending addr (on_ok : Synac → A → Synac * A) on_err acc self self' acc' a handle :
  Connections.execute addr on_ok on_err acc self = Returns (self', acc') →
  Connections.servers self' !! a = Some (Connecting handle) →
  Connections.servers self !! a = Some (Connecting handle).
Proof.
  intros He. destruct (execute_frame _ _ _ _ _ _ _ He) as [Hh _]. revert He.
  rewrite execute_unfold //.
  destruct (Connections.servers self !! addr) as [c|]; [|by intros [= <- _]].
  intros ([c1 result] & [-> _]%join_Returns & Hr)%run_bind_Returns.
  destruct result; injection Hr as [= <- _]; simpl;
    (destruct (decide (a = addr)) as [->|]; [by rewrite lookup_insert_eq|by rewrite lookup_insert_ne]).
Qed.

Lemma foreach_settled (callback : Synac → A → Synac * A) acc self self' acc' :
  Connections.foreach callback acc self = Returns (self', acc') →
  settled self → settled self'.
Proof.
  intros Hf Hs. destruct (foreach_frame _ _ _ _ _ Hf) as [Hh _].
  apply foreach_inv in Hf as (servers' & Hloop & ->); [|done].
  intros addr c. by eapply visit_loop_ends.
Qed.

End map_theorems.

(** ** The invariant of the registry *)

(** A handle sits under its own address and its store is well formed. *)
Definition handle_ok (addr : SocketAddr) (synac : Synac) : Prop :=
  Synac.addr synac = addr ∧ Messages.wf (Synac.messages synac).

Definition result_handle_ok (addr : SocketAddr) (r : Result Synac Error) : Prop :=
  match r with Ok synac => handle_ok addr synac | Err _ => True end.

(** The result of a dial, known or still to come. *)
Definition connection_ok (addr : SocketAddr) (c : Connection) : Prop :=
  match c with
  | Connection.Connected r => result_handle_ok addr r
  | Connection.Connecting handle =>
    match thread_result handle with
    | Returns r => result_handle_ok addr r
    | _ => True
    end
  end.

Definition registry_ok (self : Connections) : Prop :=
  map_Forall connection_ok (Connections.servers self).

(** A callback that leaves the address and the order of the store alone,
    as every callback of the client does. *)
Definition keeps {A} (callback : Synac → A → Synac * A) : Prop :=
  ∀ addr synac acc, handle_ok addr synac → handle_ok addr (callback synac acc).1.

#[export] Instance handle_ok_dec addr synac : Decision (handle_ok addr synac).
Proof. unfold handle_ok. apply _. Defined.
#[export] Instance result_handle_ok_dec addr r : Decision (result_handle_ok addr r).
Proof. destruct r; apply _. Defined.
#[export] Instance connection_ok_dec addr c : Decision (connection_ok addr c).
Proof. destruct c as [[[]]|]; apply _. Defined.
#[export] Instance registry_ok_dec self : Decision (registry_ok self).
Proof. unfold registry_ok. apply _. Defined.

Section invariant.
Context {A : Type} (visit : Synac → A → Run (Result (Synac * A) Error)).
Implicit Types (servers : gmap SocketAddr Connection) (c : Connection) (addr : SocketAddr).

Hypothesis visit_keeps : ∀ addr synac acc synac' acc',
  handle_ok addr synac → visit synac acc = Returns (Ok (synac', acc')) → handle_ok addr synac'.

Lemma join_ok addr c c' r :
  connection_ok addr c → Connection.join c = Returns (c', r) →
  connection_ok addr c' ∧ result_handle_ok addr r.
Proof.
  intros Hc [-> [->|(handle & -> & Hh)]]%join_Returns; [done|].
  simpl in Hc. by rewrite Hh in Hc.
Qed.

Lemma visited_ok_inv addr c c' : connection_ok addr c → visited visit c c' → connection_ok addr c'.
Proof.
  intros Hc Hv. inversion Hv as [c0 err Hj|c0 synac acc synac' acc' Hj Hvisit]; subst; [done|].
  destruct (join_ok _ _ _ _ Hc Hj) as [_ Hs]. by eapply visit_keeps.
Qed.

Lemma stopped_ok_inv addr c c' err :
  connection_ok addr c → stopped visit err c c' → connection_ok addr c'.
Proof.
  intros Hc Hs. inversion Hs as [c0 synac acc Hj _]; subst.
  by destruct (join_ok _ _ _ _ Hc Hj).
Qed.

Lemma visit_loop_ok keys servers acc servers' acc' r :
  map_Forall connection_ok servers →
  visit_loop visit keys servers acc = Returns (servers', acc', r) →
  map_Forall connection_ok servers'.
Proof.
  revert servers acc. induction keys as [|addr keys IH]; intros servers acc Hok.
  { by intros [= <- _ _]. }
  intros [[_ Hloop]|(c & c' & Hc & [(acc1 & Hv & Hloop)|(err & Hstop & [= -> _ _])])]%visit_loop_cons.
  - by eapply IH.
  - eapply IH; [|done]. apply map_Forall_insert_2; [|done].
    eapply visited_ok_inv; [|done]. by apply (Hok addr).
  - apply map_Forall_insert_2; [|done]. eapply stopped_ok_inv; [|done]. by apply (Hok addr).
Qed.

End invariant.

(** ** What a poll gathers *)

Section gather.
Context {common : Common} {search : SliceSearch} {order : HashOrder} {A : Type}.
Implicit Types (self : Connections) (addr : SocketAddr) (synac : Synac) (acc : A).
Implicit Types (callback : Synac → Packet → option N → A → Synac * A).

Lemma registry_ok_at_home self keys : registry_ok self → at_home keys (Connections.servers self).
Proof.
  intros Hok a c synac _ Hc Hsynac. specialize (Hok a c Hc). revert Hsynac. unfold handle_of.
  destruct (Connection.join c) as [[c' [synac'|err]]| |] eqn:Hj; try done. intros [= ->].
  by destruct (join_ok a c c' (Ok synac) Hok Hj) as [_ [? _]].
Qed.

Lemma handles_ok self addr synac :
  registry_ok self → handles self !! addr = Some synac → handle_ok addr synac.
Proof.
  intros Hok. rewrite /handles lookup_omap.
  destruct (Connections.servers self !! addr) as [c|] eqn:Hc; [|done]. simpl. unfold handle_of.
  destruct (Connection.join c) as [[c' [synac'|err]]| |] eqn:Hj; try done. intros [= ->].
  by destruct (join_ok addr c c' (Ok synac) (Hok _ _ Hc) Hj) as [_ ?].
Qed.

(** A read fails in [poll] exactly when the stream has failed. *)
Lemma poll_Err now callback synac acc err :
  Connections.poll now callback synac acc = Returns (Err err) ↔
  Listener.try_read (Synac.session synac) = Err err.
Proof.
  unfold Connections.poll. destruct (Listener.try_read _) as [[[packet|] session]|err'].
  - destruct (proj1 (returns_Returns _) (dispatch_returns now packet
      (Synac.with_session session synac))) as [[synac' channel] ->]. done.
  - done.
  - split; by intros [= ->].
Qed.

(** A callback that gathers from the sessions of [addr] only makes a
    poll that does. *)
Lemma poll_only_at now callback addr :
  (∀ synac packet channel acc, Synac.addr synac ≠ addr →
     (callback synac packet channel acc).2 = acc) →
  only_at (Connections.poll now callback) addr.
Proof.
  intros Hcb synac acc synac' acc' Hne. unfold Connections.poll.
  destruct (Listener.try_read _) as [[[packet|] session]|]; [| |done]; [|by intros [= _ <-]].
  intros ([synac1 channel] & (Ha & _)%dispatch_frame & [= Hc])%run_bind_Returns.
  trans (callback synac1 packet channel acc).2; [by rewrite Hc|apply Hcb; by rewrite Ha].
Qed.

(** What a poll that went well has gathered is what the one look at
    the session of [addr] gathered, when the callback takes note of that
    server only. *)
Lemma try_read_gathers now callback acc self self' acc' addr synac :
  registry_ok self → Connections.held self = false →
  (∀ synac packet channel acc, Synac.addr synac ≠ addr →
     (callback synac packet channel acc).2 = acc) →
  handles self !! addr = Some synac →
  Connections.try_read now callback acc self = Returns (self', acc', Ok ()) →
  ∃ synac', Connections.poll now callback synac acc = Returns (Ok (synac', acc')).
Proof.
  intros Hok Hh Hcb Hsynac (servers' & Hloop & _)%try_read_inv; [|done].
  rewrite /handles lookup_omap in Hsynac.
  destruct (Connections.servers self !! addr) as [c|] eqn:Hc; [|done].
  eapply (visit_loop_one _ addr _ _ _ _ _ c synac (iter_keys_NoDup _)); last done; try done.
  - apply iter_keys_elem_of. by eexists.
  - by apply registry_ok_at_home.
  - by apply poll_only_at.
Qed.

(** A poll that reports an error has found a session whose stream has
    failed. *)
Lemma try_read_failed now callback acc self self' acc' err :
  Connections.try_read now callback acc self = Returns (self', acc', Err err) →
  ∃ addr synac, handles self !! addr = Some synac ∧
    Listener.try_read (Synac.session synac) = Err err.
Proof.
  destruct (Connections.held self) eqn:Hh; [by rewrite /Connections.try_read Hh|].
  intros (servers' & Hloop & _)%try_read_inv; [|done].
  destruct (visit_loop_Err _ _ _ _ _ _ _ (iter_keys_NoDup _) Hloop)
    as (_ & addr & _ & c & c' & _ & Hc & _ & Hstop & _).
  destruct Hstop as [c synac acc0 Hj Hpoll%poll_Err]. exists addr, synac.
  split; [by eapply handles_lookup|done].
Qed.

(** The dials a poll leaves behind have ended, or end, as before. *)
Lemma try_read_ends now callback acc self self' acc' r :
  (∀ addr c, Connections.servers self !! addr = Some c → ends c) →
  Connections.try_read now callback acc self = Returns (self', acc', r) →
  ∀ addr c, Connections.servers self' !! addr = Some c → ends c.
Proof.
  intros Hends. destruct (Connections.held self) eqn:Hh.
  { rewrite /Connections.try_read Hh. by intros [= <- _ _]. }
  intros (servers' & Hloop & ->)%try_read_inv; [|done]. by eapply visit_loop_ends.
Qed.

Lemma try_read_settled now callback acc self self' acc' r :
  Connections.try_read now callback acc self = Returns (self', acc', r) →
  settled self → settled self'.
Proof. intros Ht Hs addr c. by eapply try_read_ends. Qed.

(** What one look of a poll makes of a handle, for a callback whose
    handle is [g] of what it is given. *)
Definition look (now : N) (g : Synac → Packet → option N → Synac) (synac : Synac) : Synac :=
  match Connections.poll now (λ s p c (acc : ()), (g s p c, acc)) synac () with
  | Returns (Ok (synac', _)) => synac'
  | _ => synac
  end.

Lemma poll_look now callback g synac acc synac' acc' :
  (∀ s p c acc, (callback s p c acc).1 = g s p c) →
  Connections.poll now callback synac acc = Returns (Ok (synac', acc')) →
  synac' = look now g synac.
Proof.
  intros Hg. unfold look, Connections.poll.
  destruct (Listener.try_read _) as [[[packet|] session]|]; [| |done]; [|by intros [= <- _]].
  destruct (Connections.dispatch now packet _) as [[synac1 channel]| |]; simpl; try done.
  intros [= Hc]. by rewrite -(Hg synac1 packet channel acc) Hc.
Qed.

(** What a poll that went well makes of the handles. *)
Lemma try_read_handles now callback g acc self self' acc' :
  (∀ s p c acc, (callback s p c acc).1 = g s p c) →
  Connections.held self = false →
  Connections.try_read now callback acc self = Returns (self', acc', Ok ()) →
  handles self' = look now g <$> handles self.
Proof.
  intros Hg Hh Ht. destruct (try_read_keeps _ _ _ _ _ _ _ Ht) as (Hdom & _).
  apply try_read_inv in Ht as (servers' & Hloop & ->); [|done]. apply map_eq. intros addr.
  rewrite lookup_fmap /handles !lookup_omap.
  destruct (Connections.servers self !! addr) as [c|] eqn:Hc.
  - destruct (visit_loop_Ok _ _ _ _ _ _ addr c (iter_keys_NoDup _) Hloop) as (c' & Hc' & Hv);
      [apply iter_keys_elem_of; by eexists|done|]. simpl in Hc'. rewrite Hc' /=.
    inversion Hv as [c0 err Hj|c0 synac acc0 synac' acc0' Hj Hpoll]; subst.
    + by rewrite /handle_of Hj.
    + by rewrite /handle_of Hj /= (poll_look _ _ _ _ _ _ _ Hg Hpoll).
  - apply not_elem_of_dom in Hc. rewrite -Hdom in Hc. by apply not_elem_of_dom in Hc as ->.
Qed.

End gather.

(** What [execute] makes of the handles. *)
Lemma execute_handles {A} addr (on_ok : Synac → A → Synac * A) on_err acc self self' acc' :
  Connections.execute addr on_ok on_err acc self = Returns (self', acc') →
  match handles self !! addr with
  | Some synac =>
    handles self' = <[addr := (on_ok synac acc).1]> (handles self) ∧ acc' = (on_ok synac acc).2
  | None => handles self' = handles self ∧ (acc' = acc ∨ ∃ err, acc' = on_err err acc)
  end.
Proof.
  intros He. destruct (execute_frame _ _ _ _ _ _ _ He) as [Hh _]. revert He.
  rewrite execute_unfold // /handles lookup_omap.
  destruct (Connections.servers self !! addr) as [c|] eqn:Hc; [|intros [= <- <-]; by split; [|left]].
  intros ([c' r] & Hj & He)%run_bind_Returns. simpl.
  destruct (handle_of_join _ _ _ Hj) as [_ ->]. destruct r as [synac|err]; simplify_eq.
  - split; [|done]. by apply omap_insert_Some.
  - split; [by apply (handles_join self addr c c' (Err err))|eauto].
Qed.

Lemma execute_alter {A} addr (on_ok : Synac → A → Synac * A) on_err acc self self' acc' :
  Connections.execute addr on_ok on_err acc self = Returns (self', acc') →
  handles self' = alter (λ synac, (on_ok synac acc).1) addr (handles self).
Proof.
  intros He%execute_handles. apply map_eq. intros a.
  destruct (handles self !! addr) as [synac|] eqn:Hs; destruct He as [-> _];
    (destruct (decide (a = addr)) as [->|]; [|by rewrite lookup_alter_ne // ?lookup_insert_ne]).
  - by rewrite lookup_insert_eq lookup_alter_eq Hs.
  - by rewrite lookup_alter_eq Hs.
Qed.

Lemma insert_handles addr synac self self' :
  Connections.insert addr synac self = Returns self' →
  handles self' = <[addr := synac]> (handles self).
Proof.
  unfold Connections.insert. case_match; [done|]. intros [= <-]. by apply omap_insert_Some.
Qed.

Lemma remove_handles addr self self' :
  Connections.remove addr self = Returns self' → handles self' = delete addr (handles self).
Proof. unfold Connections.remove. case_match; [done|]. intros [= <-]. apply omap_delete. Qed.

(** ** [new] *)

Section new_theorems.
Context {common : Common} {network : Network} {net : StdNet}.
Implicit Types (db : Db) (row : Db.Row) (addr : SocketAddr) (me self : Connections).

(** The connection [new] makes for a row. *)
Definition dial_of (me : Connections) (db : Db) (addr : SocketAddr) (row : Db.Row)
    : Connection :=
  Connecting (spawn (Connections.outcome <$>
    Connections.connect me addr (Db.hash row) (Db.token row) None db)).

(** The rows whose address resolves to [addr]. *)
Definition rows_of (addr : SocketAddr) (rows : list Db.Row) : list Db.Row :=
  filter (λ row, parse_addr (Db.ip row) = Some addr) rows.

Lemma new_rows_lookup me db rows servers addr :
  foldl (Connections.new_row me db) servers rows !! addr =
  match last (rows_of addr rows) with
  | Some row => Some (dial_of me db addr row)
  | None => servers !! addr
  end.
Proof.
  revert servers. induction rows as [|row rows IH]; intros servers; [done|].
  rewrite /= IH /rows_of filter_cons. fold (rows_of addr rows).
  unfold Connections.new_row. case_decide as Hrow.
  - rewrite Hrow lookup_insert_eq.
    destruct (rows_of addr rows) as [|r l]; [done|]. rewrite last_cons_cons.
    by destruct (last (r :: l)) eqn:Hl; [|apply last_None in Hl].
  - destruct (last (rows_of addr rows)); [done|].
    destruct (parse_addr (Db.ip row)) as [addr'|]; [|done].
    rewrite lookup_insert_ne //. by intros ->.
Qed.

(** An unattended dial neither asks for a password nor writes to the
    database, which is why its thread is modelled by its result alone. *)
Lemma connect_unattended self addr hash token db d :
  Connections.connect self addr hash token None db = Returns d → Connections.db d = db.
Proof. intros [[?|(? & _ & _ & _ & [? [=]])] _]%connect_inv; done. Qed.

Lemma dialed_handle_ok addr synac : dialed_handle addr synac → handle_ok addr synac.
Proof. intros (? & _ & Hm & _). split; [done|]. rewrite Hm. apply map_Forall_empty. Qed.

Lemma dial_of_ok me db addr row : connection_ok addr (dial_of me db addr row).
Proof.
  simpl. destruct (Connections.connect _ _ _ _ _ _) as [d| |] eqn:Hd; simpl; try done.
  destruct (Connections.outcome d) as [synac|] eqn:Hs; [|done].
  apply connect_inv in Hd as [_ Hd]. by apply dialed_handle_ok, Hd.
Qed.

(** C37: [new] starts one dial for every stored row whose address
    resolves, under the resolved address; when several rows resolve to one
    address the last one holds the place.  Rows whose address does not
    resolve leave no trace.  Every connection is pending, no server is
    selected and the map is unlocked. *)
Theorem new_servers db nick addr :
  let me := {| Connections.current_server := None; Connections.nick := nick;
               Connections.servers := ∅; Connections.held := false |} in
  Connections.servers (Connections.new db nick) !! addr =
    dial_of me db addr <$> last (rows_of addr (Db.servers db)) ∧
  Connections.current_server (Connections.new db nick) = None ∧
  Connections.nick (Connections.new db nick) = nick ∧
  Connections.held (Connections.new db nick) = false.
Proof.
  split; [|done]. rewrite /Connections.new /= new_rows_lookup.
  by destruct (last _).
Qed.

Lemma new_ok db nick : registry_ok (Connections.new db nick).
Proof.
  intros addr c. rewrite /Connections.new /= new_rows_lookup lookup_empty.
  destruct (last _) as [row|]; [|done]. intros [= <-]. apply dial_of_ok.
Qed.

End new_theorems.

(** ** The registries the client can reach *)

Section reachable.
Context {common : Common} {network : Network} {net : StdNet}.
Context {search : SliceSearch} {order : HashOrder}.
Implicit Types (self : Connections) (addr : SocketAddr) (synac : Synac).

Lemma poll_keeps {A} now (callback : Synac → Packet → option N → A → Synac * A) :
  (∀ packet channel, keeps (λ synac acc, callback synac packet channel acc)) →
  ∀ addr synac acc synac' acc',
    handle_ok addr synac →
    Connections.poll now callback synac acc = Returns (Ok (synac', acc')) →
    handle_ok addr synac'.
Proof.
  intros Hcb addr synac acc synac' acc' [Haddr Hwf]. unfold Connections.poll.
  destruct (Listener.try_read _) as [[[packet|] session]|]; [| |done].
  - intros ([synac1 channel] & Hd & [= Hc])%run_bind_Returns.
    destruct (dispatch_frame _ _ _ _ _ Hd) as (Ha & _).
    pose proof (dispatch_wf _ _ _ _ _ Hd Hwf) as Hwf1.
    replace synac' with (callback synac1 packet channel acc).1 by by rewrite Hc.
    apply (Hcb packet channel). split; [by rewrite Ha|done].
  - by intros [= <- <-].
Qed.

Lemma call_keeps {A} (callback : Synac → A → Synac * A) :
  keeps callback →
  ∀ addr synac acc synac' acc',
    handle_ok addr synac → call callback synac acc = Returns (Ok (synac', acc')) →
    handle_ok addr synac'.
Proof.
  intros Hcb addr synac acc synac' acc' Hok [= Hc].
  replace synac' with (callback synac acc).1 by by rewrite Hc. by apply Hcb.
Qed.

(** One operation of the registry, with a callback that keeps the
    handles in order. *)
Inductive step : Connections → Connections → Prop :=
| step_insert addr synac self self' :
    handle_ok addr synac →
    Connections.insert addr synac self = Returns self' → step self self'
| step_remove addr self self' :
    Connections.remove addr self = Returns self' → step self self'
| step_set_current (selected : option SocketAddr) self :
    step self (Connections.set_current selected self)
| step_execute {A} addr (on_ok : Synac → A → Synac * A) on_err acc self self' acc' :
    keeps on_ok →
    Connections.execute addr on_ok on_err acc self = Returns (self', acc') → step self self'
| step_foreach {A} (callback : Synac → A → Synac * A) acc self self' acc' :
    keeps callback →
    Connections.foreach callback acc self = Returns (self', acc') → step self self'
| step_try_read {A} now (callback : Synac → Packet → option N → A → Synac * A)
    acc self self' acc' r :
    (∀ packet channel, keeps (λ synac acc, callback synac packet channel acc)) →
    Connections.try_read now callback acc self = Returns (self', acc', r) → step self self'.

Lemma step_ok self self' : step self self' → registry_ok self → registry_ok self'.
Proof.
  intros Hstep Hok. destruct Hstep as [addr synac self self' Hs Hi|addr self self' Hr|addr self
    |A addr on_ok on_err acc self self' acc' Hcb He|A callback acc self self' acc' Hcb Hf
    |A now callback acc self self' acc' r Hcb Ht].
  - revert Hi. rewrite /Connections.insert. case_match; [done|]. intros [= <-].
    by apply map_Forall_insert_2.
  - revert Hr. rewrite /Connections.remove. case_match; [done|]. intros [= <-].
    by apply map_Forall_delete.
  - done.
  - destruct (Connections.held self) eqn:Hh; [by rewrite /Connections.execute Hh in He|].
    rewrite execute_unfold // in He. destruct (Connections.servers self !! addr) as [c|] eqn:Hc;
      [|by simplify_eq].
    apply run_bind_Returns in He as ([c' result] & Hj & [= He]).
    destruct (join_ok addr c c' result (Hok _ _ Hc) Hj) as [Hc' Hresult].
    destruct result as [synac|err]; simplify_eq; apply map_Forall_insert_2; try done.
    by apply Hcb.
  - destruct (Connections.held self) eqn:Hh; [by rewrite /Connections.foreach Hh in Hf|].
    apply foreach_inv in Hf as (servers' & Hloop & ->); [|done].
    by eapply (visit_loop_ok _ (call_keeps _ Hcb)).
  - destruct (Connections.held self) eqn:Hh.
    { rewrite /Connections.try_read Hh in Ht. by simplify_eq. }
    apply try_read_inv in Ht as (servers' & Hloop & ->); [|done].
    by eapply (visit_loop_ok _ (poll_keeps _ _ Hcb)).
Qed.

(** No operation touches the nickname or leaves the lock taken. *)
Lemma step_frame self self' :
  step self self' →
  Connections.nick self' = Connections.nick self ∧
  Connections.held self' = Connections.held self.
Proof.
  intros [addr synac self0 self1 _ Hi|addr self0 self1 Hr|addr self0
    |A addr on_ok on_err acc self0 self1 acc' _ He|A callback acc self0 self1 acc' _ Hf
    |A now callback acc self0 self1 acc' r _ Ht].
  - revert Hi. rewrite /Connections.insert. case_match; [done|]. by intros [= <-].
  - revert Hr. rewrite /Connections.remove. case_match; [done|]. by intros [= <-].
  - done.
  - by apply execute_frame in He as (_ & _ & _ & ? & ?).
  - by apply foreach_frame in Hf as (_ & _ & _ & ? & ?).
  - by apply try_read_keeps in Ht as (_ & _ & ? & ?).
Qed.

(** The state machine of a connection: an operation resolves pending
    dials, removes connections and inserts resolved ones.  It makes no
    connection pending and puts no other dial in the place of a pending
    one. *)
Lemma step_pending self self' addr handle :
  step self self' →
  Connections.servers self' !! addr = Some (Connecting handle) →
  Connections.servers self !! addr = Some (Connecting handle).
Proof.
  intros [addr0 synac self0 self1 _ Hi|addr0 self0 self1 Hr|addr0 self0
    |A addr0 on_ok on_err acc self0 self1 acc' _ He|A callback acc self0 self1 acc' _ Hf
    |A now callback acc self0 self1 acc' r _ Ht].
  - revert Hi. rewrite /Connections.insert. case_match; [done|]. intros [= <-]. simpl.
    by intros [[_ ?]|[_ ?]]%lookup_insert_Some.
  - revert Hr. rewrite /Connections.remove. case_match; [done|]. intros [= <-]. simpl.
    by intros [_ ?]%lookup_delete_Some.
  - done.
  - by eapply execute_pending.
  - intros Hc. by destruct (foreach_resolved _ _ _ _ _ Hf _ _ Hc).
  - by eapply try_read_pending.
Qed.

(** No operation leaves a dial behind that does not end. *)
Lemma step_settled self self' : step self self' → settled self → settled self'.
Proof.
  intros [addr0 synac self0 self1 _ Hi|addr0 self0 self1 Hr|addr0 self0
    |A addr0 on_ok on_err acc self0 self1 acc' _ He|A callback acc self0 self1 acc' _ Hf
    |A now callback acc self0 self1 acc' r _ Ht].
  - revert Hi. rewrite /Connections.insert. case_match; [done|]. intros [= <-].
    by apply map_Forall_insert_2.
  - revert Hr. rewrite /Connections.remove. case_match; [done|]. intros [= <-].
    by apply map_Forall_delete.
  - done.
  - by eapply execute_settled.
  - by eapply foreach_settled.
  - by eapply try_read_settled.
Qed.

(** C1: the invariant of the registry.  In every registry reached from
    [new] by any sequence of [insert], [remove], [set_current],
    [execute], [foreach] and [try_read], every handle sits under the
    address it was dialled for and holds a message store whose timelines
    are sorted, whatever the servers sent. *)
Theorem reachable_registry_ok db nick self :
  rtc step (Connections.new db nick) self → registry_ok self.
Proof.
  intros Hr. apply rtc_nsteps in Hr as [n Hr].
  revert self Hr. induction n as [|n IH]; intros self Hr.
  - inversion Hr; subst. apply new_ok.
  - apply nsteps_inv_r in Hr as (self0 & Hr & Hstep). by eapply step_ok, IH.
Qed.

(** C14: the registry implements a map from address to session handle.
    [handles] forgets whether a dial has been joined and which dials
    failed; on what is left, [insert] is the insert of the map, [remove]
    its delete, [execute] changes the handle under one address as the
    callback says, [foreach] changes every handle, and a poll that went
    well gives every handle its one look at the stream. *)
Theorem registry_refines self :
  Connections.held self = false →
  (∀ addr synac self', Connections.insert addr synac self = Returns self' →
     handles self' = <[addr := synac]> (handles self)) ∧
  (∀ addr self', Connections.remove addr self = Returns self' →
     handles self' = delete addr (handles self)) ∧
  (∀ A addr (on_ok : Synac → A → Synac * A) on_err acc self' acc',
     Connections.execute addr on_ok on_err acc self = Returns (self', acc') →
     handles self' = alter (λ synac, (on_ok synac acc).1) addr (handles self)) ∧
  (∀ A (callback : Synac → A → Synac * A) f acc self' acc',
     (∀ synac acc, (callback synac acc).1 = f synac) →
     Connections.foreach callback acc self = Returns (self', acc') →
     handles self' = f <$> handles self) ∧
  (∀ A now (callback : Synac → Packet → option N → A → Synac * A) g acc self' acc',
     (∀ synac packet channel acc, (callback synac packet channel acc).1 = g synac packet channel) →
     Connections.try_read now callback acc self = Returns (self', acc', Ok ()) →
     handles self' = look now g <$> handles self).
Proof.
  intros Hh. split_and!.
  - intros addr synac self'. apply insert_handles.
  - intros addr self'. apply remove_handles.
  - intros A addr on_ok on_err acc self' acc'. apply execute_alter.
  - intros A callback f acc self' acc'. apply foreach_handles.
  - intros A now callback g acc self' acc' Hg. by apply try_read_handles.
Qed.

End reachable.

(** ** A concrete network, to run the model on *)

Section examples.

#[local] Existing Instance ex_common.
#[local] Existing Instance ex_net.

(** Three servers.  The first accepts the stored token and then sends a
    message, keeps silent for a tick, sends a typing notification and
    breaks.  The second accepts the connection and never says a word.
    The third refuses the token and accepts the password. *)
Definition ex_a1 : SocketAddr := {| ip := V4 93 184 216 34; port := 8439 |}.
Definition ex_a2 : SocketAddr := {| ip := V4 127 0 0 1; port := 8439 |}.
Definition ex_a3 : SocketAddr := {| ip := V4 127 0 0 1; port := 9000 |}.

Definition ex_hello : Message :=
  {| Message.author := 9; Message.channel := 1; Message.id := 5;
     Message.text := "hello"; Message.timestamp := 100 |}.

Definition ex_script1 : list Incoming :=
  [Arrived (Packet.MessageReceive ex_hello true); NotYet;
   Arrived (Packet.TypingReceive 9 1); Failed (Io BrokenPipe)].

Definition ex_script3 : list Incoming :=
  [Arrived (Packet.LoginSuccess true 8 "fresh"); Failed (Io BrokenPipe)].

Definition ex_scripts (a : SocketAddr) : option (list Incoming) :=
  if decide (a = ex_a1) then Some (Arrived (Packet.LoginSuccess false 7 "tok") :: ex_script1)
  else if decide (a = ex_a2) then Some []
  else if decide (a = ex_a3) then Some (Arrived (Packet.Err 6) :: ex_script3)
  else None.

#[local] Instance ex_network : Network := script_network ex_scripts.

Definition ex_row (ip' token' : string) : Db.Row :=
  {| Db.ip := ip'; Db.name := "server"; Db.hash := "pin"; Db.token := Some token' |}.

Definition ex_db : Db :=
  {| Db.servers := [ex_row "example.com" "tok"; ex_row "no:port" "t"; ex_row "127.0.0.1:9000" "old"];
     Db.data := [] |}.

Definition ex_me : Connections :=
  {| Connections.current_server := None; Connections.nick := "alice";
     Connections.servers := ∅; Connections.held := false |}.

Definition ex_session (a : SocketAddr) (l : list Incoming) : Session :=
  {| Session.addr := a; Session.hash := "pin"; Session.incoming := l; Session.sent := [];
     Session.write_error := None; Session.nonblocking := false |}.

Lemma join_idempotent_witness :
  let c := Connected (Err (Io TimedOut)) in
  c = Connected (Err (Io TimedOut)) ∧ resolved c ∧
  Connection.join c = Returns (c, Err (Io TimedOut)).
Proof. by apply (join_idempotent (Connecting (spawn (Returns (Err (Io TimedOut)))))). Defined.

Lemma connect_token_witness :
  Connections.connect ex_me ex_a1 "pin" (Some "tok"%string) (Some "secret"%string) ex_db =
  Returns {|
    Connections.outcome := Ok (Synac.new ex_a1
      (logged_in (ex_session ex_a1 (Arrived (Packet.LoginSuccess false 7 "tok") :: ex_script1))
         [Packet.Login false "alice" None (Some "tok"%string)] ex_script1 true) 7);
    Connections.asked := false;
    Connections.db := ex_db |}.
Proof. by apply (connect_token ex_me ex_a1 "pin" "tok" _ ex_db _ false 7 "tok"). Defined.

Lemma connect_password_fallback_witness :
  ∃ d, Connections.connect ex_me ex_a3 "pin" (Some "old"%string) (Some "secret"%string) ex_db =
       Returns d ∧
    is_ok (Connections.outcome d) = true ∧ Connections.asked d = true ∧
    Db.token <$> Db.servers (Connections.db d) =
      [Some "tok"; Some "t"; Some "fresh"]%string.
Proof.
  eexists. split.
  - by apply (connect_password_fallback ex_me ex_a3 "pin" "old" "secret" ex_db
      (ex_session ex_a3 (Arrived (Packet.Err 6) :: ex_script3)) 6 ex_script3 true 8 "fresh"
      [Failed (Io BrokenPipe)]); [..|right|].
  - done.
Defined.

Lemma ex_no_credential :
  Connections.outcome <$> Connections.connect ex_me ex_a3 "pin" (Some "old"%string) None ex_db =
  Returns (Err (Conn InvalidToken)).
Proof.
  destruct (connect_no_credential ex_me ex_a3 "pin" ex_db
    (ex_session ex_a3 (Arrived (Packet.Err 6) :: ex_script3))) as [_ Hrefused]; [done..|].
  by rewrite (Hrefused "old"%string 6%N ex_script3); [..|right|].
Qed.

Lemma ex_invalid_password :
  Connections.outcome <$> Connections.connect ex_me ex_a3 "pin" None (Some "wrong"%string) ex_db =
  Returns (Err (Conn InvalidPassword)).
Proof.
  by rewrite (connect_invalid_password ex_me ex_a3 "pin" "wrong" ex_db
    (ex_session ex_a3 (Arrived (Packet.Err 6) :: ex_script3)) ex_script3).
Defined.

Lemma ex_connect_returns :
  returns (Connections.connect ex_me ex_a1 "pin" (Some "tok"%string) None ex_db).
Proof. apply connect_returns. by intros s [= <-]. Qed.

Lemma ex_connect_blocks :
  Connections.connect ex_me ex_a2 "pin" (Some "tok"%string) None ex_db = Blocks.
Proof.
  apply (connect_blocks ex_me ex_a2 "pin" _ None ex_db (ex_session ex_a2 [])); try done.
  left. by eexists.
Qed.

(** The registry at start, and after its first poll. *)
Definition ex_registry : Connections := Connections.new ex_db "alice".

(** A callback that notes the channels it is told. *)
Definition ex_callback (synac : Synac) (packet : Packet) (channel : option N)
    (acc : list (option N)) : Synac * list (option N) :=
  (synac, acc ++ [channel]).

Definition ex_after : Connections :=
  match Connections.try_read 5 ex_callback [] ex_registry with
  | Returns (self', _, _) => self'
  | _ => ex_registry
  end.

Lemma ex_poll :
  Connections.try_read 5 ex_callback [] ex_registry = Returns (ex_after, [Some 1%N], Ok ()).
Proof. by vm_compute. Qed.

Lemma ex_callback_keeps packet channel :
  keeps (λ synac acc, ex_callback synac packet channel acc).
Proof. by intros addr synac acc. Qed.

Lemma try_read_idle_witness :
  Connections.try_read 5 ex_callback [] ex_me = Returns (ex_me, [], Ok ()).
Proof. apply try_read_idle. by right. Defined.

Lemma try_read_keeps_witness :
  dom (Connections.servers ex_after) = dom (Connections.servers ex_registry) ∧
  Connections.current_server ex_after = Connections.current_server ex_registry ∧
  Connections.nick ex_after = Connections.nick ex_registry ∧
  Connections.held ex_after = Connections.held ex_registry.
Proof. apply (try_read_keeps 5 ex_callback [] ex_registry ex_after _ _ ex_poll). Defined.

(** The first poll has joined the dial of the first server and has read
    the message it sent. *)
Lemma ex_registry_a1 :
  Connections.servers ex_registry !! ex_a1 =
  Some (dial_of ex_me ex_db ex_a1 (ex_row "example.com" "tok")).
Proof. by vm_compute. Qed.

Lemma try_read_visits_witness :
  ends (dial_of ex_me ex_db ex_a1 (ex_row "example.com" "tok")) ∧
  ∃ c', Connections.servers ex_after !! ex_a1 = Some c' ∧ resolved c' ∧
    visited (Connections.poll 5 ex_callback)
      (dial_of ex_me ex_db ex_a1 (ex_row "example.com" "tok")) c'.
Proof.
  apply (try_read_visits 5 ex_callback [] ex_registry ex_after [Some 1%N] ex_a1);
    [done|apply ex_poll|apply ex_registry_a1].
Defined.

(** Two sessions: the stream of the first is broken, the second has a
    message waiting.  In the order that visits the first one first the
    poll ends there, and the registry is as before: the message of the
    second is not read, in this poll or in any later one. *)
Definition ex_dead : Synac :=
  Synac.new ex_a1
    {| Session.addr := ex_a1; Session.hash := "pin"; Session.incoming := [Failed (Io BrokenPipe)];
       Session.sent := []; Session.write_error := Some (Io BrokenPipe);
       Session.nonblocking := true |} 7.

Definition ex_live : Synac :=
  Synac.new ex_a3 (ex_session ex_a3 [Arrived (Packet.MessageReceive ex_hello true)]) 8.

Definition ex_two : Connections :=
  {| Connections.current_server := Some ex_a3; Connections.nick := "alice";
     Connections.servers := {[ ex_a1 := Connected (Ok ex_dead); ex_a3 := Connected (Ok ex_live) ]};
     Connections.held := false |}.

Lemma ex_starved :
  Connections.try_read (order:=reverse_order) 5 ex_callback [] ex_two =
  Returns (ex_two, [], Err (Io BrokenPipe)).
Proof. by vm_compute. Qed.

Lemma try_read_stops_witness :
  ∃ before addr after c c',
    iter_keys (HashOrder:=reverse_order) (Connections.servers ex_two) = before ++ addr :: after ∧
    Connections.servers ex_two !! addr = Some c ∧
    Connections.servers ex_two !! addr = Some c' ∧
    stopped (Connections.poll (order:=reverse_order) 5 ex_callback) (Io BrokenPipe) c c' ∧
    ∀ a, a ∈ after → Connections.servers ex_two !! a = Connections.servers ex_two !! a.
Proof.
  apply (try_read_stops (order:=reverse_order) 5 ex_callback [] ex_two ex_two []);
    [done|apply ex_starved].
Defined.

(** A registry whose only server accepts the connection and stays
    silent: the dial never ends, and neither does the poll. *)
Definition ex_hung : Connections :=
  Connections.new {| Db.servers := [ex_row "127.0.0.1" "tok"]; Db.data := [] |} "alice".

Lemma ex_hung_blocks : Connections.try_read 5 ex_callback [] ex_hung = Blocks.
Proof. by vm_compute. Qed.

Lemma try_read_waits_witness :
  match Connections.try_read 5 ex_callback [] ex_hung with
  | Returns (_, _, Ok _) => False
  | _ => True
  end.
Proof.
  pose proof (try_read_waits 5 ex_callback [] ex_hung ex_a2 (spawn Blocks)) as Hwaits.
  destruct (Connections.try_read 5 ex_callback [] ex_hung) as [[[self' acc'] [[]|err]]| |];
    [|done..].
  by apply (Hwaits eq_refl eq_refl eq_refl self' acc').
Defined.

Definition ex_count (synac : Synac) (n : nat) : Synac * nat := (synac, S n).

Definition ex_unselected : Connections := Connections.set_current None ex_two.

Lemma ex_foreach : Connections.foreach ex_count 0 ex_unselected = Returns (ex_unselected, 2).
Proof. by vm_compute. Qed.

Lemma foreach_visits_witness :
  dom (Connections.servers ex_unselected) = dom (Connections.servers ex_unselected) ∧
  ∀ addr c, Connections.servers ex_unselected !! addr = Some c →
    ends c ∧ ∃ c', Connections.servers ex_unselected !! addr = Some c' ∧ resolved c' ∧
      visited (call ex_count) c c'.
Proof.
  destruct (foreach_visits ex_count 0 ex_unselected) as [_ Hvisits].
  apply (Hvisits ex_unselected 2); [done|apply ex_foreach].
Defined.

Lemma ex_insert_execute :
  (self1 ← Connections.insert ex_a1 ex_dead ex_me;
   Connections.execute ex_a1 ex_count (λ _ n, n) 0 self1) =
  Returns (Connections.with_servers {[ ex_a1 := Connected (Ok ex_dead) ]} ex_me, 1).
Proof.
  destruct (insert_execute ex_a1 ex_dead ex_count (λ _ n, n) 0 ex_me eq_refl) as [-> _].
  by vm_compute.
Defined.

(** The first poll of the registry at start, on its handles. *)
Lemma registry_refines_witness :
  handles ex_after = look 5 (λ synac _ _, synac) <$> handles ex_registry.
Proof.
  destruct (registry_refines ex_registry eq_refl) as (_ & _ & _ & _ & Hpoll).
  apply (Hpoll _ 5%N ex_callback (λ synac _ _, synac) [] ex_after [Some 1%N]
    (λ _ _ _ _, eq_refl) ex_poll).
Defined.

Lemma ex_registry_reachable : rtc step ex_registry ex_after.
Proof. apply rtc_once. eapply step_try_read; [apply ex_callback_keeps|apply ex_poll]. Qed.

Lemma reachable_registry_ok_witness : registry_ok ex_after.
Proof. apply (reachable_registry_ok ex_db "alice"), ex_registry_reachable. Defined.

End examples.
