(* ===== verification/Pending.v ===== *)
(** * Pending and resolved dials (connections.rs, [Connection::join])

    [join] is lazy: a dial stays [Connecting] until the first operation
    that needs its handle, and is [Connected] from then on.  Whether a
    dial has been joined already is a detail of the representation: two
    registries that differ only in that cannot be told apart by the
    operations of the registry.

    This file states that as an equivalence.  Two connections are
    equivalent ([≡]) when [join] makes the same of them; two registries
    when they select the same server, hold the same nickname, have the
    lock in the same state and hold equivalent connections under the same
    addresses.  [run_rel] lifts a relation to the outcomes of a call.
    Every operation of the registry is [Proper]: from equivalent
    registries it returns equivalent registries and the same value, or
    blocks from both, or panics from both.  So [≡] is a bisimulation
    for [step] ([step_equiv]), a registry and the one with every dial joined
    ([join_all]) are reached by the same operations, and the invariant,
    the handles and [settled] do not see the difference.

    [foreach] and [try_read] walk the map in the order of the HashMap.
    Joining a dial replaces a value of the map in place, which moves no
    entry of a HashMap; [KeyOrder] is that assumption on the order: it is
    a function of the keys. *)

From Stdlib Require Import ssreflect.
From stdpp Require Import gmap list strings relations.
From S2P Require Import Prelude BinarySearch Store Addr Transport Typing Registry.

Open Scope general_if_scope.

(** ** Outcomes up to a relation *)

(** Two calls end alike: both return, with related values, or both wait
    for ever, or both panic. *)
Inductive run_rel {A B} (R : A → B → Prop) : Run A → Run B → Prop :=
| run_rel_Returns a b : R a b → run_rel R (Returns a) (Returns b)
| run_rel_Blocks : run_rel R Blocks Blocks
| run_rel_Panics : run_rel R Panics Panics.

#[export] Hint Constructors run_rel : core.

Section run_rel.
Context {A B C D : Type}.

Lemma run_rel_bind (R : A → B → Prop) (S : C → D → Prop) m m' k k' :
  run_rel R m m' → (∀ a b, R a b → run_rel S (k a) (k' b)) →
  run_rel S (m ≫= k) (m' ≫= k').
Proof. intros [a b Hab| |] Hk; simpl; auto. Qed.

Lemma run_rel_eq (m : Run A) : run_rel (=) m m.
Proof. destruct m; auto. Qed.

Lemma run_rel_Returns_l (R : A → B → Prop) a m' :
  run_rel R (Returns a) m' → ∃ b, m' = Returns b ∧ R a b.
Proof. inversion 1; eauto. Qed.

#[export] Instance run_rel_reflexive (R : relation A) : Reflexive R → Reflexive (run_rel R).
Proof. intros ? [a| |]; auto. Qed.

#[export] Instance run_rel_symmetric (R : relation A) : Symmetric R → Symmetric (run_rel R).
Proof. intros ? m m' [a b Hab| |]; auto. Qed.

#[export] Instance run_rel_transitive (R : relation A) : Transitive R → Transitive (run_rel R).
Proof. intros ? m1 m2 m3 [a b Hab| |]; inversion 1; subst; eauto. Qed.

#[export] Instance run_rel_equivalence (R : relation A) :
  Equivalence R → Equivalence (run_rel R).
Proof. split; apply _. Qed.

End run_rel.

(** ** Connections up to [join] *)

#[export] Instance connection_equiv : Equiv Connection :=
  λ c c', Connection.join c = Connection.join c'.

#[export] Instance connection_equivalence : Equivalence (≡@{Connection}).
Proof. unfold equiv, connection_equiv. split; [done|by intros c c'|by intros c1 c2 c3 ->]. Qed.

(** Registries up to the dials that have been joined. *)
#[export] Instance connections_equiv : Equiv Connections := λ self self',
  Connections.current_server self = Connections.current_server self' ∧
  Connections.nick self = Connections.nick self' ∧
  Connections.held self = Connections.held self' ∧
  Connections.servers self ≡ Connections.servers self'.

#[export] Instance connections_equivalence : Equivalence (≡@{Connections}).
Proof.
  split.
  - by intros self.
  - intros self self' (? & ? & ? & ?). by split_and!.
  - intros s1 s2 s3 (? & ? & ? & ?) (? & ? & ? & ?). split_and!; by etrans.
Qed.

(** A connection as [join] leaves it. *)
Definition resolve (c : Connection) : Connection :=
  match Connection.join c with
  | Returns (c', _) => c'
  | _ => c
  end.

(** The registry with every dial joined that ends. *)
Definition join_all (self : Connections) : Connections :=
  Connections.with_servers (resolve <$> Connections.servers self) self.

(** An order of the HashMap that is a function of the keys. *)
Class KeyOrder (order : HashOrder) : Prop :=
  iter_keys_dom : ∀ `{Countable K} {V W} (m : gmap K V) (m' : gmap K W),
    dom m = dom m' → iter_keys m = iter_keys m'.

(** ** Facts *)

Section connection_facts.
Implicit Types (c : Connection) (r : Result Synac Error).

#[export] Instance join_proper : Proper ((≡) ==> (=)) Connection.join.
Proof. by intros c c' Hc. Qed.

#[export] Instance handle_of_proper : Proper ((≡) ==> (=)) handle_of.
Proof. intros c c' Hc. by rewrite /handle_of Hc. Qed.

#[export] Instance ends_proper : Proper ((≡) ==> iff) ends.
Proof. intros c c' Hc. by rewrite -!join_returns Hc. Qed.

#[export] Instance connection_ok_proper addr : Proper ((≡) ==> iff) (connection_ok addr).
Proof.
  assert (∀ c, connection_ok addr c ↔
    ∀ c' r, Connection.join c = Returns (c', r) → result_handle_ok addr r) as Hjoin.
  { intros [[[r| |]]|r]; rewrite ?join_Connecting ?join_Connected /=; naive_solver. }
  intros c c' Hc. by rewrite !Hjoin Hc.
Qed.

(** A dial and its outcome are the same connection. *)
Lemma join_equiv c c' r : Connection.join c = Returns (c', r) → c' ≡ c.
Proof.
  intros Hj. destruct (join_idempotent _ _ _ Hj) as (_ & _ & Hj').
  by rewrite /equiv /connection_equiv Hj'.
Qed.

Lemma resolve_equiv c : resolve c ≡ c.
Proof.
  unfold resolve. destruct (Connection.join c) as [[c' r]| |] eqn:Hj; [|done..].
  by eapply join_equiv.
Qed.

(** Equivalent connections are the same connection once joined. *)
Lemma equiv_resolve c c' : c ≡ c' ↔ resolve c = resolve c'.
Proof.
  split.
  - unfold equiv, connection_equiv, resolve. intros Hc. rewrite -Hc.
    destruct (Connection.join c) as [[c1 r]| |] eqn:Hj; [done|..]; symmetry in Hc.
    + apply join_Blocks in Hj as ([h] & -> & Hh), Hc as ([h'] & -> & Hh').
      simpl in *. congruence.
    + apply join_Panics in Hj as ([h] & -> & Hh), Hc as ([h'] & -> & Hh').
      simpl in *. congruence.
  - intros Hr. by rewrite -(resolve_equiv c) -(resolve_equiv c') Hr.
Qed.

End connection_facts.

Section registry_facts.
Context {order : HashOrder}.
Implicit Types (self : Connections) (servers : gmap SocketAddr Connection) (addr : SocketAddr).

#[export] Instance current_server_proper : Proper ((≡) ==> (=)) Connections.current_server.
Proof. by intros self self' (? & _). Qed.

#[export] Instance nick_proper : Proper ((≡) ==> (=)) Connections.nick.
Proof. by intros self self' (_ & ? & _). Qed.

#[export] Instance held_proper : Proper ((≡) ==> (=)) Connections.held.
Proof. by intros self self' (_ & _ & ? & _). Qed.

#[export] Instance servers_proper : Proper ((≡) ==> (≡)) Connections.servers.
Proof. by intros self self' (_ & _ & _ & ?). Qed.

#[export] Instance with_servers_proper : Proper ((≡) ==> (≡) ==> (≡)) Connections.with_servers.
Proof. intros servers servers' Hs self self' (? & ? & ? & _). by split_and!. Qed.

#[export] Instance set_current_proper selected :
  Proper ((≡) ==> (≡)) (Connections.set_current selected).
Proof. intros self self' (_ & ? & ? & ?). by split_and!. Qed.

#[export] Instance handles_proper : Proper ((≡) ==> (=)) handles.
Proof.
  intros self self' Hs. apply map_eq. intros addr. rewrite /handles !lookup_omap.
  destruct (lookup_proper addr _ _ (servers_proper _ _ Hs)) as [c c' Hc|]; [|done].
  by rewrite /= Hc.
Qed.

#[export] Instance settled_proper : Proper ((≡) ==> iff) settled.
Proof.
  assert (∀ self self', self ≡ self' → settled self → settled self') as Hs.
  { intros self self' Hs Hself addr c' Hc'.
    destruct (map_equiv_lookup_r _ _ _ _ (servers_proper _ _ Hs) Hc') as (c & Hc & <-).
    by eapply Hself. }
  intros self self' Hself. split; apply Hs; by [|symmetry].
Qed.

#[export] Instance registry_ok_proper : Proper ((≡) ==> iff) registry_ok.
Proof.
  assert (∀ self self', self ≡ self' → registry_ok self → registry_ok self') as Hs.
  { intros self self' Hs Hself addr c' Hc'.
    destruct (map_equiv_lookup_r _ _ _ _ (servers_proper _ _ Hs) Hc') as (c & Hc & <-).
    by eapply Hself. }
  intros self self' Hself. split; apply Hs; by [|symmetry].
Qed.

Lemma servers_equiv_dom servers servers' : servers ≡ servers' → dom servers = dom servers'.
Proof.
  intros Hs. apply set_eq. intros addr. rewrite !elem_of_dom.
  destruct (lookup_proper addr _ _ Hs); by rewrite -?not_eq_None_Some.
Qed.

Lemma join_all_equiv self : join_all self ≡ self.
Proof.
  split_and!; try done. intros addr. rewrite /= lookup_fmap.
  destruct (Connections.servers self !! addr) as [c|]; constructor. apply resolve_equiv.
Qed.

(** Equivalent registries are the same registry once every dial is
    joined. *)
Lemma equiv_join_all self self' : self ≡ self' ↔ join_all self = join_all self'.
Proof.
  split.
  - intros (Hc & Hn & Hh & Hs). unfold join_all, Connections.with_servers.
    rewrite Hc Hn Hh. f_equal. apply map_eq. intros addr. rewrite !lookup_fmap.
    destruct (Hs addr) as [c c' Hcc|]; [|done]. simpl. f_equal. by apply equiv_resolve.
  - intros Hj. by rewrite -(join_all_equiv self) -(join_all_equiv self') Hj.
Qed.

(** After [join_all], a registry whose dials all end has none pending. *)
Lemma join_all_resolved self :
  settled self → map_Forall (λ _ c, resolved c) (Connections.servers (join_all self)).
Proof.
  intros Hs addr c'. rewrite /= lookup_fmap. intros (c & Hc & ->)%fmap_Some.
  pose proof (Hs addr c Hc) as [[c1 r] Hj]%join_returns%returns_Returns.
  rewrite /resolve Hj. by destruct (join_idempotent _ _ _ Hj) as (_ & ? & _).
Qed.

End registry_facts.

(** ** The operations respect the equivalence *)

Section operations.
Context {order : HashOrder} {stable : KeyOrder order} {A : Type}.
Implicit Types (self : Connections) (servers : gmap SocketAddr Connection) (addr : SocketAddr).
Implicit Types (acc : A).

#[export] Instance insert_run_proper addr synac :
  Proper ((≡) ==> run_rel (≡)) (Connections.insert addr synac).
Proof.
  intros self self' Hs. unfold Connections.insert. rewrite (held_proper _ _ Hs).
  case_match; [done|]. constructor. by rewrite Hs.
Qed.

#[export] Instance remove_run_proper addr :
  Proper ((≡) ==> run_rel (≡)) (Connections.remove addr).
Proof.
  intros self self' Hs. unfold Connections.remove. rewrite (held_proper _ _ Hs).
  case_match; [done|]. constructor. by rewrite Hs.
Qed.

#[export] Instance execute_proper addr (on_ok : Synac → A → Synac * A) on_err acc :
  Proper ((≡) ==> run_rel (prod_relation (≡) (=)))
    (Connections.execute addr on_ok on_err acc).
Proof.
  intros self self' Hs. unfold Connections.execute. rewrite (held_proper _ _ Hs).
  case_match; [done|].
  destruct (lookup_proper addr _ _ (servers_proper _ _ Hs)) as [c c' Hc|]; [|by constructor].
  rewrite Hc. destruct (Connection.join c') as [[c1 [synac|err]]| |]; simpl; [| |done..].
  - destruct (on_ok synac acc) as [synac' acc']. constructor. split; [|done]. simpl.
    by rewrite Hs.
  - constructor. split; [|done]. simpl. by rewrite Hs.
Qed.

(** The walk of [foreach] and [try_read], in one order over equivalent
    maps. *)
Lemma visit_loop_equiv (visit : Synac → A → Run (Result (Synac * A) Error)) keys
    servers servers' acc :
  servers ≡ servers' →
  run_rel (prod_relation (prod_relation (≡) (=)) (=))
    (visit_loop visit keys servers acc) (visit_loop visit keys servers' acc).
Proof.
  revert servers servers' acc.
  induction keys as [|addr keys IH]; intros servers servers' acc Hs; simpl; [by constructor|].
  destruct (lookup_proper addr _ _ Hs) as [c c' Hc|]; [|by apply IH].
  rewrite Hc. destruct (Connection.join c') as [[c1 [synac|err]]| |]; simpl; [| |done..].
  - destruct (visit synac acc) as [[[synac' acc']|err]| |]; simpl; [| |done..].
    + apply IH. by rewrite Hs.
    + constructor. do 2 (split; [|done]). simpl. by rewrite Hs.
  - apply IH. by rewrite Hs.
Qed.

#[export] Instance foreach_proper (callback : Synac → A → Synac * A) acc :
  Proper ((≡) ==> run_rel (prod_relation (≡) (=))) (Connections.foreach callback acc).
Proof.
  intros self self' Hs. destruct (Connections.held self) eqn:Hh.
  { by rewrite /Connections.foreach -(held_proper _ _ Hs) Hh. }
  rewrite !foreach_unfold -?(held_proper _ _ Hs) //.
  rewrite -(iter_keys_dom _ _ (servers_equiv_dom _ _ (servers_proper _ _ Hs))).
  eapply run_rel_bind; [by apply visit_loop_equiv, servers_proper|].
  intros [[servers acc1] r] [[servers' acc1'] r'] [[Hservers Hacc] _]. simpl in *. subst.
  constructor. split; [|done]. simpl. by rewrite Hservers Hs.
Qed.

#[export] Instance try_read_proper now
    (callback : Synac → Packet → option N → A → Synac * A) acc :
  Proper ((≡) ==> run_rel (prod_relation (prod_relation (≡) (=)) (=)))
    (Connections.try_read now callback acc).
Proof.
  intros self self' Hs. destruct (Connections.held self) eqn:Hh.
  { rewrite /Connections.try_read -(held_proper _ _ Hs) Hh. by constructor. }
  rewrite !try_read_unfold -?(held_proper _ _ Hs) //.
  rewrite -(iter_keys_dom _ _ (servers_equiv_dom _ _ (servers_proper _ _ Hs))).
  eapply run_rel_bind; [by apply visit_loop_equiv, servers_proper|].
  intros [[servers acc1] r] [[servers' acc1'] r'] [[Hservers Hacc] Hr]. simpl in *. subst.
  constructor. do 2 (split; [|done]). simpl. by rewrite Hservers Hs.
Qed.

End operations.

(** ** The orders of the examples are orders of the keys *)

Lemma map_to_list_keys_dom `{Countable K} {V W} (m : gmap K V) (m' : gmap K W) :
  dom m = dom m' → (map_to_list m).*1 = (map_to_list m').*1.
Proof.
  intros Hdom. assert ((λ _, ()) <$> m = (λ _, ()) <$> m') as Hunit.
  { apply map_eq. intros k. rewrite !lookup_fmap.
    destruct (m !! k) eqn:Hk, (m' !! k) eqn:Hk'; try done.
    - apply mk_is_Some, elem_of_dom in Hk. rewrite Hdom in Hk. apply elem_of_dom in Hk as [??].
      congruence.
    - apply mk_is_Some, elem_of_dom in Hk'. rewrite -Hdom in Hk'.
      apply elem_of_dom in Hk' as [??]. congruence. }
  apply (f_equal (λ m, (map_to_list m).*1)) in Hunit.
  by rewrite !map_to_list_fmap -!list_fmap_compose in Hunit.
Qed.

#[export] Instance trie_key_order : KeyOrder trie_order.
Proof. intros K ?? V W m m'. apply map_to_list_keys_dom. Qed.

#[export] Instance reverse_key_order : KeyOrder reverse_order.
Proof. intros K ?? V W m m' Hdom. simpl. f_equal. by apply map_to_list_keys_dom. Qed.

(** ** The bisimulation *)

Section bisimulation.
Context {common : Common} {order : HashOrder} {stable : KeyOrder order}.
Implicit Types (self : Connections).

(** Whatever operation takes a registry to the next, the same
    operation, with the same callback, takes every equivalent registry to
    an equivalent one. *)
Lemma step_simulation self1 self2 self1' :
  self1 ≡ self2 → step self1 self1' → ∃ self2', step self2 self2' ∧ self1' ≡ self2'.
Proof.
  intros Hs Hstep. revert Hs.
  destruct Hstep as [addr synac s s' Hok Hi|addr s s' Hr|selected s
    |A addr on_ok on_err acc s s' acc' Hcb He|A callback acc s s' acc' Hcb Hf
    |A now callback acc s s' acc' r Hcb Ht]; intros Hs.
  - pose proof (insert_run_proper addr synac _ _ Hs) as Hrel. rewrite Hi in Hrel.
    apply run_rel_Returns_l in Hrel as (self2' & Hi' & Hequiv). eauto using step.
  - pose proof (remove_run_proper addr _ _ Hs) as Hrel. rewrite Hr in Hrel.
    apply run_rel_Returns_l in Hrel as (self2' & Hr' & Hequiv). eauto using step.
  - exists (Connections.set_current selected self2). split; [constructor|by rewrite Hs].
  - pose proof (execute_proper addr on_ok on_err acc _ _ Hs) as Hrel. rewrite He in Hrel.
    apply run_rel_Returns_l in Hrel as ([self2' acc2] & He' & Hequiv & _). eauto using step.
  - pose proof (foreach_proper callback acc _ _ Hs) as Hrel. rewrite Hf in Hrel.
    apply run_rel_Returns_l in Hrel as ([self2' acc2] & Hf' & Hequiv & _). eauto using step.
  - pose proof (try_read_proper now callback acc _ _ Hs) as Hrel. rewrite Ht in Hrel.
    apply run_rel_Returns_l in Hrel as ([[self2' acc2] r2] & Ht' & [Hequiv _] & _).
    eauto using step.
Qed.

(** The same for every sequence of operations. *)
Lemma reachable_equiv self1 self2 self1' :
  self1 ≡ self2 → rtc step self1 self1' → ∃ self2', rtc step self2 self2' ∧ self1' ≡ self2'.
Proof.
  intros Hs Hr. revert self2 Hs.
  induction Hr as [self|self1 self1' self1'' Hstep Hr IH]; intros self2 Hs.
  { exists self2. by split. }
  destruct (step_simulation _ _ _ Hs Hstep) as (self2' & Hstep' & Hs').
  destruct (IH _ Hs') as (self2'' & Hr' & Hs''). exists self2''. split; [by econstructor|done].
Qed.

(** What the program reaches with every dial joined at once is what it
    reaches with the dials joined one by one, up to the dials that are
    still pending. *)
Lemma join_all_reachable self self' :
  rtc step self self' → ∃ self'', rtc step (join_all self) self'' ∧ join_all self'' = join_all self'.
Proof.
  intros Hr. destruct (reachable_equiv self (join_all self) self') as (self'' & Hr' & Hs);
    [by rewrite join_all_equiv|done|].
  exists self''. split; [done|]. symmetry. by apply equiv_join_all.
Qed.


End bisimulation.

(** ** Examples *)

Section examples.

#[local] Existing Instance ex_common.
#[local] Existing Instance ex_net.

(** The registry at start holds pending dials only; joined at once,
    they are resolved, with the same handles. *)
Lemma ex_registry_pending :
  map_Forall (λ _ c, ¬ resolved c) (Connections.servers ex_registry).
Proof. apply (bool_decide_unpack _). by vm_compute. Qed.

Lemma ex_registry_joined :
  map_Forall (λ _ c, resolved c) (Connections.servers (join_all ex_registry)) ∧
  handles (join_all ex_registry) = handles ex_registry.
Proof.
  split; [apply join_all_resolved, (bool_decide_unpack _); by vm_compute|].
  by rewrite join_all_equiv.
Qed.

(** The poll of the examples of the registry, from the registry with the
    dials joined: the same handles are read and the same is returned. *)
Lemma ex_poll_joined :
  Connections.try_read 5 ex_callback [] (join_all ex_registry) =
  Returns (ex_after, [Some 1%N], Ok ()).
Proof. by vm_compute. Qed.

Lemma ex_step_joined :
  ∃ self2', step (join_all ex_registry) self2' ∧ ex_after ≡ self2'.
Proof.
  apply (step_simulation ex_registry (join_all ex_registry) ex_after).
  - symmetry. apply join_all_equiv.
  - exact (step_try_read 5 ex_callback [] ex_registry ex_after _ _ ex_callback_keeps ex_poll).
Qed.


(** A dial that hangs blocks the poll from either registry. *)
Lemma ex_hung_joined : Connections.try_read 5 ex_callback [] (join_all ex_hung) = Blocks.
Proof.
  pose proof (try_read_proper 5 ex_callback [] _ _ (join_all_equiv ex_hung)) as Hrel.
  rewrite ex_hung_blocks in Hrel. by inversion Hrel.
Qed.

End examples.
