(* ===== verification/App.v ===== *)
(** * The handlers of the window (main.rs)

    [main] builds the window and registers closures: on the entries and
    buttons of the user, and an idle source that polls the registry.
    What a closure does to the toolkit is not modelled; what it decides is.

    [App] holds the registry, the database and the part of the widgets
    the closures read or set: which page a stack shows, the text of an
    entry or a label, whether the two entries that send are sensitive,
    and the entry the closures last handed the focus to.  Calls into
    functions.rs, whose code is not among the sources (rendering, alerts,
    the interactive reconnect), are recorded in [calls], in the order in
    which they are made.  The clock is explicit: a handler that reads
    [Instant::now()] takes the time, in nanoseconds, as the tracker of the
    typists does.

    A closure that changes the text of the message entry runs the
    closure connected to [notify::text] before it goes on
    ([input_set_text]): the toolkit emits the signal inside [set_text].
    So a message that is sent is followed by a typing notification
    whenever the throttle is open ([input_activate_typing]).

    Every handler is a function from [App] to [Run App]: it returns, or
    it waits for ever on the mutex of the registry or on a dial, or it
    panics.  [main_start] is [main] up to the window, [start] the window
    it builds, [idle] the closure of the idle source.  [handle] gives an
    event of the toolkit to its closure and [run] handles a list of
    events; [app_step] adds what functions.rs may do to the registry in
    between.  [app_ok] is the invariant of the windows reached that
    way.  [load_css] is the choice of the style, [gtk_main] the loop up
    to the delete event of the window, and [main] the whole program: the
    start, the style and the loop. *)

From Stdlib Require Import ssreflect.
From stdpp Require Import gmap list strings.
From S2P Require Import Prelude BinarySearch Store Addr Transport Typing Scroll Registry.

Open Scope general_if_scope.

(** ** The state *)

(** The children of [app.stack] and of [app.user_stack]. *)
Inductive Page := StackMain | StackEditServer | StackEditChannel.
Inductive UserPage := UserStackText | UserStackEdit.

(** The entries on which the closures call [grab_focus].  The state
    keeps the entry of the last call; where the toolkit and the user move
    the focus in between is not modelled. *)
Inductive Focus := FocusUserStackEdit | FocusInput.

(** The texts of the entries of [struct EditServer]. *)
Record EditServer := { name : string; server : string; hash : string }.

(** [struct EditChannel]: the text of the name and what [get_mode] reads
    from the two boxes of check buttons. *)
Record EditChannel := { channel : string; mode_bots : option N; mode_users : option N }.

(** The style sheets compiled into the program, and what a style
    provider is filled from: the file [style.css] of the user, or one of
    the two sheets. *)
Inductive Sheet := DarkCss | LightCss.

Inductive Css := FromPath (path : string) | FromData (sheet : Sheet).

(** Why the style did not load: [UnicodePathError], or the error of the
    toolkit. *)
Inductive StyleError := UnicodePathError | LoadError (what : string).

(** A call into functions.rs; [alert] is called with a warning by the
    closures and with an error by the loader of the style. *)
Inductive Call :=
  | Alert (err : Error)
  | AlertError (err : StyleError)
  | RenderServers
  | RenderChannels (addr : option SocketAddr)
  | RenderMessages (addr : option SocketAddr)
  | Connect (addr : SocketAddr) (hash : string) (token : option string).

#[export] Instance Focus_eq_dec : EqDecision Focus.
Proof. solve_decision. Defined.
#[export] Instance Page_eq_dec : EqDecision Page.
Proof. solve_decision. Defined.
#[export] Instance UserPage_eq_dec : EqDecision UserPage.
Proof. solve_decision. Defined.
#[export] Instance Sheet_eq_dec : EqDecision Sheet.
Proof. solve_decision. Defined.
#[export] Instance Css_eq_dec : EqDecision Css.
Proof. solve_decision. Defined.
#[export] Instance StyleError_eq_dec : EqDecision StyleError.
Proof. solve_decision. Defined.
#[export] Instance Call_eq_dec : EqDecision Call.
Proof. solve_decision. Defined.

Module App.

Record t := {
  connections : Connections;
  db : Db;
  message_edit : bool;
  message_edit_id : option N;
  message_edit_input : string;
  stack : Page;
  user_stack : UserPage;
  user_stack_edit : string;
  user_name : string;
  typing : string;
  input : string;
  typing_last : N;
  edit_server : EditServer;
  edit_channel : EditChannel;
  calls : list Call;
  messages_scroll : Adjustment;
  input_sensitive : bool;
  message_edit_input_sensitive : bool;
  focus : option Focus;
}.

Definition with_connections (x : Connections) (app : t) : t :=
  {| connections := x; db := db app; message_edit := message_edit app;
     message_edit_id := message_edit_id app; message_edit_input := message_edit_input app;
     stack := stack app; user_stack := user_stack app; user_stack_edit := user_stack_edit app;
     user_name := user_name app; typing := typing app; input := input app;
     typing_last := typing_last app; edit_server := edit_server app;
     edit_channel := edit_channel app; calls := calls app; messages_scroll := messages_scroll app;
     input_sensitive := input_sensitive app;
     message_edit_input_sensitive := message_edit_input_sensitive app; focus := focus app |}.

Definition with_db (x : Db) (app : t) : t :=
  {| connections := connections app; db := x; message_edit := message_edit app;
     message_edit_id := message_edit_id app; message_edit_input := message_edit_input app;
     stack := stack app; user_stack := user_stack app; user_stack_edit := user_stack_edit app;
     user_name := user_name app; typing := typing app; input := input app;
     typing_last := typing_last app; edit_server := edit_server app;
     edit_channel := edit_channel app; calls := calls app; messages_scroll := messages_scroll app;
     input_sensitive := input_sensitive app;
     message_edit_input_sensitive := message_edit_input_sensitive app; focus := focus app |}.

Definition with_message_edit (x : bool) (app : t) : t :=
  {| connections := connections app; db := db app; message_edit := x;
     message_edit_id := message_edit_id app; message_edit_input := message_edit_input app;
     stack := stack app; user_stack := user_stack app; user_stack_edit := user_stack_edit app;
     user_name := user_name app; typing := typing app; input := input app;
     typing_last := typing_last app; edit_server := edit_server app;
     edit_channel := edit_channel app; calls := calls app; messages_scroll := messages_scroll app;
     input_sensitive := input_sensitive app;
     message_edit_input_sensitive := message_edit_input_sensitive app; focus := focus app |}.

Definition with_message_edit_input (x : string) (app : t) : t :=
  {| connections := connections app; db := db app; message_edit := message_edit app;
     message_edit_id := message_edit_id app; message_edit_input := x; stack := stack app;
     user_stack := user_stack app; user_stack_edit := user_stack_edit app;
     user_name := user_name app; typing := typing app; input := input app;
     typing_last := typing_last app; edit_server := edit_server app;
     edit_channel := edit_channel app; calls := calls app; messages_scroll := messages_scroll app;
     input_sensitive := input_sensitive app;
     message_edit_input_sensitive := message_edit_input_sensitive app; focus := focus app |}.

Definition with_stack (x : Page) (app : t) : t :=
  {| connections := connections app; db := db app; message_edit := message_edit app;
     message_edit_id := message_edit_id app; message_edit_input := message_edit_input app;
     stack := x; user_stack := user_stack app; user_stack_edit := user_stack_edit app;
     user_name := user_name app; typing := typing app; input := input app;
     typing_last := typing_last app; edit_server := edit_server app;
     edit_channel := edit_channel app; calls := calls app; messages_scroll := messages_scroll app;
     input_sensitive := input_sensitive app;
     message_edit_input_sensitive := message_edit_input_sensitive app; focus := focus app |}.

Definition with_user_stack (x : UserPage) (app : t) : t :=
  {| connections := connections app; db := db app; message_edit := message_edit app;
     message_edit_id := message_edit_id app; message_edit_input := message_edit_input app;
     stack := stack app; user_stack := x; user_stack_edit := user_stack_edit app;
     user_name := user_name app; typing := typing app; input := input app;
     typing_last := typing_last app; edit_server := edit_server app;
     edit_channel := edit_channel app; calls := calls app; messages_scroll := messages_scroll app;
     input_sensitive := input_sensitive app;
     message_edit_input_sensitive := message_edit_input_sensitive app; focus := focus app |}.

Definition with_user_stack_edit (x : string) (app : t) : t :=
  {| connections := connections app; db := db app; message_edit := message_edit app;
     message_edit_id := message_edit_id app; message_edit_input := message_edit_input app;
     stack := stack app; user_stack := user_stack app; user_stack_edit := x;
     user_name := user_name app; typing := typing app; input := input app;
     typing_last := typing_last app; edit_server := edit_server app;
     edit_channel := edit_channel app; calls := calls app; messages_scroll := messages_scroll app;
     input_sensitive := input_sensitive app;
     message_edit_input_sensitive := message_edit_input_sensitive app; focus := focus app |}.

Definition with_user_name (x : string) (app : t) : t :=
  {| connections := connections app; db := db app; message_edit := message_edit app;
     message_edit_id := message_edit_id app; message_edit_input := message_edit_input app;
     stack := stack app; user_stack := user_stack app; user_stack_edit := user_stack_edit app;
     user_name := x; typing := typing app; input := input app; typing_last := typing_last app;
     edit_server := edit_server app; edit_channel := edit_channel app; calls := calls app;
     messages_scroll := messages_scroll app; input_sensitive := input_sensitive app;
     message_edit_input_sensitive := message_edit_input_sensitive app; focus := focus app |}.

Definition with_typing (x : string) (app : t) : t :=
  {| connections := connections app; db := db app; message_edit := message_edit app;
     message_edit_id := message_edit_id app; message_edit_input := message_edit_input app;
     stack := stack app; user_stack := user_stack app; user_stack_edit := user_stack_edit app;
     user_name := user_name app; typing := x; input := input app; typing_last := typing_last app;
     edit_server := edit_server app; edit_channel := edit_channel app; calls := calls app;
     messages_scroll := messages_scroll app; input_sensitive := input_sensitive app;
     message_edit_input_sensitive := message_edit_input_sensitive app; focus := focus app |}.

Definition with_input (x : string) (app : t) : t :=
  {| connections := connections app; db := db app; message_edit := message_edit app;
     message_edit_id := message_edit_id app; message_edit_input := message_edit_input app;
     stack := stack app; user_stack := user_stack app; user_stack_edit := user_stack_edit app;
     user_name := user_name app; typing := typing app; input := x; typing_last := typing_last app;
     edit_server := edit_server app; edit_channel := edit_channel app; calls := calls app;
     messages_scroll := messages_scroll app; input_sensitive := input_sensitive app;
     message_edit_input_sensitive := message_edit_input_sensitive app; focus := focus app |}.

Definition with_typing_last (x : N) (app : t) : t :=
  {| connections := connections app; db := db app; message_edit := message_edit app;
     message_edit_id := message_edit_id app; message_edit_input := message_edit_input app;
     stack := stack app; user_stack := user_stack app; user_stack_edit := user_stack_edit app;
     user_name := user_name app; typing := typing app; input := input app; typing_last := x;
     edit_server := edit_server app; edit_channel := edit_channel app; calls := calls app;
     messages_scroll := messages_scroll app; input_sensitive := input_sensitive app;
     message_edit_input_sensitive := message_edit_input_sensitive app; focus := focus app |}.

Definition with_edit_server (x : EditServer) (app : t) : t :=
  {| connections := connections app; db := db app; message_edit := message_edit app;
     message_edit_id := message_edit_id app; message_edit_input := message_edit_input app;
     stack := stack app; user_stack := user_stack app; user_stack_edit := user_stack_edit app;
     user_name := user_name app; typing := typing app; input := input app;
     typing_last := typing_last app; edit_server := x; edit_channel := edit_channel app;
     calls := calls app; messages_scroll := messages_scroll app;
     input_sensitive := input_sensitive app;
     message_edit_input_sensitive := message_edit_input_sensitive app; focus := focus app |}.

Definition with_edit_channel (x : EditChannel) (app : t) : t :=
  {| connections := connections app; db := db app; message_edit := message_edit app;
     message_edit_id := message_edit_id app; message_edit_input := message_edit_input app;
     stack := stack app; user_stack := user_stack app; user_stack_edit := user_stack_edit app;
     user_name := user_name app; typing := typing app; input := input app;
     typing_last := typing_last app; edit_server := edit_server app; edit_channel := x;
     calls := calls app; messages_scroll := messages_scroll app;
     input_sensitive := input_sensitive app;
     message_edit_input_sensitive := message_edit_input_sensitive app; focus := focus app |}.

Definition with_calls (x : list Call) (app : t) : t :=
  {| connections := connections app; db := db app; message_edit := message_edit app;
     message_edit_id := message_edit_id app; message_edit_input := message_edit_input app;
     stack := stack app; user_stack := user_stack app; user_stack_edit := user_stack_edit app;
     user_name := user_name app; typing := typing app; input := input app;
     typing_last := typing_last app; edit_server := edit_server app;
     edit_channel := edit_channel app; calls := x; messages_scroll := messages_scroll app;
     input_sensitive := input_sensitive app;
     message_edit_input_sensitive := message_edit_input_sensitive app; focus := focus app |}.

Definition with_messages_scroll (x : Adjustment) (app : t) : t :=
  {| connections := connections app; db := db app; message_edit := message_edit app;
     message_edit_id := message_edit_id app; message_edit_input := message_edit_input app;
     stack := stack app; user_stack := user_stack app; user_stack_edit := user_stack_edit app;
     user_name := user_name app; typing := typing app; input := input app;
     typing_last := typing_last app; edit_server := edit_server app;
     edit_channel := edit_channel app; calls := calls app; messages_scroll := x;
     input_sensitive := input_sensitive app;
     message_edit_input_sensitive := message_edit_input_sensitive app; focus := focus app |}.

Definition with_input_sensitive (x : bool) (app : t) : t :=
  {| connections := connections app; db := db app; message_edit := message_edit app;
     message_edit_id := message_edit_id app; message_edit_input := message_edit_input app;
     stack := stack app; user_stack := user_stack app; user_stack_edit := user_stack_edit app;
     user_name := user_name app; typing := typing app; input := input app;
     typing_last := typing_last app; edit_server := edit_server app;
     edit_channel := edit_channel app; calls := calls app; messages_scroll := messages_scroll app;
     input_sensitive := x; message_edit_input_sensitive := message_edit_input_sensitive app;
     focus := focus app |}.

Definition with_message_edit_input_sensitive (x : bool) (app : t) : t :=
  {| connections := connections app; db := db app; message_edit := message_edit app;
     message_edit_id := message_edit_id app; message_edit_input := message_edit_input app;
     stack := stack app; user_stack := user_stack app; user_stack_edit := user_stack_edit app;
     user_name := user_name app; typing := typing app; input := input app;
     typing_last := typing_last app; edit_server := edit_server app;
     edit_channel := edit_channel app; calls := calls app; messages_scroll := messages_scroll app;
     input_sensitive := input_sensitive app; message_edit_input_sensitive := x;
     focus := focus app |}.

Definition with_focus (x : option Focus) (app : t) : t :=
  {| connections := connections app; db := db app; message_edit := message_edit app;
     message_edit_id := message_edit_id app; message_edit_input := message_edit_input app;
     stack := stack app; user_stack := user_stack app; user_stack_edit := user_stack_edit app;
     user_name := user_name app; typing := typing app; input := input app;
     typing_last := typing_last app; edit_server := edit_server app;
     edit_channel := edit_channel app; calls := calls app; messages_scroll := messages_scroll app;
     input_sensitive := input_sensitive app;
     message_edit_input_sensitive := message_edit_input_sensitive app; focus := x |}.

(** A call into functions.rs is noted behind the calls made before. *)
Definition call (c : Call) (app : t) : t := with_calls (calls app ++ [c]) app.

End App.

Abbreviation App := App.t.

(** ** Start *)

(** The nickname at start: the value stored under [nick], or the name of
    the user in the environment, or ["unknown"]. *)
Definition initial_nick (db : Db) (env_user : option string) : string :=
  match Db.select_nick db with
  | Some value => value
  | None => default "unknown"%string env_user
  end.


(** ** The handlers *)

Section handlers.
Context {common : Common} {network : Network} {net : StdNet}.
Context {search : SliceSearch} {order : HashOrder}.
Implicit Types (app : App) (synac : Synac) (addr : SocketAddr).

(** The [App] that [main] builds at the time [now]: the registry dials
    the stored servers, the stacks show their first child, the entries and
    labels are empty but for the name of the user, and the servers are
    drawn. *)
Definition start (now : N) (db : Db) (env_user : option string) : App :=
  let nick := initial_nick db env_user in
  {| App.connections := Connections.new db nick; App.db := db;
     App.message_edit := false; App.message_edit_id := None;
     App.message_edit_input := EmptyString;
     App.stack := StackMain; App.user_stack := UserStackText;
     App.user_stack_edit := EmptyString; App.user_name := nick;
     App.typing := EmptyString; App.input := EmptyString; App.typing_last := now;
     App.edit_server := {| name := EmptyString; server := EmptyString; hash := EmptyString |};
     App.edit_channel := {| channel := EmptyString; mode_bots := None; mode_users := None |};
     App.calls := [RenderServers]; App.messages_scroll := Adjustment.new;
     App.input_sensitive := true; App.message_edit_input_sensitive := true;
     App.focus := None |}.

(** [*connections.nick.write().unwrap() = text]. *)
Definition set_nick (text : string) (self : Connections) : Connections :=
  {| Connections.current_server := Connections.current_server self;
     Connections.nick := text; Connections.servers := Connections.servers self;
     Connections.held := Connections.held self |}.

(** What most callbacks do: send one packet on the session of the
    handle, and leave the handle alone when the write fails. *)
Definition send_on (packet : Packet) (synac : Synac) : Synac * Result () Error :=
  match Session.send packet (Synac.session synac) with
  | Ok session => (Synac.with_session session synac, Ok ())
  | Err err => (synac, Err err)
  end.

(** What [main] finds when it is started: the directories of the user,
    the file of the database, the database in it, and the toolkit. *)
Record Boot := {
  with_prefix : Result () string;
  find_data_file : option string;
  place_data_file : Result string string;
  open : string → Result Db string;
  tables_created : bool;
  gtk_init : Result () string;
  env_user : option string;
}.

(** The four ways in which [main] gives up with a message, before there
    is a window. *)
Inductive Stop :=
  | ErrorInitializingXdg (err : string)
  | ErrorPlacingConfig (err : string)
  | FailedToOpenDatabase (err : string)
  | GtkError (err : string).

(** [main] up to the construction of [App]: every failure on the way to
    the database ends the program; a table that cannot be created panics
    ([expect]). *)
Definition main_start (now : N) (boot : Boot) : Run (Result App Stop) :=
  match with_prefix boot with
  | Err err => Returns (Err (ErrorInitializingXdg err))
  | Ok _ =>
    match match find_data_file boot with
          | Some path => Ok path
          | None => place_data_file boot
          end with
    | Err err => Returns (Err (ErrorPlacingConfig err))
    | Ok path =>
      match open boot path with
      | Err err => Returns (Err (FailedToOpenDatabase err))
      | Ok db =>
        if tables_created boot then
          match gtk_init boot with
          | Err err => Returns (Err (GtkError err))
          | Ok _ => Returns (Ok (start now db (env_user boot)))
          end
        else Panics
      end
    end
  end.

(** *** The nickname *)

(** The callback of the broadcast: the new name goes to the server, and a
    failed write is shown in an alert. *)
Definition announce_nick (text : string) (synac : Synac) (alerts : list Call)
    : Synac * list Call :=
  match send_on (Packet.LoginUpdate (Some text) None None false) synac with
  | (synac, Ok _) => (synac, alerts)
  | (synac, Err err) => (synac, alerts ++ [Alert err])
  end.

(** [user_stack_edit.connect_activate]. *)
Definition user_stack_edit_activate app : Run App :=
  let text := App.user_stack_edit app in
  let old := Connections.nick (App.connections app) in
  let app := App.with_user_stack UserStackText app in
  if decide (text = EmptyString ∨ text = old) then Returns app else
  let app := App.with_user_name text app in
  '(connections, alerts) ← Connections.foreach (announce_nick text) [] (App.connections app);
  Returns (App.with_connections (set_nick text connections)
             (App.with_calls (App.calls app ++ alerts) app)).

(** [user_stack_edit.connect_focus_out_event]. *)
Definition user_stack_edit_focus_out app : App := App.with_user_stack UserStackText app.

(** [user_stack_text.connect_button_press_event]: the first button
    fills the entry with the nickname, hands it the focus and shows it. *)
Definition user_stack_text_button_press (button : N) app : App :=
  if decide (button = 1%N) then
    App.with_user_stack UserStackEdit
      (App.with_focus (Some FocusUserStackEdit)
         (App.with_user_stack_edit (Connections.nick (App.connections app)) app))
  else app.

(** *** The forms *)

Definition cleared_server : EditServer :=
  {| name := EmptyString; server := EmptyString; hash := EmptyString |}.

(** The button [Add...] under the servers. *)
Definition add_server_clicked app : App :=
  App.with_stack StackEditServer (App.with_edit_server cleared_server app).

(** The button [Add...] under the channels has two closures, run in the
    order in which they were connected: the first clears the form of the
    server, the second the form of the channel. *)
Definition add_channel_clicked_first app : App :=
  App.with_stack StackEditChannel (App.with_edit_server cleared_server app).

Definition add_channel_clicked_second app : App :=
  App.with_stack StackEditChannel
    (App.with_edit_channel
       {| channel := EmptyString; mode_bots := Some 0%N;
          mode_users := Some (N.lor PERM_READ PERM_WRITE) |} app).

Definition add_channel_clicked app : App :=
  add_channel_clicked_second (add_channel_clicked_first app).

Definition edit_server_cancel_clicked app : App := App.with_stack StackMain app.
Definition edit_channel_cancel_clicked app : App := App.with_stack StackMain app.
Definition message_edit_cancel_clicked app : App := App.with_message_edit false app.

(** [edit_server_ok.connect_clicked]: the address must resolve; the row is
    stored under the text of the resolved address, and the insert panics
    when that key is taken. *)
Definition edit_server_ok_clicked app : Run App :=
  match parse_addr (server (App.edit_server app)) with
  | None => Returns app
  | Some addr =>
    let app := App.with_stack StackMain app in
    db ← or_panic (Db.insert_server (name (App.edit_server app)) (to_string addr)
                     (hash (App.edit_server app)) (App.db app));
    Returns (App.call RenderServers (App.with_db db app))
  end.

(** *** Handlers that talk to the selected server *)

(** [if let Some(addr) = *current_server.lock() { execute(addr, ...) }]:
    the pattern of every handler below. *)
Definition on_current {A} (on_ok : Synac → A → Synac * A) (on_err : Error → A → A) (acc : A)
    (self : Connections) : Run (Connections * A) :=
  match Connections.current_server self with
  | Some addr => Connections.execute addr on_ok on_err acc self
  | None => Returns (self, acc)
  end.

(** A callback that sends [packet (channel)] when a channel is selected
    and only logs a failed write. *)
Definition send_in_channel (packet : N → Synac → Packet) (synac : Synac) (acc : ())
    : Synac * () :=
  match Synac.current_channel synac with
  | Some channel => ((send_on (packet channel synac) synac).1, acc)
  | None => (synac, acc)
  end.

(** The side of a scrolled window an edge signal names. *)
Inductive PositionType := Left | Right | Top | Bottom.

#[export] Instance PositionType_eq_dec : EqDecision PositionType.
Proof. solve_decision. Defined.

(** The request for the page of messages before the oldest one the store
    holds for the channel. *)
Definition older_messages (channel : N) (synac : Synac) : Packet :=
  Packet.MessageList None
    (Message.id <$> head (Messages.get (Synac.messages synac) channel))
    channel LIMIT_BULK.

(** [messages_scroll.connect_edge_reached]. *)
Definition messages_scroll_edge_reached (pos : PositionType) app : Run App :=
  if decide (pos ≠ Top) then Returns app else
  '(connections, _) ← on_current (send_in_channel older_messages) (λ _ acc, acc) ()
                        (App.connections app);
  Returns (App.with_connections connections app).

(** The callback of the edit: [expect] panics when no message is being
    edited; the panic is noted and raised when [execute] is back. *)
Definition send_edit (id : option N) (text : string) (synac : Synac) (panicked : bool)
    : Synac * bool :=
  match id with
  | Some id => ((send_on (Packet.MessageUpdate id text) synac).1, panicked)
  | None => (synac, true)
  end.

(** [message_edit_input.connect_activate]: the entry is insensitive
    while the edit is sent. *)
Definition message_edit_input_activate app : Run App :=
  let text := App.message_edit_input app in
  if decide (text = EmptyString) then Returns app else
  let app := App.with_message_edit_input_sensitive false app in
  '(connections, panicked) ← on_current (send_edit (App.message_edit_id app) text)
                               (λ _ acc, acc) false (App.connections app);
  if panicked : bool then Panics
  else Returns (App.with_message_edit false
                  (App.with_message_edit_input_sensitive true
                     (App.with_connections connections app))).

(** [Duration::from_secs(common::TYPING_TIMEOUT as u64 / 2)]. *)
Definition typing_duration : N := ((TYPING_TIMEOUT `div` 2) * SECOND)%N.

(** [input.connect_property_text_notify], at the time [now]: at most one
    notification in [typing_duration]. *)
Definition input_text_notify (now : N) app : Run App :=
  if decide (now - App.typing_last app < typing_duration)%N then Returns app else
  let app := App.with_typing_last now app in
  '(connections, _) ← on_current (send_in_channel (λ channel _, Packet.Typing channel))
                        (λ _ acc, acc) () (App.connections app);
  Returns (App.with_connections connections app).

(** The callback of the send, under the address [addr] of the selected
    server.  When the write fails with anything but an input/output error
    of a kind other than [BrokenPipe], the row of the server is read and
    [connect] of functions.rs is called with it. *)
Definition send_message (db : Db) (addr : SocketAddr) (text : string) (synac : Synac)
    (calls : list Call) : Synac * list Call :=
  match Synac.current_channel synac with
  | None => (synac, calls)
  | Some channel =>
    match send_on (Packet.MessageCreate channel text) synac with
    | (synac, Ok _) => (synac, calls)
    | (synac, Err err) =>
      match downcast_io err with
      | Ok kind =>
        if decide (kind ≠ BrokenPipe) then (synac, calls)
        else match Db.select_server (to_string addr) db with
             | Some (hash, token) => (synac, calls ++ [Connect addr hash token])
             | None => (synac, calls)
             end
      | Err _ =>
        match Db.select_server (to_string addr) db with
        | Some (hash, token) => (synac, calls ++ [Connect addr hash token])
        | None => (synac, calls)
        end
      end
    end
  end.

(** [input.set_text(..)] in a closure: the text of the message entry
    changes, so the toolkit emits [notify::text] before [set_text]
    returns, and the closure connected to that signal runs, at the time
    [now], inside the closure that made the call. *)
Definition input_set_text (now : N) (text : string) app : Run App :=
  if decide (App.input app = text) then Returns app
  else input_text_notify now (App.with_input text app).

(** [input.connect_activate]: the entry is insensitive while the text is
    sent, is emptied whether or not the text was sent, and has the focus
    again at the end.  [now] is the time at which the entry is emptied. *)
Definition input_activate (now : N) app : Run App :=
  let text := App.input app in
  if decide (text = EmptyString) then Returns app else
  let app := App.with_input_sensitive false app in
  '(connections, calls) ←
    match Connections.current_server (App.connections app) with
    | Some addr =>
      Connections.execute addr (send_message (App.db app) addr text) (λ _ acc, acc) []
        (App.connections app)
    | None => Returns (App.connections app, [])
    end;
  app ← input_set_text now EmptyString
          (App.with_connections connections (App.with_calls (App.calls app ++ calls) app));
  Returns (App.with_focus (Some FocusInput) (App.with_input_sensitive true app)).

(** The entry as [input_activate] leaves it: empty, sensitive and with
    the focus. *)
Definition emptied app : App :=
  App.with_focus (Some FocusInput)
    (App.with_input_sensitive true (App.with_input EmptyString app)).

(** What a typing notification writes at the time [now]: nothing while
    it is held back, one [Typing] for the channel else. *)
Definition typing_packets (now : N) app (channel : N) : list Packet :=
  if decide (now - App.typing_last app < typing_duration)%N then []
  else [Packet.Typing channel].

(** The callback of the new channel: [get_mode(..).unwrap()] panics when
    a box has no mode; a failed write is shown in an alert. *)
Definition create_channel (form : EditChannel) (synac : Synac) (acc : list Call * bool)
    : Synac * (list Call * bool) :=
  if decide (channel form = EmptyString) then (synac, acc) else
  match mode_bots form, mode_users form with
  | Some bots, Some users =>
    match send_on (Packet.ChannelCreate bots users (channel form)) synac with
    | (synac, Ok _) => (synac, acc)
    | (synac, Err err) => (synac, (acc.1 ++ [Alert err], acc.2))
    end
  | _, _ => (synac, (acc.1, true))
  end.

(** [edit_channel_ok.connect_clicked]. *)
Definition edit_channel_ok_clicked app : Run App :=
  let app := App.with_stack StackMain app in
  '(connections, (alerts, panicked)) ←
    on_current (create_channel (App.edit_channel app)) (λ _ acc, acc) ([], false)
      (App.connections app);
  if panicked : bool then Panics
  else Returns (App.with_connections connections
                  (App.with_calls (App.calls app ++ alerts) app)).

(** *** The idle source *)

(** What one poll has seen for the selected server: channels changed,
    messages changed, and its address once a packet of it was read. *)
Definition Seen : Type := bool * bool * option SocketAddr.

(** The callback of the poll.  It takes no notice of the channel
    [try_read] names. *)
Definition note (current_server : option SocketAddr) (synac : Synac) (packet : Packet)
    (channel : option N) (seen : Seen) : Synac * Seen :=
  if decide (current_server ≠ Some (Synac.addr synac)) then (synac, seen) else
  let '(channels, messages, _) := seen in
  let addr := Some (Synac.addr synac) in
  (synac,
   match packet with
   | Packet.ChannelReceive _ => (true, messages, addr)
   | Packet.ChannelDeleteReceive _ => (true, messages, addr)
   | Packet.MessageReceive _ _ => (channels, true, addr)
   | Packet.MessageDeleteReceive _ => (channels, true, addr)
   | _ => (channels, messages, addr)
   end).

(** The callback that reads the tracker: the text for the label, when
    there is one. *)
Definition read_typing (now : N) (synac : Synac) (text : option string)
    : Synac * option string :=
  (synac,
   match Typing.check now (Synac.current_channel synac) (Synac.state synac)
           (Synac.typing synac) with
   | Some typing => Some typing
   | None => text
   end).

(** What is drawn again after a poll. *)
Definition render (seen : Seen) app : App :=
  let '(channels, messages, addr) := seen in
  match addr with
  | Some addr =>
    if channels : bool then App.call (RenderChannels (Some addr)) app
    else if messages : bool then App.call (RenderMessages (Some addr)) app
    else app
  | None => app
  end.

(** The closure of [gtk::idle_add], at the time [now]. *)
Definition idle (now : N) app : Run App :=
  let current_server := Connections.current_server (App.connections app) in
  '(connections, seen, result) ←
    Connections.try_read now (note current_server) (false, false, None) (App.connections app);
  let app := App.with_connections connections app in
  match result with
  | Err _ => Returns app
  | Ok _ =>
    '(connections, text) ←
      match current_server with
      | Some addr => Connections.execute addr (read_typing now) (λ _ acc, acc) None connections
      | None => Returns (connections, None)
      end;
    let app := App.with_connections connections app in
    let app := match text with Some typing => App.with_typing typing app | None => app end in
    Returns (render seen app)
  end.

(** *** The main loop *)

(** What the toolkit hands to the closures: a signal of a widget, or an
    edit of the user in one of the entries the closures read or a move
    of the scroll bar of the messages.  The signal that follows an edit
    of the user in the message entry is an event of its own,
    [InputTextNotify], with the time at which it is handled; the one
    that follows [set_text] in [input_activate] is part of that
    handler. *)
Inductive Event :=
  | UserStackEditActivate
  | UserStackEditFocusOut
  | UserStackTextButtonPress (button : N)
  | AddServerClicked
  | AddChannelClicked
  | EditServerCancelClicked
  | EditServerOkClicked
  | EditChannelCancelClicked
  | EditChannelOkClicked
  | MessagesScrollEdgeReached (pos : PositionType)
  | MessageEditInputActivate
  | MessageEditCancelClicked
  | InputTextNotify (now : N)
  | InputActivate (now : N)
  | Idle (now : N)
  | EditUserStackEdit (text : string)
  | EditInput (text : string)
  | EditMessageEditInput (text : string)
  | EditEditServer (form : EditServer)
  | EditEditChannel (form : EditChannel)
  | MessagesScrollChanged
  | EditMessagesScroll (vadjustment : Adjustment).

(** The closure connected to each signal. *)
Definition handle (event : Event) app : Run App :=
  match event with
  | UserStackEditActivate => user_stack_edit_activate app
  | UserStackEditFocusOut => Returns (user_stack_edit_focus_out app)
  | UserStackTextButtonPress button => Returns (user_stack_text_button_press button app)
  | AddServerClicked => Returns (add_server_clicked app)
  | AddChannelClicked => Returns (add_channel_clicked app)
  | EditServerCancelClicked => Returns (edit_server_cancel_clicked app)
  | EditServerOkClicked => edit_server_ok_clicked app
  | EditChannelCancelClicked => Returns (edit_channel_cancel_clicked app)
  | EditChannelOkClicked => edit_channel_ok_clicked app
  | MessagesScrollEdgeReached pos => messages_scroll_edge_reached pos app
  | MessageEditInputActivate => message_edit_input_activate app
  | MessageEditCancelClicked => Returns (message_edit_cancel_clicked app)
  | InputTextNotify now => input_text_notify now app
  | InputActivate now => input_activate now app
  | Idle now => idle now app
  | EditUserStackEdit text => Returns (App.with_user_stack_edit text app)
  | EditInput text => Returns (App.with_input text app)
  | EditMessageEditInput text => Returns (App.with_message_edit_input text app)
  | EditEditServer form => Returns (App.with_edit_server form app)
  | EditEditChannel form => Returns (App.with_edit_channel form app)
  | MessagesScrollChanged =>
    Returns (App.with_messages_scroll (messages_scroll_changed (App.messages_scroll app)) app)
  | EditMessagesScroll vadjustment => Returns (App.with_messages_scroll vadjustment app)
  end.

(** The events of a run, handled one after the other. *)
Fixpoint run (events : list Event) app : Run App :=
  match events with
  | [] => Returns app
  | event :: events => app ← handle event app; run events app
  end.

(** *** The style and the main loop *)

(** What the loader of the style finds: whether there is a default
    screen; the file [style.css] of the user, with its path as text when
    the path is Unicode; the setting of the dark theme, when the window has
    settings; and the answer of the toolkit to a load. *)
Record Style := {
  default_screen : bool;
  find_config_file : option (option string);
  prefer_dark_theme : option bool;
  load_from : Css → Result () StyleError;
}.

(** What the screen is given: nothing when there is no default screen,
    and else a provider, which is empty when the load failed. *)
Inductive Styled := NoDefaultScreen | Provider (css : option Css).

(** [// Load CSS]: the file of the user when there is one, and else the
    sheet of the theme; a failure is shown in an alert, and the provider is
    added to the screen in either case. *)
Definition load_css (style : Style) app : Styled * App :=
  if default_screen style then
    let result :=
      match find_config_file style with
      | Some file =>
        match file with
        | Some s => match load_from style (FromPath s) with
                    | Ok _ => Ok (FromPath s) | Err err => Err err end
        | None => Err UnicodePathError
        end
      | None =>
        let dark := match prefer_dark_theme style with Some dark => dark | None => false end in
        let sheet := FromData (if dark then DarkCss else LightCss) in
        match load_from style sheet with Ok _ => Ok sheet | Err err => Err err end
      end in
    match result with
    | Ok css => (Provider (Some css), app)
    | Err err => (Provider None, App.call (AlertError err) app)
    end
  else (NoDefaultScreen, app).

(** What the main loop takes from its queue: a signal for one of the
    closures, or the delete event of the window. *)
Inductive Signal := Emit (event : Event) | DeleteEvent.

(** [gtk::main()]: the closures run one after the other until the closure
    of the delete event calls [main_quit]; what is still queued then is
    dropped.  A loop whose queue is empty waits. *)
Fixpoint gtk_main (signals : list Signal) app : Run App :=
  match signals with
  | [] => Blocks
  | DeleteEvent :: _ => Returns app
  | Emit event :: signals => app ← handle event app; gtk_main signals app
  end.

(** [main]: the start, the style, and the loop.  The program ends before
    there is a window with the reason why, or when the window is closed
    with the style the screen was given and the window as it was then. *)
Definition main (now : N) (boot : Boot) (style : Style) (signals : list Signal)
    : Run (Result (Styled * App) Stop) :=
  started ← main_start now boot;
  match started with
  | Err stop => Returns (Err stop)
  | Ok app =>
    let '(styled, app) := load_css style app in
    app ← gtk_main signals app;
    Returns (Ok (styled, app))
  end.

End handlers.

(** ** The callbacks keep the handles in order *)

Section callbacks.
Context {common : Common} {order : HashOrder}.
Implicit Types (synac : Synac) (addr : SocketAddr) (packet : Packet).

(** What a callback of main.rs does to the handle it is given: nothing,
    or one write on its session. *)
Definition written (synac synac' : Synac) : Prop :=
  synac' = synac ∨
  ∃ packet session, Session.send packet (Synac.session synac) = Ok session ∧
    synac' = Synac.with_session session synac.

Definition writes_only {A} (callback : Synac → A → Synac * A) : Prop :=
  ∀ synac acc, written synac (callback synac acc).1.

Lemma written_refl synac : written synac synac.
Proof. by left. Qed.

Lemma send_on_written packet synac : written synac (send_on packet synac).1.
Proof. unfold send_on. destruct (Session.send _ _) eqn:Hs; [right; eauto|by left]. Qed.

Lemma written_ok addr synac synac' : written synac synac' → handle_ok addr synac → handle_ok addr synac'.
Proof. by intros [->|(? & ? & _ & ->)]. Qed.

Lemma writes_only_keeps {A} (callback : Synac → A → Synac * A) :
  writes_only callback → keeps callback.
Proof. intros Hw addr synac acc. apply written_ok, Hw. Qed.

(** What a write that works leaves behind. *)
Lemma send_on_Ok packet synac :
  Session.write_error (Synac.session synac) = None →
  ∃ session, send_on packet synac = (Synac.with_session session synac, Ok ()) ∧
    Session.send packet (Synac.session synac) = Ok session ∧
    Session.sent session = Session.sent (Synac.session synac) ++ [packet].
Proof.
  intros Hw. unfold send_on, Session.send. rewrite Hw. by eexists.
Qed.

Lemma send_on_Err packet synac err :
  Session.write_error (Synac.session synac) = Some err →
  send_on packet synac = (synac, Err err).
Proof. intros Hw. by rewrite /send_on /Session.send Hw. Qed.

Lemma announce_nick_writes text : writes_only (announce_nick text).
Proof.
  intros synac acc. unfold announce_nick.
  pose proof (send_on_written (Packet.LoginUpdate (Some text) None None false) synac).
  by destruct (send_on _ _) as [? [|]].
Qed.

Lemma send_in_channel_writes (make : N → Synac → Packet) : writes_only (send_in_channel make).
Proof.
  intros synac acc. unfold send_in_channel.
  destruct (Synac.current_channel synac); [apply send_on_written|apply written_refl].
Qed.

Lemma send_edit_writes id text : writes_only (send_edit id text).
Proof. intros synac acc. destruct id; [apply send_on_written|apply written_refl]. Qed.

Lemma send_message_writes db a text : writes_only (send_message db a text).
Proof.
  intros synac acc. unfold send_message.
  destruct (Synac.current_channel synac) as [channel|]; [|apply written_refl].
  pose proof (send_on_written (Packet.MessageCreate channel text) synac).
  destruct (send_on _ _) as [? [|err]]; [done|]. by repeat case_match.
Qed.

Lemma create_channel_writes form : writes_only (create_channel form).
Proof.
  intros synac acc. unfold create_channel. case_decide; [apply written_refl|].
  destruct (mode_bots form) as [bots|], (mode_users form) as [users|]; try apply written_refl.
  pose proof (send_on_written (Packet.ChannelCreate bots users (channel form)) synac).
  by destruct (send_on _ _) as [? [|]].
Qed.

Lemma read_typing_writes now : writes_only (read_typing now).
Proof. intros synac acc. apply written_refl. Qed.

Lemma announce_nick_keeps text : keeps (announce_nick text).
Proof. apply writes_only_keeps, announce_nick_writes. Qed.

Lemma send_in_channel_keeps (make : N → Synac → Packet) : keeps (send_in_channel make).
Proof. apply writes_only_keeps, send_in_channel_writes. Qed.

Lemma send_edit_keeps id text : keeps (send_edit id text).
Proof. apply writes_only_keeps, send_edit_writes. Qed.

Lemma send_message_keeps db a text : keeps (send_message db a text).
Proof. apply writes_only_keeps, send_message_writes. Qed.

Lemma create_channel_keeps form : keeps (create_channel form).
Proof. apply writes_only_keeps, create_channel_writes. Qed.

Lemma read_typing_keeps now : keeps (read_typing now).
Proof. apply writes_only_keeps, read_typing_writes. Qed.

Lemma note_keeps current packet channel : keeps (λ synac seen, note current synac packet channel seen).
Proof.
  intros addr synac [[channels messages] a] Hok. unfold note. case_decide; [done|].
  by destruct packet.
Qed.

End callbacks.

Create HintDb keeps.
#[export] Hint Resolve announce_nick_keeps send_in_channel_keeps send_edit_keeps
  send_message_keeps create_channel_keeps read_typing_keeps note_keeps : keeps.

Create HintDb writes.
#[export] Hint Resolve announce_nick_writes send_in_channel_writes send_edit_writes
  send_message_writes create_channel_writes read_typing_writes : writes.

(** ** The invariant of the window *)

(** What holds between two events: the registry is in order, its lock is
    free, and the label of the user shows the nickname of the registry. *)
Definition app_ok (app : App) : Prop :=
  registry_ok (App.connections app) ∧
  Connections.held (App.connections app) = false ∧
  App.user_name app = Connections.nick (App.connections app).

#[export] Instance app_ok_dec app : Decision (app_ok app).
Proof. unfold app_ok. apply _. Defined.

Section invariant.
Context {common : Common} {network : Network} {net : StdNet}.
Context {search : SliceSearch} {order : HashOrder}.
Implicit Types (app : App) (self : Connections) (addr : SocketAddr).

Lemma execute_ok {A} addr (on_ok : Synac → A → Synac * A) on_err acc self self' acc' :
  keeps on_ok → Connections.execute addr on_ok on_err acc self = Returns (self', acc') →
  registry_ok self → registry_ok self' ∧ same_frame self self'.
Proof.
  intros Hk He Hok. split; [|by eapply execute_frame].
  eapply step_ok; [|done]. by eapply step_execute.
Qed.

Lemma on_current_ok {A} (on_ok : Synac → A → Synac * A) on_err acc self self' acc' :
  keeps on_ok → on_current on_ok on_err acc self = Returns (self', acc') →
  registry_ok self → registry_ok self' ∧ same_frame self self'.
Proof.
  unfold on_current. destruct (Connections.current_server self); [apply execute_ok|].
  intros _ [= <- _] Hok. split; [done|apply same_frame_refl].
Qed.

Lemma foreach_ok {A} (callback : Synac → A → Synac * A) acc self self' acc' :
  keeps callback → Connections.foreach callback acc self = Returns (self', acc') →
  registry_ok self → registry_ok self' ∧ same_frame self self'.
Proof.
  intros Hk Hf Hok. split; [|by eapply foreach_frame].
  eapply step_ok; [|done]. by eapply step_foreach.
Qed.

Lemma try_read_ok {A} now (callback : Synac → Packet → option N → A → Synac * A)
    acc self self' acc' r :
  (∀ packet channel, keeps (λ synac acc, callback synac packet channel acc)) →
  Connections.try_read now callback acc self = Returns (self', acc', r) →
  registry_ok self → registry_ok self' ∧ same_frame self self'.
Proof.
  intros Hk Ht Hok. split; [|by eapply try_read_keeps].
  eapply step_ok; [|done]. by eapply step_try_read.
Qed.

(** The registry a handler leaves is as good as the one it found. *)
Lemma app_ok_frame app self' (app' : App) :
  app_ok app → registry_ok self' ∧ same_frame (App.connections app) self' →
  App.connections app' = self' → App.user_name app' = App.user_name app → app_ok app'.
Proof.
  intros (_ & Hheld & Hname) (Hok & _ & _ & Hnick & Hh) Hc Hn.
  unfold app_ok. rewrite Hc. split; [done|]. split; congruence.
Qed.

Lemma user_stack_edit_activate_ok app app' :
  user_stack_edit_activate app = Returns app' → app_ok app → app_ok app'.
Proof.
  unfold user_stack_edit_activate. case_decide; [by intros [= <-]|].
  intros ([self' alerts] & Hf & [= <-])%run_bind_Returns (Hok & Hheld & Hname).
  destruct (foreach_ok _ _ _ _ _ (announce_nick_keeps _) Hf Hok) as (Hok' & _ & _ & _ & Hh).
  split; [done|]. split; [simpl in *; congruence|done].
Qed.

Lemma messages_scroll_edge_reached_ok pos app app' :
  messages_scroll_edge_reached pos app = Returns app' → app_ok app → app_ok app'.
Proof.
  unfold messages_scroll_edge_reached. case_decide; [by intros [= <-]|].
  intros ([self' []] & Hf & [= <-])%run_bind_Returns Hok.
  eapply app_ok_frame; [done| |done..].
  eapply on_current_ok; [|done|apply Hok]. auto with keeps.
Qed.

Lemma message_edit_input_activate_ok app app' :
  message_edit_input_activate app = Returns app' → app_ok app → app_ok app'.
Proof.
  unfold message_edit_input_activate. case_decide; [by intros [= <-]|].
  intros ([self' [|]] & Hf & [= <-])%run_bind_Returns Hok.
  eapply app_ok_frame; [done| |done..].
  eapply on_current_ok; [|done|apply Hok]. auto with keeps.
Qed.

Lemma input_text_notify_ok now app app' :
  input_text_notify now app = Returns app' → app_ok app → app_ok app'.
Proof.
  unfold input_text_notify. case_decide; [by intros [= <-]|].
  intros ([self' []] & Hf & [= <-])%run_bind_Returns Hok.
  eapply app_ok_frame; [done| |done..].
  eapply on_current_ok; [|done|apply Hok]. auto with keeps.
Qed.

Lemma input_set_text_ok now text app app' :
  input_set_text now text app = Returns app' → app_ok app → app_ok app'.
Proof.
  unfold input_set_text. case_decide; [by intros [= <-]|].
  intros Hn Hok. by apply (input_text_notify_ok _ _ _ Hn).
Qed.

Lemma input_activate_ok now app app' :
  input_activate now app = Returns app' → app_ok app → app_ok app'.
Proof.
  unfold input_activate. case_decide; [by intros [= <-]|].
  intros ([self' calls] & Hf & (app1 & Hn & [= <-])%run_bind_Returns)%run_bind_Returns Hok.
  change (app_ok app1). apply (input_set_text_ok _ _ _ _ Hn).
  eapply app_ok_frame; [done| |done..].
  destruct (Connections.current_server _) as [addr|].
  - eapply execute_ok; [|done|apply Hok]. auto with keeps.
  - simplify_eq. split; [apply Hok|apply same_frame_refl].
Qed.

Lemma edit_channel_ok_clicked_ok app app' :
  edit_channel_ok_clicked app = Returns app' → app_ok app → app_ok app'.
Proof.
  unfold edit_channel_ok_clicked.
  intros ([self' [alerts [|]]] & Hf & [= <-])%run_bind_Returns Hok.
  eapply app_ok_frame; [done| |done..].
  eapply on_current_ok; [|done|apply Hok]. auto with keeps.
Qed.

Lemma edit_server_ok_clicked_ok app app' :
  edit_server_ok_clicked app = Returns app' → app_ok app → app_ok app'.
Proof.
  unfold edit_server_ok_clicked. destruct (parse_addr _); [|by intros [= <-]].
  by intros (db & _ & [= <-])%run_bind_Returns.
Qed.

Lemma idle_ok now app app' : idle now app = Returns app' → app_ok app → app_ok app'.
Proof.
  unfold idle. intros ([[self1 seen] r] & Ht & Hrest)%run_bind_Returns Hok.
  pose proof (try_read_ok _ _ _ _ _ _ _ (note_keeps _) Ht (proj1 Hok)) as H1.
  pose proof (app_ok_frame app self1 (App.with_connections self1 app) Hok H1 eq_refl eq_refl)
    as Hok1.
  destruct r as [[]|err]; [|by simplify_eq].
  apply run_bind_Returns in Hrest as ([self2 text] & He & [= <-]).
  assert (registry_ok self2 ∧ same_frame self1 self2) as H2.
  { destruct (Connections.current_server _).
    - eapply execute_ok; [|done|apply H1]. auto with keeps.
    - simplify_eq. split; [apply H1|apply same_frame_refl]. }
  eapply (app_ok_frame _ self2); [apply Hok1|done|..];
    destruct seen as [[[|] [|]] [a|]], text; done.
Qed.

Lemma handle_ok_inv event app app' : handle event app = Returns app' → app_ok app → app_ok app'.
Proof.
  destruct event; simpl;
    eauto using user_stack_edit_activate_ok, messages_scroll_edge_reached_ok,
      message_edit_input_activate_ok, input_text_notify_ok, input_activate_ok,
      edit_channel_ok_clicked_ok, edit_server_ok_clicked_ok, idle_ok;
    try by intros [= <-].
  unfold user_stack_text_button_press. case_decide; by intros [= <-].
Qed.

(** One step of the program: a closure of main.rs handles an event, or
    functions.rs, on a click on a server or after a dial, works on the
    registry through its operations.  Of functions.rs it is only assumed
    that its callbacks keep the handles in order and that it leaves the
    label of the user alone. *)
Inductive app_step : App → App → Prop :=
| step_event event app app' : handle event app = Returns app' → app_step app app'
| step_functions app app' :
    step (App.connections app) (App.connections app') →
    App.user_name app' = App.user_name app → app_step app app'.

Lemma app_step_ok app app' : app_step app app' → app_ok app → app_ok app'.
Proof.
  intros [event app0 app1 Hh|app0 app1 Hs Hn]; [by apply (handle_ok_inv event)|].
  intros (Hok & Hheld & Hname). destruct (step_frame _ _ Hs) as [Hnick Hh].
  split; [by eapply step_ok|]. split; congruence.
Qed.

Lemma start_ok now db env_user : app_ok (start now db env_user).
Proof. split; [apply new_ok|done]. Qed.

(** A window that [main] opens is in order, and is the one [start]
    builds over the database [main] opened. *)
Lemma main_start_ok now boot app :
  main_start now boot = Returns (Ok app) →
  app_ok app ∧ ∃ path db, open boot path = Ok db ∧ app = start now db (env_user boot).
Proof.
  unfold main_start. destruct (with_prefix boot); [|done].
  destruct (match find_data_file boot with Some _ => _ | None => _ end) as [path|]; [|done].
  destruct (open boot path) as [db|] eqn:Hdb; [|done].
  destruct (tables_created boot); [|done]. destruct (gtk_init boot); [|done].
  intros [= <-]. split; [apply start_ok|by exists path, db].
Qed.

Lemma run_ok events app app' : run events app = Returns app' → app_ok app → app_ok app'.
Proof.
  revert app. induction events as [|event events IH]; intros app; [by intros [= <-]|].
  intros (app1 & Hh & Hr)%run_bind_Returns Hok. eapply IH; [done|]. by eapply handle_ok_inv.
Qed.

End invariant.

(** ** Talking to the selected server *)

(** The registry after [execute] stored what the callback made of the
    handle under [addr]. *)
Definition with_handle (addr : SocketAddr) (synac : Synac) (self : Connections) : Connections :=
  Connections.with_servers (<[addr := Connected (Ok synac)]> (Connections.servers self)) self.

(** The lock is free, [addr] is selected, and its dial has ended, or
    ends, with the handle [synac]. *)
Definition selected (self : Connections) (addr : SocketAddr) (synac : Synac) : Prop :=
  Connections.held self = false ∧ Connections.current_server self = Some addr ∧
  ∃ c c', Connections.servers self !! addr = Some c ∧
    Connection.join c = Returns (c', Ok synac).

(** The selected server takes what is written: [addr] is [selected]
    with the handle [synac], the channel [channel] is selected on it and
    its stream takes writes. *)
Definition talking (self : Connections) (addr : SocketAddr) (synac : Synac) (channel : N)
    : Prop :=
  selected self addr synac ∧ Synac.current_channel synac = Some channel ∧
  Session.write_error (Synac.session synac) = None.

(** Nothing can be sent to the selected server: the lock is free, and
    its dial, if it has one, has ended or ends, without a handle or with
    a handle that has no channel selected. *)
Definition mute (self : Connections) : Prop :=
  Connections.held self = false ∧
  (∀ addr c, Connections.current_server self = Some addr →
     Connections.servers self !! addr = Some c → ends c) ∧
  (∀ addr synac, Connections.current_server self = Some addr →
     handles self !! addr = Some synac → Synac.current_channel synac = None).

Section send_facts.
Context {common : Common} {order : HashOrder} {A : Type}.
Implicit Types (app : App) (self : Connections) (addr : SocketAddr) (synac : Synac).
Implicit Types (on_ok : Synac → A → Synac * A) (on_err : Error → A → A).

Lemma selected_handles self addr synac : selected self addr synac → handles self !! addr = Some synac.
Proof. intros (_ & _ & c & c' & Hc & Hj). by eapply handles_lookup. Qed.

(** The handle [execute] stored is the one a later call finds. *)
Lemma selected_with_handle self addr synac synac' :
  selected self addr synac → selected (with_handle addr synac' self) addr synac'.
Proof.
  intros (Hh & Hs & _). split; [done|]. split; [done|].
  exists (Connected (Ok synac')), (Connected (Ok synac')). by rewrite /= lookup_insert_eq.
Qed.

Lemma on_current_selected on_ok on_err acc self addr synac :
  selected self addr synac →
  on_current on_ok on_err acc self =
  Returns (with_handle addr (on_ok synac acc).1 self, (on_ok synac acc).2).
Proof.
  intros (Hh & Hs & c & c' & Hc & Hj). rewrite /on_current Hs. by eapply execute_joined.
Qed.

(** Without a handle to call, [execute] changes no handle and leaves the
    accumulator to [on_err]. *)
Lemma execute_no_handle addr on_ok on_err acc self :
  Connections.held self = false →
  (∀ c, Connections.servers self !! addr = Some c → ends c) →
  handles self !! addr = None →
  ∃ self' acc', Connections.execute addr on_ok on_err acc self = Returns (self', acc') ∧
    handles self' = handles self ∧ (acc' = acc ∨ ∃ err, acc' = on_err err acc).
Proof.
  intros Hh Hends Hnone. destruct (Connections.servers self !! addr) as [c|] eqn:Hc.
  - pose proof (proj2 (join_returns c) (Hends _ eq_refl)) as [[c' r] Hj]%returns_Returns.
    destruct r as [synac|err]; [by rewrite (handles_lookup _ _ _ _ _ Hc Hj) in Hnone|].
    eexists _, _. split; [by eapply execute_failed|]. split; [by eapply handles_join|eauto].
  - eexists _, _. split; [by apply execute_absent|]. by split; [|left].
Qed.

(** A callback that gives the handle back as it was changes no handle. *)
Lemma execute_same_handle addr on_ok on_err acc self synac :
  Connections.held self = false →
  handles self !! addr = Some synac → (on_ok synac acc).1 = synac →
  ∃ self', Connections.execute addr on_ok on_err acc self = Returns (self', (on_ok synac acc).2) ∧
    handles self' = handles self.
Proof.
  intros Hh Hsome Hsame. rewrite /handles lookup_omap in Hsome.
  destruct (Connections.servers self !! addr) as [c|] eqn:Hc; [|done].
  simpl in Hsome. unfold handle_of in Hsome.
  destruct (Connection.join c) as [[c' [synac'|err]]| |] eqn:Hj; simplify_eq.
  eexists. split; [by eapply execute_joined|]. rewrite Hsame.
  destruct (join_Returns _ _ _ Hj) as [-> _]. by eapply handles_join.
Qed.

(** A selected server that takes nothing: its dial has ended, or ends,
    and [on_ok] leaves its handle, if it has one, and the accumulator as
    they were. *)
Lemma execute_mute addr on_ok on_err acc self :
  Connections.held self = false →
  (∀ c, Connections.servers self !! addr = Some c → ends c) →
  (∀ synac, handles self !! addr = Some synac → on_ok synac acc = (synac, acc)) →
  (∀ err, on_err err acc = acc) →
  ∃ self', Connections.execute addr on_ok on_err acc self = Returns (self', acc) ∧
    handles self' = handles self ∧ same_frame self self' ∧
    ∀ c, Connections.servers self' !! addr = Some c → ends c.
Proof.
  intros Hh Hends Hok Herr.
  assert (∃ self', Connections.execute addr on_ok on_err acc self = Returns (self', acc) ∧
    handles self' = handles self) as (self' & He & Hs).
  { destruct (handles self !! addr) as [synac|] eqn:Hsynac.
    - destruct (execute_same_handle addr on_ok on_err acc _ synac Hh Hsynac)
        as (self' & He & Hs); [by rewrite Hok|]. rewrite Hok // in He. by exists self'.
    - destruct (execute_no_handle addr on_ok on_err acc _ Hh Hends Hsynac)
        as (self' & acc' & He & Hs & Hacc).
      exists self'. by assert (acc' = acc) as <- by (destruct Hacc as [|[err ->]]; auto). }
  exists self'. split; [done|]. split; [done|].
  split; [by eapply execute_frame|]. intros c. by eapply execute_ends.
Qed.

(** The pattern of the handlers on a registry that is [mute], for a
    callback that does nothing without a channel. *)
Lemma execute_current_mute (on_ok : SocketAddr → Synac → A → Synac * A) on_err acc self :
  mute self →
  (∀ addr synac, Synac.current_channel synac = None → on_ok addr synac acc = (synac, acc)) →
  (∀ err, on_err err acc = acc) →
  ∃ self',
    match Connections.current_server self with
    | Some addr => Connections.execute addr (on_ok addr) on_err acc self
    | None => Returns (self, acc)
    end = Returns (self', acc) ∧
    handles self' = handles self ∧ mute self'.
Proof.
  intros Hmute Hok Herr. pose proof Hmute as (Hh & Hends & Hnone).
  destruct (Connections.current_server self) as [addr|] eqn:Hs; [|by exists self].
  destruct (execute_mute addr (on_ok addr) on_err acc self Hh (λ c, Hends addr c eq_refl))
    as (self' & He & Hs' & (_ & Hcur & _ & Hheld) & Hends'); [by eauto|done|].
  exists self'. split; [done|]. split; [done|]. rewrite /mute Hheld Hcur Hs Hs'.
  split; [done|]. split; [intros a c [= <-]; apply Hends'|exact Hnone].
Qed.

End send_facts.

Section send_theorems.
Context {common : Common} {network : Network} {net : StdNet}.
Context {search : SliceSearch} {order : HashOrder}.
Implicit Types (app : App) (self : Connections) (addr : SocketAddr) (synac : Synac).

(** While the typing notification is held back, [set_text] changes the
    text and nothing else. *)
Lemma input_set_text_held now text app :
  (now - App.typing_last app < typing_duration)%N →
  input_set_text now text app = Returns (App.with_input text app).
Proof.
  intros Hheld. unfold input_set_text, input_text_notify. case_decide as Ht.
  - rewrite -Ht. by destruct app.
  - by rewrite decide_True.
Qed.

(** [input_activate] while the typing notification is held back: the
    send, and the entry emptied. *)
Lemma input_activate_held now app :
  App.input app ≠ EmptyString →
  (now - App.typing_last app < typing_duration)%N →
  input_activate now app =
  '(connections, calls) ←
    match Connections.current_server (App.connections app) with
    | Some addr =>
      Connections.execute addr (send_message (App.db app) addr (App.input app))
        (λ _ acc, acc) [] (App.connections app)
    | None => Returns (App.connections app, [])
    end;
  Returns (emptied (App.with_connections connections
                      (App.with_calls (App.calls app ++ calls) app))).
Proof.
  intros Htext Hheld. unfold input_activate. rewrite decide_False //=.
  destruct (match Connections.current_server _ with Some _ => _ | None => _ end)
    as [[connections calls]| |]; [|done..].
  by rewrite /= input_set_text_held.
Qed.

(** A write to a server that is [talking] arrives, and leaves it
    [talking]. *)
Lemma talking_send packet self addr synac channel :
  talking self addr synac channel →
  ∃ session, send_on packet synac = (Synac.with_session session synac, Ok ()) ∧
    Session.sent session = Session.sent (Synac.session synac) ++ [packet] ∧
    talking (with_handle addr (Synac.with_session session synac) self) addr
      (Synac.with_session session synac) channel.
Proof.
  intros (Hsel & Hc & Hw). destruct (send_on_Ok packet synac Hw) as (session & Hs & Hsend & Hsent).
  exists session. split; [done|]. split; [done|]. split; [by eapply selected_with_handle|].
  split; [done|]. by apply send_Ok in Hsend as (_ & _ & _ & _ & _ & ?).
Qed.

Lemma input_text_notify_talking now app addr synac channel :
  talking (App.connections app) addr synac channel →
  ∃ app' synac', input_text_notify now app = Returns app' ∧
    talking (App.connections app') addr synac' channel ∧
    Session.sent (Synac.session synac') =
      Session.sent (Synac.session synac) ++ typing_packets now app channel ∧
    App.calls app' = App.calls app ∧ App.input app' = App.input app.
Proof.
  intros Ht. unfold input_text_notify, typing_packets. case_decide.
  { exists app, synac. by rewrite app_nil_r. }
  pose proof Ht as (Hsel & Hc & Hw).
  destruct (talking_send (Packet.Typing channel) _ _ _ _ Ht) as (session & Hs & Hsent & Ht').
  rewrite (on_current_selected _ _ _ _ _ _ Hsel) /send_in_channel Hc Hs /=.
  by eexists _, _.
Qed.

(** A message sent to a server that is [talking]: the text of the entry
    is written as one [MessageCreate], and the typing notification that
    the emptied entry sets off is written behind it unless it is held
    back. *)
Lemma input_activate_talking now app addr synac channel :
  App.input app ≠ EmptyString →
  talking (App.connections app) addr synac channel →
  ∃ app' synac', input_activate now app = Returns app' ∧
    talking (App.connections app') addr synac' channel ∧
    Session.sent (Synac.session synac') =
      Session.sent (Synac.session synac) ++
        Packet.MessageCreate channel (App.input app) :: typing_packets now app channel ∧
    App.calls app' = App.calls app ∧ App.input app' = EmptyString.
Proof.
  intros Htext Ht. pose proof Ht as ((Hh & Hs & c & c' & Hc & Hj) & Hchannel & Hw).
  destruct (talking_send (Packet.MessageCreate channel (App.input app)) _ _ _ _ Ht)
    as (session & Hsend & Hsent & Ht1).
  destruct (input_text_notify_talking now
    (App.with_input EmptyString
       (App.with_connections
          (with_handle addr (Synac.with_session session synac) (App.connections app))
          (App.with_input_sensitive false app))) addr _ channel Ht1)
    as (app2 & synac2 & Hn & Ht2 & Hsent2 & Hcalls & Hinput).
  exists (App.with_focus (Some FocusInput) (App.with_input_sensitive true app2)), synac2.
  unfold input_activate. rewrite decide_False //= Hs.
  rewrite (execute_joined _ _ _ _ _ _ _ _ Hh Hc Hj) /send_message Hchannel Hsend /=.
  rewrite app_nil_r /input_set_text decide_False //= Hn /= Hsent2 Hsent -assoc.
  by rewrite Hcalls Hinput.
Qed.

(** C10: a message sent when the last typing notification is
    [typing_duration] old or older is followed by a typing notification.
    The closure empties the entry with [set_text]; the text changes, the
    toolkit emits [notify::text], and the closure connected to it finds
    the throttle open: the server is told that the user is typing by the
    message that ends the typing.  The entry is sensitive and has the
    focus at the end. *)
Theorem input_activate_typing now app addr synac channel :
  App.input app ≠ EmptyString →
  selected (App.connections app) addr synac →
  Synac.current_channel synac = Some channel →
  Session.write_error (Synac.session synac) = None →
  ¬ (now - App.typing_last app < typing_duration)%N →
  ∃ session session',
    Session.send (Packet.MessageCreate channel (App.input app)) (Synac.session synac) =
      Ok session ∧
    Session.send (Packet.Typing channel) session = Ok session' ∧
    input_activate now app =
      Returns (emptied
                 (App.with_typing_last now
                    (App.with_connections
                       (with_handle addr (Synac.with_session session' synac)
                          (App.connections app)) app))).
Proof.
  intros Htext Hsel Hchannel Hw Hlate. pose proof Hsel as (Hh & Hs & c & c' & Hc & Hj).
  destruct (send_on_Ok (Packet.MessageCreate channel (App.input app)) synac Hw)
    as (session & Hsend & Hs1 & _).
  pose proof Hs1 as (_ & _ & _ & _ & _ & Hw1)%send_Ok.
  destruct (send_on_Ok (Packet.Typing channel) (Synac.with_session session synac) Hw1)
    as (session' & Hsend' & Hs2 & _).
  exists session, session'. split; [done|]. split; [done|].
  unfold input_activate. rewrite decide_False //= Hs.
  rewrite (execute_joined _ _ _ _ _ _ _ _ Hh Hc Hj) /send_message Hchannel Hsend /=.
  rewrite /input_set_text decide_False //= /input_text_notify decide_False //=.
  rewrite (on_current_selected _ _ _ _ _ _ (selected_with_handle _ _ _ _ Hsel)) /=.
  rewrite /send_in_channel /= Hchannel Hsend' /= /with_handle /= insert_insert_eq app_nil_r.
  by destruct app.
Qed.

(** A typing notification to a server that takes nothing changes no
    handle. *)
Lemma input_text_notify_mute now app :
  mute (App.connections app) →
  ∃ app', input_text_notify now app = Returns app' ∧
    App.input app' = App.input app ∧ App.calls app' = App.calls app ∧
    handles (App.connections app') = handles (App.connections app).
Proof.
  intros Hmute. unfold input_text_notify. case_decide; [by exists app|].
  destruct (execute_current_mute (λ _, send_in_channel (λ channel _, Packet.Typing channel))
    (λ _ acc, acc) () (App.connections app)) as (self' & He & Hs & _);
    [done|intros addr synac Hc; by rewrite /send_in_channel Hc|done|].
  rewrite /on_current /= He. by eexists.
Qed.

Lemma with_calls_nil app : App.with_calls (App.calls app ++ []) app = app.
Proof. rewrite app_nil_r. by destruct app. Qed.

(** A message typed while a server and a channel are selected is
    written to the session of that server, as one [MessageCreate] for the
    selected channel with the text of the entry; the entry is emptied and
    nothing else changes. *)
Lemma input_activate_sent now app addr synac channel :
  App.input app ≠ EmptyString →
  (now - App.typing_last app < typing_duration)%N →
  selected (App.connections app) addr synac →
  Synac.current_channel synac = Some channel →
  Session.write_error (Synac.session synac) = None →
  ∃ session,
    Session.send (Packet.MessageCreate channel (App.input app)) (Synac.session synac) =
      Ok session ∧
    input_activate now app =
      Returns (emptied
                 (App.with_connections
                    (with_handle addr (Synac.with_session session synac) (App.connections app))
                    app)).
Proof.
  intros Htext Hheld Hsel Hchannel Hw.
  destruct (send_on_Ok (Packet.MessageCreate channel (App.input app)) synac Hw)
    as (session & Hsend & Hs & _).
  exists session. split; [done|]. rewrite input_activate_held //.
  pose proof Hsel as (Hh & -> & c & c' & Hc & Hj).
  rewrite (execute_joined _ _ _ _ _ _ _ _ Hh Hc Hj) /send_message Hchannel Hsend /=.
  by rewrite with_calls_nil.
Qed.

(** C33: when the write of the message fails, [connect] of functions.rs is
    called, with the stored pin and token of the selected server, exactly
    when the error is a broken pipe or no input/output error at all and
    the server has a row; the handle is left as it was, and the entry is
    emptied although the text went nowhere.  The send is one within
    [typing_duration] of the last typing notification, so that emptying
    the entry writes nothing. *)
Theorem input_activate_reconnect now app addr synac channel err :
  App.input app ≠ EmptyString →
  (now - App.typing_last app < typing_duration)%N →
  selected (App.connections app) addr synac →
  Synac.current_channel synac = Some channel →
  Session.write_error (Synac.session synac) = Some err →
  ∃ calls,
    input_activate now app =
      Returns (emptied
                 (App.with_connections (with_handle addr synac (App.connections app))
                    (App.with_calls (App.calls app ++ calls) app))) ∧
    (calls = [] ∨ ∃ hash token, calls = [Connect addr hash token]) ∧
    ∀ hash token,
      calls = [Connect addr hash token] ↔
      (∀ kind, err = Io kind → kind = BrokenPipe) ∧
      Db.select_server (to_string addr) (App.db app) = Some (hash, token).
Proof.
  intros Htext Hheld Hsel Hchannel Hw. pose proof Hsel as (Hh & Hs & c & c' & Hc & Hj).
  rewrite input_activate_held // Hs.
  rewrite (execute_joined _ _ _ _ _ _ _ _ Hh Hc Hj) /send_message Hchannel.
  rewrite (send_on_Err _ _ _ Hw) /=.
  destruct (Db.select_server _ _) as [[hash token]|];
    destruct err as [kind| |]; simpl; try case_decide; (eexists; split; [done|]);
    split; eauto; intros hash' token'; naive_solver.
Qed.

(** C34: a message typed while no server is selected, or while the dial of
    the selected server has failed, or while no channel is selected, is
    lost without a word, at whatever time it is sent: the entry is
    emptied, no call is made, and no handle of the registry has changed,
    by the send or by the typing notification behind it. *)
Theorem input_activate_dropped now app :
  App.input app ≠ EmptyString →
  Connections.held (App.connections app) = false →
  (∀ addr c, Connections.current_server (App.connections app) = Some addr →
     Connections.servers (App.connections app) !! addr = Some c → ends c) →
  (∀ addr synac, Connections.current_server (App.connections app) = Some addr →
     handles (App.connections app) !! addr = Some synac →
     Synac.current_channel synac = None) →
  ∃ app', input_activate now app = Returns app' ∧
    App.input app' = EmptyString ∧ App.calls app' = App.calls app ∧
    handles (App.connections app') = handles (App.connections app).
Proof.
  intros Htext Hh Hends Hnone. unfold input_activate. rewrite decide_False //=.
  destruct (execute_current_mute (λ addr, send_message (App.db app) addr (App.input app))
    (λ _ acc, acc) [] (App.connections app)) as (self1 & -> & Hs1 & Hmute);
    [done|intros addr synac Hc; by rewrite /send_message Hc|done|].
  destruct (input_text_notify_mute now
    (App.with_input EmptyString
       (App.with_connections self1
          (App.with_calls (App.calls app ++ []) (App.with_input_sensitive false app)))))
    as (app2 & Hn & Hi & Hc & Hs2); [done|].
  exists (App.with_focus (Some FocusInput) (App.with_input_sensitive true app2)).
  rewrite /= /input_set_text decide_False //= Hn /= Hi Hc Hs2 /= app_nil_r. by rewrite Hs1.
Qed.

End send_theorems.

(** ** The typing notification, the nickname and the edit *)

Section entry_theorems.
Context {common : Common} {network : Network} {net : StdNet}.
Context {search : SliceSearch} {order : HashOrder}.
Implicit Types (app : App) (self : Connections) (addr : SocketAddr) (synac : Synac).

(** A notification that passes the throttle writes one [Typing] for the
    selected channel and notes the time. *)
Lemma input_text_notify_sends now app addr synac channel :
  ¬ (now - App.typing_last app < typing_duration)%N →
  selected (App.connections app) addr synac →
  Synac.current_channel synac = Some channel →
  input_text_notify now app =
    Returns (App.with_connections
               (with_handle addr (send_on (Packet.Typing channel) synac).1 (App.connections app))
               (App.with_typing_last now app)).
Proof.
  intros Hlate Hsel Hc. unfold input_text_notify. rewrite decide_False //.
  by rewrite (on_current_selected _ _ _ _ _ _ Hsel) /send_in_channel Hc.
Qed.

(** C9: the throttle of the typing notification.  After a notification
    that passed at the time [now1], a change of the entry at any time
    before [now1 + typing_duration] writes nothing and changes nothing. *)
Theorem input_text_notify_throttle now1 now2 app app1 :
  ¬ (now1 - App.typing_last app < typing_duration)%N →
  input_text_notify now1 app = Returns app1 →
  (now1 ≤ now2 < now1 + typing_duration)%N →
  App.typing_last app1 = now1 ∧ input_text_notify now2 app1 = Returns app1.
Proof.
  intros Hlate H1 Hnow. revert H1. unfold input_text_notify at 1. rewrite decide_False //.
  intros ([self' []] & _ & [= <-])%run_bind_Returns. split; [done|].
  unfold input_text_notify. rewrite decide_True //=. lia.
Qed.

(** The handlers of the forms.  The button under the channels clears the
    form of the server as well, and resets the modes of the channel. *)
Lemma add_channel_clicked_spec app :
  add_channel_clicked app =
  App.with_stack StackEditChannel
    (App.with_edit_channel
       {| channel := EmptyString; mode_bots := Some 0%N;
          mode_users := Some (N.lor PERM_READ PERM_WRITE) |}
       (App.with_edit_server cleared_server app)).
Proof. done. Qed.

(** The clock of the throttle starts when the window is built: what is
    typed in the first [typing_duration] is not announced. *)
Lemma input_text_notify_start now0 now db env_user :
  (now0 ≤ now < now0 + typing_duration)%N →
  input_text_notify now (start now0 db env_user) = Returns (start now0 db env_user).
Proof. intros Hnow. unfold input_text_notify. rewrite decide_True //=. lia. Qed.

Lemma announce_nick_handle text synac alerts :
  (announce_nick text synac alerts).1 =
  (send_on (Packet.LoginUpdate (Some text) None None false) synac).1.
Proof. unfold announce_nick. by destruct (send_on _ _) as [? [|]]. Qed.

(** C35: a new nickname is announced to every server whose dial has
    succeeded, with one [LoginUpdate] on its session; then the registry
    and the label hold the new name.  The name is not written to the
    database.  An empty name, or the name as it was, changes nothing but
    the page of the stack. *)
Theorem user_stack_edit_activate_spec app app' :
  user_stack_edit_activate app = Returns app' →
  let text := App.user_stack_edit app in
  App.user_stack app' = UserStackText ∧ App.db app' = App.db app ∧
  if decide (text = EmptyString ∨ text = Connections.nick (App.connections app)) then
    app' = App.with_user_stack UserStackText app
  else
    Connections.nick (App.connections app') = text ∧ App.user_name app' = text ∧
    handles (App.connections app') =
      (λ synac, (send_on (Packet.LoginUpdate (Some text) None None false) synac).1)
        <$> handles (App.connections app).
Proof.
  unfold user_stack_edit_activate. case_decide; [by intros [= <-]|].
  intros ([self' alerts] & Hf & [= <-])%run_bind_Returns. do 2 (split; [done|]).
  do 2 (split; [done|]). by apply (foreach_handles _ _ _ _ _ _ (announce_nick_handle _) Hf).
Qed.

(** The edit of a message panics when no message is being edited;
    otherwise one [MessageUpdate] with the text of the entry is written
    to the selected server, the entry is sensitive again and is hidden. *)
Lemma message_edit_input_activate_spec app addr synac :
  App.message_edit_input app ≠ EmptyString →
  selected (App.connections app) addr synac →
  message_edit_input_activate app =
  match App.message_edit_id app with
  | None => Panics
  | Some id =>
    Returns (App.with_message_edit false
               (App.with_message_edit_input_sensitive true
                  (App.with_connections
                     (with_handle addr
                        (send_on (Packet.MessageUpdate id (App.message_edit_input app)) synac).1
                        (App.connections app)) app)))
  end.
Proof.
  intros Htext Hsel. unfold message_edit_input_activate. rewrite decide_False //=.
  rewrite (on_current_selected _ _ _ _ _ _ Hsel). by destruct (App.message_edit_id app).
Qed.

(** The top edge of the messages asks the selected server for the page
    before the oldest message the store holds for the channel; the other
    edges do nothing. *)
Lemma messages_scroll_edge_reached_spec pos app addr synac channel :
  selected (App.connections app) addr synac →
  Synac.current_channel synac = Some channel →
  messages_scroll_edge_reached pos app =
  if decide (pos = Top) then
    Returns (App.with_connections
               (with_handle addr
                  (send_on (Packet.MessageList None
                              (Message.id <$> head (Messages.get (Synac.messages synac) channel))
                              channel LIMIT_BULK) synac).1
                  (App.connections app)) app)
  else Returns app.
Proof.
  intros Hsel Hc. unfold messages_scroll_edge_reached.
  destruct (decide (pos = Top)) as [->|]; [|by rewrite decide_True].
  case_decide; [done|].
  by rewrite (on_current_selected _ _ _ _ _ _ Hsel) /send_in_channel Hc.
Qed.

(** The form of the channel: an empty name only closes the form, a box
    without a mode panics, and otherwise one [ChannelCreate] is written,
    with an alert when the write fails. *)
Lemma edit_channel_ok_clicked_spec app addr synac :
  selected (App.connections app) addr synac →
  let form := App.edit_channel app in
  edit_channel_ok_clicked app =
  if decide (channel form = EmptyString) then
    Returns (App.with_connections (with_handle addr synac (App.connections app))
               (App.with_calls (App.calls app ++ []) (App.with_stack StackMain app)))
  else match mode_bots form, mode_users form with
  | Some bots, Some users =>
    let sent := send_on (Packet.ChannelCreate bots users (channel form)) synac in
    Returns (App.with_connections (with_handle addr sent.1 (App.connections app))
               (App.with_calls
                  (App.calls app ++ match sent.2 with Ok _ => [] | Err err => [Alert err] end)
                  (App.with_stack StackMain app)))
  | _, _ => Panics
  end.
Proof.
  intros Hsel form. subst form. unfold edit_channel_ok_clicked. simpl.
  rewrite (on_current_selected _ _ _ _ _ _ Hsel) /create_channel.
  case_decide; [done|].
  destruct (mode_bots (App.edit_channel app)), (mode_users (App.edit_channel app)); try done.
  by destruct (send_on _ _) as [? [|]].
Qed.

End entry_theorems.

(** ** The idle source *)

(** What a packet of the selected server makes the idle source draw. *)
Definition drawn (addr : SocketAddr) (packet : Packet) : list Call :=
  match packet with
  | Packet.ChannelReceive _ | Packet.ChannelDeleteReceive _ => [RenderChannels (Some addr)]
  | Packet.MessageReceive _ _ | Packet.MessageDeleteReceive _ => [RenderMessages (Some addr)]
  | _ => []
  end.

Section idle_theorems.
Context {common : Common} {network : Network} {net : StdNet}.
Context {search : SliceSearch} {order : HashOrder}.
Implicit Types (app : App) (self : Connections) (addr : SocketAddr) (synac : Synac).

Lemma render_frame seen app :
  App.typing (render seen app) = App.typing app ∧
  App.connections (render seen app) = App.connections app.
Proof. by destruct seen as [[[|] [|]] [addr|]]. Qed.

Lemma note_only_at addr synac packet channel (seen : Seen) :
  Synac.addr synac ≠ addr → (note (Some addr) synac packet channel seen).2 = seen.
Proof. intros Hne. unfold note. rewrite decide_True //. congruence. Qed.

(** What [note] makes of the first packet of the selected server. *)
Lemma note_drawn addr synac packet channel app :
  Synac.addr synac = addr →
  App.calls (render (note (Some addr) synac packet channel (false, false, None)).2 app) =
  App.calls app ++ drawn addr packet.
Proof.
  intros <-. unfold note. rewrite decide_False; [naive_solver|].
  destruct packet; by rewrite /= ?app_nil_r.
Qed.

(** What one poll has seen of the selected server [addr], whose session
    delivers [packet]. *)
Lemma poll_note now addr synac packet session synac' seen :
  Synac.addr synac = addr →
  Listener.try_read (Synac.session synac) = Ok (Some packet, session) →
  Connections.poll now (note (Some addr)) synac (false, false, None) =
    Returns (Ok (synac', seen)) →
  ∀ app, App.calls (render seen app) = App.calls app ++ drawn addr packet.
Proof.
  intros Ha Hread. unfold Connections.poll. rewrite Hread.
  intros ([synac1 channel] & (Ha1 & _)%dispatch_frame & [= Hnote])%run_bind_Returns app.
  replace seen with (note (Some addr) synac1 packet channel (false, false, None)).2
    by by rewrite Hnote.
  apply note_drawn. by rewrite Ha1.
Qed.

(** What the second half of the idle source does to the label. *)
Lemma read_typing_label now addr self self' text :
  Connections.execute addr (read_typing now) (λ _ acc, acc) None self = Returns (self', text) →
  handles self' = handles self ∧
  text = (synac ← handles self !! addr;
          Typing.check now (Synac.current_channel synac) (Synac.state synac)
            (Synac.typing synac)).
Proof.
  intros He%execute_handles. destruct (handles self !! addr) as [synac|] eqn:Hs; simpl in *.
  - destruct He as [-> ->]. split; [by apply insert_id|].
    unfold read_typing. simpl. by destruct (Typing.check _ _ _ _).
  - destruct He as [-> [->|[_ ->]]]; done.
Qed.

(** C8: what the idle source draws.  When the session of the selected
    server delivers a packet, the idle source asks for the channels to be
    drawn again if the packet changed a channel, for the messages if it
    changed a message, and for nothing otherwise, unless the read of some
    session failed: then it draws nothing at all. *)
Theorem idle_renders now app app' addr synac packet session :
  app_ok app →
  Connections.current_server (App.connections app) = Some addr →
  handles (App.connections app) !! addr = Some synac →
  Listener.try_read (Synac.session synac) = Ok (Some packet, session) →
  idle now app = Returns app' →
  App.calls app' = App.calls app ++ drawn addr packet ∨
  (App.calls app' = App.calls app ∧
   ∃ a s err, handles (App.connections app) !! a = Some s ∧
     Listener.try_read (Synac.session s) = Err err).
Proof.
  intros (Hok & Hheld & _) Hs Hsynac Hread. unfold idle. rewrite Hs.
  intros ([[self1 seen] [[]|err]] & Ht & Hrest)%run_bind_Returns.
  - left. apply run_bind_Returns in Hrest as ([self2 text] & _ & [= <-]).
    destruct (try_read_gathers _ _ _ _ _ _ addr synac Hok Hheld
      (λ s p c acc, note_only_at addr s p c acc) Hsynac Ht) as [synac' Hpoll].
    destruct (handles_ok _ _ _ Hok Hsynac) as [Ha _].
    rewrite (poll_note _ _ _ _ _ _ _ Ha Hread Hpoll). by destruct text.
  - right. simplify_eq. split; [done|].
    destruct (try_read_failed _ _ _ _ _ _ _ Ht) as (a & s & ? & ?). by exists a, s, err.
Qed.

(** C36: the label of the typists is never emptied.  The idle source
    leaves the label as it was, or sets it to the summary the tracker of
    the selected server gives; when everybody has stopped typing the
    tracker gives none, and the last summary stays in the window. *)
Theorem idle_typing_stale now app app' :
  idle now app = Returns app' →
  (App.typing app' = App.typing app ∨
   ∃ addr synac, Connections.current_server (App.connections app) = Some addr ∧
     handles (App.connections app') !! addr = Some synac ∧
     Typing.check now (Synac.current_channel synac) (Synac.state synac) (Synac.typing synac) =
       Some (App.typing app')) ∧
  (App.typing app ≠ EmptyString → App.typing app' ≠ EmptyString).
Proof.
  unfold idle. intros ([[self1 seen] [[]|err]] & _ & Hrest)%run_bind_Returns;
    [|simplify_eq; by split; [left|]].
  apply run_bind_Returns in Hrest as ([self2 text] & He & [= <-]).
  destruct (render_frame seen (match text with
    | Some typing => App.with_typing typing (App.with_connections self2
                       (App.with_connections self1 app))
    | None => App.with_connections self2 (App.with_connections self1 app) end)) as [-> ->].
  destruct (Connections.current_server _) as [addr|]; [|simplify_eq; by split; [left|]].
  apply read_typing_label in He as [Hsame ->].
  destruct (handles self1 !! addr) as [synac|] eqn:Hsynac; [|by split; [left|]]. simpl.
  destruct (Typing.check _ _ _ _) as [text|] eqn:Hcheck; [|by split; [left|]].
  split; [|intros _; by eapply Typing.check_nonempty].
  right. exists addr, synac. by rewrite /= Hsame.
Qed.

(** The idle source comes back when the lock of the registry is free
    and every dial in it ends: no read of it waits and nothing in it
    panics, whatever the servers send. *)
Lemma idle_returns now app :
  Connections.held (App.connections app) = false →
  (∀ addr c, Connections.servers (App.connections app) !! addr = Some c → ends c) →
  returns (idle now app).
Proof.
  intros Hheld Hends. unfold idle.
  pose proof (try_read_returns now (note (Connections.current_server (App.connections app)))
    (false, false, None) _ Hends) as [[[self1 seen] r] Ht]%returns_Returns.
  rewrite Ht /=. destruct r as [[]|err]; [|done].
  destruct (try_read_keeps _ _ _ _ _ _ _ Ht) as (_ & _ & _ & Hh).
  destruct (Connections.current_server _) as [addr|]; [|done].
  pose proof (execute_returns addr (read_typing now) (λ _ acc, acc) None self1
    ltac:(congruence) (λ c, try_read_ends _ _ _ _ _ _ _ Hends Ht addr c))
    as [[self2 text] ->]%returns_Returns. done.
Qed.

(** C29: the idle source is not safe to run while the lock of the
    registry is held, as it is while a callback of [foreach] or [execute]
    shows an alert: the poll gives way, but the look at the tracker of
    the selected server waits for the lock, for ever. *)
Theorem idle_blocks now app addr :
  Connections.held (App.connections app) = true →
  Connections.current_server (App.connections app) = Some addr →
  idle now app = Blocks.
Proof.
  intros Hheld Hs. unfold idle. rewrite try_read_idle; [by left|].
  by rewrite /= Hs /Connections.execute Hheld.
Qed.

End idle_theorems.

(** ** The form of the server *)

Section edit_server_theorems.
Context {common : Common} {network : Network} {net : StdNet}.
Context {search : SliceSearch} {order : HashOrder}.
Implicit Types (app : App) (addr : SocketAddr).

(** The row the form stores for the address [addr]. *)
Definition stored_row (form : EditServer) (addr : SocketAddr) : Db.Row :=
  {| Db.ip := to_string addr; Db.name := name form; Db.hash := hash form; Db.token := None |}.

(** C24: round trip of a server through the database.  A server added
    through the form, under a version 4 address that is not stored yet,
    gets a row under the text of that address; the registry is not
    touched and the servers are drawn again.  At the next start [new]
    reads the row back to the same address and dials it, with the pin of
    the form and without a token. *)
Theorem edit_server_ok_restart app o1 o2 o3 o4 p nick :
  let addr := {| ip := V4 o1 o2 o3 o4; port := p |} in
  let row := stored_row (App.edit_server app) addr in
  let me := {| Connections.current_server := None; Connections.nick := nick;
               Connections.servers := ∅; Connections.held := false |} in
  parse_addr (server (App.edit_server app)) = Some addr →
  addr_ok addr →
  to_string addr ∉ Db.ip <$> Db.servers (App.db app) →
  ∃ app', edit_server_ok_clicked app = Returns app' ∧
    App.stack app' = StackMain ∧ App.connections app' = App.connections app ∧
    App.calls app' = App.calls app ++ [RenderServers] ∧
    Db.servers (App.db app') = Db.servers (App.db app) ++ [row] ∧
    Db.select_server (to_string addr) (App.db app') = Some (hash (App.edit_server app), None) ∧
    Connections.servers (Connections.new (App.db app') nick) !! addr =
      Some (dial_of me (App.db app') addr row).
Proof.
  intros addr row me Hparse Hok Hfree. unfold edit_server_ok_clicked. rewrite Hparse.
  destruct (Db.insert_server _ _ _ _) as [db'|] eqn:Hdb;
    [|by apply insert_server_None in Hdb].
  apply insert_server_Some in Hdb as [_ ->]. eexists. split; [done|]. split_and!; try done.
  - by apply select_server_app.
  - rewrite /Connections.new /= new_rows_lookup /rows_of filter_app.
    rewrite (filter_cons_True _ row); [by apply parse_addr_to_string|].
    by rewrite filter_nil last_snoc.
Qed.

(** Adding a server whose address is stored already panics: the
    insert is refused by the primary key and its result is unwrapped. *)
Lemma edit_server_ok_panics app addr :
  parse_addr (server (App.edit_server app)) = Some addr →
  to_string addr ∈ Db.ip <$> Db.servers (App.db app) →
  edit_server_ok_clicked app = Panics.
Proof.
  intros Hparse Htaken. unfold edit_server_ok_clicked. rewrite Hparse.
  by rewrite (proj2 (insert_server_None _ _ _ _) Htaken).
Qed.

(** An address that does not resolve leaves the form open and everything
    as it was. *)
Lemma edit_server_ok_unresolved app :
  parse_addr (server (App.edit_server app)) = None → edit_server_ok_clicked app = Returns app.
Proof. intros Hparse. by rewrite /edit_server_ok_clicked Hparse. Qed.

End edit_server_theorems.

(** ** No handler waits for ever *)

(** ** What the closures do to the registry *)

Section moves.
Context {common : Common} {network : Network} {net : StdNet}.
Context {search : SliceSearch} {order : HashOrder}.
Implicit Types (app : App) (self : Connections) (event : Event).

(** A closure works on the registry through its operations.  The one
    thing it does besides is the write of the nickname, and that follows
    the broadcast, which has joined every dial. *)
Inductive moves : Connections → Connections → Prop :=
| moves_step self self' : step self self' → moves self self'
| moves_nick text self :
    map_Forall (λ _ c, resolved c) (Connections.servers self) → moves self (set_nick text self).

(** What the operations keep, and the write of the nickname when no dial
    is pending, every sequence of moves keeps. *)
Lemma rtc_moves_ind (P : Connections → Prop) self self' :
  (∀ self self', step self self' → P self → P self') →
  (∀ text self, map_Forall (λ _ c, resolved c) (Connections.servers self) →
     P self → P (set_nick text self)) →
  rtc moves self self' → P self → P self'.
Proof.
  intros Hstep Hnick. induction 1 as [|self0 self1 self2 Hm _ IH]; [done|].
  intros HP. apply IH. destruct Hm as [? ? Hs|? ? Hr]; [by eapply Hstep|by apply Hnick].
Qed.

(** What the closures of main.rs do to the registry, one operation at a
    time: a callback that writes at most, through [execute] or [foreach];
    the poll of the idle source; the write of the nickname. *)
Inductive acts : Connections → Connections → Prop :=
| acts_execute {A} addr (on_ok : Synac → A → Synac * A) on_err acc self self' acc' :
    writes_only on_ok →
    Connections.execute addr on_ok on_err acc self = Returns (self', acc') → acts self self'
| acts_foreach {A} (callback : Synac → A → Synac * A) acc self self' acc' :
    writes_only callback →
    Connections.foreach callback acc self = Returns (self', acc') → acts self self'
| acts_try_read now current seen self self' seen' r :
    Connections.try_read now (note current) seen self = Returns (self', seen', r) →
    acts self self'
| acts_nick text self :
    map_Forall (λ _ c, resolved c) (Connections.servers self) → acts self (set_nick text self).

Lemma acts_moves self self' : acts self self' → moves self self'.
Proof.
  intros [A addr on_ok on_err acc ? ? acc' Hw He|A callback acc ? ? acc' Hw Hf
         |now current seen ? ? seen' r Ht|text ? Hr].
  - apply moves_step. eapply step_execute; [by apply writes_only_keeps|done].
  - apply moves_step. eapply step_foreach; [by apply writes_only_keeps|done].
  - apply moves_step. eapply step_try_read; [|done]. apply note_keeps.
  - by apply moves_nick.
Qed.

Lemma on_current_acts {A} (on_ok : Synac → A → Synac * A) on_err acc self self' acc' :
  writes_only on_ok → on_current on_ok on_err acc self = Returns (self', acc') →
  rtc acts self self'.
Proof.
  unfold on_current. destruct (Connections.current_server self).
  - intros Hw He. eapply rtc_once, acts_execute; done.
  - by intros _ [= <- _].
Qed.

Lemma input_text_notify_acts now app app' :
  input_text_notify now app = Returns app' →
  rtc acts (App.connections app) (App.connections app').
Proof.
  unfold input_text_notify. case_decide; [by intros [= <-]|].
  intros ([self' []] & Hf & [= <-])%run_bind_Returns.
  eapply on_current_acts; [|done]. auto with writes.
Qed.

Lemma input_activate_acts now app app' :
  input_activate now app = Returns app' →
  rtc acts (App.connections app) (App.connections app').
Proof.
  unfold input_activate. case_decide; [by intros [= <-]|].
  intros ([self' calls] & Hf & (app1 & Hn & [= <-])%run_bind_Returns)%run_bind_Returns.
  change (rtc acts (App.connections app) (App.connections app1)).
  assert (rtc acts (App.connections app) self') as Hfirst.
  { simpl in Hf. destruct (Connections.current_server _); [|by simplify_eq].
    eapply rtc_once, acts_execute; [|done]. auto with writes. }
  etrans; [done|]. revert Hn. unfold input_set_text.
  case_decide; [by intros [= <-]|by intros ?%input_text_notify_acts].
Qed.

Lemma idle_acts now app app' :
  idle now app = Returns app' → rtc acts (App.connections app) (App.connections app').
Proof.
  unfold idle. intros ([[self1 seen] r] & Ht & Hrest)%run_bind_Returns.
  assert (rtc acts (App.connections app) self1) as Hfirst.
  { eapply rtc_once, acts_try_read. done. }
  destruct r as [[]|err]; [|by simplify_eq].
  apply run_bind_Returns in Hrest as ([self2 text] & He & [= <-]).
  assert (rtc acts self1 self2) as Hsecond.
  { destruct (Connections.current_server _); [|by simplify_eq].
    eapply rtc_once, acts_execute; [|done]. auto with writes. }
  match goal with |- rtc acts _ ?self => replace self with self2; [by etrans|] end.
  by destruct seen as [[[|] [|]] [a|]], text.
Qed.

(** The registry after a handler is reached from the registry before it
    by what closures do. *)
Lemma handle_acts event app app' :
  handle event app = Returns app' → rtc acts (App.connections app) (App.connections app').
Proof.
  destruct event; simpl; try (by intros [= <-]);
    eauto using input_text_notify_acts, input_activate_acts, idle_acts;
    rewrite /user_stack_edit_activate /user_stack_text_button_press /edit_server_ok_clicked
      /edit_channel_ok_clicked /messages_scroll_edge_reached /message_edit_input_activate.
  - case_decide; [by intros [= <-]|].
    intros ([self' alerts] & Hf & [= <-])%run_bind_Returns. simpl.
    eapply rtc_l; [eapply acts_foreach; [|done]; auto with writes|].
    apply rtc_once, acts_nick. by eapply foreach_resolved.
  - case_decide; by intros [= <-].
  - destruct (parse_addr _); [|by intros [= <-]].
    by intros (db & _ & [= <-])%run_bind_Returns.
  - intros ([self' [alerts [|]]] & Hf & [= <-])%run_bind_Returns;
      (eapply on_current_acts; [|done]; auto with writes).
  - case_decide; [by intros [= <-]|].
    intros ([self' []] & Hf & [= <-])%run_bind_Returns.
    eapply on_current_acts; [|done]. auto with writes.
  - case_decide; [by intros [= <-]|].
    intros ([self' [|]] & Hf & [= <-])%run_bind_Returns;
      (eapply on_current_acts; [|done]; auto with writes).
Qed.

Lemma run_acts events app app' :
  run events app = Returns app' → rtc acts (App.connections app) (App.connections app').
Proof.
  revert app. induction events as [|event events IH]; intros app; simpl; [by intros [= <-]|].
  intros (app1 & Hh%handle_acts & Hr%IH)%run_bind_Returns. by etrans.
Qed.

(** The registry after a handler is reached from the registry before it
    by moves. *)
Lemma handle_moves event app app' :
  handle event app = Returns app' → rtc moves (App.connections app) (App.connections app').
Proof. intros Hh%handle_acts. eapply rtc_subrel; [|done]. apply acts_moves. Qed.

Lemma app_step_moves app app' :
  app_step app app' → rtc moves (App.connections app) (App.connections app').
Proof. intros [event app0 app1 Hh|app0 app1 Hs _]; [by eapply handle_moves|by apply rtc_once, moves_step]. Qed.

End moves.

Section progress.
Context {common : Common} {network : Network} {net : StdNet}.
Context {search : SliceSearch} {order : HashOrder}.
Implicit Types (app : App) (self : Connections) (event : Event).

Lemma on_current_returns {A} (on_ok : Synac → A → Synac * A) on_err acc self :
  Connections.held self = false → settled self → returns (on_current on_ok on_err acc self).
Proof.
  intros Hh Hs. unfold on_current. destruct (Connections.current_server self); [|done].
  apply execute_returns; [done|]. intros c. apply Hs.
Qed.

Lemma input_text_notify_not_blocks now app :
  Connections.held (App.connections app) = false → settled (App.connections app) →
  input_text_notify now app ≠ Blocks.
Proof.
  intros Hh Hs. unfold input_text_notify. case_decide; [done|].
  apply run_bind_not_Blocks; [by apply on_current_returns|by intros [self' []]].
Qed.

Lemma input_activate_not_blocks now app :
  Connections.held (App.connections app) = false → settled (App.connections app) →
  input_activate now app ≠ Blocks.
Proof.
  intros Hh Hs. unfold input_activate. case_decide; [done|].
  intros [Hb|([self' calls] & He & [Hb|(app1 & _ & [=])]%run_bind_Blocks)]%run_bind_Blocks;
    simpl in *.
  - destruct (Connections.current_server _) as [addr|]; [|done].
    pose proof (execute_returns addr (send_message (App.db app) addr (App.input app))
      (λ _ acc, acc) [] _ Hh (λ c, Hs addr c)) as Hr. by rewrite Hb in Hr.
  - revert Hb. unfold input_set_text. case_decide; [done|].
    apply input_text_notify_not_blocks; simpl;
      (destruct (Connections.current_server _); [|by simplify_eq]).
    + destruct (execute_frame _ _ _ _ _ _ _ He) as (_ & _ & _ & _ & Hh'). congruence.
    + by eapply execute_settled.
Qed.

(** A handler leaves no dial behind that does not end. *)
Lemma handle_settled event app app' :
  handle event app = Returns app' →
  settled (App.connections app) → settled (App.connections app').
Proof.
  intros Hh%handle_moves. apply (rtc_moves_ind settled); [apply step_settled|done..].
Qed.

(** The nickname is written when no dial is pending any more: the
    broadcast before the write has joined every thread.  A thread reads
    the nickname while it dials, so every dial logs in with the nickname
    the registry had when the thread was spawned. *)
Lemma user_stack_edit_activate_joined app app' :
  user_stack_edit_activate app = Returns app' →
  Connections.nick (App.connections app') ≠ Connections.nick (App.connections app) →
  map_Forall (λ _ c, resolved c) (Connections.servers (App.connections app')).
Proof.
  unfold user_stack_edit_activate. case_decide; [by intros [= <-]|].
  intros ([self' alerts] & Hf & [= <-])%run_bind_Returns _. simpl. by eapply foreach_resolved.
Qed.

(** A handler that finds the lock free and no dial that hangs does not
    wait: it returns, or it panics. *)
Lemma handle_not_blocks event app :
  Connections.held (App.connections app) = false → settled (App.connections app) →
  handle event app ≠ Blocks.
Proof.
  intros Hh Hs. destruct event; simpl; try done;
    auto using input_text_notify_not_blocks, input_activate_not_blocks;
    rewrite /user_stack_edit_activate /edit_server_ok_clicked
      /edit_channel_ok_clicked /messages_scroll_edge_reached /message_edit_input_activate;
    repeat case_decide; try done;
    try (apply run_bind_not_Blocks;
         [by first [apply foreach_returns|apply on_current_returns]
         |intros [self' acc]; by repeat case_match]).
  - destruct (parse_addr _); [|done]. by destruct (Db.insert_server _ _ _ _).
  - by pose proof (idle_returns now app Hh Hs) as [app' ->]%returns_Returns.
Qed.

(** C21: no handler waits for ever.  From a window in order whose dials
    all end, no run of events stops in a closure that waits for the lock
    of the registry or for a dial: every closure returns or panics, and
    the closures that return leave no dial behind that hangs.  The lock
    is free between two events and no closure asks for it while a
    callback of the registry runs.  The closures run one at a time here;
    an alert that runs the loop again inside a callback is the case of
    [idle_blocks]. *)
Theorem run_never_blocks events app :
  app_ok app → settled (App.connections app) →
  run events app ≠ Blocks ∧
  ∀ app', run events app = Returns app' → settled (App.connections app').
Proof.
  revert app. induction events as [|event events IH]; intros app Hok Hs.
  { split; [done|]. by intros app' [= <-]. }
  simpl. pose proof (handle_not_blocks event app (proj1 (proj2 Hok)) Hs) as Hb.
  destruct (handle event app) as [app1| |] eqn:Hh; [|done..].
  apply IH; [by eapply handle_ok_inv|by eapply handle_settled].
Qed.

End progress.

(** ** The entries stay sensitive *)

(** Both entries the closures make insensitive are sensitive. *)
Definition sensitive (app : App) : Prop :=
  App.input_sensitive app = true ∧ App.message_edit_input_sensitive app = true.

#[export] Instance sensitive_dec app : Decision (sensitive app).
Proof. unfold sensitive. apply _. Defined.

(** Inverts a handler that returned, down to the window it returned;
    what the registry did on the way is dropped. *)
Ltac handler_inv H :=
  repeat first
    [ apply run_bind_Returns in H as (? & _ & H)
    | match type of H with context [match ?x with _ => _ end] => destruct x end ];
  simplify_eq.

Section sensitive.
Context {common : Common} {network : Network} {net : StdNet}.
Context {search : SliceSearch} {order : HashOrder}.
Implicit Types (app : App) (event : Event).

Lemma input_text_notify_sensitive now app app' :
  input_text_notify now app = Returns app' →
  App.input_sensitive app' = App.input_sensitive app ∧
  App.message_edit_input_sensitive app' = App.message_edit_input_sensitive app.
Proof. unfold input_text_notify. intros Hh. by handler_inv Hh. Qed.

(** A message entry that was activated is sensitive when the closure
    returns, whatever it was before. *)
Lemma input_activate_sensitive now app app' :
  input_activate now app = Returns app' →
  (App.input app = EmptyString ∧ app' = app) ∨
  (App.input_sensitive app' = true ∧ App.focus app' = Some FocusInput ∧
   App.message_edit_input_sensitive app' = App.message_edit_input_sensitive app).
Proof.
  unfold input_activate. case_decide; [intros [= <-]; by left|intros Hh; right].
  apply run_bind_Returns in Hh as ([self' calls] & _ & (app1 & Hn & [= <-])%run_bind_Returns).
  do 2 (split; [done|]). simpl. revert Hn. unfold input_set_text.
  case_decide; [by intros [= <-]|]. by intros [_ ->]%input_text_notify_sensitive.
Qed.

(** The closures leave the entries sensitive: what a closure makes
    insensitive it makes sensitive again before it returns. *)
Lemma handle_sensitive event app app' :
  handle event app = Returns app' → sensitive app → sensitive app'.
Proof.
  intros Hh [Hi Hm]. unfold sensitive. destruct event; simpl in Hh;
    try (apply input_text_notify_sensitive in Hh as [-> ->]; done);
    try (apply input_activate_sensitive in Hh as [[_ ->]|(-> & _ & ->)]; done);
    rewrite /user_stack_edit_activate /user_stack_edit_focus_out /user_stack_text_button_press
      /add_server_clicked /add_channel_clicked /add_channel_clicked_first
      /add_channel_clicked_second /edit_server_cancel_clicked /edit_channel_cancel_clicked
      /edit_server_ok_clicked /edit_channel_ok_clicked /messages_scroll_edge_reached
      /message_edit_input_activate /message_edit_cancel_clicked /idle /render in Hh;
    by handler_inv Hh.
Qed.

Lemma run_sensitive events app app' :
  run events app = Returns app' → sensitive app → sensitive app'.
Proof.
  revert app. induction events as [|event events IH]; intros app; [by intros [= <-]|].
  intros (app1 & Hh & Hr)%run_bind_Returns Hs. eapply IH; [done|]. by eapply handle_sensitive.
Qed.

End sensitive.

(** ** The windows the program can reach *)

Section reachable.
Context {common : Common} {network : Network} {net : StdNet}.
Context {search : SliceSearch} {order : HashOrder}.
Implicit Types (app : App).

(** Two runs one after the other are one run. *)
Lemma run_app events1 events2 app :
  run (events1 ++ events2) app = app1 ← run events1 app; run events2 app1.
Proof.
  revert app. induction events1 as [|event events1 IH]; intros app; [done|].
  rewrite /= run_bind_assoc. destruct (handle event app) as [app1| |]; [apply IH|done..].
Qed.

(** The events of a user who types a text, at the first of the two
    times, and presses return, at the second, for each of [typed]: the
    edit, the signal of the change, and the activation. *)
Definition type_and_send (typed : list (string * N * N)) : list Event :=
  typed ≫= λ '(text, typed_at, sent_at),
    [EditInput text; InputTextNotify typed_at; InputActivate sent_at].

Lemma filter_typing_packets now app channel :
  filter (λ packet, packet ≠ Packet.Typing channel) (typing_packets now app channel) = [].
Proof. unfold typing_packets. case_decide; [done|]. by rewrite filter_cons_False; [intros []|]. Qed.

(** One text typed and sent to a server that is [talking]. *)
Lemma type_and_send_one text typed_at sent_at app addr synac channel :
  text ≠ EmptyString →
  talking (App.connections app) addr synac channel →
  ∃ app' synac' written,
    run [EditInput text; InputTextNotify typed_at; InputActivate sent_at] app = Returns app' ∧
    talking (App.connections app') addr synac' channel ∧
    Session.sent (Synac.session synac') = Session.sent (Synac.session synac) ++ written ∧
    filter (λ packet, packet ≠ Packet.Typing channel) written =
      [Packet.MessageCreate channel text] ∧
    App.calls app' = App.calls app ∧ App.input app' = EmptyString.
Proof.
  intros Htext Ht.
  destruct (input_text_notify_talking typed_at (App.with_input text app) addr synac channel Ht)
    as (app1 & synac1 & Hn & Ht1 & Hsent1 & Hcalls1 & Hinput1).
  destruct (input_activate_talking sent_at app1 addr synac1 channel) as
    (app2 & synac2 & Ha & Ht2 & Hsent2 & Hcalls2 & Hinput2); [by rewrite Hinput1|done|].
  exists app2, synac2. eexists. rewrite /= Hn /= Ha /=. split; [done|]. split; [done|].
  split; [by rewrite Hsent2 Hsent1 -assoc|]. rewrite Hinput1 Hcalls2 Hcalls1.
  rewrite filter_app filter_typing_packets filter_cons_True // filter_typing_packets //.
Qed.

(** C5: what the user types is what the server gets.  With a server and
    a channel selected and a stream that takes writes, a user who types
    one text after the other and sends each, at any times, has each text
    written to the session of the selected server as one [MessageCreate]
    for the selected channel, in the order typed, none twice and none
    lost; whatever else is written is a typing notification for that
    channel; no call into functions.rs is made and the entry is empty in
    the end. *)
Theorem typed_messages_sent typed app addr synac channel :
  selected (App.connections app) addr synac →
  Synac.current_channel synac = Some channel →
  Session.write_error (Synac.session synac) = None →
  Forall (λ t, t.1.1 ≠ EmptyString) typed →
  ∃ app' synac' written,
    run (type_and_send typed) app = Returns app' ∧
    selected (App.connections app') addr synac' ∧
    Session.sent (Synac.session synac') = Session.sent (Synac.session synac) ++ written ∧
    filter (λ packet, packet ≠ Packet.Typing channel) written =
      Packet.MessageCreate channel <$> typed.*1.*1 ∧
    App.calls app' = App.calls app ∧
    (typed ≠ [] → App.input app' = EmptyString).
Proof.
  intros Hsel Hc Hw. assert (talking (App.connections app) addr synac channel) as Ht by done.
  clear Hsel Hc Hw. revert app synac Ht.
  induction typed as [|[[text typed_at] sent_at] typed IH]; intros app synac Ht Htexts.
  { exists app, synac, []. by rewrite /= app_nil_r; destruct Ht. }
  apply Forall_cons in Htexts as [Htext Htexts].
  destruct (type_and_send_one text typed_at sent_at app addr synac channel Htext Ht)
    as (app1 & synac1 & written1 & Hrun1 & Ht1 & Hsent1 & Hf1 & Hcalls1 & Hinput1).
  destruct (IH app1 synac1 Ht1 Htexts)
    as (app' & synac' & written & Hrun & Hsel' & Hsent & Hf & Hcalls & Hinput).
  exists app', synac', (written1 ++ written).
  change (type_and_send ((text, typed_at, sent_at) :: typed)) with
    ([EditInput text; InputTextNotify typed_at; InputActivate sent_at] ++ type_and_send typed).
  rewrite run_app Hrun1 /=. split; [done|]. split; [done|].
  rewrite Hsent Hsent1 -assoc filter_app Hf1 Hf Hcalls Hcalls1. do 3 (split; [done|]).
  intros _. destruct typed; [by simplify_eq/=|by apply Hinput].
Qed.

(** A run of events is a sequence of steps. *)
Lemma run_steps events app app' : run events app = Returns app' → rtc app_step app app'.
Proof.
  revert app. induction events as [|event events IH]; intros app; [by intros [= <-]|].
  intros (app1 & Hh & Hr)%run_bind_Returns. eapply rtc_l; [by eapply step_event|by apply IH].
Qed.

(** C3: the invariant of the window.  Whatever events the closures of
    main.rs handle, and whatever functions.rs does to the registry in
    between, every handle of the registry sits under the address it was
    dialled for with a message store whose timelines are sorted, the lock
    of the registry is free between two events, and the label of the user
    shows the nickname the registry holds. *)
Theorem reachable_app_ok now db env_user app :
  rtc app_step (start now db env_user) app → app_ok app.
Proof.
  intros Hr. apply rtc_nsteps in Hr as [n Hr].
  revert app Hr. induction n as [|n IH]; intros app Hr.
  - inversion Hr; subst. apply start_ok.
  - apply nsteps_inv_r in Hr as (app0 & Hr & Hstep). by eapply app_step_ok, IH.
Qed.

End reachable.

(** ** The program from start to end *)

Section main_theorems.
Context {common : Common} {network : Network} {net : StdNet}.
Context {search : SliceSearch} {order : HashOrder}.
Implicit Types (app : App) (style : Style) (signals : list Signal) (events : list Event).

(** The loader of the style leaves the window in order. *)
Lemma load_css_ok style app : app_ok app → app_ok (load_css style app).2.
Proof.
  intros Hok. unfold load_css. by repeat case_match.
Qed.

(** One alert at most, and exactly when the provider stays empty. *)
Lemma load_css_calls style app :
  load_css style app = (NoDefaultScreen, app) ∨
  (∃ css, load_css style app = (Provider (Some css), app)) ∨
  (∃ err, load_css style app = (Provider None, App.call (AlertError err) app)).
Proof. unfold load_css. repeat case_match; simplify_eq; eauto. Qed.

(** A file of the user that does not load is not replaced by a sheet of
    the program: the provider stays empty. *)
Lemma load_css_no_fallback style app file sheet :
  find_config_file style = Some file →
  (load_css style app).1 ≠ Provider (Some (FromData sheet)).
Proof. intros Hf. rewrite /load_css Hf. repeat case_match; simplify_eq/=; congruence. Qed.

(** The loop hands the signals before the first delete event to the
    closures, in their order. *)
Lemma gtk_main_emit events signals app :
  gtk_main ((Emit <$> events) ++ signals) app = app1 ← run events app; gtk_main signals app1.
Proof.
  revert app. induction events as [|event events IH]; intros app; [done|].
  simpl. destruct (handle event app) as [app1| |]; [apply IH|done..].
Qed.

Lemma gtk_main_Returns signals app app' :
  gtk_main signals app = Returns app' →
  ∃ events rest, signals = (Emit <$> events) ++ DeleteEvent :: rest ∧
    run events app = Returns app'.
Proof.
  revert app. induction signals as [|[event|] signals IH]; intros app; simpl; [done|..].
  - intros (app1 & Hh & (events & rest & -> & Hr)%IH)%run_bind_Returns.
    exists (event :: events), rest. split; [done|]. by rewrite /= Hh.
  - intros [= <-]. by exists [], signals.
Qed.

(** The program ends when the window is closed, and only then.  The
    main loop returns exactly when the delete event of the window is in
    its queue and every closure run for a signal before it has returned;
    the window it leaves is the one those closures made, and no signal
    behind the delete event is handled. *)
Lemma gtk_main_quit signals app app' :
  gtk_main signals app = Returns app' ↔
  ∃ events rest, signals = (Emit <$> events) ++ DeleteEvent :: rest ∧
    run events app = Returns app'.
Proof.
  split; [apply gtk_main_Returns|].
  intros (events & rest & -> & Hr). by rewrite gtk_main_emit Hr.
Qed.

(** A program that ends with a window has opened its database, was
    closed by the user, and leaves the window in order. *)
Lemma main_Returns now boot style signals styled app :
  main now boot style signals = Returns (Ok (styled, app)) →
  app_ok app ∧ DeleteEvent ∈ signals ∧ ∃ path db, open boot path = Ok db.
Proof.
  unfold main. intros ([app0|stop] & Hstart & Hrest)%run_bind_Returns; [|done].
  apply main_start_ok in Hstart as (Hok & path & db & Hdb & _).
  pose proof (load_css_ok style app0 Hok) as Hok1.
  destruct (load_css style app0) as [styled0 app1].
  apply run_bind_Returns in Hrest as (app2 & (events & rest & -> & Hr)%gtk_main_Returns & [= _ <-]).
  split; [by eapply run_ok|]. split; [set_solver|by eauto].
Qed.

(** A program that finds no database to open ends before the loop. *)
Lemma main_stops now boot style signals stop :
  main_start now boot = Returns (Err stop) → main now boot style signals = Returns (Err stop).
Proof. intros Hs. by rewrite /main Hs. Qed.

End main_theorems.

(** ** A concrete window, to run the model on *)

Section examples.

#[local] Existing Instance ex_common.
#[local] Existing Instance ex_net.
#[local] Existing Instance ex_network.

(** The window at start, over the database and the network of the
    examples of the registry. *)
Definition ex_app : App := start 0 ex_db (Some "alice"%string).

(** A session of the third server with a channel selected, as
    functions.rs leaves it after a click on the channel; and the same
    session with a broken stream. *)
Definition ex_chat : Synac := Synac.with_current_channel (Some 1%N) ex_live.

Definition ex_broken : Synac :=
  Synac.with_session
    {| Session.addr := ex_a3; Session.hash := "pin"; Session.incoming := [];
       Session.sent := []; Session.write_error := Some (Io BrokenPipe);
       Session.nonblocking := true |} ex_chat.

(** A window with one server, selected, and a text in every entry. *)
Definition ex_window (synac : Synac) : App :=
  App.with_input "hi"
    (App.with_message_edit_input "fixed"
       (App.with_user_stack_edit "bob"
          (App.with_typing "carol is typing..."
             (App.with_connections
                {| Connections.current_server := Some ex_a3; Connections.nick := "alice";
                   Connections.servers := {[ ex_a3 := Connected (Ok synac) ]};
                   Connections.held := false |} ex_app)))).

Lemma ex_window_selected synac : selected (App.connections (ex_window synac)) ex_a3 synac.
Proof.
  split; [done|]. split; [done|]. exists (Connected (Ok synac)), (Connected (Ok synac)).
  split; [|done]. apply lookup_singleton_eq.
Qed.

Lemma ex_window_handles synac : handles (App.connections (ex_window synac)) !! ex_a3 = Some synac.
Proof. by rewrite /handles /= (omap_singleton_Some _ _ _ synac) // lookup_singleton_eq. Qed.

Lemma ex_window_ok : app_ok (ex_window ex_chat).
Proof.
  split; [|done]. apply map_Forall_singleton. split; [done|]. apply map_Forall_empty.
Qed.

(** A message sent one second after the start: the typing notification is
    held back. *)
Lemma ex_sent :
  ∃ session,
    Session.send (Packet.MessageCreate 1 "hi") (Synac.session ex_chat) = Ok session ∧
    input_activate 1000000000 (ex_window ex_chat) =
      Returns (emptied
                 (App.with_connections
                    (with_handle ex_a3 (Synac.with_session session ex_chat)
                       (App.connections (ex_window ex_chat)))
                    (ex_window ex_chat))).
Proof.
  apply (input_activate_sent 1000000000 (ex_window ex_chat) ex_a3 ex_chat 1);
    [done|by vm_compute|apply ex_window_selected|done..].
Qed.

(** The same message sent six seconds after the start: a typing
    notification follows it. *)
Lemma input_activate_typing_witness :
  ∃ session session',
    Session.send (Packet.MessageCreate 1 "hi") (Synac.session ex_chat) = Ok session ∧
    Session.send (Packet.Typing 1) session = Ok session' ∧
    input_activate 6000000000 (ex_window ex_chat) =
      Returns (emptied
                 (App.with_typing_last 6000000000
                    (App.with_connections
                       (with_handle ex_a3 (Synac.with_session session' ex_chat)
                          (App.connections (ex_window ex_chat)))
                       (ex_window ex_chat)))).
Proof.
  apply (input_activate_typing 6000000000 (ex_window ex_chat) ex_a3 ex_chat 1);
    [done|apply ex_window_selected|done|done|by vm_compute].
Defined.

Lemma ex_sent_typing :
  (λ app', Session.sent ∘ Synac.session <$> handles (App.connections app') !! ex_a3)
    <$> input_activate 6000000000 (ex_window ex_chat) =
  Returns (Some [Packet.MessageCreate 1 "hi"; Packet.Typing 1]).
Proof. by vm_compute. Qed.

(** Two messages, typed and sent one after the other: the first within
    a second of the start, the second eight seconds later. *)
Definition ex_typed : list (string * N * N) :=
  [("hi", 1000000000, 2000000000); ("there", 8000000000, 9000000000)]%string%N.

Lemma typed_messages_sent_witness :
  ∃ app' synac' written,
    run (type_and_send ex_typed) (ex_window ex_chat) = Returns app' ∧
    selected (App.connections app') ex_a3 synac' ∧
    Session.sent (Synac.session synac') = Session.sent (Synac.session ex_chat) ++ written ∧
    filter (λ packet, packet ≠ Packet.Typing 1) written =
      Packet.MessageCreate 1 <$> ex_typed.*1.*1 ∧
    App.calls app' = App.calls (ex_window ex_chat) ∧
    (ex_typed ≠ [] → App.input app' = EmptyString).
Proof.
  apply (typed_messages_sent ex_typed (ex_window ex_chat) ex_a3 ex_chat 1);
    [apply ex_window_selected|done|done|by repeat constructor].
Defined.

Lemma ex_typed_sent :
  (λ app', Session.sent ∘ Synac.session <$> handles (App.connections app') !! ex_a3)
    <$> run (type_and_send ex_typed) (ex_window ex_chat) =
  Returns (Some [Packet.MessageCreate 1 "hi"; Packet.Typing 1; Packet.MessageCreate 1 "there"]).
Proof. by vm_compute. Qed.

Lemma input_activate_reconnect_witness :
  ∃ calls,
    input_activate 1000000000 (ex_window ex_broken) =
      Returns (emptied
                 (App.with_connections
                    (with_handle ex_a3 ex_broken (App.connections (ex_window ex_broken)))
                    (App.with_calls (App.calls (ex_window ex_broken) ++ calls)
                       (ex_window ex_broken)))) ∧
    (calls = [] ∨ ∃ hash token, calls = [Connect ex_a3 hash token]) ∧
    ∀ hash token,
      calls = [Connect ex_a3 hash token] ↔
      (∀ kind, Io BrokenPipe = Io kind → kind = BrokenPipe) ∧
      Db.select_server (to_string ex_a3) ex_db = Some (hash, token).
Proof.
  apply (input_activate_reconnect 1000000000 (ex_window ex_broken) ex_a3 ex_broken 1);
    [done|by vm_compute|apply ex_window_selected|done..].
Defined.

(** The text typed before a server is selected is lost. *)
Lemma input_activate_dropped_witness :
  ∃ app', input_activate 6000000000 (App.with_input "hi" ex_app) = Returns app' ∧
    App.input app' = EmptyString ∧ App.calls app' = App.calls (App.with_input "hi" ex_app) ∧
    handles (App.connections app') = handles (App.connections (App.with_input "hi" ex_app)).
Proof. by apply (input_activate_dropped 6000000000 (App.with_input "hi" ex_app)). Defined.

Lemma ex_reconnect :
  App.calls <$> input_activate 1000000000 (ex_window ex_broken) =
  Returns [RenderServers; Connect ex_a3 "pin" (Some "old"%string)].
Proof. by vm_compute. Qed.

(** The throttle: a notification five seconds after start passes, one two
    seconds later does not. *)
Lemma input_text_notify_throttle_witness :
  let app1 := App.with_typing_last 5000000000 ex_app in
  App.typing_last app1 = 5000000000%N ∧ input_text_notify 7000000000 app1 = Returns app1.
Proof.
  by apply (input_text_notify_throttle 5000000000 7000000000 ex_app
    (App.with_typing_last 5000000000 ex_app)).
Defined.

(** The window after the name [bob] is entered. *)
Definition ex_renamed : App :=
  match user_stack_edit_activate (ex_window ex_chat) with
  | Returns app' => app'
  | _ => ex_window ex_chat
  end.

Lemma ex_rename : user_stack_edit_activate (ex_window ex_chat) = Returns ex_renamed.
Proof. by vm_compute. Qed.

Lemma user_stack_edit_activate_spec_witness :
  App.user_stack ex_renamed = UserStackText ∧ App.db ex_renamed = ex_db ∧
  Connections.nick (App.connections ex_renamed) = "bob"%string ∧
  App.user_name ex_renamed = "bob"%string ∧
  handles (App.connections ex_renamed) =
    (λ synac, (send_on (Packet.LoginUpdate (Some "bob"%string) None None false) synac).1)
      <$> handles (App.connections (ex_window ex_chat)).
Proof. apply (user_stack_edit_activate_spec (ex_window ex_chat) ex_renamed ex_rename). Defined.

(** No handler of main.rs sets the message that is edited: without
    functions.rs, the edit panics. *)
Lemma ex_edit_panics :
  message_edit_input_activate (ex_window ex_chat) = Panics.
Proof.
  apply (message_edit_input_activate_spec (ex_window ex_chat) ex_a3 ex_chat);
    [done|apply ex_window_selected].
Qed.

(** The window after one round of the idle source: the message of the
    third server was read and the messages are drawn; the label still
    names a typist the tracker does not know. *)
Definition ex_polled : App :=
  match idle 5 (ex_window ex_chat) with
  | Returns app' => app'
  | _ => ex_window ex_chat
  end.

Lemma ex_idle : idle 5 (ex_window ex_chat) = Returns ex_polled.
Proof. by vm_compute. Qed.

Lemma idle_renders_witness :
  App.calls ex_polled = App.calls (ex_window ex_chat) ++ [RenderMessages (Some ex_a3)] ∨
  (App.calls ex_polled = App.calls (ex_window ex_chat) ∧
   ∃ a s err, handles (App.connections (ex_window ex_chat)) !! a = Some s ∧
     Listener.try_read (Synac.session s) = Err err).
Proof.
  apply (idle_renders 5 (ex_window ex_chat) ex_polled ex_a3 ex_chat
    (Packet.MessageReceive ex_hello true) (Session.with_incoming [] (Synac.session ex_chat))
    ex_window_ok eq_refl (ex_window_handles ex_chat) eq_refl ex_idle).
Defined.

Lemma idle_typing_stale_witness :
  (App.typing ex_polled = "carol is typing..."%string ∨
   ∃ addr synac, Some ex_a3 = Some addr ∧
     handles (App.connections ex_polled) !! addr = Some synac ∧
     Typing.check 5 (Synac.current_channel synac) (Synac.state synac) (Synac.typing synac) =
       Some (App.typing ex_polled)) ∧
  (App.typing (ex_window ex_chat) ≠ EmptyString → App.typing ex_polled ≠ EmptyString).
Proof. apply (idle_typing_stale 5 (ex_window ex_chat) ex_polled ex_idle). Defined.

Lemma ex_stale : App.typing ex_polled = "carol is typing..."%string.
Proof. by vm_compute. Qed.

Lemma ex_idle_returns : returns (idle 5 (ex_window ex_chat)).
Proof.
  apply (idle_returns 5 (ex_window ex_chat)); [done|].
  intros addr c. rewrite /ex_window /=. by intros [_ <-]%lookup_singleton_Some.
Defined.

(** The idle source inside an alert that a callback shows. *)
Lemma idle_blocks_witness :
  idle 5 (App.with_connections
            {| Connections.current_server := Some ex_a3; Connections.nick := "alice";
               Connections.servers := {[ ex_a3 := Connected (Ok ex_chat) ]};
               Connections.held := true |} ex_app) = Blocks.
Proof. by apply (idle_blocks 5 _ ex_a3). Defined.

(** The form of the server: [localhost] is new, the third server is
    stored already. *)
Definition ex_form (text : string) : App :=
  App.with_edit_server {| name := "home"; server := text; hash := "pin2" |} ex_app.

Lemma ex_localhost : parse_addr "localhost" = Some ex_a2.
Proof. by vm_compute. Qed.

Lemma edit_server_ok_restart_witness :
  let row := stored_row (App.edit_server (ex_form "localhost")) ex_a2 in
  let me := {| Connections.current_server := None; Connections.nick := "alice";
               Connections.servers := ∅; Connections.held := false |} in
  ∃ app', edit_server_ok_clicked (ex_form "localhost") = Returns app' ∧
    App.stack app' = StackMain ∧
    App.connections app' = App.connections (ex_form "localhost") ∧
    App.calls app' = App.calls (ex_form "localhost") ++ [RenderServers] ∧
    Db.servers (App.db app') = Db.servers ex_db ++ [row] ∧
    Db.select_server (to_string ex_a2) (App.db app') = Some ("pin2"%string, None) ∧
    Connections.servers (Connections.new (App.db app') "alice") !! ex_a2 =
      Some (dial_of me (App.db app') ex_a2 row).
Proof.
  apply (edit_server_ok_restart (ex_form "localhost") 127 0 0 1 8439 "alice" ex_localhost);
    [by vm_compute|compute_done].
Defined.

Lemma ex_server_twice :
  edit_server_ok_clicked (ex_form "127.0.0.1:9000") = Panics.
Proof.
  apply (edit_server_ok_panics (ex_form "127.0.0.1:9000") ex_a3); [by vm_compute|].
  apply list_elem_of_fmap. exists (ex_row "127.0.0.1:9000" "old"). split; [by vm_compute|].
  by repeat constructor.
Qed.

(** A run: a poll, a new name, a new server, a message typed before any
    server is selected, and another poll. *)
Definition ex_events : list Event :=
  [Idle 5; UserStackTextButtonPress 1; EditUserStackEdit "bob"; UserStackEditActivate;
   AddServerClicked; EditEditServer {| name := "home"; server := "localhost"; hash := "pin2" |};
   EditServerOkClicked; EditInput "hi"; InputTextNotify 6000000000; InputActivate 7000000000;
   Idle 8000000000].

Definition ex_final : App :=
  match run ex_events ex_app with
  | Returns app' => app'
  | _ => ex_app
  end.

Lemma ex_run : run ex_events ex_app = Returns ex_final.
Proof. by vm_compute. Qed.

Lemma ex_app_settled : settled (App.connections ex_app).
Proof. apply (bool_decide_unpack _). by vm_compute. Qed.

Lemma run_never_blocks_witness :
  run ex_events ex_app ≠ Blocks ∧
  ∀ app', run ex_events ex_app = Returns app' → settled (App.connections app').
Proof. apply (run_never_blocks ex_events ex_app (start_ok _ _ _) ex_app_settled). Defined.

Lemma reachable_app_ok_witness : app_ok ex_final.
Proof. apply (reachable_app_ok 0 ex_db (Some "alice"%string) ex_final (run_steps _ _ _ ex_run)). Defined.

(** A first start on a machine with a light theme and no style of the
    user: the file of the database is placed, the run above is handled,
    the window is closed, and the signal queued behind is dropped. *)
Definition ex_boot : Boot :=
  {| with_prefix := Ok (); find_data_file := None; place_data_file := Ok "data.sqlite";
     open := λ _, Ok ex_db; tables_created := true; gtk_init := Ok ();
     env_user := Some "alice" |}.

Definition ex_style : Style :=
  {| default_screen := true; find_config_file := None; prefer_dark_theme := Some false;
     load_from := λ _, Ok () |}.

Lemma ex_main :
  main 0 ex_boot ex_style ((Emit <$> ex_events) ++ [DeleteEvent; Emit (InputActivate 9000000000)]) =
  Returns (Ok (Provider (Some (FromData LightCss)), ex_final)).
Proof. by vm_compute. Qed.

(** The same machine with a style of the user that does not parse: the
    window opens without a style and with an alert. *)
Lemma ex_broken_style :
  load_css {| default_screen := true; find_config_file := Some (Some "style.css");
              prefer_dark_theme := Some true;
              load_from := λ _, Err (LoadError "style.css:1:1 expected a selector") |} ex_app =
  (Provider None, App.call (AlertError (LoadError "style.css:1:1 expected a selector")) ex_app).
Proof. done. Qed.

(** A start without a directory for the data ends with a message. *)
Lemma ex_no_data :
  main 0 {| with_prefix := Ok (); find_data_file := None;
            place_data_file := Err "permission denied";
            open := λ _, Ok ex_db; tables_created := true; gtk_init := Ok ();
            env_user := None |} ex_style [DeleteEvent] =
  Returns (Err (ErrorPlacingConfig "permission denied")).
Proof. done. Qed.

End examples.
