(* ===== verification/Timeline.v ===== *)
(** * The message store as a map from ids

    What the store of a session promises to the rest of the client, said
    without vectors and scans: a finite map from the id of a message to
    the message, in which a delivery puts the message under its id and a
    deletion takes the id out.  [represents] relates a store of
    messages.rs to such a map; [represents_add] and [represents_remove]
    show that [add] and [remove] implement the two operations of the map,
    and [represents_get] that [get] lists the messages of a channel, once
    each and sorted by timestamp.

    The second half carries the refinement through the registry and the
    window: a packet handed to [dispatch], a look at the stream of one
    session, a whole poll of [try_read] over all sessions
    ([polls_reconcile]), and every sequence of events the closures of
    main.rs handle ([run_reconciles]). *)

From Stdlib Require Import ssreflect.
From stdpp Require Import gmap list strings.
From S2P Require Import Prelude BinarySearch Store Addr Transport Registry App.

Open Scope general_if_scope.

(** ** The abstract store *)

Definition Index := gmap N Message.

(** Every message is filed under its own id. *)
Definition keyed (k : Index) : Prop :=
  map_Forall (λ i m, Message.id m = i) k.

(** The messages of a channel, in no particular order. *)
Definition view (channel : N) (k : Index) : list Message :=
  filter (λ m, Message.channel m = channel) (map_to_list k).*2.

(** A store represents an index when its timelines are in order, no
    timeline holds an id twice, and the timeline of a channel holds the
    messages the index files under that channel and no other. *)
Record represents (s : Messages.t) (k : Index) : Prop := {
  represents_wf : Messages.wf s;
  represents_keyed : keyed k;
  represents_once : ∀ c, NoDup (Message.id <$> Messages.get s c);
  represents_elem : ∀ c m,
    m ∈ Messages.get s c ↔ k !! Message.id m = Some m ∧ Message.channel m = c;
}.

(** A delivery agrees with the index when the message it brings has the
    channel and the timestamp of the message it replaces, if it replaces
    one: a server edits the text of a message, not its place. *)
Definition agrees (msg : Message) (k : Index) : Prop :=
  from_option (λ old, Message.channel old = Message.channel msg ∧
                      Message.timestamp old = Message.timestamp msg)
    True (k !! Message.id msg).

#[export] Instance keyed_dec k : Decision (keyed k).
Proof. unfold keyed. apply _. Defined.
#[export] Instance agrees_dec msg k : Decision (agrees msg k).
Proof. unfold agrees. destruct (k !! Message.id msg); apply _. Defined.

(** ** Lists without a repeated key *)

Section keys.
Context {A B : Type} (f : A → B).
Implicit Types (l : list A) (x y : A).

Lemma NoDup_fmap_elem_eq l x y :
  NoDup (f <$> l) → x ∈ l → y ∈ l → f x = f y → x = y.
Proof.
  intros Hnd (i & Hi)%list_elem_of_lookup (j & Hj)%list_elem_of_lookup Hf.
  assert (i = j) as ->; [|congruence].
  apply (NoDup_lookup _ i j (f x) Hnd); rewrite list_lookup_fmap ?Hi ?Hj //=. by rewrite Hf.
Qed.

Lemma NoDup_fmap_delete l i : NoDup (f <$> l) → NoDup (f <$> delete i l).
Proof. intros Hnd. eapply sublist_NoDup; [done|]. apply fmap_sublist, sublist_delete. Qed.

(** Without repeated keys, deleting one position deletes one key. *)
Lemma elem_of_delete_key l i x y :
  NoDup (f <$> l) → l !! i = Some x → y ∈ delete i l ↔ y ∈ l ∧ f y ≠ f x.
Proof.
  intros Hnd Hi. pose proof (take_drop_middle l i x Hi) as Hl.
  rewrite delete_take_drop. revert Hl. generalize (take i l) (drop (S i) l).
  intros l1 l2 Hl. subst l. clear Hi.
  rewrite fmap_app fmap_cons in Hnd. apply NoDup_app in Hnd as (_ & H1 & (H2 & _)%NoDup_cons).
  rewrite !elem_of_app elem_of_cons. split.
  - intros [Hy|Hy]; (split; [auto|]); intros Hf.
    + apply (H1 (f x)); [rewrite -Hf; by apply list_elem_of_fmap_2|left].
    + apply H2. rewrite -Hf. by apply list_elem_of_fmap_2.
  - intros [[?|[->|?]] ?]; auto. done.
Qed.

End keys.

(** ** [add], [remove] and [get] on the index *)

Section index.
Context `{!SliceSearch} {order : HashOrder}.
Implicit Types (msg m old : Message) (s : Messages.t) (k : Index) (c mid : N).

Lemma represents_new : represents Messages.new ∅.
Proof.
  split; [apply map_Forall_empty|apply map_Forall_empty|intros; constructor|].
  intros c m. rewrite lookup_empty. split; [by intros ?%elem_of_nil|by intros []].
Qed.

Lemma represents_lookup s k mid m :
  represents s k → k !! mid = Some m ↔ m ∈ Messages.get s (Message.channel m) ∧ Message.id m = mid.
Proof.
  intros Hr. rewrite (represents_elem _ _ Hr). split.
  - intros Hm. pose proof (represents_keyed _ _ Hr mid m Hm) as Hid. by rewrite Hid.
  - by intros [[? _] <-].
Qed.

Lemma agrees_spec msg k :
  agrees msg k ↔ ∀ old, k !! Message.id msg = Some old →
    Message.channel old = Message.channel msg ∧ Message.timestamp old = Message.timestamp msg.
Proof.
  unfold agrees. destruct (k !! Message.id msg) as [old|]; simpl; [|done].
  split; [by intros ? ? [= <-]|eauto].
Qed.

Lemma keyed_insert msg k : keyed k → keyed (<[Message.id msg := msg]> k).
Proof. intros Hk. by apply map_Forall_insert_2. Qed.

Lemma keyed_delete mid k : keyed k → keyed (delete mid k).
Proof. apply map_Forall_delete. Qed.

(** What the index files under a channel is what [view] lists. *)
Lemma elem_of_view c k m :
  keyed k → m ∈ view c k ↔ k !! Message.id m = Some m ∧ Message.channel m = c.
Proof.
  intros Hk. rewrite /view list_elem_of_filter list_elem_of_fmap. split.
  - intros [Hc ([i m'] & -> & Hm%elem_of_map_to_list)]. simpl in *.
    by rewrite (Hk i m' Hm).
  - intros [Hm Hc]. split; [done|]. exists (Message.id m, m). split; [done|].
    by apply elem_of_map_to_list.
Qed.

Lemma NoDup_view c k : keyed k → NoDup (view c k).
Proof.
  intros Hk. apply NoDup_filter, NoDup_fmap_2_strong; [|apply NoDup_map_to_list].
  intros [i m] [j m'] Hm%elem_of_map_to_list Hm'%elem_of_map_to_list. simpl. intros <-.
  by rewrite -(Hk i m Hm) -(Hk j m Hm').
Qed.

(** A delivery is an insertion into the index: the message is filed
    under its id, in place of the message that was there. *)
Lemma represents_add msg s s' k :
  represents s k → agrees msg k → Messages.add msg s = Some s' →
  represents s' (<[Message.id msg := msg]> k).
Proof.
  intros Hr Hag Hadd. pose proof (represents_wf _ _ Hr) as Hwf.
  pose proof (proj1 (agrees_spec msg k) Hag) as Hold.
  destruct (Messages.wf_get s (Message.channel msg) Hwf) as [Hs _].
  assert (NoDup (Message.id <$> Messages.get s' (Message.channel msg))) as Hnd.
  { eapply Messages.add_unique_ids; [done|apply (represents_once _ _ Hr)| |done].
    intros m [Hm _]%(represents_elem _ _ Hr) Hid. rewrite Hid in Hm. by apply Hold. }
  split; [by eapply Messages.wf_add|by apply keyed_insert, (represents_keyed s)|..].
  - intros c. destruct (decide (c = Message.channel msg)) as [->|Hc]; [done|].
    rewrite (Messages.add_get _ _ _ _ Hwf Hadd) decide_False //. apply (represents_once _ _ Hr).
  - intros c m. rewrite lookup_insert_Some. revert Hnd.
    rewrite !(Messages.add_get _ _ _ _ Hwf Hadd) decide_True //.
    case_decide as Hc; [subst c|]; intros Hnd; rewrite ?(represents_elem _ _ Hr); split.
    + intros Hm. destruct (decide (Message.id m = Message.id msg)) as [Hid|Hid].
      * assert (m = msg) as ->; [|by auto].
        apply (NoDup_fmap_elem_eq Message.id _ _ _ Hnd);
          [done|by apply Messages.add_spec_elem_of_new|done].
      * apply Messages.add_spec_elem_of in Hm as [->|Hm]; [done| |done].
        apply (represents_elem _ _ Hr) in Hm as [? ?]. split; [right|done]. by split.
    + intros [[[_ <-]|[Hid Hm]] Hc]; [by apply Messages.add_spec_elem_of_new|].
      apply Messages.add_spec_elem_of_old; [done| |done]. by apply (represents_elem _ _ Hr).
    + intros [Hm Hcm]. split; [right|done]. split; [|done]. intros Hid.
      rewrite -Hid in Hm. apply Hold in Hm as [? _]. congruence.
    + intros [[[_ <-]|[_ Hm]] Hcm]; done.
Qed.

(** A deletion takes the id out of the index, and names the channel of
    the message that was filed under it. *)
Lemma represents_remove mid s k :
  represents s k →
  represents (Messages.remove mid s).1 (delete mid k) ∧
  (Messages.remove mid s).2 = Message.channel <$> k !! mid.
Proof.
  intros Hr. pose proof (Messages.remove_cases mid s) as Hcases.
  pose proof (Messages.wf_remove mid s (represents_wf _ _ Hr)) as Hwf'.
  destruct (Messages.remove mid s) as [s' [c|]]; simpl in *.
  - destruct Hcases as (i & msg & Hi & Hid & _ & Hc & Hother).
    pose proof (list_elem_of_lookup_2 _ _ _ Hi) as Hmsg.
    apply (represents_elem _ _ Hr) in Hmsg as [Hk Hcm]. rewrite Hid in Hk.
    split; [|by rewrite Hk /= Hcm].
    split; [done|by apply keyed_delete, (represents_keyed s)|..].
    + intros c'. destruct (decide (c' = c)) as [->|Hc']; [|rewrite Hother //].
      all: try rewrite Hc; try apply NoDup_fmap_delete; apply (represents_once _ _ Hr).
    + intros c' m. rewrite lookup_delete_Some. destruct (decide (c' = c)) as [->|Hc'].
      * rewrite Hc (elem_of_delete_key Message.id _ _ msg) //; [apply (represents_once _ _ Hr)|].
        rewrite Hid (represents_elem _ _ Hr). naive_solver.
      * rewrite Hother // (represents_elem _ _ Hr). split; [|naive_solver].
        intros [Hm Hcm']. split; [|done]. split; [|done]. intros Hmid.
        rewrite -Hmid Hk in Hm. naive_solver.
  - destruct Hcases as [Hno ->]. destruct (k !! mid) as [m|] eqn:Hm.
    + apply (represents_lookup _ _ _ _ Hr) in Hm as [Hm Hid].
      specialize (Hno (Message.channel m)). rewrite Forall_forall in Hno.
      by destruct (Hno m Hm).
    + by rewrite delete_id.
Qed.

(** The timeline of a channel lists the messages the index files under
    the channel, once each, in the order of their timestamps. *)
Lemma represents_get s k c :
  represents s k →
  Messages.get s c ≡ₚ view c k ∧ sorted_by Message.timestamp (Messages.get s c).
Proof.
  intros Hr. split; [|apply (Messages.wf_get s c (represents_wf _ _ Hr))].
  apply NoDup_Permutation.
  - eapply NoDup_fmap_1, (represents_once _ _ Hr).
  - apply NoDup_view, (represents_keyed _ _ Hr).
  - intros m. by rewrite (represents_elem _ _ Hr) elem_of_view; [apply (represents_keyed _ _ Hr)|].
Qed.

(** A store represents one index only. *)
Lemma represents_inj s k k' : represents s k → represents s k' → k = k'.
Proof.
  intros Hr Hr'. apply map_eq. intros mid. apply option_eq. intros m.
  by rewrite !represents_lookup.
Qed.

End index.

(** ** Packets on the index *)

(** What a packet does to the index of the session that reads it. *)
Definition apply (packet : Packet) (k : Index) : Index :=
  match packet with
  | Packet.MessageReceive inner _ => <[Message.id inner := inner]> k
  | Packet.MessageDeleteReceive mid => delete mid k
  | _ => k
  end.

(** The channel a packet changes, as the index knows it. *)
Definition changes (packet : Packet) (k : Index) : option N :=
  match packet with
  | Packet.MessageReceive inner _ => Some (Message.channel inner)
  | Packet.MessageDeleteReceive mid => Message.channel <$> k !! mid
  | _ => None
  end.

Definition fits (packet : Packet) (k : Index) : Prop :=
  match packet with
  | Packet.MessageReceive inner _ => agrees inner k
  | _ => True
  end.

(** One look at a stream: a packet is applied, silence is not. *)
Definition hear (k : Index) (i : Incoming) : Index :=
  match i with
  | Arrived packet => apply packet k
  | _ => k
  end.

(** The index after [n] looks at the stream [l]. *)
Definition heard (n : nat) (l : list Incoming) (k : Index) : Index :=
  foldl hear k (take n l).

(** Every packet of the next [n] looks agrees with the index it
    meets. *)
Fixpoint script_fits (n : nat) (l : list Incoming) (k : Index) : Prop :=
  match n, l with
  | S n, i :: l =>
    match i with Arrived packet => fits packet k | _ => True end ∧ script_fits n l (hear k i)
  | _, _ => True
  end.

#[export] Instance fits_dec packet k : Decision (fits packet k).
Proof. destruct packet; apply _. Defined.
#[export] Instance script_fits_dec n l k : Decision (script_fits n l k).
Proof. revert l k. induction n as [|n IH]; intros [|[]] k; simpl; apply _. Defined.

(** A callback of a poll that leaves the store and the stream of the
    session alone, as the callback of the main loop does. *)
Definition reads_only {A} (callback : Synac → Packet → option N → A → Synac * A) : Prop :=
  ∀ synac packet channel acc,
    Synac.messages (callback synac packet channel acc).1 = Synac.messages synac ∧
    Synac.session (callback synac packet channel acc).1 = Synac.session synac.

(** A callback of [execute] or [foreach] that does: it may write to
    the session, and reads nothing from it. *)
Definition hands_off {A} (callback : Synac → A → Synac * A) : Prop :=
  ∀ synac acc,
    Synac.messages (callback synac acc).1 = Synac.messages synac ∧
    Session.incoming (Synac.session (callback synac acc).1) =
      Session.incoming (Synac.session synac).

(** The handle of [addr] has the store and the stream it had. *)
Definition quiet (addr : SocketAddr) (self self' : Connections) : Prop :=
  ∀ synac, handles self !! addr = Some synac →
    ∃ synac', handles self' !! addr = Some synac' ∧
      Synac.messages synac' = Synac.messages synac ∧
      Session.incoming (Synac.session synac') = Session.incoming (Synac.session synac).

Section registry.
Context {common : Common} {search : SliceSearch} {order : HashOrder}.
Implicit Types (synac : Synac) (packet : Packet) (k : Index) (now : N).
Implicit Types (self : Connections) (l : list Incoming).

(** [dispatch] on the index: the store of the session follows the
    packet, and the channel named to the callback is the channel of the
    message received or deleted.  A typing notification names its channel
    and leaves the index alone. *)
Lemma dispatch_represents now packet synac synac' channel k :
  represents (Synac.messages synac) k → fits packet k →
  Connections.dispatch now packet synac = Returns (synac', channel) →
  represents (Synac.messages synac') (apply packet k) ∧
  match packet with
  | Packet.TypingReceive _ _ => True
  | _ => channel = changes packet k
  end.
Proof.
  intros Hr Hfit Hd.
  destruct (dispatch_spec now packet synac) as (synac1 & channel1 & Hd1 & _ & Hspec).
  rewrite Hd in Hd1. injection Hd1 as <- <-.
  destruct packet; simpl in *; try by destruct Hspec as (-> & -> & _).
  - destruct Hspec as (-> & Hadd & _). split; [by eapply represents_add|done].
  - destruct Hspec as [Hrm _]. destruct (represents_remove id _ _ Hr) as [Hr' Hc].
    rewrite Hrm in Hr', Hc. done.
  - by destruct Hspec as [-> _].
Qed.

Lemma heard_S n i l k : heard (S n) (i :: l) k = heard n l (hear k i).
Proof. done. Qed.

Lemma heard_nil n k : heard n [] k = k.
Proof. by destruct n. Qed.

(** One look at the stream of a session: the store follows the index,
    and the stream is shorter by what was looked at. *)
Lemma poll_represents {A} now (callback : Synac → Packet → option N → A → Synac * A)
    synac acc synac' acc' k :
  reads_only callback →
  represents (Synac.messages synac) k →
  script_fits 1 (Session.incoming (Synac.session synac)) k →
  Connections.poll now callback synac acc = Returns (Ok (synac', acc')) →
  represents (Synac.messages synac') (heard 1 (Session.incoming (Synac.session synac)) k) ∧
  Session.incoming (Synac.session synac') = tail (Session.incoming (Synac.session synac)).
Proof.
  intros Hcb Hr Hfit. pose proof (poll_spec now callback synac acc) as Hspec.
  simpl in Hspec.
  destruct (Session.incoming (Synac.session synac)) as [|[packet| |err] l] eqn:Hl; simpl in *.
  - rewrite Hspec. intros [= <- _]. by rewrite Hl.
  - destruct Hspec as (synac1 & channel & Hd & ->). intros [= Hc].
    replace synac' with (callback synac1 packet channel acc).1 by by rewrite Hc.
    destruct (Hcb synac1 packet channel acc) as [-> ->].
    destruct (dispatch_frame _ _ _ _ _ Hd) as (_ & -> & _).
    by destruct (dispatch_represents now packet (Synac.with_session _ synac) _ _ k Hr
      (proj1 Hfit) Hd).
  - rewrite Hspec. by intros [= <- _].
  - by rewrite Hspec.
Qed.

(** A poll that went well has looked once at the stream of every
    session. *)
Lemma try_read_polled {A} now (callback : Synac → Packet → option N → A → Synac * A)
    acc self self' acc' addr synac :
  Connections.held self = false →
  Connections.try_read now callback acc self = Returns (self', acc', Ok ()) →
  handles self !! addr = Some synac →
  ∃ acc0 synac' acc1,
    Connections.poll now callback synac acc0 = Returns (Ok (synac', acc1)) ∧
    handles self' !! addr = Some synac'.
Proof.
  intros Hh (servers' & Hloop & ->)%try_read_inv; [|done]. rewrite /handles !lookup_omap.
  destruct (Connections.servers self !! addr) as [c|] eqn:Hc; [simpl|done].
  destruct (visit_loop_Ok _ _ _ _ _ _ addr c (iter_keys_NoDup _) Hloop) as (c' & Hc' & Hv);
    [apply iter_keys_elem_of; by eexists|done|]. simpl in Hc'. rewrite Hc' /=.
  inversion Hv as [c0 err Hj|c0 synac0 acc0 synac' acc1 Hj Hpoll]; subst.
  - by rewrite /handle_of Hj.
  - rewrite {1}/handle_of Hj. intros [= <-]. by exists acc0, synac', acc1.
Qed.

(** *** Operations that do not read *)

Lemma quiet_refl addr self : quiet addr self self.
Proof. intros synac ?. by exists synac. Qed.

Lemma quiet_handles_at addr self self' :
  handles self' !! addr = handles self !! addr → quiet addr self self'.
Proof. intros Hh synac Hs. exists synac. by rewrite Hh. Qed.

Lemma quiet_handles addr self self' : handles self' = handles self → quiet addr self self'.
Proof. intros Hh. apply quiet_handles_at. by rewrite Hh. Qed.

Lemma set_current_quiet addr selected self : quiet addr self (Connections.set_current selected self).
Proof. by apply quiet_handles. Qed.

(** A poll that finds the map locked has looked at nothing. *)
Lemma try_read_held_quiet {A} now (callback : Synac → Packet → option N → A → Synac * A)
    acc self self' acc' r addr :
  Connections.held self = true →
  Connections.try_read now callback acc self = Returns (self', acc', r) → quiet addr self self'.
Proof. intros Hh. rewrite /Connections.try_read Hh. intros [= <- _ _]. apply quiet_refl. Qed.

Lemma execute_quiet {A} a (on_ok : Synac → A → Synac * A) on_err acc self self' acc' addr :
  hands_off on_ok →
  Connections.execute a on_ok on_err acc self = Returns (self', acc') → quiet addr self self'.
Proof.
  intros Hcb He%execute_alter synac Hs. rewrite He.
  destruct (decide (addr = a)) as [->|]; [|rewrite lookup_alter_ne //; by exists synac].
  rewrite lookup_alter_eq Hs /=. eexists. split; [done|apply Hcb].
Qed.

Lemma foreach_quiet {A} (callback : Synac → A → Synac * A) acc self self' acc' addr :
  hands_off callback →
  Connections.foreach callback acc self = Returns (self', acc') → quiet addr self self'.
Proof.
  intros Hcb Hfe synac. destruct (foreach_frame _ _ _ _ _ Hfe) as [Hh _].
  destruct (foreach_visits callback acc self) as [_ Hv].
  destruct (Hv _ _ Hh Hfe) as [_ Hvisit]. rewrite /handles !lookup_omap.
  destruct (Connections.servers self !! addr) as [c|] eqn:Hc; [simpl|done].
  destruct (Hvisit _ _ Hc) as (_ & c' & -> & _ & Hvis). simpl.
  inversion Hvis as [c0 err Hj|c0 synac0 acc0 synac' acc0' Hj [= Hcall]]; subst.
  - by rewrite /handle_of Hj.
  - rewrite {1}/handle_of Hj. intros [= <-]. exists synac'. split; [done|].
    replace synac' with (callback synac0 acc0).1 by by rewrite Hcall. apply Hcb.
Qed.

(** A dial stored or dropped under another address. *)
Lemma insert_quiet a synac self self' addr :
  a ≠ addr → Connections.insert a synac self = Returns self' → quiet addr self self'.
Proof.
  intros Hne He%insert_handles synac0 Hs. exists synac0. by rewrite He lookup_insert_ne.
Qed.

Lemma remove_quiet a self self' addr :
  a ≠ addr → Connections.remove a self = Returns self' → quiet addr self self'.
Proof.
  intros Hne He%remove_handles synac0 Hs. exists synac0. by rewrite He lookup_delete_ne.
Qed.

(** *** Polls *)

(** The poll has looked once at the stream of the session of [addr], and
    what it found went to a callback that only reads. *)
Inductive looked (addr : SocketAddr) (self self' : Connections) : Prop :=
| looked_at {A} now (callback : Synac → Packet → option N → A → Synac * A)
    synac acc synac' acc' :
    reads_only callback →
    handles self !! addr = Some synac →
    Connections.poll now callback synac acc = Returns (Ok (synac', acc')) →
    handles self' !! addr = Some synac' →
    looked addr self self'.

(** [n] looks at the session of [addr], with operations between them
    that leave the session alone. *)
Inductive polls (addr : SocketAddr) : nat → Connections → Connections → Prop :=
| polls_done self : polls addr 0 self self
| polls_poll n self self1 self' :
    looked addr self self1 → polls addr n self1 self' → polls addr (S n) self self'
| polls_quiet n self self1 self' :
    quiet addr self self1 → polls addr n self1 self' → polls addr n self self'.

(** A poll that went well has looked at every session. *)
Lemma try_read_looked {A} now (callback : Synac → Packet → option N → A → Synac * A)
    acc self self' acc' addr synac :
  reads_only callback → Connections.held self = false →
  Connections.try_read now callback acc self = Returns (self', acc', Ok ()) →
  handles self !! addr = Some synac → looked addr self self'.
Proof.
  intros Hcb Hh Ht Hs.
  destruct (try_read_polled _ _ _ _ _ _ _ _ Hh Ht Hs) as (acc0 & synac' & acc1 & Hpoll & Hs').
  by eapply looked_at.
Qed.

(** A poll that failed has looked at the sessions before the one that
    failed, and at no other. *)
Lemma try_read_Err_calm {A} now (callback : Synac → Packet → option N → A → Synac * A)
    acc self self' acc' err addr :
  reads_only callback → Connections.held self = false →
  Connections.try_read now callback acc self = Returns (self', acc', Err err) →
  looked addr self self' ∨ quiet addr self self'.
Proof.
  intros Hcb Hh (servers' & Hloop & ->)%try_read_inv; [|done].
  destruct (visit_loop_Err _ _ _ _ _ _ _ (iter_keys_NoDup _) Hloop)
    as (before & a & after & c & c' & Horder & Hc & Hc' & Hstop & Hafter & Hbefore).
  destruct (Connections.servers self !! addr) as [ca|] eqn:Hca; last first.
  { right. intros synac. by rewrite /handles lookup_omap Hca. }
  assert (addr ∈ before ++ a :: after) as Hin.
  { rewrite -Horder. apply iter_keys_elem_of. by eexists. }
  apply elem_of_app in Hin as [Hin|[->|Hin]%elem_of_cons].
  - destruct (Hbefore _ _ Hin Hca) as (ca' & Hca' & Hv).
    inversion Hv as [c0 e Hj|c0 synac acc0 synac' acc1 Hj Hpoll]; subst.
    + right. intros synac. by rewrite /handles lookup_omap Hca /= /handle_of Hj.
    + left. eapply looked_at; [done| |done|].
      * by rewrite /handles lookup_omap Hca /= /handle_of Hj.
      * by rewrite /handles lookup_omap /= Hca'.
  - right. rewrite Hca in Hc. injection Hc as ->. destruct Hstop as [c synac acc0 Hj _].
    intros synac0. rewrite /handles !lookup_omap /= Hca Hc' /= {1}/handle_of Hj.
    intros [= <-]. by exists synac.
  - right. apply quiet_handles_at. by rewrite /handles !lookup_omap /= Hafter.
Qed.

(** Any poll: every session is looked at once, or left alone. *)
Lemma try_read_calm {A} now (callback : Synac → Packet → option N → A → Synac * A)
    acc self self' acc' r addr :
  reads_only callback →
  Connections.try_read now callback acc self = Returns (self', acc', r) →
  looked addr self self' ∨ quiet addr self self'.
Proof.
  intros Hcb Ht. destruct (Connections.held self) eqn:Hh; [right; by eapply try_read_held_quiet|].
  destruct r as [[]|err]; [|by eapply try_read_Err_calm].
  destruct (handles self !! addr) as [synac|] eqn:Hs; [left; by eapply try_read_looked|].
  right. intros synac. by rewrite Hs.
Qed.

(** One look, on the index of the session. *)
Lemma looked_represents self self' addr synac k :
  looked addr self self' →
  handles self !! addr = Some synac →
  represents (Synac.messages synac) k →
  script_fits 1 (Session.incoming (Synac.session synac)) k →
  ∃ synac', handles self' !! addr = Some synac' ∧
    represents (Synac.messages synac') (heard 1 (Session.incoming (Synac.session synac)) k) ∧
    Session.incoming (Synac.session synac') = tail (Session.incoming (Synac.session synac)).
Proof.
  intros [A now callback synac0 acc synac' acc' Hcb Hs0 Hpoll Hs'] Hs Hr Hfit.
  simplify_eq. exists synac'. split; [done|]. by eapply poll_represents.
Qed.

Lemma script_fits_S n l k :
  script_fits (S n) l k ↔ script_fits 1 l k ∧ script_fits n (tail l) (heard 1 l k).
Proof. destruct l as [|i l]; simpl; [by destruct n|]. rewrite /heard /= ?take_0 /=. tauto. Qed.

Lemma script_fits_le n m l k : n ≤ m → script_fits m l k → script_fits n l k.
Proof.
  revert m l k. induction n as [|n IH]; intros [|m] [|i l] k Hle; simpl; try done; [lia|].
  intros [? ?]. split; [done|]. apply (IH m); [lia|done].
Qed.

Lemma heard_S_tail n l k : heard (S n) l k = heard n (tail l) (heard 1 l k).
Proof. destruct l as [|i l]; [by rewrite !heard_nil|]. by rewrite /heard /= ?take_0. Qed.

Lemma drop_S_tail {B} n (l : list B) : drop (S n) l = drop n (tail l).
Proof. destruct l; simpl; [by rewrite drop_nil|done]. Qed.

Lemma polls_trans addr n m self1 self2 self3 :
  polls addr n self1 self2 → polls addr m self2 self3 → polls addr (n + m) self1 self3.
Proof.
  induction 1 as [|? ? ? ? Hl _ IH|? ? ? ? Hq _ IH]; intros Hp; [done|..].
  - eapply polls_poll; [done|by apply IH].
  - eapply polls_quiet; [done|by apply IH].
Qed.

Lemma polls_once_quiet addr self self' : quiet addr self self' → polls addr 0 self self'.
Proof. intros Hq. eapply polls_quiet; [done|apply polls_done]. Qed.

Lemma polls_once_looked addr self self' : looked addr self self' → polls addr 1 self self'.
Proof. intros Hl. eapply polls_poll; [done|apply polls_done]. Qed.

(** [n] polls on the index of one session: the store follows the index
    through the next [n] looks at the stream. *)
Lemma polls_represents addr n self self' synac k :
  polls addr n self self' →
  handles self !! addr = Some synac →
  represents (Synac.messages synac) k →
  script_fits n (Session.incoming (Synac.session synac)) k →
  ∃ synac', handles self' !! addr = Some synac' ∧
    represents (Synac.messages synac') (heard n (Session.incoming (Synac.session synac)) k) ∧
    Session.incoming (Synac.session synac') = drop n (Session.incoming (Synac.session synac)).
Proof.
  intros Hp. revert synac k.
  induction Hp as [self|n self self1 self' Hpoll _ IH|n self self1 self' Hq _ IH];
    intros synac k Hs Hr Hfit.
  - exists synac. by rewrite /heard take_0 drop_0.
  - apply script_fits_S in Hfit as [Hfit1 Hfit].
    destruct (looked_represents _ _ _ _ _ Hpoll Hs Hr Hfit1) as (synac1 & Hs1 & Hr1 & Hl1).
    rewrite -Hl1 in Hfit. destruct (IH _ _ Hs1 Hr1 Hfit) as (synac' & ? & ? & ?).
    exists synac'. by rewrite heard_S_tail drop_S_tail -Hl1.
  - destruct (Hq _ Hs) as (synac1 & Hs1 & Hm & Hl). rewrite -Hm in Hr. rewrite -Hl in Hfit.
    destruct (IH _ _ Hs1 Hr Hfit) as (synac' & ? & ? & ?). exists synac'. by rewrite -Hl.
Qed.

(** The poll at [now], as a function of the registry. *)
Definition tick {A} now (callback : Synac → Packet → option N → A → Synac * A) acc self
    : Connections :=
  match Connections.try_read now callback acc self with
  | Returns (self', _, _) => self'
  | _ => self
  end.

Lemma tick_looked {A} now (callback : Synac → Packet → option N → A → Synac * A) acc self addr :
  reads_only callback → Connections.held self = false →
  is_Some (handles self !! addr) →
  (∃ acc', Connections.try_read now callback acc self =
           Returns (tick now callback acc self, acc', Ok ())) →
  looked addr self (tick now callback acc self).
Proof. intros Hcb Hh [synac Hs] [acc' Ht]. by eapply try_read_looked. Qed.

(** C15: reconciliation.  Take a session of the registry whose store
    represents an index, and [n] looks of polls at its stream, with any
    operations between them that leave the session alone, and callbacks
    that only read.  When every message the stream delivers keeps the
    channel and the timestamp of the message it replaces, the session
    has consumed [n] items of its stream, and its store represents the
    index in which every message received was put under its id and every
    id deleted was taken out, in the order of the stream: the timeline of
    each channel holds the last version of each message of the channel
    that was not deleted, once, and is sorted by timestamp, whatever the
    order of arrival. *)
Theorem polls_reconcile addr n self self' synac k :
  polls addr n self self' →
  handles self !! addr = Some synac →
  represents (Synac.messages synac) k →
  script_fits n (Session.incoming (Synac.session synac)) k →
  ∃ synac', handles self' !! addr = Some synac' ∧
    Session.incoming (Synac.session synac') = drop n (Session.incoming (Synac.session synac)) ∧
    let k' := heard n (Session.incoming (Synac.session synac)) k in
    represents (Synac.messages synac') k' ∧
    ∀ c, Messages.get (Synac.messages synac') c ≡ₚ view c k' ∧
         NoDup (Message.id <$> Messages.get (Synac.messages synac') c) ∧
         sorted_by Message.timestamp (Messages.get (Synac.messages synac') c).
Proof.
  intros Hp Hs Hr Hfit.
  destruct (polls_represents _ _ _ _ _ _ Hp Hs Hr Hfit) as (synac' & Hs' & Hr' & Hl).
  exists synac'. do 2 (split; [done|]). intros k'. split; [done|]. intros c.
  destruct (represents_get _ _ c Hr') as [? ?]. split_and!; [done| |done].
  apply (represents_once _ _ Hr').
Qed.

End registry.

(** ** The closures of main.rs *)

Section app.
Context {common : Common} {network : Network} {net : StdNet}.
Context {search : SliceSearch} {order : HashOrder}.
Implicit Types (app : App) (self : Connections) (addr : SocketAddr) (k : Index).

Lemma note_reads_only current : reads_only (note current).
Proof. intros synac packet channel [[? ?] ?]. unfold note. by case_decide. Qed.

(** A callback that writes at most reads nothing. *)
Lemma writes_only_hands_off {A} (callback : Synac → A → Synac * A) :
  writes_only callback → hands_off callback.
Proof.
  intros Hw synac acc. destruct (Hw synac acc) as [->|(packet & session & Hsend & ->)]; [done|].
  by apply send_Ok in Hsend as (_ & _ & ? & _).
Qed.

(** One operation of a closure looks at most once at a session. *)
Lemma acts_polls addr self self' : acts self self' → ∃ n, polls addr n self self'.
Proof.
  intros [A a on_ok on_err acc ? ? acc' Hw He|A callback acc ? ? acc' Hw Hf
         |now current seen ? ? seen' r Ht|text ? Hr].
  - exists 0. eapply polls_once_quiet, execute_quiet; [by apply writes_only_hands_off|done].
  - exists 0. eapply polls_once_quiet, foreach_quiet; [by apply writes_only_hands_off|done].
  - destruct (try_read_calm _ _ _ _ _ _ _ addr (note_reads_only current) Ht).
    + exists 1. by apply polls_once_looked.
    + exists 0. by apply polls_once_quiet.
  - exists 0. by apply polls_once_quiet, quiet_handles.
Qed.

Lemma rtc_acts_polls addr self self' : rtc acts self self' → ∃ n, polls addr n self self'.
Proof.
  induction 1 as [self|self self1 self' Ha _ [m Hm]]; [exists 0; apply polls_done|].
  destruct (acts_polls addr _ _ Ha) as [n Hn]. exists (n + m). by eapply polls_trans.
Qed.

Lemma script_fits_all n (l : list Incoming) k : script_fits (length l) l k → script_fits n l k.
Proof.
  revert n k. induction l as [|i l IH]; intros [|n] k; simpl; try done.
  intros [? ?]. split; [done|]. by apply IH.
Qed.

(** C16: the timelines the window shows.  Let the closures of main.rs
    handle any sequence of events: keys, clicks and turns of the idle
    source, polls that fail included.  A session whose store represents
    an index before, and whose server sends every message with the
    channel and the timestamp it had, has consumed some [n] items of its
    stream afterwards, and its store represents the index that the
    packets among these [n] items make: nothing but a poll changes a
    store, no packet is lost or filed twice, and each timeline is sorted
    by timestamp. *)
Theorem run_reconciles events app app' addr synac k :
  run events app = Returns app' →
  handles (App.connections app) !! addr = Some synac →
  represents (Synac.messages synac) k →
  script_fits (length (Session.incoming (Synac.session synac)))
    (Session.incoming (Synac.session synac)) k →
  ∃ n synac', handles (App.connections app') !! addr = Some synac' ∧
    Session.incoming (Synac.session synac') = drop n (Session.incoming (Synac.session synac)) ∧
    represents (Synac.messages synac') (heard n (Session.incoming (Synac.session synac)) k) ∧
    ∀ c, sorted_by Message.timestamp (Messages.get (Synac.messages synac') c) ∧
         NoDup (Message.id <$> Messages.get (Synac.messages synac') c).
Proof.
  intros [n Hp]%run_acts%(rtc_acts_polls addr) Hs Hr Hfit.
  destruct (polls_represents _ _ _ _ _ _ Hp Hs Hr (script_fits_all n _ _ Hfit))
    as (synac' & Hs' & Hr' & Hl).
  exists n, synac'. split_and!; [done..|]. intros c.
  split; [apply (represents_get _ _ c Hr')|apply (represents_once _ _ Hr')].
Qed.

End app.

(** ** Examples *)

Section examples.

#[local] Existing Instance ex_common.

(** A server sends a message, an older one, nothing for a tick, the
    first message again with its text corrected, and takes the older one
    back. *)
Definition ex_first : Message :=
  {| Message.author := 9; Message.channel := 1; Message.id := 5;
     Message.text := "helo"; Message.timestamp := 100 |}.

Definition ex_older : Message :=
  {| Message.author := 8; Message.channel := 1; Message.id := 6;
     Message.text := "first"; Message.timestamp := 50 |}.

Definition ex_fixed : Message :=
  {| Message.author := 9; Message.channel := 1; Message.id := 5;
     Message.text := "hello"; Message.timestamp := 100 |}.

Definition ex_stream : list Incoming :=
  [Arrived (Packet.MessageReceive ex_first true); Arrived (Packet.MessageReceive ex_older true);
   NotYet; Arrived (Packet.MessageReceive ex_fixed false);
   Arrived (Packet.MessageDeleteReceive 6)].

Definition ex_handle : Synac := Synac.new ex_a1 (ex_session ex_a1 ex_stream) 7.

Definition ex_one : Connections :=
  {| Connections.current_server := Some ex_a1; Connections.nick := "alice";
     Connections.servers := {[ ex_a1 := Connected (Ok ex_handle) ]};
     Connections.held := false |}.

Definition ex_tick (self : Connections) : Connections := tick 5 ex_callback [] self.

(** Two polls, a click on the other server, three more polls. *)
Definition ex_two_polls : Connections := ex_tick (ex_tick ex_one).
Definition ex_five_polls : Connections :=
  ex_tick (ex_tick (ex_tick (Connections.set_current (Some ex_a2) ex_two_polls))).

Lemma ex_tick_looked self :
  Connections.held self = false →
  is_Some (handles self !! ex_a1) →
  (match Connections.try_read 5 ex_callback [] self with
   | Returns (_, _, Ok _) => True
   | _ => False
   end) →
  looked ex_a1 self (ex_tick self).
Proof.
  intros Hh Hs Ht. apply tick_looked; [done..|]. unfold tick.
  destruct (Connections.try_read _ _ _ _) as [[[self' acc'] [[]|]]| |]; try done. by exists acc'.
Qed.

Lemma ex_polls : polls ex_a1 5 ex_one ex_five_polls.
Proof.
  do 2 (eapply polls_poll; [apply ex_tick_looked; by vm_compute; eauto|]).
  eapply polls_quiet; [apply (set_current_quiet _ (Some ex_a2))|].
  do 3 (eapply polls_poll; [apply ex_tick_looked; by vm_compute; eauto|]). apply polls_done.
Qed.

(** After the second poll both messages are there, the older one first;
    after the fifth the corrected message is alone. *)
Lemma ex_two_polls_timeline :
  (λ synac, Messages.get (Synac.messages synac) 1) <$> handles ex_two_polls !! ex_a1 =
  Some [ex_older; ex_first].
Proof. by vm_compute. Qed.

Lemma ex_five_polls_timeline :
  (λ synac, Messages.get (Synac.messages synac) 1) <$> handles ex_five_polls !! ex_a1 =
  Some [ex_fixed].
Proof. by vm_compute. Qed.

Lemma polls_reconcile_witness :
  ∃ synac', handles ex_five_polls !! ex_a1 = Some synac' ∧
    Session.incoming (Synac.session synac') = drop 5 ex_stream ∧
    let k' := heard 5 ex_stream ∅ in
    represents (Synac.messages synac') k' ∧
    ∀ c, Messages.get (Synac.messages synac') c ≡ₚ view c k' ∧
         NoDup (Message.id <$> Messages.get (Synac.messages synac') c) ∧
         sorted_by Message.timestamp (Messages.get (Synac.messages synac') c).
Proof.
  apply (polls_reconcile ex_a1 5 ex_one ex_five_polls ex_handle ∅ ex_polls);
    [by vm_compute|apply represents_new|by vm_compute].
Defined.

(** The window of the examples of App.v: the session of the first
    server, as its dial leaves it, and after the events. *)
Definition ex_dialed : Synac :=
  default ex_handle (handles (App.connections ex_app) !! ex_a1).

Lemma ex_dialed_handle : handles (App.connections ex_app) !! ex_a1 = Some ex_dialed.
Proof. by vm_compute. Qed.

Lemma ex_final_timeline :
  (λ synac, Messages.get (Synac.messages synac) 1) <$> handles (App.connections ex_final) !! ex_a1 =
  Some [ex_hello].
Proof. by vm_compute. Qed.

Lemma run_reconciles_witness :
  ∃ n synac', handles (App.connections ex_final) !! ex_a1 = Some synac' ∧
    Session.incoming (Synac.session synac') =
      drop n (Session.incoming (Synac.session ex_dialed)) ∧
    represents (Synac.messages synac')
      (heard n (Session.incoming (Synac.session ex_dialed)) ∅) ∧
    ∀ c, sorted_by Message.timestamp (Messages.get (Synac.messages synac') c) ∧
         NoDup (Message.id <$> Messages.get (Synac.messages synac') c).
Proof.
  apply (run_reconciles ex_events ex_app ex_final ex_a1 ex_dialed ∅ ex_run);
    [by vm_compute| |by vm_compute].
  replace (Synac.messages ex_dialed) with Messages.new by by vm_compute. apply represents_new.
Defined.

(** A server that sends an id again with another timestamp does not fit:
    the store would file the id twice. *)
Definition ex_moved : Message :=
  {| Message.author := 9; Message.channel := 1; Message.id := 5;
     Message.text := "moved"; Message.timestamp := 200 |}.

Lemma ex_moved_unfit :
  ¬ script_fits 2 [Arrived (Packet.MessageReceive ex_first true);
                   Arrived (Packet.MessageReceive ex_moved false)] ∅.
Proof. by vm_compute; intros (_ & [_ ?] & _). Qed.

End examples.
