(* ===== verification/Threads.v ===== *)
(** * Threads on one registry (connections.rs, the locks of [Connections])

    [Connections::new] returns an [Arc]: the registry is made to be
    called from several threads, and the mutex of the map is what keeps
    their calls apart.  The handlers of main.rs run on one thread, so in
    Registry.v and App.v a method is one function and the mutex is the
    flag [held].  Here the methods run on a pool of threads.

    A thread works through a list of requests, one method call each.  A
    call on the map is two steps: the thread takes the mutex ([lock],
    or [try_lock] for a poll), and later it leaves with what the method
    made of the map, or panics there and poisons the mutex.  Between the
    two steps any other thread may run.  [set_current] takes the mutex of
    the selection instead and is one step.  [thread_step] is the step of
    one thread, [pool_step] the step of a thread of the pool, and a
    schedule, the list of the threads that step one after the other, is
    one interleaving ([run_schedule]).

    Proved for every schedule: at most one thread is inside the map, the
    map ends as if the calls that were served had run one after the other
    in the order in which they left, and each thread has made its calls
    in the order of its program ([pool_serial]); a poll never waits for
    the mutex, no state short of the end is stuck unless a dial hangs, and
    some schedule runs every program to its end ([pool_completes]); after
    a panic inside the map no call reaches the map again
    ([poisoned_for_good]).

    The callbacks are functions on the handle: a callback that calls the
    registry again on its own thread is the case of [idle_blocks] in
    App.v.

    The threads [new] spawns are the other threads of the program.  They
    call nothing but [connect], which reads the nickname when it logs in,
    at a moment between the spawn and the join.  In Registry.v a dial
    holds the result for the nickname the registry has at the spawn.
    [reads_agree] says that this is the result for the nickname at the
    present moment too, for every dial that is still pending in the map;
    it holds in every state the window reaches ([dials_read_nick]),
    because the one write of the nickname comes after the broadcast has
    joined every dial. *)

From Stdlib Require Import ssreflect.
From stdpp Require Import gmap list strings.
From S2P Require Import Prelude BinarySearch Store Addr Transport Typing Registry App.

Open Scope general_if_scope.

Module Pool.

(** ** Requests *)

(** One call of a method of [Connections]. *)
Inductive Request :=
  | Insert (addr : SocketAddr) (result : Synac)
  | Remove (addr : SocketAddr)
  | SetCurrent (addr : option SocketAddr)
  | Execute (addr : SocketAddr) (callback : Synac → Synac)
  | Foreach (callback : Synac → Synac)
  | TryRead (now : N) (callback : Synac → Packet → option N → Synac).

(** The methods that take the mutex of the map. *)
Definition uses_map (r : Request) : bool :=
  match r with SetCurrent _ => false | _ => true end.

(** The mutex of the map in the state [held']. *)
Definition with_held (held' : bool) (self : Connections) : Connections :=
  {| Connections.current_server := Connections.current_server self;
     Connections.nick := Connections.nick self;
     Connections.servers := Connections.servers self;
     Connections.held := held' |}.

Section serve.
Context {common : Common} {search : SliceSearch} {order : HashOrder}.

(** The method a request calls, as connections.rs has it: from the lock
    to the end of the scope of the guard. *)
Definition serve (r : Request) (self : Connections) : Run Connections :=
  match r with
  | Insert addr result => Connections.insert addr result self
  | Remove addr => Connections.remove addr self
  | SetCurrent addr => Returns (Connections.set_current addr self)
  | Execute addr callback =>
    fst <$> Connections.execute addr (λ synac acc, (callback synac, acc)) (λ _ acc, acc) () self
  | Foreach callback =>
    fst <$> Connections.foreach (λ synac acc, (callback synac, acc)) () self
  | TryRead now callback =>
    (λ out, out.1.1) <$>
      Connections.try_read now (λ synac packet channel acc, (callback synac packet channel, acc))
        () self
  end.

(** The requests of a list, one after the other on one thread. *)
Fixpoint serve_all (requests : list Request) (self : Connections) : Run Connections :=
  match requests with
  | [] => Returns self
  | r :: requests => self ← serve r self; serve_all requests self
  end.

(** ** Threads *)

(** A thread between two calls, or inside a call on the map with the
    mutex taken, or dead of a panic. *)
Inductive Thread :=
  | Ready (todo : list Request)
  | Inside (r : Request) (todo : list Request)
  | Panicked.

(** What the threads share: the registry, whose flag [held] is the mutex
    of the map, and whether a thread panicked while it held that mutex. *)
Record Shared := { registry : Connections; poisoned : bool }.

Definition with_registry (self : Connections) (σ : Shared) : Shared :=
  {| registry := self; poisoned := poisoned σ |}.

(** What a step of a thread is seen to do. *)
Inductive Event :=
  | Entered (r : Request)
  | Served (r : Request)
  | Skipped (r : Request)
  | Died.

(** One step of a thread.  On a poisoned mutex [lock().unwrap()] panics
    and [try_lock] fails, so that a poll does nothing.  On a free mutex
    the thread enters.  Else the call is what the method does on a mutex
    that is held: a poll returns at once, every other call on the map
    waits, which is no step.  Inside, the thread leaves with the result
    of the method; a panic there poisons the mutex, and a method that
    waits for a dial is no step. *)
Definition thread_step (t : Thread) (σ : Shared) : option (Event * Thread * Shared) :=
  match t with
  | Ready (r :: todo) =>
    if uses_map r && poisoned σ then
      match r with
      | TryRead _ _ => Some (Skipped r, Ready todo, σ)
      | _ => Some (Died, Panicked, σ)
      end
    else if uses_map r && negb (Connections.held (registry σ)) then
      Some (Entered r, Inside r todo, with_registry (with_held true (registry σ)) σ)
    else
      match serve r (registry σ) with
      | Returns self =>
        Some (if uses_map r then Skipped r else Served r, Ready todo, with_registry self σ)
      | _ => None
      end
  | Inside r todo =>
    match serve r (with_held false (registry σ)) with
    | Returns self => Some (Served r, Ready todo, with_registry self σ)
    | Panics =>
      Some (Died, Panicked, {| registry := with_held false (registry σ); poisoned := true |})
    | Blocks => None
    end
  | Ready [] | Panicked => None
  end.

(** The same as rules: the seven steps a thread can take. *)
Inductive steps_to : Thread → Shared → Event → Thread → Shared → Prop :=
| step_poll_poisoned now callback todo σ :
    poisoned σ = true →
    steps_to (Ready (TryRead now callback :: todo)) σ
      (Skipped (TryRead now callback)) (Ready todo) σ
| step_lock_poisoned r todo σ :
    uses_map r = true → (∀ now callback, r ≠ TryRead now callback) → poisoned σ = true →
    steps_to (Ready (r :: todo)) σ Died Panicked σ
| step_enter r todo σ :
    uses_map r = true → poisoned σ = false → Connections.held (registry σ) = false →
    steps_to (Ready (r :: todo)) σ
      (Entered r) (Inside r todo) (with_registry (with_held true (registry σ)) σ)
| step_poll_contended now callback todo σ :
    poisoned σ = false → Connections.held (registry σ) = true →
    steps_to (Ready (TryRead now callback :: todo)) σ
      (Skipped (TryRead now callback)) (Ready todo) σ
| step_set_current addr todo σ :
    steps_to (Ready (SetCurrent addr :: todo)) σ
      (Served (SetCurrent addr)) (Ready todo)
      (with_registry (Connections.set_current addr (registry σ)) σ)
| step_leave r todo σ self :
    serve r (with_held false (registry σ)) = Returns self →
    steps_to (Inside r todo) σ (Served r) (Ready todo) (with_registry self σ)
| step_panic r todo σ :
    serve r (with_held false (registry σ)) = Panics →
    steps_to (Inside r todo) σ Died Panicked
      {| registry := with_held false (registry σ); poisoned := true |}.

(** ** The pool *)

Definition Config : Type := list Thread * Shared.

(** A step of the thread [i] of the pool. *)
Definition pool_step (i : nat) (cfg : Config) : option (Event * Config) :=
  t ← cfg.1 !! i;
  '(e, t', σ') ← thread_step t cfg.2;
  Some (e, (<[i := t']> cfg.1, σ')).

(** One interleaving: the threads of [schedule] step one after the other.
    The result is what was seen, and the state reached; [None] when a
    thread of the schedule cannot step when its turn comes. *)
Fixpoint run_schedule (schedule : list nat) (cfg : Config)
    : option (list (nat * Event) * Config) :=
  match schedule with
  | [] => Some ([], cfg)
  | i :: schedule =>
    '(e, cfg) ← pool_step i cfg;
    '(trace, cfg) ← run_schedule schedule cfg;
    Some ((i, e) :: trace, cfg)
  end.

(** The pool at the start: every thread before its first call, the mutex
    free and sound. *)
Definition start (programs : list (list Request)) (self : Connections) : Config :=
  (Ready <$> programs, {| registry := with_held false self; poisoned := false |}).

(** ** What is observed *)

(** The call a step served, and the call a step took off the program of
    its thread. *)
Definition effect (e : Event) : list Request :=
  match e with Served r => [r] | _ => [] end.

Definition gone (e : Event) : list Request :=
  match e with Served r | Skipped r => [r] | _ => [] end.

(** The calls that took effect, in the order in which they did. *)
Definition served (trace : list (nat * Event)) : list Request :=
  ie ← trace; effect ie.2.

(** The calls the thread [i] has got through, served or skipped. *)
Definition passed (i : nat) (trace : list (nat * Event)) : list Request :=
  ie ← trace; if decide (ie.1 = i) then gone ie.2 else [].

(** The calls a thread has before it, the one it is inside of included. *)
Definition rest (t : Thread) : list Request :=
  match t with
  | Ready todo => todo
  | Inside r todo => r :: todo
  | Panicked => []
  end.

(** The thread has nothing left to do. *)
Definition finished (t : Thread) : Prop := rest t = [].

#[export] Instance finished_dec t : Decision (finished t).
Proof. unfold finished. destruct (rest t); [left|right]; done. Defined.

(** The number of mutexes a thread holds, and the pool. *)
Definition occupied (t : Thread) : nat :=
  match t with Inside _ _ => 1 | _ => 0 end.

Definition holders (pool : list Thread) : nat := sum_list (occupied <$> pool).

(** The mutex is held exactly while one thread is inside, and a poisoned
    mutex is held by nobody. *)
Definition pool_ok (cfg : Config) : Prop :=
  holders cfg.1 = (if Connections.held (registry cfg.2) then 1 else 0) ∧
  (poisoned cfg.2 = true → Connections.held (registry cfg.2) = false).

#[export] Instance pool_ok_dec cfg : Decision (pool_ok cfg).
Proof. unfold pool_ok. apply _. Defined.

(** The steps a thread has before it at most: two for a call, one when
    it is inside. *)
Definition work (t : Thread) : nat :=
  match t with
  | Ready todo => 2 * length todo
  | Inside _ todo => 2 * length todo + 1
  | Panicked => 0
  end.

(** The steps the pool has before it at most. *)
Definition total_work (pool : list Thread) : nat := sum_list (work <$> pool).

(** No dial of the registry hangs: [join] returns or panics. *)
Definition alive (self : Connections) : Prop :=
  map_Forall (λ _ c, Connection.join c ≠ Blocks) (Connections.servers self).

#[export] Instance join_ends_dec (c : Connection) : Decision (Connection.join c ≠ Blocks).
Proof. destruct c as [[[r| |]]|r]; [left|right|left|left]; (done || by intros H; apply H). Defined.

#[export] Instance alive_dec self : Decision (alive self).
Proof. unfold alive. apply _. Defined.

End serve.

(** ** Facts *)

Section facts.
Context {common : Common} {search : SliceSearch} {order : HashOrder}.
Implicit Types (r : Request) (self : Connections) (t : Thread) (σ : Shared) (cfg : Config).
Implicit Types (pool : list Thread) (schedule : list nat) (trace : list (nat * Event)).

(** *** The methods and the mutex *)

Lemma with_held_held self : with_held (Connections.held self) self = self.
Proof. by destruct self. Qed.

Lemma with_held_idemp b b' self : with_held b (with_held b' self) = with_held b self.
Proof. done. Qed.

(** A method gives the mutex back as it found it. *)
Lemma serve_held r self self' :
  serve r self = Returns self' → Connections.held self' = Connections.held self.
Proof.
  destruct r as [addr result|addr|addr|addr callback|callback|now callback]; simpl.
  - rewrite /Connections.insert. case_match; [done|]. by intros [= <-].
  - rewrite /Connections.remove. case_match; [done|]. by intros [= <-].
  - by intros [= <-].
  - destruct (Connections.execute _ _ _ _ _) as [[self1 []]| |] eqn:He; [|done..].
    intros [= <-]. by apply execute_frame in He as (_ & _ & _ & _ & ?).
  - destruct (Connections.foreach _ _ _) as [[self1 []]| |] eqn:Hf; [|done..].
    intros [= <-]. by apply foreach_frame in Hf as (_ & _ & _ & _ & ?).
  - destruct (Connections.try_read _ _ _ _) as [[[self1 []] res]| |] eqn:Ht; [|done..].
    intros [= <-]. by apply try_read_keeps in Ht as (_ & _ & _ & ?).
Qed.

(** On a mutex that is held only a poll returns, and it has done
    nothing. *)
Lemma serve_contended r self self' :
  Connections.held self = true → uses_map r = true → serve r self = Returns self' →
  self' = self ∧ ∃ now callback, r = TryRead now callback.
Proof.
  intros Hh. destruct r as [addr result|addr|addr|addr callback|callback|now callback];
    rewrite /= ?/Connections.insert ?/Connections.remove ?/Connections.execute
      ?/Connections.foreach ?/Connections.try_read ?Hh //=.
  intros _ [= <-]. eauto.
Qed.

(** [set_current] does not look at the mutex of the map. *)
Lemma serve_unheld r self self' :
  uses_map r = false → serve r self = Returns self' →
  serve r (with_held false self) = Returns (with_held false self').
Proof. destruct r; try done. by intros _ [= <-]. Qed.

(** *** The step of a thread *)

Lemma with_registry_id σ : with_registry (registry σ) σ = σ.
Proof. by destruct σ. Qed.

(** The function and the rules are the same relation. *)
Lemma thread_step_spec t σ e t' σ' :
  thread_step t σ = Some (e, t', σ') ↔ steps_to t σ e t' σ'.
Proof.
  split.
  - destruct t as [[|r todo]|r todo|]; simpl; [done| | |done].
    + destruct (uses_map r) eqn:Hu, (poisoned σ) eqn:Hp; simpl.
      * destruct r; intros [= <- <- <-]; try (by apply step_lock_poisoned); by constructor.
      * destruct (Connections.held (registry σ)) eqn:Hh; simpl.
        { destruct (serve r (registry σ)) as [self| |] eqn:Hs; [|done..]. intros [= <- <- <-].
          destruct (serve_contended _ _ _ Hh Hu Hs) as (-> & now & callback & ->).
          rewrite with_registry_id. by constructor. }
        intros [= <- <- <-]. by constructor.
      * destruct r; try done. intros [= <- <- <-]. constructor.
      * destruct r; try done. intros [= <- <- <-]. constructor.
    + destruct (serve r _) as [self| |] eqn:Hs; [|done|]; intros [= <- <- <-]; by constructor.
  - intros [now callback todo σ0 Hp|r todo σ0 Hu Hr Hp|r todo σ0 Hu Hp Hh
      |now callback todo σ0 Hp Hh|addr todo σ0|r todo σ0 self Hs|r todo σ0 Hs]; simpl.
    + by rewrite Hp.
    + rewrite Hu Hp /=. destruct r; try done. by destruct (Hr now callback).
    + by rewrite Hu Hp Hh.
    + by rewrite Hp /Connections.try_read Hh /= with_registry_id.
    + done.
    + by rewrite Hs.
    + by rewrite Hs.
Qed.

Lemma pool_step_spec i cfg e cfg' :
  pool_step i cfg = Some (e, cfg') ↔
  ∃ t t', cfg.1 !! i = Some t ∧ steps_to t cfg.2 e t' cfg'.2 ∧ cfg'.1 = <[i := t']> cfg.1.
Proof.
  unfold pool_step. destruct cfg' as [pool' σ']. split.
  - destruct (cfg.1 !! i) as [t|]; [|done]. simpl.
    destruct (thread_step t cfg.2) as [[[e0 t'] σ0]|] eqn:Hs; [|done].
    intros [= <- <- <-]. exists t, t'. by rewrite -thread_step_spec.
  - intros (t & t' & -> & Hs%thread_step_spec & Hpool). simpl in *. by rewrite Hs /= Hpool.
Qed.

(** *** Sums over the pool *)

Lemma sum_list_insert (f : Thread → nat) pool i t t' :
  pool !! i = Some t →
  sum_list (f <$> <[i := t']> pool) + f t = sum_list (f <$> pool) + f t'.
Proof.
  revert i. induction pool as [|t0 pool IH]; intros [|i]; csimpl; try done.
  - intros [= ->]. lia.
  - intros Hi. specialize (IH i Hi). lia.
Qed.

Lemma sum_list_lookup (f : Thread → nat) pool i t :
  pool !! i = Some t → f t ≤ sum_list (f <$> pool).
Proof.
  revert i. induction pool as [|t0 pool IH]; intros [|i]; csimpl; try done.
  - intros [= ->]. lia.
  - intros Hi. specialize (IH i Hi). lia.
Qed.

Lemma holders_pos pool :
  0 < holders pool → ∃ i r todo, pool !! i = Some (Inside r todo).
Proof.
  unfold holders. induction pool as [|t pool IH]; csimpl; [lia|].
  destruct t as [todo|r todo|]; simpl; [|by exists 0, r, todo|].
  all: intros (i & r & todo' & Hi)%IH; by exists (S i), r, todo'.
Qed.

(** Two threads inside make two holders. *)
Lemma holders_two pool i j r r' todo todo' :
  pool !! i = Some (Inside r todo) → pool !! j = Some (Inside r' todo') → i ≠ j →
  2 ≤ holders pool.
Proof.
  unfold holders. revert i j. induction pool as [|t pool IH]; intros [|i] [|j]; csimpl; try done.
  - intros [= ->] Hj _. pose proof (sum_list_lookup occupied _ _ _ Hj). simpl in *. lia.
  - intros Hi [= ->] _. pose proof (sum_list_lookup occupied _ _ _ Hi). simpl in *. lia.
  - intros Hi Hj Hij. assert (i ≠ j) as Hne by congruence.
    pose proof (IH i j Hi Hj Hne). lia.
Qed.

(** *** Mutual exclusion *)

(** What a step does to the number of holders and to the mutex. *)
Lemma steps_to_held t σ e t' σ' :
  steps_to t σ e t' σ' →
  occupied t ≤ (if Connections.held (registry σ) then 1 else 0) →
  (if Connections.held (registry σ') then 1 else 0) + occupied t =
  (if Connections.held (registry σ) then 1 else 0) + occupied t'.
Proof.
  intros [now callback todo σ0 Hp|r todo σ0 Hu Hr Hp|r todo σ0 Hu Hp Hh
    |now callback todo σ0 Hp Hh|addr todo σ0|r todo σ0 self Hs|r todo σ0 Hs]; simpl;
    rewrite ?Hh //; try (apply serve_held in Hs as ->; simpl);
    destruct (Connections.held _); lia.
Qed.

Lemma steps_to_poison t σ e t' σ' :
  steps_to t σ e t' σ' →
  (poisoned σ = true → Connections.held (registry σ) = false) →
  poisoned σ' = true → Connections.held (registry σ') = false.
Proof.
  intros [now callback todo σ0 Hp|r todo σ0 Hu Hr Hp|r todo σ0 Hu Hp Hh
    |now callback todo σ0 Hp Hh|addr todo σ0|r todo σ0 self Hs|r todo σ0 Hs]; simpl;
    try done; try congruence.
  intros _ _. by apply serve_held in Hs.
Qed.

Lemma pool_step_ok i cfg e cfg' :
  pool_step i cfg = Some (e, cfg') → pool_ok cfg → pool_ok cfg'.
Proof.
  intros (t & t' & Ht & Hs & Hpool)%pool_step_spec. unfold pool_ok, holders. rewrite Hpool.
  pose proof (sum_list_insert occupied _ _ _ t' Ht) as Hsum.
  pose proof (sum_list_lookup occupied _ _ _ Ht) as Hle. intros [Hok Hp]. rewrite Hok in Hsum Hle.
  pose proof (steps_to_held _ _ _ _ _ Hs Hle). split; [lia|by eapply steps_to_poison].
Qed.

Lemma run_schedule_cons i schedule cfg trace cfg' :
  run_schedule (i :: schedule) cfg = Some (trace, cfg') ↔
  ∃ e cfg1 trace1, pool_step i cfg = Some (e, cfg1) ∧
    run_schedule schedule cfg1 = Some (trace1, cfg') ∧ trace = (i, e) :: trace1.
Proof.
  simpl. destruct (pool_step i cfg) as [[e cfg1]|]; simpl; [|by split; [|intros (? & ? & ? & ? & _)]].
  split.
  - destruct (run_schedule schedule cfg1) as [[trace1 cfg2]|] eqn:Hr; simpl; [|done].
    intros ?. simplify_eq. by exists e, cfg1, trace1.
  - intros (? & ? & trace1 & ? & Hr & ->). simplify_eq. by rewrite Hr.
Qed.

(** What every step keeps, every schedule keeps. *)
Lemma run_schedule_ind (P : Config → Prop) :
  (∀ i cfg e cfg', pool_step i cfg = Some (e, cfg') → P cfg → P cfg') →
  ∀ schedule cfg trace cfg', run_schedule schedule cfg = Some (trace, cfg') → P cfg → P cfg'.
Proof.
  intros Hstep. induction schedule as [|i schedule IH]; intros cfg trace cfg'.
  { by intros [= _ <-]. }
  intros (e & cfg1 & trace1 & Hs & Hr & _)%run_schedule_cons HP. eauto.
Qed.

Lemma pool_start_ok programs self : pool_ok (start programs self).
Proof.
  split; [|done]. unfold holders. simpl.
  induction programs as [|program programs IH]; csimpl; [done|]. by rewrite IH.
Qed.

Lemma run_schedule_ok schedule cfg trace cfg' :
  run_schedule schedule cfg = Some (trace, cfg') → pool_ok cfg → pool_ok cfg'.
Proof. apply (run_schedule_ind pool_ok), pool_step_ok. Qed.

Lemma pool_ok_exclusive cfg i j r r' todo todo' :
  pool_ok cfg →
  cfg.1 !! i = Some (Inside r todo) → cfg.1 !! j = Some (Inside r' todo') → i = j.
Proof.
  intros [Hok _] Hi Hj. destruct (decide (i = j)) as [|Hne]; [done|].
  pose proof (holders_two _ _ _ _ _ _ _ Hi Hj Hne) as Hle. rewrite Hok in Hle.
  destruct (Connections.held _); lia.
Qed.

(** *** One call after the other *)

Lemma serve_all_app requests requests' self :
  serve_all (requests ++ requests') self = serve_all requests self ≫= serve_all requests'.
Proof.
  revert self. induction requests as [|r requests IH]; intros self; [done|]. simpl.
  destruct (serve r self) as [self'| |]; [apply IH|done..].
Qed.

Lemma served_cons i e trace : served ((i, e) :: trace) = effect e ++ served trace.
Proof. done. Qed.

Lemma passed_cons i j e trace :
  passed j ((i, e) :: trace) = (if decide (i = j) then gone e else []) ++ passed j trace.
Proof. done. Qed.

(** Poison does not go away, and a thread dies of nothing else. *)
Lemma steps_to_sound t σ e t' σ' :
  steps_to t σ e t' σ' → poisoned σ' = false → poisoned σ = false ∧ e ≠ Died.
Proof. destruct 1; simpl; intros; split; congruence. Qed.

(** A step changes the registry as the call it serves, run alone, and
    not at all when it serves none. *)
Lemma steps_to_serial t σ e t' σ' :
  steps_to t σ e t' σ' → poisoned σ' = false →
  serve_all (effect e) (with_held false (registry σ)) = Returns (with_held false (registry σ')).
Proof.
  intros [now callback todo σ0 Hp|r todo σ0 Hu Hr Hp|r todo σ0 Hu Hp Hh
    |now callback todo σ0 Hp Hh|addr todo σ0|r todo σ0 self Hs|r todo σ0 Hs]; simpl;
    try done; try congruence.
  rewrite Hs /=. intros _. apply serve_held in Hs. simpl in Hs. by rewrite -Hs with_held_held.
Qed.

Lemma steps_to_rest t σ e t' σ' :
  steps_to t σ e t' σ' → e ≠ Died → rest t = gone e ++ rest t'.
Proof. by destruct 1. Qed.

Lemma steps_to_length t σ e t' σ' : steps_to t σ e t' σ' → work t' < work t.
Proof. destruct 1; simpl; lia. Qed.

(** Every interleaving that leaves the mutex sound is serial: the
    registry is what the served calls make of it in the order of the
    trace, and every thread has passed a prefix of its program. *)
Lemma run_schedule_serial schedule cfg trace cfg' :
  run_schedule schedule cfg = Some (trace, cfg') → poisoned cfg'.2 = false →
  poisoned cfg.2 = false ∧
  serve_all (served trace) (with_held false (registry cfg.2)) =
    Returns (with_held false (registry cfg'.2)) ∧
  ∀ j t, cfg.1 !! j = Some t → ∃ t', cfg'.1 !! j = Some t' ∧ rest t = passed j trace ++ rest t'.
Proof.
  revert cfg trace. induction schedule as [|i schedule IH]; intros cfg trace.
  { intros [= <- <-] Hp. by eauto. }
  intros (e & cfg1 & trace1 & (t & t' & Ht & Hs & Hpool)%pool_step_spec & Hr & ->)%run_schedule_cons Hp.
  destruct (IH _ _ Hr Hp) as (Hp1 & Hserial & Hrest).
  destruct (steps_to_sound _ _ _ _ _ Hs Hp1) as [Hp0 He]. split; [done|]. split.
  - by rewrite served_cons serve_all_app (steps_to_serial _ _ _ _ _ Hs Hp1).
  - intros j tj Hj. rewrite passed_cons. destruct (decide (i = j)) as [->|Hne].
    + destruct (Hrest j t') as (t'' & Ht'' & Heq).
      { rewrite Hpool. apply list_lookup_insert_eq. by eapply lookup_lt_Some. }
      exists t''. split; [done|]. simplify_eq.
      by rewrite (steps_to_rest _ _ _ _ _ Hs He) Heq assoc.
    + apply Hrest. by rewrite Hpool list_lookup_insert_ne.
Qed.

(** *** No call waits but for a dial *)

Section walk.
Context {A : Type} (visit : Synac → A → Run (Result (Synac * A) Error)).

(** The walk over the map does not wait when no dial hangs and no visit
    waits. *)
Lemma visit_loop_not_blocks keys (servers : gmap SocketAddr Connection) acc :
  (∀ synac acc, visit synac acc ≠ Blocks) →
  map_Forall (λ _ c, Connection.join c ≠ Blocks) servers →
  visit_loop visit keys servers acc ≠ Blocks.
Proof.
  intros Hvisit. revert servers acc. induction keys as [|addr keys IH]; intros servers acc Ha;
    [done|]. simpl. destruct (servers !! addr) as [c|] eqn:Hc; [|by apply IH].
  pose proof (Ha _ _ Hc) as Hj. simpl in Hj.
  destruct (Connection.join c) as [[c' result]| |] eqn:Hjoin;
    [|done..]. apply join_Returns in Hjoin as [-> _]. simpl.
  destruct result as [synac|err]; [|by apply IH, map_Forall_insert_2].
  pose proof (Hvisit synac acc) as Hv.
  destruct (visit synac acc) as [[[synac' acc']|err]| |]; [|done..].
  by apply IH, map_Forall_insert_2.
Qed.

End walk.

Lemma alive_resolved c : resolved c → Connection.join c ≠ Blocks.
Proof. by destruct c. Qed.

Lemma serve_not_blocks r self :
  Connections.held self = false → alive self → serve r self ≠ Blocks.
Proof.
  intros Hh Ha. destruct r as [addr result|addr|addr|addr callback|callback|now callback]; simpl.
  - by rewrite /Connections.insert Hh.
  - by rewrite /Connections.remove Hh.
  - done.
  - rewrite execute_unfold //. destruct (Connections.servers self !! addr) as [c|] eqn:Hc; [|done].
    pose proof (Ha _ _ Hc) as Hj. simpl in Hj.
    by destruct (Connection.join c) as [[c' [synac|err]]| |].
  - rewrite foreach_unfold //.
    pose proof (visit_loop_not_blocks (call (λ synac (acc : ()), (callback synac, acc)))
      (iter_keys (Connections.servers self)) _ () (λ _ _, ltac:(done)) Ha).
    by destruct (visit_loop _ _ _ _) as [[[servers' acc'] res]| |].
  - rewrite try_read_unfold //.
    pose proof (visit_loop_not_blocks
      (Connections.poll now (λ synac packet channel (acc : ()), (callback synac packet channel, acc)))
      (iter_keys (Connections.servers self)) (Connections.servers self) ()) as Hloop.
    destruct (visit_loop _ _ _ _) as [[[servers' acc'] res]| |]; [done| |done].
    exfalso. apply Hloop; [|done..]. intros synac acc Hb.
    pose proof (poll_returns now (λ synac packet channel (acc : ()),
      (callback synac packet channel, acc)) synac acc) as Hr. by rewrite Hb in Hr.
Qed.

(** A call leaves no dial behind that hangs. *)
Lemma serve_alive r self self' : serve r self = Returns self' → alive self → alive self'.
Proof.
  intros Hs Ha. pose proof (serve_held _ _ _ Hs) as Hheld. revert Hs.
  destruct r as [addr result|addr|addr|addr callback|callback|now callback]; simpl.
  - rewrite /Connections.insert. case_match; [done|]. intros [= <-]. by apply map_Forall_insert_2.
  - rewrite /Connections.remove. case_match; [done|]. intros [= <-]. by apply map_Forall_delete.
  - by intros [= <-].
  - destruct (Connections.execute _ _ _ _ _) as [[self1 []]| |] eqn:He; [|done..]. intros [= ->].
    destruct (execute_frame _ _ _ _ _ _ _ He) as [Hh _]. revert He. rewrite execute_unfold //.
    destruct (Connections.servers self !! addr) as [c|]; [|by intros [= <-]].
    intros ([c' result] & [-> _]%join_Returns & Hr)%run_bind_Returns.
    destruct result; injection Hr as [= <-]; by apply map_Forall_insert_2.
  - destruct (Connections.foreach _ _ _) as [[self1 []]| |] eqn:Hf; [|done..]. intros [= ->].
    destruct (foreach_frame _ _ _ _ _ Hf) as [Hh _].
    apply foreach_inv in Hf as (servers' & Hloop & ->); [|done].
    by eapply (visit_loop_Forall _ (λ _ c, Connection.join c ≠ Blocks));
      [intros _ c; apply alive_resolved|exact Ha|].
  - destruct (Connections.try_read _ _ _ _) as [[[self1 []] res]| |] eqn:Ht; [|done..].
    intros [= ->]. destruct (Connections.held self) eqn:Hh.
    { rewrite /Connections.try_read Hh in Ht. by simplify_eq. }
    apply try_read_inv in Ht as (servers' & Hloop & ->); [|done].
    by eapply (visit_loop_Forall _ (λ _ c, Connection.join c ≠ Blocks));
      [intros _ c; apply alive_resolved|exact Ha|].
Qed.

Lemma steps_to_alive t σ e t' σ' :
  steps_to t σ e t' σ' → alive (registry σ) → alive (registry σ').
Proof. destruct 1; try done. intros Ha. eapply serve_alive; [done|exact Ha]. Qed.

Lemma pool_step_alive i cfg e cfg' :
  pool_step i cfg = Some (e, cfg') → alive (registry cfg.2) → alive (registry cfg'.2).
Proof. intros (t & t' & _ & Hs & _)%pool_step_spec. by eapply steps_to_alive. Qed.

(** *** Progress *)

(** A poll always has its step: it enters, or it gives way. *)
Lemma poll_never_waits i cfg now callback todo :
  cfg.1 !! i = Some (Ready (TryRead now callback :: todo)) → is_Some (pool_step i cfg).
Proof.
  intros Hi. rewrite /pool_step Hi /=. destruct (poisoned cfg.2); [by eexists|]. simpl.
  destruct (Connections.held (registry cfg.2)) eqn:Hh; simpl; [|by eexists].
  rewrite /Connections.try_read Hh /=. by eexists.
Qed.

(** While no dial hangs, the pool is at its end or has a step. *)
Lemma pool_not_stuck cfg :
  pool_ok cfg → alive (registry cfg.2) →
  Forall finished cfg.1 ∨ ∃ i, is_Some (pool_step i cfg).
Proof.
  intros [Hok _] Ha.
  destruct (decide (0 < holders cfg.1)) as [(i & r & todo & Hi)%holders_pos|Hz].
  - right. exists i. rewrite /pool_step Hi /=.
    pose proof (serve_not_blocks r (with_held false (registry cfg.2)) eq_refl Ha) as Hs.
    by destruct (serve r _); [eexists|..|eexists].
  - destruct (decide (Forall finished cfg.1)) as [|Hnot]; [by left|]. right.
    apply not_Forall_Exists in Hnot; [|apply _].
    apply Exists_exists in Hnot as (t & [i Hi]%list_elem_of_lookup & Hnf). exists i.
    assert (Connections.held (registry cfg.2) = false) as Hh.
    { destruct (Connections.held _); [lia|done]. }
    rewrite /pool_step Hi /=.
    destruct t as [[|r todo]|r todo|]; [by destruct Hnf| | |by destruct Hnf].
    + simpl. rewrite Hh /=. destruct (uses_map r) eqn:Hu; simpl.
      * destruct (poisoned cfg.2); [by destruct r; eexists|by eexists].
      * by destruct r.
    + pose proof (sum_list_lookup occupied _ _ _ Hi). unfold holders in Hz. simpl in *. lia.
Qed.

(** Every step uses up work: no schedule is longer than the work of the
    pool it starts from. *)
Lemma pool_step_work i cfg e cfg' :
  pool_step i cfg = Some (e, cfg') → total_work cfg'.1 < total_work cfg.1.
Proof.
  intros (t & t' & Ht & Hs%steps_to_length & ->)%pool_step_spec. unfold total_work.
  pose proof (sum_list_insert work _ _ _ t' Ht). lia.
Qed.

Lemma run_schedule_length schedule cfg trace cfg' :
  run_schedule schedule cfg = Some (trace, cfg') →
  length schedule + total_work cfg'.1 ≤ total_work cfg.1.
Proof.
  revert cfg trace. induction schedule as [|i schedule IH]; intros cfg trace.
  { intros [= _ <-]. simpl. lia. }
  intros (e & cfg1 & trace1 & Hs%pool_step_work & Hr%IH & _)%run_schedule_cons. simpl. lia.
Qed.

(** While no dial hangs, some schedule takes the pool to its end. *)
Lemma pool_runs_out cfg :
  pool_ok cfg → alive (registry cfg.2) →
  ∃ schedule trace cfg', run_schedule schedule cfg = Some (trace, cfg') ∧ Forall finished cfg'.1.
Proof.
  remember (total_work cfg.1) as n eqn:Hn. revert cfg Hn.
  induction n as [n IH] using lt_wf_ind. intros cfg -> Hok Ha.
  destruct (pool_not_stuck cfg Hok Ha) as [Hend|(i & [e cfg1] & Hs)].
  { by exists [], [], cfg. }
  destruct (IH _ (pool_step_work _ _ _ _ Hs) cfg1 eq_refl) as (schedule & trace & cfg' & Hr & Hend);
    [by eapply pool_step_ok|by eapply pool_step_alive|].
  exists (i :: schedule), ((i, e) :: trace), cfg'. split; [|done].
  apply run_schedule_cons. by exists e, cfg1, trace.
Qed.

Lemma start_work programs self :
  total_work (start programs self).1 = 2 * length (concat programs).
Proof.
  unfold total_work. simpl. induction programs as [|program programs IH]; csimpl; [done|].
  rewrite IH length_app. lia.
Qed.

(** *** A poisoned mutex *)

Lemma steps_to_poisoned t σ e t' σ' :
  steps_to t σ e t' σ' → poisoned σ = true → occupied t = 0 →
  poisoned σ' = true ∧
  Connections.servers (registry σ') = Connections.servers (registry σ) ∧
  ∀ r, e = Served r → uses_map r = false.
Proof. destruct 1; simpl; intros; try done; try congruence; by repeat split; intros; simplify_eq. Qed.

(** After a panic inside the map no call reaches the map again: every
    call that locks dies, every poll gives way, and the map stays as the
    panic left it. *)
Lemma poisoned_for_good i cfg e cfg' :
  pool_ok cfg → poisoned cfg.2 = true → pool_step i cfg = Some (e, cfg') →
  poisoned cfg'.2 = true ∧
  Connections.servers (registry cfg'.2) = Connections.servers (registry cfg.2) ∧
  ∀ r, e = Served r → uses_map r = false.
Proof.
  intros [Hok Hh] Hp (t & t' & Ht & Hs & _)%pool_step_spec.
  apply (steps_to_poisoned _ _ _ _ _ Hs Hp).
  pose proof (sum_list_lookup occupied _ _ _ Ht) as Hle. unfold holders in Hok.
  rewrite Hok (Hh Hp) in Hle. lia.
Qed.

(** ** The theorems *)


(** C19: no deadlock.  From a registry none of whose dials hangs, and
    whatever the interleaving: a schedule is never longer than two steps
    for each call; a thread that is about to poll has its step, so that a
    poll never waits for the mutex; the pool is at its end or one of its
    threads can step; and some schedule from there takes every thread to
    the end of its program or to its panic. *)
Theorem pool_completes schedule programs self trace cfg :
  alive self →
  run_schedule schedule (start programs self) = Some (trace, cfg) →
  length schedule ≤ 2 * length (concat programs) ∧
  (∀ i now callback todo,
     cfg.1 !! i = Some (Ready (TryRead now callback :: todo)) → is_Some (pool_step i cfg)) ∧
  (Forall finished cfg.1 ∨ ∃ i, is_Some (pool_step i cfg)) ∧
  ∃ schedule' trace' cfg',
    run_schedule schedule' cfg = Some (trace', cfg') ∧ Forall finished cfg'.1.
Proof.
  intros Ha Hr. pose proof (run_schedule_ok _ _ _ _ Hr (pool_start_ok _ _)) as Hok.
  pose proof (run_schedule_ind (λ cfg, alive (registry cfg.2)) pool_step_alive _ _ _ _ Hr Ha)
    as Ha'.
  split; [|split; [|split]].
  - pose proof (run_schedule_length _ _ _ _ Hr) as Hlen. rewrite start_work in Hlen. lia.
  - intros i now callback todo. apply poll_never_waits.
  - by apply pool_not_stuck.
  - by apply pool_runs_out.
Qed.

End facts.

(** ** Examples *)

Section examples.

#[local] Existing Instance ex_common.
#[local] Existing Instance trie_order.

(** Three threads on the registry of two sessions: one changes the
    channel of a session and polls, one polls and selects no server, one
    removes a session. *)
Definition ex_pool_programs : list (list Request) :=
  [ [Execute ex_a3 (Synac.with_current_channel (Some 1%N)); TryRead 5 (λ synac _ _, synac)];
    [TryRead 5 (λ synac _ _, synac); SetCurrent None];
    [Remove ex_a1] ].

(** The first thread is inside the map while the second polls and
    selects; the third removes the broken session before the first
    polls. *)
Definition ex_pool_schedule : list nat := [0; 1; 1; 0; 2; 2; 0; 0].

Definition ex_pool_run : option (list (nat * Event) * Config) :=
  run_schedule ex_pool_schedule (start ex_pool_programs ex_two).

Definition ex_pool_end : Connections :=
  {| Connections.current_server := None; Connections.nick := "alice";
     Connections.servers :=
       {[ ex_a3 := Connected (Ok (Synac.with_messages
            (default Messages.new (Messages.add ex_hello Messages.new))
            (Synac.with_session (ex_session ex_a3 [])
               (Synac.with_current_channel (Some 1%N)
                  (Synac.with_state (State.update (Packet.MessageReceive ex_hello true)
                     (Synac.state ex_live)) ex_live))))) ]};
     Connections.held := false |}.

(** A thread inside the map on a dial that hangs, and a thread that
    polls. *)
Definition ex_pool_waiting : Config :=
  ([Inside (Foreach id) []; Ready [TryRead 5 (λ synac _ _, synac); TryRead 6 (λ synac _ _, synac)]],
   {| registry := with_held true ex_hung; poisoned := false |}).

(** A registry one of whose dial threads has panicked. *)
Definition ex_pool_panicked : Connections :=
  {| Connections.current_server := None; Connections.nick := "alice";
     Connections.servers := {[ ex_a1 := Connecting (spawn Panics) ]};
     Connections.held := false |}.

Definition ex_pool_poisoning : list (list Request) :=
  [ [Foreach id]; [TryRead 5 (λ synac _ _, synac); Insert ex_a3 ex_live] ].

Definition ex_pool_trace : list (nat * Event) := default [] (fst <$> ex_pool_run).
Definition ex_pool_final : Config :=
  default ([], {| registry := ex_two; poisoned := false |}) (snd <$> ex_pool_run).

(** Every step of the schedule is enabled; the poll of the second thread
    gave way, every other call was served, and the threads are at their
    end with the mutex free. *)
Lemma ex_pool_ends :
  ex_pool_run = Some (ex_pool_trace, ex_pool_final) ∧
  served ex_pool_trace =
    [SetCurrent None; Execute ex_a3 (Synac.with_current_channel (Some 1%N)); Remove ex_a1;
     TryRead 5 (λ synac _ _, synac)] ∧
  passed 1 ex_pool_trace = [TryRead 5 (λ synac _ _, synac); SetCurrent None] ∧
  ex_pool_final.2 = {| registry := ex_pool_end; poisoned := false |} ∧
  Forall finished ex_pool_final.1.
Proof. split_and!; [by vm_compute..|]. apply (bool_decide_unpack _). by vm_compute. Qed.

(** The served calls, one after the other on one thread, give the same
    registry. *)
Lemma ex_pool_serial : serve_all (served ex_pool_trace) ex_two = Returns ex_pool_end.
Proof. by vm_compute. Qed.


Lemma ex_pool_alive : alive ex_two.
Proof. apply (bool_decide_unpack _). by vm_compute. Qed.

Lemma pool_completes_witness :
  length ex_pool_schedule ≤ 2 * length (concat ex_pool_programs) ∧
  (∀ i now callback todo,
     ex_pool_final.1 !! i = Some (Ready (TryRead now callback :: todo)) →
     is_Some (pool_step i ex_pool_final)) ∧
  (Forall finished ex_pool_final.1 ∨ ∃ i, is_Some (pool_step i ex_pool_final)) ∧
  ∃ schedule' trace' cfg',
    run_schedule schedule' ex_pool_final = Some (trace', cfg') ∧ Forall finished cfg'.1.
Proof.
  apply (pool_completes ex_pool_schedule ex_pool_programs ex_two ex_pool_trace ex_pool_final);
    [apply ex_pool_alive|by vm_compute].
Defined.

(** While a thread waits inside the map for a dial that hangs, it has no
    step; the polls of the other thread go on, one after the other. *)
Lemma ex_waiting_polls :
  pool_step 0 ex_pool_waiting = None ∧
  (λ out : list (nat * Event) * Config, (out.1.*1, rest <$> out.2.1)) <$>
    run_schedule [1; 1] ex_pool_waiting =
    Some ([1; 1], [[Foreach id]; []]).
Proof. by vm_compute. Qed.

Lemma ex_pool_hung : ¬ alive ex_hung.
Proof. apply (bool_decide_unpack _). by vm_compute. Qed.

(** The thread that joins the dial whose thread panicked dies inside the
    map; the poll before gave way, and the insert after it dies at the
    lock. *)
Lemma ex_pool_poisoned :
  (λ out : list (nat * Event) * Config, (served out.1, out.2.1, poisoned out.2.2)) <$>
    run_schedule [0; 1; 0; 1] (start ex_pool_poisoning ex_pool_panicked) =
  Some ([], [Panicked; Panicked], true).
Proof. by vm_compute. Qed.

End examples.

End Pool.

(** * The dial threads and the nickname *)

Section dials.
Context {common : Common} {network : Network} {net : StdNet}.
Context {search : SliceSearch} {order : HashOrder}.
Implicit Types (db : Db) (self : Connections) (app : App) (addr : SocketAddr).

(** Every dial that is pending in the map is the dial of a stored row as
    a thread makes it that reads the nickname now. *)
Definition reads_agree (db : Db) (self : Connections) : Prop :=
  ∀ addr handle, Connections.servers self !! addr = Some (Connecting handle) →
    ∃ row, row ∈ Db.servers db ∧ parse_addr (Db.ip row) = Some addr ∧
      Connecting handle = dial_of self db addr row.

(** [connect] reads nothing of the registry but the nickname. *)
Lemma connect_nick self self' addr hash token password db :
  Connections.nick self = Connections.nick self' →
  Connections.connect self addr hash token password db =
  Connections.connect self' addr hash token password db.
Proof. unfold Connections.connect. by intros ->. Qed.

Lemma dial_of_nick self self' db addr row :
  Connections.nick self = Connections.nick self' →
  dial_of self db addr row = dial_of self' db addr row.
Proof. intros Hn. unfold dial_of. by rewrite (connect_nick self self'). Qed.

Lemma new_agrees db nick : reads_agree db (Connections.new db nick).
Proof.
  intros addr handle. rewrite /Connections.new /= new_rows_lookup lookup_empty.
  destruct (last _) as [row|] eqn:Hlast; [|done]. intros [= Hc].
  apply last_Some_elem_of, list_elem_of_filter in Hlast as [Hrow Hin].
  exists row. split; [done|]. split; [done|]. rewrite -Hc. by apply dial_of_nick.
Qed.

(** The operations of the registry leave the pending dials and the
    nickname alone; the write of the nickname finds no dial pending. *)
Lemma moves_agree db self self' : moves self self' → reads_agree db self → reads_agree db self'.
Proof.
  intros [self0 self1 Hs|text self0 Hr] Ha addr handle Hc.
  - destruct (Ha addr handle (step_pending _ _ _ _ Hs Hc)) as (row & Hin & Hrow & Heq).
    exists row. split; [done|]. split; [done|]. rewrite Heq. apply dial_of_nick.
    by destruct (step_frame _ _ Hs).
  - by destruct (Hr addr _ Hc).
Qed.

(** C30: the dials read the nickname the model gave them.  In every state
    the window reaches, by the closures of main.rs and by what functions.rs
    does to the registry through its operations, every dial that is still
    pending is the dial of a stored row made with the nickname the
    registry holds at that moment: whenever its thread reads the nickname
    before it is joined, it reads the one the result was computed
    with. *)
Theorem dials_read_nick now db env_user app :
  rtc app_step (start now db env_user) app → reads_agree db (App.connections app).
Proof.
  intros Hr. apply rtc_nsteps in Hr as [n Hr].
  revert app Hr. induction n as [|n IH]; intros app Hr.
  - inversion Hr; subst. apply new_agrees.
  - apply nsteps_inv_r in Hr as (app0 & Hr & Hstep%app_step_moves).
    apply (rtc_moves_ind (reads_agree db) _ _ (λ _ _, ltac:(eauto using moves_agree, moves_step))
      (λ _ _ Hres, ltac:(eauto using moves_agree, moves_nick)) Hstep), IH, Hr.
Qed.

End dials.

Section dial_examples.

#[local] Existing Instance ex_common.
#[local] Existing Instance ex_net.
#[local] Existing Instance ex_network.

(** At the start every dial is pending, and agrees. *)
Lemma ex_start_agrees :
  reads_agree ex_db (App.connections ex_app) ∧
  map_Forall (λ _ c, ¬ resolved c) (Connections.servers (App.connections ex_app)).
Proof. split; [apply new_agrees|]. apply (bool_decide_unpack _). by vm_compute. Qed.

(** A write of the nickname while the dials are pending breaks the
    agreement: the thread of the first server may log in under either
    name.  The broadcast before the write is what rules that out. *)
Lemma ex_nick_race : ¬ reads_agree ex_db (set_nick "bob" (App.connections ex_app)).
Proof.
  intros Ha.
  destruct (Connections.servers (App.connections ex_app) !! ex_a1) as [[handle|]|] eqn:Hc;
    [|by vm_compute in Hc..].
  destruct (Ha ex_a1 handle Hc) as (row & Hin & Hrow & Heq).
  vm_compute in Hc. injection Hc as <-.
  repeat (apply elem_of_cons in Hin as [->|Hin]); [..|by apply elem_of_nil in Hin];
    first [by vm_compute in Hrow|by vm_compute in Heq].
Qed.

(** After the run of the examples of the window, in which the user
    changes the name. *)
Lemma dials_read_nick_witness : reads_agree ex_db (App.connections ex_final).
Proof. apply (dials_read_nick 0 ex_db (Some "alice"%string) ex_final (run_steps _ _ _ ex_run)). Defined.

End dial_examples.
