(* ===== verification/Window.v ===== *)
(** * The window [main] builds (main.rs)

    Between the construction of [App] and the main loop, [main] creates
    the widgets of the window, sets their properties, puts them into one
    another and connects its closures to their signals.  This file
    translates those calls, in their order, into the store of [Gui]:
    [new_widgets] for the widgets of the three structs, and one definition
    for each part of the window; [build] is all of them.

    A closure is named by a constructor of [Closure.t] and run by
    [run_closure], which gives it to the handler of [App] that models its
    body; [Args] is what a closure reads of the emission.  [emit] runs the
    closures connected to a signal of a widget in the order in which
    [main] connected them.

    The theorems relate the window to the handlers: the widgets form one
    tree under the window and no [add] is refused; every page a closure
    shows is a child of its stack, and the first child is the page the
    window starts with; emitting the signal of an event runs what
    [handle] runs for it; and [program], which is [main] with the window
    and the loop over its store, does what [main] over the handlers
    does.

    The widgets functions.rs creates ([render_servers] and the other
    renders) are not part of the store. *)

From Stdlib Require Import ssreflect Ascii Floats.
From stdpp Require Import list strings pretty relations.
From S2P Require Import Prelude BinarySearch Addr Transport Scroll Registry Gui App.

Open Scope general_if_scope.

(** ** The closures *)

Module Closure.

(** The closures of [main], in the order in which they are connected. *)
Inductive t :=
  | UserStackEditActivate
  | UserStackEditFocusOut
  | UserStackTextButtonPress
  | AddServerClicked
  | AddChannelClickedFirst
  | AddChannelClickedSecond
  | MessagesScrollChanged
  | MessagesScrollEdgeReached
  | MessageEditInputActivate
  | MessageEditCancelClicked
  | InputTextNotify
  | InputActivate
  | EditServerCancelClicked
  | EditServerOkClicked
  | EditChannelCancelClicked
  | EditChannelOkClicked
  | WindowDeleteEvent
  | Idle.

End Closure.

Abbreviation Closure := Closure.t.

#[export] Instance Closure_eq_dec : EqDecision Closure.
Proof. solve_decision. Defined.

(** What a closure reads of the emission that runs it: the button of a
    press, the edge of a scroll, and the clock. *)
Record Args := { button : N; pos : PositionType; now : N }.

(** ** The widgets *)

Module Widgets.

(** The widgets of [struct App], [struct EditServer] and
    [struct EditChannel]. *)
Record App := {
  channel_name : nat;
  channels : nat;
  message_edit : nat;
  message_edit_input : nat;
  messages : nat;
  messages_scroll : nat;
  server_name : nat;
  servers : nat;
  stack : nat;
  stack_edit_channel : nat;
  stack_edit_server : nat;
  stack_main : nat;
  user_stack : nat;
  user_stack_edit : nat;
  user_stack_text : nat;
  typing : nat;
  window : nat;
}.

Record EditServer := { name : nat; server : nat; hash : nat }.

Record EditChannel := { channel : nat; mode_bots : nat; mode_users : nat }.

(** The three structs, and the widgets [main] holds in variables of its
    own and connects a closure to. *)
Record t := {
  app : App;
  edit_server : EditServer;
  edit_channel : EditChannel;
  user_name : nat;
  add_server : nat;
  add_channel : nat;
  message_edit_cancel : nat;
  input : nat;
  edit_server_cancel : nat;
  edit_server_ok : nat;
  edit_channel_cancel : nat;
  edit_channel_ok : nat;
}.

End Widgets.

Abbreviation Widgets := Widgets.t.

Section build.
Context {common : Common}.

Definition Build : Type → Type := Gui.Build Closure.

(** The window and the three structs: the widgets are created in the
    order of the fields. *)
Definition new_widgets : Build (Widgets.App * Widgets.EditServer * Widgets.EditChannel) :=
  window ← Gui.new Gui.Window;
  Gui.set (Gui.Title "Synac GTK+ client") window;;
  Gui.set (Gui.DefaultSize 1000 700) window;;
  channel_name ← Gui.new (Gui.Label "");
  channels ← Gui.new (Gui.Box Gui.Vertical 2);
  message_edit ← Gui.new Gui.Revealer;
  message_edit_input ← Gui.new Gui.Entry;
  messages ← Gui.new (Gui.Box Gui.Vertical 10);
  messages_scroll ← Gui.new Gui.ScrolledWindow;
  server_name ← Gui.new (Gui.Label "");
  servers ← Gui.new (Gui.Box Gui.Vertical 2);
  stack ← Gui.new Gui.Stack;
  stack_edit_channel ← Gui.new (Gui.Box Gui.Vertical 2);
  stack_edit_server ← Gui.new (Gui.Box Gui.Vertical 2);
  stack_main ← Gui.new (Gui.Box Gui.Horizontal 10);
  user_stack ← Gui.new Gui.Stack;
  user_stack_edit ← Gui.new Gui.Entry;
  user_stack_text ← Gui.new Gui.EventBox;
  typing ← Gui.new (Gui.Label "");
  name ← Gui.new Gui.Entry;
  server ← Gui.new Gui.Entry;
  hash ← Gui.new Gui.Entry;
  channel ← Gui.new Gui.Entry;
  mode_bots ← Gui.new (Gui.Box Gui.Vertical 2);
  mode_users ← Gui.new (Gui.Box Gui.Vertical 2);
  mret ({| Widgets.channel_name := channel_name; Widgets.channels := channels;
           Widgets.message_edit := message_edit;
           Widgets.message_edit_input := message_edit_input;
           Widgets.messages := messages; Widgets.messages_scroll := messages_scroll;
           Widgets.server_name := server_name; Widgets.servers := servers;
           Widgets.stack := stack; Widgets.stack_edit_channel := stack_edit_channel;
           Widgets.stack_edit_server := stack_edit_server;
           Widgets.stack_main := stack_main; Widgets.user_stack := user_stack;
           Widgets.user_stack_edit := user_stack_edit;
           Widgets.user_stack_text := user_stack_text; Widgets.typing := typing;
           Widgets.window := window |},
        {| Widgets.name := name; Widgets.server := server; Widgets.hash := hash |},
        {| Widgets.channel := channel; Widgets.mode_bots := mode_bots;
           Widgets.mode_users := mode_users |}).

(** The pages of the two stacks. *)
Definition build_stacks (app : Widgets.App) : Build () :=
  Gui.set (Gui.StackTransition Gui.SlideLeftRight) (Widgets.stack app);;
  Gui.set (Gui.StackTransition Gui.Crossfade) (Widgets.user_stack app);;
  Gui.add (Widgets.stack app) (Widgets.stack_main app);;
  Gui.add (Widgets.stack app) (Widgets.stack_edit_server app);;
  Gui.add (Widgets.stack app) (Widgets.stack_edit_channel app);;
  Gui.add (Widgets.user_stack app) (Widgets.user_stack_text app);;
  Gui.add (Widgets.user_stack app) (Widgets.user_stack_edit app).

(** The name of the user: the label with the nickname and the entry that
    takes its place on a click.  The box of the servers is created on the
    way. *)
Definition build_user (nick : string) (app : Widgets.App) : Build (nat * nat) :=
  user_name ← Gui.new (Gui.Label nick);
  Gui.set (Gui.Class "bold") user_name;;
  Gui.set (Gui.Alignment 0.5) (Widgets.user_stack_edit app);;
  Gui.connect (Widgets.user_stack_edit app) Gui.Activate Closure.UserStackEditActivate;;
  Gui.connect (Widgets.user_stack_edit app) Gui.FocusOutEvent Closure.UserStackEditFocusOut;;
  servers_wrapper ← Gui.new (Gui.Box Gui.Vertical 0);
  Gui.set (Gui.Margin 10) user_name;;
  Gui.add (Widgets.user_stack_text app) user_name;;
  Gui.connect (Widgets.user_stack_text app) Gui.ButtonPressEvent
    Closure.UserStackTextButtonPress;;
  mret (user_name, servers_wrapper).

(** The column of the servers. *)
Definition build_servers (app : Widgets.App) (servers_wrapper : nat) : Build nat :=
  Gui.add servers_wrapper (Widgets.user_stack app);;
  separator ← Gui.new (Gui.Separator Gui.Vertical);
  Gui.add servers_wrapper separator;;
  Gui.add servers_wrapper (Widgets.servers app);;
  add ← Gui.new (Gui.Button "Add...");
  Gui.set (Gui.Class "add") add;;
  Gui.set (Gui.Valign Gui.AlignEnd) add;;
  Gui.set (Gui.Vexpand true) add;;
  Gui.connect add Gui.Clicked Closure.AddServerClicked;;
  Gui.add servers_wrapper add;;
  Gui.add (Widgets.stack_main app) servers_wrapper;;
  separator ← Gui.new (Gui.Separator Gui.Horizontal);
  Gui.add (Widgets.stack_main app) separator;;
  mret add.

(** The column of the channels.  Its button gets two closures; the box
    of the content is created between them. *)
Definition build_channels (app : Widgets.App) : Build (nat * nat) :=
  channels_wrapper ← Gui.new (Gui.Box Gui.Vertical 0);
  Gui.set (Gui.Class "bold") (Widgets.server_name app);;
  Gui.set (Gui.Margin 10) (Widgets.server_name app);;
  Gui.add channels_wrapper (Widgets.server_name app);;
  separator ← Gui.new (Gui.Separator Gui.Vertical);
  Gui.add channels_wrapper separator;;
  Gui.add channels_wrapper (Widgets.channels app);;
  add ← Gui.new (Gui.Button "Add...");
  Gui.set (Gui.Class "add") add;;
  Gui.set (Gui.Valign Gui.AlignEnd) add;;
  Gui.set (Gui.Vexpand true) add;;
  Gui.connect add Gui.Clicked Closure.AddChannelClickedFirst;;
  Gui.add channels_wrapper add;;
  Gui.add (Widgets.stack_main app) channels_wrapper;;
  separator ← Gui.new (Gui.Separator Gui.Horizontal);
  Gui.add (Widgets.stack_main app) separator;;
  content ← Gui.new (Gui.Box Gui.Vertical 2);
  Gui.set (Gui.Class "bold") (Widgets.channel_name app);;
  Gui.set (Gui.Margin 10) (Widgets.channel_name app);;
  Gui.connect add Gui.Clicked Closure.AddChannelClickedSecond;;
  mret (add, content).

(** The messages: the name of the channel, the scrolled window with its
    two closures, and the revealer with the entry of an edit. *)
Definition build_messages (app : Widgets.App) (content : nat) : Build nat :=
  Gui.add content (Widgets.channel_name app);;
  separator ← Gui.new (Gui.Separator Gui.Vertical);
  Gui.add content separator;;
  Gui.set (Gui.Valign Gui.AlignEnd) (Widgets.messages app);;
  Gui.set (Gui.Vexpand true) (Widgets.messages app);;
  Gui.add (Widgets.messages_scroll app) (Widgets.messages app);;
  Gui.set (Gui.Policy Gui.PolicyNever Gui.PolicyAlways) (Widgets.messages_scroll app);;
  Gui.connect (Widgets.messages_scroll app) Gui.VadjustmentChanged
    Closure.MessagesScrollChanged;;
  Gui.connect (Widgets.messages_scroll app) Gui.EdgeReached
    Closure.MessagesScrollEdgeReached;;
  Gui.add content (Widgets.messages_scroll app);;
  Gui.set (Gui.RevealerTransition Gui.SlideUp) (Widgets.message_edit app);;
  message_edit ← Gui.new (Gui.Box Gui.Vertical 2);
  label ← Gui.new (Gui.Label "Edit message");
  Gui.add message_edit label;;
  Gui.connect (Widgets.message_edit_input app) Gui.Activate
    Closure.MessageEditInputActivate;;
  Gui.add message_edit (Widgets.message_edit_input app);;
  message_edit_cancel ← Gui.new (Gui.Button "Cancel");
  Gui.connect message_edit_cancel Gui.Clicked Closure.MessageEditCancelClicked;;
  Gui.add message_edit message_edit_cancel;;
  Gui.add (Widgets.message_edit app) message_edit;;
  Gui.add content (Widgets.message_edit app);;
  mret message_edit_cancel.

(** The entry of the message and the label of the typists, which end the
    content. *)
Definition build_input (app : Widgets.App) (content : nat) : Build nat :=
  input ← Gui.new Gui.Entry;
  Gui.set (Gui.Hexpand true) input;;
  Gui.set (Gui.PlaceholderText "Send a message...") input;;
  Gui.connect input Gui.TextNotify Closure.InputTextNotify;;
  Gui.connect input Gui.Activate Closure.InputActivate;;
  Gui.add content input;;
  Gui.set (Gui.Xalign 0) (Widgets.typing app);;
  Gui.add content (Widgets.typing app);;
  Gui.add (Widgets.stack_main app) content;;
  mret input.

(** The form of the server. *)
Definition build_edit_server (app : Widgets.App) (edit_server : Widgets.EditServer)
    : Build (nat * nat) :=
  Gui.set (Gui.Margin 10) (Widgets.stack_edit_server app);;
  Gui.set (Gui.PlaceholderText "Server name...") (Widgets.name edit_server);;
  Gui.add (Widgets.stack_edit_server app) (Widgets.name edit_server);;
  label ← Gui.new (Gui.Label "The server name. This can be anything you want it to.");
  Gui.add (Widgets.stack_edit_server app) label;;
  Gui.set (Gui.PlaceholderText "Server IP...") (Widgets.server edit_server);;
  Gui.add (Widgets.stack_edit_server app) (Widgets.server edit_server);;
  label ← Gui.new (Gui.Label ("The server IP address. The default port is "
                               +:+ pretty DEFAULT_PORT +:+ "."));
  Gui.add (Widgets.stack_edit_server app) label;;
  Gui.set (Gui.PlaceholderText "Server's certificate hash...") (Widgets.hash edit_server);;
  Gui.add (Widgets.stack_edit_server app) (Widgets.hash edit_server);;
  label ← Gui.new (Gui.Label ("The server's certificate public key hash."
                               +:+ String "010"%char "This is to verify nobody is snooping on your connection"));
  Gui.add (Widgets.stack_edit_server app) label;;
  edit_server_controls ← Gui.new (Gui.Box Gui.Horizontal 2);
  edit_server_cancel ← Gui.new (Gui.Button "Cancel");
  Gui.connect edit_server_cancel Gui.Clicked Closure.EditServerCancelClicked;;
  Gui.add edit_server_controls edit_server_cancel;;
  edit_server_ok ← Gui.new (Gui.Button "Ok");
  Gui.connect edit_server_ok Gui.Clicked Closure.EditServerOkClicked;;
  Gui.add edit_server_controls edit_server_ok;;
  Gui.add (Widgets.stack_edit_server app) edit_server_controls;;
  mret (edit_server_cancel, edit_server_ok).

(** The form of the channel. *)
Definition build_edit_channel (app : Widgets.App) (edit_channel : Widgets.EditChannel)
    : Build (nat * nat) :=
  Gui.set (Gui.Margin 10) (Widgets.stack_edit_channel app);;
  Gui.set (Gui.PlaceholderText "Channel name...") (Widgets.channel edit_channel);;
  Gui.add (Widgets.stack_edit_channel app) (Widgets.channel edit_channel);;
  label ← Gui.new (Gui.Label "The channel name.");
  Gui.add (Widgets.stack_edit_channel app) label;;
  label ← Gui.new (Gui.Label "Default permissions for bots: ");
  Gui.set (Gui.Xalign 0) label;;
  Gui.add (Widgets.stack_edit_channel app) label;;
  Gui.add (Widgets.stack_edit_channel app) (Widgets.mode_bots edit_channel);;
  label ← Gui.new (Gui.Label "Default permissions for users: ");
  Gui.set (Gui.Xalign 0) label;;
  Gui.add (Widgets.stack_edit_channel app) label;;
  Gui.add (Widgets.stack_edit_channel app) (Widgets.mode_users edit_channel);;
  edit_channel_controls ← Gui.new (Gui.Box Gui.Horizontal 2);
  edit_channel_cancel ← Gui.new (Gui.Button "Cancel");
  Gui.connect edit_channel_cancel Gui.Clicked Closure.EditChannelCancelClicked;;
  Gui.add edit_channel_controls edit_channel_cancel;;
  edit_channel_ok ← Gui.new (Gui.Button "Ok");
  Gui.connect edit_channel_ok Gui.Clicked Closure.EditChannelOkClicked;;
  Gui.add edit_channel_controls edit_channel_ok;;
  Gui.add (Widgets.stack_edit_channel app) edit_channel_controls;;
  mret (edit_channel_cancel, edit_channel_ok).

(** The stack goes into the window; the closure of the delete event and
    the idle source are the last to be connected. *)
Definition build_window (app : Widgets.App) : Build () :=
  Gui.add (Widgets.window app) (Widgets.stack app);;
  Gui.connect (Widgets.window app) Gui.DeleteEvent Closure.WindowDeleteEvent;;
  Gui.idle_add Closure.Idle.

(** The calls of [main] on the toolkit, from the window to the idle
    source, with the nickname [nick] of the registry. *)
Definition build (nick : string) : Build Widgets :=
  '(app, edit_server, edit_channel) ← new_widgets;
  build_stacks app;;
  '(user_name, servers_wrapper) ← build_user nick app;
  add_server ← build_servers app servers_wrapper;
  '(add_channel, content) ← build_channels app;
  message_edit_cancel ← build_messages app content;
  input ← build_input app content;
  '(edit_server_cancel, edit_server_ok) ← build_edit_server app edit_server;
  '(edit_channel_cancel, edit_channel_ok) ← build_edit_channel app edit_channel;
  build_window app;;
  mret {| Widgets.app := app; Widgets.edit_server := edit_server;
          Widgets.edit_channel := edit_channel; Widgets.user_name := user_name;
          Widgets.add_server := add_server; Widgets.add_channel := add_channel;
          Widgets.message_edit_cancel := message_edit_cancel; Widgets.input := input;
          Widgets.edit_server_cancel := edit_server_cancel;
          Widgets.edit_server_ok := edit_server_ok;
          Widgets.edit_channel_cancel := edit_channel_cancel;
          Widgets.edit_channel_ok := edit_channel_ok |}.

(** The widgets and the store [main] has when it enters the loop. *)
Definition built (nick : string) : Widgets * Gui.t Closure := build nick Gui.empty.

End build.

Arguments built : simpl never.

(** ** Running the closures *)

Section closures.
Context {common : Common} {network : Network} {net : StdNet}.
Context {search : SliceSearch} {order : HashOrder}.
Implicit Types (app : App) (args : Args) (event : Event) (g : Gui.t Closure) (ws : Widgets).

(** The body of each closure is its handler. *)
Definition run_closure (c : Closure) args app : Run App :=
  match c with
  | Closure.UserStackEditActivate => user_stack_edit_activate app
  | Closure.UserStackEditFocusOut => Returns (user_stack_edit_focus_out app)
  | Closure.UserStackTextButtonPress =>
    Returns (user_stack_text_button_press (button args) app)
  | Closure.AddServerClicked => Returns (add_server_clicked app)
  | Closure.AddChannelClickedFirst => Returns (add_channel_clicked_first app)
  | Closure.AddChannelClickedSecond => Returns (add_channel_clicked_second app)
  | Closure.MessagesScrollChanged =>
    Returns (App.with_messages_scroll (messages_scroll_changed (App.messages_scroll app)) app)
  | Closure.MessagesScrollEdgeReached => messages_scroll_edge_reached (pos args) app
  | Closure.MessageEditInputActivate => message_edit_input_activate app
  | Closure.MessageEditCancelClicked => Returns (message_edit_cancel_clicked app)
  | Closure.InputTextNotify => input_text_notify (now args) app
  | Closure.InputActivate => input_activate (now args) app
  | Closure.EditServerCancelClicked => Returns (edit_server_cancel_clicked app)
  | Closure.EditServerOkClicked => edit_server_ok_clicked app
  | Closure.EditChannelCancelClicked => Returns (edit_channel_cancel_clicked app)
  | Closure.EditChannelOkClicked => edit_channel_ok_clicked app
  | Closure.WindowDeleteEvent => Returns app
  | Closure.Idle => idle (now args) app
  end.

(** The closures of one emission run one after the other; each of the
    closures of [main] lets the next one run. *)
Fixpoint run_closures (cs : list Closure) args app : Run App :=
  match cs with
  | [] => Returns app
  | c :: cs => app ← run_closure c args app; run_closures cs args app
  end.

Definition emit g (w : nat) (signal : Gui.Signal) args app : Run App :=
  run_closures (Gui.handlers g w signal) args app.

(** The widget and the signal an event of the loop is emitted on; an
    event of the idle source has none, and neither has an edit by the
    user. *)
Definition source ws event : option (nat * Gui.Signal) :=
  match event with
  | UserStackEditActivate =>
    Some (Widgets.user_stack_edit (Widgets.app ws), Gui.Activate)
  | UserStackEditFocusOut =>
    Some (Widgets.user_stack_edit (Widgets.app ws), Gui.FocusOutEvent)
  | UserStackTextButtonPress _ =>
    Some (Widgets.user_stack_text (Widgets.app ws), Gui.ButtonPressEvent)
  | AddServerClicked => Some (Widgets.add_server ws, Gui.Clicked)
  | AddChannelClicked => Some (Widgets.add_channel ws, Gui.Clicked)
  | EditServerCancelClicked => Some (Widgets.edit_server_cancel ws, Gui.Clicked)
  | EditServerOkClicked => Some (Widgets.edit_server_ok ws, Gui.Clicked)
  | EditChannelCancelClicked => Some (Widgets.edit_channel_cancel ws, Gui.Clicked)
  | EditChannelOkClicked => Some (Widgets.edit_channel_ok ws, Gui.Clicked)
  | MessagesScrollEdgeReached _ =>
    Some (Widgets.messages_scroll (Widgets.app ws), Gui.EdgeReached)
  | MessageEditInputActivate =>
    Some (Widgets.message_edit_input (Widgets.app ws), Gui.Activate)
  | MessageEditCancelClicked => Some (Widgets.message_edit_cancel ws, Gui.Clicked)
  | InputTextNotify _ => Some (Widgets.input ws, Gui.TextNotify)
  | InputActivate _ => Some (Widgets.input ws, Gui.Activate)
  | MessagesScrollChanged =>
    Some (Widgets.messages_scroll (Widgets.app ws), Gui.VadjustmentChanged)
  | Idle _ | EditUserStackEdit _ | EditInput _ | EditMessageEditInput _
  | EditEditServer _ | EditEditChannel _ | EditMessagesScroll _ => None
  end.

(** The closures the loop runs for an event: those connected to its
    signal, those of the idle source, and none for an edit by the user. *)
Definition closures_of (built : Widgets * Gui.t Closure) event : list Closure :=
  match source built.1 event, event with
  | Some (w, signal), _ => Gui.handlers built.2 w signal
  | None, Idle _ => Gui.idle built.2
  | None, _ => []
  end.

(** The emission carries what the event names. *)
Definition carries event args : Prop :=
  match event with
  | UserStackTextButtonPress b => button args = b
  | MessagesScrollEdgeReached p => pos args = p
  | InputTextNotify t | InputActivate t | Idle t => now args = t
  | _ => True
  end.

#[export] Instance carries_dec event args : Decision (carries event args).
Proof. destruct event; simpl; apply _. Defined.

(** The page of a stack as the widget that is shown. *)
Definition page_widget (app : Widgets.App) (page : Page) : nat :=
  match page with
  | StackMain => Widgets.stack_main app
  | StackEditServer => Widgets.stack_edit_server app
  | StackEditChannel => Widgets.stack_edit_channel app
  end.

Definition user_page_widget (app : Widgets.App) (page : UserPage) : nat :=
  match page with
  | UserStackText => Widgets.user_stack_text app
  | UserStackEdit => Widgets.user_stack_edit app
  end.

End closures.

(** ** The window and the handlers *)

Section window_theorems.
Context {common : Common} {network : Network} {net : StdNet}.
Context {search : SliceSearch} {order : HashOrder}.
Context (nick : string).
Implicit Types (app : App) (args : Args) (event : Event).

(** The closures each event runs, as [main] connects them. *)
Definition wired event : list Closure :=
  match event with
  | UserStackEditActivate => [Closure.UserStackEditActivate]
  | UserStackEditFocusOut => [Closure.UserStackEditFocusOut]
  | UserStackTextButtonPress _ => [Closure.UserStackTextButtonPress]
  | AddServerClicked => [Closure.AddServerClicked]
  | AddChannelClicked => [Closure.AddChannelClickedFirst; Closure.AddChannelClickedSecond]
  | EditServerCancelClicked => [Closure.EditServerCancelClicked]
  | EditServerOkClicked => [Closure.EditServerOkClicked]
  | EditChannelCancelClicked => [Closure.EditChannelCancelClicked]
  | EditChannelOkClicked => [Closure.EditChannelOkClicked]
  | MessagesScrollEdgeReached _ => [Closure.MessagesScrollEdgeReached]
  | MessageEditInputActivate => [Closure.MessageEditInputActivate]
  | MessageEditCancelClicked => [Closure.MessageEditCancelClicked]
  | InputTextNotify _ => [Closure.InputTextNotify]
  | InputActivate _ => [Closure.InputActivate]
  | MessagesScrollChanged => [Closure.MessagesScrollChanged]
  | Idle _ => [Closure.Idle]
  | EditUserStackEdit _ | EditInput _ | EditMessageEditInput _
  | EditEditServer _ | EditEditChannel _ | EditMessagesScroll _ => []
  end.

(** An edit of the user in an entry or a move of the scroll bar, which
    runs no closure of its own. *)
Definition user_edit event : Prop := wired event = [].

#[export] Instance user_edit_dec event : Decision (user_edit event).
Proof. unfold user_edit. apply _. Defined.

Lemma built_wired event : closures_of (built nick) event = wired event.
Proof. destruct event; by vm_compute. Qed.

(** What the walk of [show_all] finds in the window. *)
Lemma built_shown :
  ∃ l, Gui.show_all (built nick).2 (Widgets.window (Widgets.app (built nick).1)) = Some l ∧
    NoDup l ∧ Forall (λ w, w ∈ l) (seq 0 (length (Gui.widgets (built nick).2))) ∧
    length l = length (Gui.widgets (built nick).2).
Proof.
  eexists. split; [vm_compute; reflexivity|].
  split; [|split]; [apply (bool_decide_unpack _); vm_compute; exact I..|].
  vm_compute; reflexivity.
Qed.

(** The calls of [main] keep every store a forest, whatever it holds
    when [main] starts to build. *)
Lemma build_keeps_forest : keeps_forest (build nick).
Proof.
  unfold build, new_widgets, build_stacks, build_user, build_servers, build_channels,
    build_messages, build_input, build_edit_server, build_edit_channel, build_window.
  keeps_forest.
Qed.

Lemma built_forest : forest (built nick).2.
Proof. apply build_keeps_forest, empty_forest. Qed.

Lemma built_window_free :
  Widgets.window (Widgets.app (built nick).1) ∉ placed (built nick).2.
Proof. apply (bool_decide_unpack _). by vm_compute. Qed.

(** The pages of the two stacks are their children, in the order of the
    pages. *)
Lemma built_pages :
  Gui.children_of (built nick).2 (Widgets.stack (Widgets.app (built nick).1)) =
    page_widget (Widgets.app (built nick).1) <$> [StackMain; StackEditServer; StackEditChannel] ∧
  Gui.children_of (built nick).2 (Widgets.user_stack (Widgets.app (built nick).1)) =
    user_page_widget (Widgets.app (built nick).1) <$> [UserStackText; UserStackEdit].
Proof. split; by vm_compute. Qed.

(** C22: the widgets of the window form one tree.  No [add] of [main] is
    refused by the toolkit; every widget [main] creates is reached from
    the window through children, so [show_all] shows it; no widget is in
    two containers and the window is in none; and the walk of [show_all]
    ends and meets every widget once. *)
Theorem build_tree :
  let g := (built nick).2 in
  let window := Widgets.window (Widgets.app (built nick).1) in
  Gui.refused g = [] ∧
  (∀ w, w < length (Gui.widgets g) → rtc (Gui.child g) window w) ∧
  (∀ w p p', Gui.child g p w → Gui.child g p' w → p = p') ∧
  (∀ p, ¬ Gui.child g p window) ∧
  ∃ l, Gui.show_all g window = Some l ∧ l ≡ₚ seq 0 (length (Gui.widgets g)).
Proof.
  intros g window. subst g window. destruct built_shown as (l & Hl & Hnd & Hall & Hlen).
  destruct built_forest as [Hplaced _]. pose proof built_window_free as Hwindow.
  rewrite Forall_forall in Hall.
  split; [by vm_compute|]. split; [|split; [|split]].
  - intros w Hw. apply (show_all_reachable _ _ l w Hl), Hall, elem_of_seq. lia.
  - intros w p p'. by apply child_unique.
  - intros p Hp. apply Hwindow, placed_child. by exists p.
  - exists l. split; [exact Hl|]. symmetry. apply submseteq_length_Permutation.
    + apply NoDup_submseteq; [apply NoDup_seq|]. intros w Hw. exact (Hall w Hw).
    + rewrite length_seq Hlen. reflexivity.
Qed.

(** The closures connected to the signal of an event, run in the order
    in which they were connected with what the emission carries, do what
    [handle] does for the event; the two closures of the button under the
    channels run one after the other. *)
Lemma closures_handle event args app :
  ¬ user_edit event → carries event args →
  run_closures (closures_of (built nick) event) args app = handle event app.
Proof.
  rewrite built_wired. unfold user_edit.
  destruct event; simpl; intros Hedit Hargs; subst; rewrite ?run_bind_ret_r //.
Qed.

(** [set_text] on the message entry inside a closure: the emission of
    [notify::text] that a changed text sets off on the window [main]
    builds runs the one closure connected to it, which is what
    [input_set_text] runs. *)
Lemma built_input_set_text args text app :
  App.input app ≠ text →
  input_set_text (now args) text app =
  emit (built nick).2 (Widgets.input (built nick).1) Gui.TextNotify args
    (App.with_input text app).
Proof.
  intros Htext. rewrite /input_set_text decide_False //.
  change (emit _ _ _ args ?a) with
    (run_closures (closures_of (built nick) (InputTextNotify 0)) args a).
  by rewrite built_wired /= run_bind_ret_r.
Qed.

(** The closures that call [gtk::main_quit]. *)
Definition quits (c : Closure) : bool :=
  match c with Closure.WindowDeleteEvent => true | _ => false end.

(** The closures the loop runs for what it takes from its queue. *)
Definition signal_closures (built : Widgets * Gui.t Closure) (signal : Signal)
    : list Closure :=
  match signal with
  | Emit event => closures_of built event
  | DeleteEvent =>
    Gui.handlers built.2 (Widgets.window (Widgets.app built.1)) Gui.DeleteEvent
  end.

(** What carries what. *)
Definition emission (sa : Signal * Args) : Prop :=
  match sa.1 with Emit event => carries event sa.2 | DeleteEvent => True end.

#[export] Instance emission_dec sa : Decision (emission sa).
Proof. destruct sa as [[event|] args]; unfold emission; simpl; apply _. Defined.

(** The main loop over the store of the window: an edit of the user
    changes the entry and runs no closure; a signal runs the closures
    connected to it; and the loop returns behind a closure that has
    called [main_quit].  A loop whose queue is empty waits. *)
Fixpoint loop (built : Widgets * Gui.t Closure) (queue : list (Signal * Args)) app
    : Run App :=
  match queue with
  | [] => Blocks
  | (signal, args) :: queue =>
    let cs := signal_closures built signal in
    app ← match signal with
          | Emit event =>
            if decide (user_edit event) then handle event app else run_closures cs args app
          | DeleteEvent => run_closures cs args app
          end;
    if existsb quits cs then Returns app else loop built queue app
  end.

(** [main] with the window it builds: the start, the window over the
    nickname of the registry, the style, and the loop over the store. *)
Definition program (now : N) (boot : Boot) (style : Style) (queue : list (Signal * Args))
    : Run (Result (Styled * App) Stop) :=
  started ← main_start now boot;
  match started with
  | Err stop => Returns (Err stop)
  | Ok app =>
    let window := built (Connections.nick (App.connections app)) in
    let '(styled, app) := load_css style app in
    app ← loop window queue app;
    Returns (Ok (styled, app))
  end.

(** Only the closure of the delete event ends the loop. *)
Lemma wired_quits event : existsb quits (wired event) = false.
Proof. by destruct event. Qed.

(** The poll is a closure of the idle source, the only one: the loop
    runs it whenever its queue is empty. *)
Lemma built_idle : Gui.idle (built nick).2 = [Closure.Idle].
Proof. by vm_compute. Qed.

Lemma built_delete_event :
  signal_closures (built nick) DeleteEvent = [Closure.WindowDeleteEvent].
Proof. by vm_compute. Qed.

(** The widget of every signal is one of the window, so that the signal
    can be emitted. *)
Lemma source_created event w signal :
  source (built nick).1 event = Some (w, signal) → w < length (Gui.widgets (built nick).2).
Proof. intros Hs. vm_compute in Hs. destruct event; simplify_eq; vm_compute; lia. Qed.

Lemma source_shown event w signal :
  source (built nick).1 event = Some (w, signal) →
  rtc (Gui.child (built nick).2) (Widgets.window (Widgets.app (built nick).1)) w.
Proof.
  intros Hs%source_created. destruct built_shown as (l & Hl & _ & Hall & _).
  rewrite Forall_forall in Hall.
  apply (show_all_reachable _ _ l w Hl), Hall, elem_of_seq. lia.
Qed.

(** The window starts with the pages [start] names, and every page a
    closure shows is a child of its stack. *)
Lemma start_shows now db env_user page user_page :
  let ws := Widgets.app (built nick).1 in
  let g := (built nick).2 in
  head (Gui.children_of g (Widgets.stack ws)) =
    Some (page_widget ws (App.stack (start now db env_user))) ∧
  head (Gui.children_of g (Widgets.user_stack ws)) =
    Some (user_page_widget ws (App.user_stack (start now db env_user))) ∧
  page_widget ws page ∈ Gui.children_of g (Widgets.stack ws) ∧
  user_page_widget ws user_page ∈ Gui.children_of g (Widgets.user_stack ws).
Proof.
  intros ws g. subst ws g. destruct built_pages as [-> ->].
  split; [done|]. split; [done|]. split; apply list_elem_of_fmap_2.
  - destruct page; set_solver.
  - destruct user_page; set_solver.
Qed.

(** The label of the user shows the nickname the window is built with,
    which is the one [start] gives the registry. *)
Lemma built_user_name :
  Gui.kind <$> Gui.widgets (built nick).2 !! Widgets.user_name (built nick).1 =
  Some (Gui.Label nick).
Proof. by vm_compute. Qed.

(** The window [main] builds over the registry of [start] shows, in
    the label of the user, the name [start] gives the window. *)
Lemma start_user_name now db env_user :
  let app := start now db env_user in
  let nick := Connections.nick (App.connections app) in
  Gui.kind <$> Gui.widgets (built nick).2 !! Widgets.user_name (built nick).1 =
  Some (Gui.Label (App.user_name app)).
Proof. by vm_compute. Qed.

End window_theorems.

Section program_theorems.
Context {common : Common} {network : Network} {net : StdNet}.
Context {search : SliceSearch} {order : HashOrder}.
Implicit Types (app : App) (queue : list (Signal * Args)).

(** The loop over the store of the window is the loop over the
    handlers. *)
Lemma loop_gtk_main nick queue app :
  Forall emission queue → loop (built nick) queue app = gtk_main queue.*1 app.
Proof.
  intros Hq. revert app. induction Hq as [|[signal args] queue Hc _ IH]; intros app; [done|].
  rewrite fmap_cons. cbn [loop gtk_main fst]. destruct signal as [event|].
  - rewrite /signal_closures built_wired wired_quits.
    assert ((if decide (user_edit event) then handle event app
             else run_closures (wired event) args app) = handle event app) as ->.
    { case_decide; [done|]. rewrite -(built_wired nick). by apply closures_handle. }
    destruct (handle event app); [apply IH|done..].
  - by rewrite built_delete_event.
Qed.

(** C20: the program is what its handlers do.  [main] with the window
    it builds, the closures it connects and the loop over the signals of
    the widgets does what [main] over the handlers does: every signal
    runs the closures connected to it in the order of their connection,
    which is the handler of its event; the button under the channels runs
    its two closures one after the other; and the loop ends behind the
    closure of the delete event, the only one that calls [main_quit]. *)
Theorem program_main now boot style queue :
  Forall emission queue →
  program now boot style queue = main now boot style queue.*1.
Proof.
  intros Hq. unfold program, main. destruct (main_start now boot) as [[app|stop]| |]; [|done..].
  simpl. destruct (load_css style app) as [styled app1]. by rewrite loop_gtk_main.
Qed.

End program_theorems.

(** ** The window of a concrete start *)

Section examples.

#[local] Existing Instance ex_common.
#[local] Existing Instance ex_net.
#[local] Existing Instance ex_network.

(** A press of the first button, at the top edge, at time zero. *)
Definition ex_args : Args := {| button := 1; pos := Top; now := 0 |}.

(** The window has fifty widgets; the walk of [show_all] starts at the
    window, goes into the stack and its first page, and ends at the
    second button of the form of the channel. *)
Lemma ex_show_all :
  Gui.show_all (built "alice").2 0 =
  Some [0; 9; 12; 24; 13; 15; 23; 14; 25; 8; 26; 27; 28; 7; 29; 2; 30; 31; 32; 1; 33; 6; 5;
        3; 34; 35; 4; 36; 37; 16; 11; 17; 38; 18; 39; 19; 40; 41; 42; 43; 10; 20; 44; 45;
        21; 46; 22; 47; 48; 49].
Proof. by vm_compute. Qed.

(** The button under the channels runs two closures. *)
Lemma ex_add_channel :
  Gui.handlers (built "alice").2 (Widgets.add_channel (built "alice").1) Gui.Clicked =
  [Closure.AddChannelClickedFirst; Closure.AddChannelClickedSecond].
Proof. by vm_compute. Qed.

Lemma ex_closures_handle :
  run_closures (closures_of (built "alice") AddChannelClicked) ex_args ex_app =
  handle AddChannelClicked ex_app.
Proof. by apply (closures_handle "alice" AddChannelClicked ex_args ex_app). Qed.

(** The run of [ex_events], each signal with what it carries, and the
    window closed behind it. *)
Definition ex_queue : list (Signal * Args) :=
  ((λ event, (Emit event,
              {| button := 1; pos := Top;
                 now := match event with
                        | Idle t | InputTextNotify t | InputActivate t => t
                        | _ => 0%N
                        end |}))
     <$> ex_events) ++ [(DeleteEvent, ex_args); (Emit (InputActivate 0), ex_args)].

Lemma ex_queue_emission : Forall emission ex_queue.
Proof. apply (bool_decide_unpack _). by vm_compute. Qed.

Lemma program_main_witness :
  program 0 ex_boot ex_style ex_queue = main 0 ex_boot ex_style ex_queue.*1.
Proof. apply (program_main 0 ex_boot ex_style ex_queue ex_queue_emission). Defined.

Lemma ex_program :
  program 0 ex_boot ex_style ex_queue =
  Returns (Ok (Provider (Some (FromData LightCss)), ex_final)).
Proof. by vm_compute. Qed.

(** The label of the help for the address names the default port. *)
Lemma ex_port_label :
  Gui.kind <$> Gui.widgets (built "alice").2 !! 39 =
  Some (Gui.Label "The server IP address. The default port is 8439.").
Proof. by vm_compute. Qed.

(** A widget that is in the window already is refused by a second
    container, and the store stays a forest. *)
Lemma ex_refused :
  let g := (Gui.add (Widgets.stack_main (Widgets.app (built "alice").1))
              (Widgets.input (built "alice").1) (built "alice").2).2 in
  Gui.refused g = [(12, 37)] ∧ Gui.widgets g = Gui.widgets (built "alice").2.
Proof. by vm_compute. Qed.

End examples.
